(** * TriPlayer: the application's client of the playback sysmodule

    A shallow embedding of [Application/source/sysmodule/Sysmodule.cpp]
    (class [Sysmodule]) together with the parts of the C and C++ run-time
    library that decide what its callbacks do with a response string.

    Layout of the development:
    - [CLib]      : [isspace], [strtol], [std::stoi], [std::stoul],
                    [std::stod], [std::to_string], [strtok];
    - [Protocol]  : the constants of [Protocol.hpp] (not part of the
                    sources at hand, hence a record of parameters);
    - [Socket]    : the interface of [Utils::Socket] (idem);
    - [Environment] : the world behind the socket and the protocol
                    constants, as a class every later definition is
                    parametric in;
    - section [Client] : the class itself, its lambdas, the processing
                    loop as a labelled step function, and a scheduler that
                    interleaves the loop with consumer threads (a call
                    that pushes can be stopped between its test of the
                    error flag and the lock);
    - section [Remainder] : the accessors, the destructor, the client as
                    its constructor leaves it, and the notions the
                    properties of whole runs speak of;
    - [Logged]    : a socket layer that records the calls made on it;
    - [Scripted]  : a server that answers from a script, and the
                    scenarios run against it;
    - [CFacts], sections [Properties], [Further] and [Descriptor] : the
                    properties proved about all of the above, then the
                    scenarios, run. *)

From Stdlib Require Import ZArith Lia Bool List String Ascii.
From Stdlib Require Import PrimFloat SpecFloat FloatOps.
Import ListNotations.

Local Open Scope string_scope.
Local Open Scope Z_scope.

Set Implicit Arguments.

(* ================================================================== *)
(** ** Machine integers of the target (AArch64, LP64) *)

Module CInt.

Definition INT_MIN   : Z := - 2 ^ 31.
Definition INT_MAX   : Z := 2 ^ 31 - 1.
Definition LONG_MIN  : Z := - 2 ^ 63.
Definition LONG_MAX  : Z := 2 ^ 63 - 1.
Definition ULONG_MAX : Z := 2 ^ 64 - 1.
(** [std::numeric_limits<size_t>::max()] *)
Definition SIZE_MAX  : Z := 2 ^ 64 - 1.

(** Conversion to [int] (two's complement wrap-around). *)
Definition to_int (z : Z) : Z := (z + 2 ^ 31) mod 2 ^ 32 - 2 ^ 31.

(** Conversion to [size_t] / [unsigned long]. *)
Definition to_size_t (z : Z) : Z := z mod 2 ^ 64.

Definition in_int (z : Z) : bool := (INT_MIN <=? z) && (z <=? INT_MAX).

End CInt.

(* ================================================================== *)
(** ** The C library functions the client calls on response strings *)

Module CLib.

Import CInt.

(** What a library call can throw. *)
Inductive fault : Set :=
| invalid_argument          (* std::invalid_argument: no conversion *)
| out_of_range.             (* std::out_of_range: ERANGE or too wide *)

Definition code (c : ascii) : Z := Z.of_N (N_of_ascii c).

(** [isspace] in the "C" locale. *)
Definition isspace (c : ascii) : bool :=
  let n := code c in (n =? 32) || ((9 <=? n) && (n <=? 13)).

Definition isdigit (c : ascii) : bool :=
  let n := code c in (48 <=? n) && (n <=? 57).

Definition digit_val (c : ascii) : Z := code c - 48.

Definition digit_char (d : Z) : ascii := ascii_of_N (Z.to_N (48 + d)).

Fixpoint skip_space (s : string) : string :=
  match s with
  | String c s' => if isspace c then skip_space s' else s
  | EmptyString => s
  end.

(** Optional sign; [true] is a minus. *)
Definition scan_sign (s : string) : bool * string :=
  match s with
  | String "-" s' => (true, s')
  | String "+" s' => (false, s')
  | _ => (false, s)
  end.

(** The longest prefix of decimal digits, accumulated left to right. *)
Fixpoint scan_digits (acc : Z) (s : string) : Z * string :=
  match s with
  | String c s' =>
      if isdigit c then scan_digits (acc * 10 + digit_val c) s' else (acc, s)
  | EmptyString => (acc, s)
  end.

(** The subject sequence of [strtol]/[strtoul] in base 10: white space,
    an optional sign, at least one digit.  [None] when there is no digit
    (the functions then convert nothing). The magnitude is not bounded
    here; each caller applies its own range rule. *)
Definition scan_integer (s : string) : option (bool * Z) :=
  let (neg, s1) := scan_sign (skip_space s) in
  match s1 with
  | String c _ =>
      if isdigit c then Some (neg, fst (scan_digits 0 s1)) else None
  | EmptyString => None
  end.

(** [strtol(s, nullptr, 10)]: 0 without conversion, clamped to
    [LONG_MIN .. LONG_MAX]. *)
Definition strtol (s : string) : Z :=
  match scan_integer s with
  | None => 0
  | Some (neg, v) =>
      let r := if neg then - v else v in
      Z.max LONG_MIN (Z.min LONG_MAX r)
  end.

(** [std::stoi(s)]: [strtol], then [invalid_argument] when nothing was
    converted and [out_of_range] when the value does not fit an [int]. *)
Definition stoi (s : string) : fault + Z :=
  match scan_integer s with
  | None => inl invalid_argument
  | Some (neg, v) =>
      let r := if neg then - v else v in
      if in_int r then inr r else inl out_of_range
  end.

(** [std::stoul(s)]: [strtoul]; a minus sign negates in the unsigned
    type, only a magnitude above [ULONG_MAX] is a range error. *)
Definition stoul (s : string) : fault + Z :=
  match scan_integer s with
  | None => inl invalid_argument
  | Some (neg, v) =>
      if ULONG_MAX <? v then inl out_of_range
      else inr (if neg then to_size_t (- v) else v)
  end.

(** [std::to_string] on an integer. *)
Fixpoint to_digits (fuel : nat) (n : Z) (acc : string) : string :=
  match fuel with
  | O => acc
  | S f =>
      if n <? 10 then String (digit_char n) acc
      else to_digits f (n / 10) (String (digit_char (n mod 10)) acc)
  end.

Definition digits_fuel (n : Z) : nat := S (Z.to_nat (Z.log2 n)).

Definition to_string (z : Z) : string :=
  if z <? 0 then String "-" (to_digits (digits_fuel (- z)) (- z) "")
  else to_digits (digits_fuel z) z "".

(** *** Doubles: [std::stod] and [std::to_string(double)]

    A [double] is a binary64 number, Rocq's primitive [float].  The
    conversions go through [SpecFloat], whose rounding is to nearest,
    ties to even. *)

Definition lower (c : ascii) : ascii :=
  let n := code c in
  if (65 <=? n) && (n <=? 90) then ascii_of_N (Z.to_N (n + 32)) else c.

(** [strip_ci p s]: [s] without its prefix [p] (given in lower case),
    compared without regard to case. *)
Fixpoint strip_ci (p s : string) : option string :=
  match p, s with
  | EmptyString, _ => Some s
  | String a p', String c s' =>
      if Ascii.eqb a (lower c) then strip_ci p' s' else None
  | String _ _, EmptyString => None
  end.

(** Decimal digits with their count (for the fraction). *)
Fixpoint scan_digits_n (acc n : Z) (s : string) : Z * Z * string :=
  match s with
  | String c s' =>
      if isdigit c then scan_digits_n (acc * 10 + digit_val c) (n + 1) s'
      else (acc, n, s)
  | EmptyString => (acc, n, s)
  end.

Definition hex_val (c : ascii) : option Z :=
  let n := code (lower c) in
  if isdigit c then Some (digit_val c)
  else if (97 <=? n) && (n <=? 102) then Some (n - 87)
  else None.

Fixpoint scan_hex_n (acc n : Z) (s : string) : Z * Z * string :=
  match s with
  | String c s' =>
      match hex_val c with
      | Some d => scan_hex_n (acc * 16 + d) (n + 1) s'
      | None => (acc, n, s)
      end
  | EmptyString => (acc, n, s)
  end.

(** An exponent part [e±ddd] / [p±ddd]; 0 when the marker is not followed
    by a well-formed exponent (nothing is consumed then). *)
Definition scan_exponent (marker : ascii) (s : string) : Z :=
  match s with
  | String c s' =>
      if Ascii.eqb (lower c) marker then
        let (neg, s1) := scan_sign s' in
        match s1 with
        | String d _ =>
            if isdigit d then
              let v := fst (scan_digits 0 s1) in if neg then - v else v
            else 0
        | EmptyString => 0
        end
      else 0
  | EmptyString => 0
  end.

(** A parsed literal: mantissa times base to the exponent. *)
Inductive literal : Set :=
| LitInf
| LitNan
| LitDec (m e10 : Z)
| LitHex (m e2 : Z).

Definition scan_decimal (s : string) : option literal :=
  let '(i, ni, s1) := scan_digits_n 0 0 s in
  let '(m, nf, s2) :=
    match s1 with
    | String "." s1' => scan_digits_n i 0 s1'
    | _ => (i, 0, s1)
    end in
  if ni + nf =? 0 then None
  else Some (LitDec m (scan_exponent "e" s2 - nf)).

Definition scan_hexadecimal (s : string) : option literal :=
  let '(i, ni, s1) := scan_hex_n 0 0 s in
  let '(m, nf, s2) :=
    match s1 with
    | String "." s1' => scan_hex_n i 0 s1'
    | _ => (i, 0, s1)
    end in
  if ni + nf =? 0 then None
  else Some (LitHex m (scan_exponent "p" s2 - 4 * nf)).

(** The subject sequence of [strtod], after white space and sign. *)
Definition scan_literal (s : string) : option literal :=
  match strip_ci "inf" s, strip_ci "nan" s, strip_ci "0x" s with
  | Some _, _, _ => Some LitInf
  | _, Some _, _ => Some LitNan
  | _, _, Some h =>
      match scan_hexadecimal h with
      | Some l => Some l
      | None => scan_decimal s
      end
  | None, None, None => scan_decimal s
  end.

Definition SFround (neg : bool) (m e2 : Z) : spec_float :=
  binary_normalize prec emax (if neg then - m else m) e2 neg.

Definition SFdecimal (neg : bool) (m e10 : Z) : spec_float :=
  match m with
  | Zpos p =>
      if 0 <=? e10 then SFround neg (m * 10 ^ e10) 0
      else SFdiv prec emax (S754_finite neg p 0)
                 (S754_finite false (Z.to_pos (10 ^ (- e10))) 0)
  | _ => S754_zero neg
  end.

(** ERANGE as newlib reports it: the exact value is not zero and the
    result is infinite, zero or subnormal. *)
Definition erange (m : Z) (r : spec_float) : bool :=
  if m =? 0 then false
  else match r with
       | S754_infinity _ | S754_zero _ => true
       | S754_finite _ p _ => Zpos p <? 2 ^ 52
       | S754_nan => false
       end.

(** [std::stod(s)]: [strtod], [invalid_argument] without conversion,
    [out_of_range] on ERANGE. *)
Definition stod (s : string) : fault + float :=
  let (neg, s1) := scan_sign (skip_space s) in
  match scan_literal s1 with
  | None => inl invalid_argument
  | Some LitInf => inr (SF2Prim (S754_infinity neg))
  | Some LitNan => inr (SF2Prim S754_nan)
  | Some (LitDec m e) =>
      let r := SFdecimal neg m e in
      if erange m r then inl out_of_range else inr (SF2Prim r)
  | Some (LitHex m e) =>
      let r := SFround neg m e in
      if erange m r then inl out_of_range else inr (SF2Prim r)
  end.

(** Division rounded to nearest, ties to even. *)
Definition div_nearest_even (a b : Z) : Z :=
  let q := a / b in
  let r := a mod b in
  match 2 * r ?= b with
  | Lt => q
  | Gt => q + 1
  | Eq => if Z.even q then q else q + 1
  end.

Fixpoint pad_digits (k : nat) (n : Z) (acc : string) : string :=
  match k with
  | O => acc
  | S k' => pad_digits k' (n / 10) (String (digit_char (n mod 10)) acc)
  end.

(** [std::to_string(double)], that is [sprintf] with ["%f"]: six
    decimals.  The sign of a NaN is not printed. *)
Definition to_string_double (x : float) : string :=
  let fixed (neg : bool) (n : Z) :=
    ((if neg then "-" else "") ++ to_string (n / 10 ^ 6) ++ "."
       ++ pad_digits 6 (n mod 10 ^ 6) "")%string in
  match Prim2SF x with
  | S754_nan => "nan"
  | S754_infinity neg => ((if neg then "-" else "") ++ "inf")%string
  | S754_zero neg => fixed neg 0
  | S754_finite neg m e =>
      fixed neg
        (if 0 <=? e then Zpos m * 2 ^ e * 10 ^ 6
         else div_nearest_even (Zpos m * 10 ^ 6) (2 ^ (- e)))
  end.

(** *** C strings and [strtok] *)

(** [s.c_str()] as the C functions see it: up to the first NUL. *)
Fixpoint c_str (s : string) : string :=
  match s with
  | String c s' => if code c =? 0 then "" else String c (c_str s')
  | EmptyString => ""
  end.

(** All the tokens that repeated calls of [strtok(.., delim)] return
    on a C string, for the one-character delimiter set [delim]: the
    maximal non-empty runs of other characters.  [tok] holds the
    characters of the token being scanned. *)
Fixpoint strtok_from (delim : ascii) (s tok : string) : list string :=
  match s with
  | String c s' =>
      if Ascii.eqb c delim then
        match tok with
        | EmptyString => strtok_from delim s' ""
        | _ => tok :: strtok_from delim s' ""
        end
      else strtok_from delim s' (tok ++ String c "")
  | EmptyString =>
      match tok with
      | EmptyString => []
      | _ => [tok]
      end
  end.

Definition strtok_all (delim : ascii) (s : string) : list string :=
  strtok_from delim s "".

(** Every character of [s] satisfies [p]. *)
Fixpoint string_forall (p : ascii -> bool) (s : string) : bool :=
  match s with
  | String c s' => p c && string_forall p s'
  | EmptyString => true
  end.

(** The characters [std::to_string] prints for an integer. *)
Definition is_number_char (c : ascii) : bool := isdigit c || Ascii.eqb c "-".

End CLib.

Import CInt CLib.

(* ================================================================== *)
(** ** [Types.hpp] *)

(** [typedef int SongID;] *)
Definition SongID : Set := Z.
(** [typedef int SockFD;] *)
Definition SockFD : Set := Z.

Module PlaybackStatus.
Inductive t : Set := Error | Playing | Paused | Stopped.
End PlaybackStatus.

Module RepeatMode.
Inductive t : Set := Off | One | All.
(** [(int)m] *)
Definition to_int (m : t) : Z :=
  match m with Off => 0 | One => 1 | All => 2 end.
Definition eqb (a b : t) : bool := to_int a =? to_int b.
End RepeatMode.

Module ShuffleMode.
Inductive t : Set := Off | On.
Definition to_int (m : t) : Z := match m with Off => 0 | On => 1 end.
End ShuffleMode.

(* ================================================================== *)
(** ** [Protocol.hpp]

    The header is not among the sources at hand.  The client only uses its
    names, so their values are the fields of a record. *)

Module Protocol.

(** The enumerators of [Protocol::Command] that the client sends. *)
Inductive Command : Set :=
| Version | Reset | Resume | Pause | Previous | Next
| GetVolume | SetVolume | QueueIdx | SetQueueIdx | QueueSize
| RemoveFromQueue | GetQueue | SetQueue | AddToSubQueue
| RemoveFromSubQueue | SubQueueSize | GetSubQueue | SkipSubQueueSongs
| GetRepeat | SetRepeat | GetShuffle | SetShuffle | GetSong | GetStatus
| GetPosition | SetPosition.

Record t : Set := {
  (** [Protocol::Delimiter], a [char] *)
  Delimiter : ascii;
  (** [Protocol::Version], an [int] *)
  version : Z;
  Port : Z;
  Timeout : Z;
  (** [(int)Protocol::Command::X] *)
  command : Command -> Z;
  (** the enumerators of [Protocol::Repeat] *)
  Repeat_Off : Z;
  Repeat_One : Z;
  Repeat_All : Z;
  (** [Protocol::Shuffle::Off] *)
  Shuffle_Off : Z;
  (** the enumerators of [Protocol::Status] *)
  Status_Error : Z;
  Status_Playing : Z;
  Status_Paused : Z;
  Status_Stopped : Z
}.

End Protocol.

(* ================================================================== *)
(** ** [Socket.hpp]

    [Utils::Socket] is not among the sources either.  Its functions act on
    the world outside the process (the kernel's sockets and the sysmodule
    at the other end); each takes the world and returns the changed one. *)

Module Socket.

Record api (World : Type) : Type := {
  createSocket   : Z -> World -> SockFD * World;
  closeSocket    : SockFD -> World -> World;
  setTimeout     : SockFD -> Z -> World -> World;
  (** [false] when the write failed *)
  writeToSocket  : SockFD -> string -> World -> bool * World;
  (** the empty string on time-out, error or closed connection *)
  readFromSocket : SockFD -> World -> string * World
}.

End Socket.

(* ================================================================== *)
(** ** The lambdas queued with the requests

    One constructor per lambda expression of [Sysmodule.cpp], named after
    the member function that creates it, with the values it captures by
    copy.  [&done] is captured by reference: the constructor carries the
    address of that flag.  [this] is implicit. *)

Inductive Callback : Set :=
| K_waitReset (done : nat)
| K_waitSongIdx (done : nat)
| K_sendResume
| K_sendPause
| K_sendPrevious
| K_sendNext
| K_sendGetVolume
| K_sendSetVolume
| K_sendSetSongIdx
| K_sendGetSongIdx
| K_sendGetQueueSize
| K_sendRemoveFromQueue (pos : Z)
| K_sendGetQueue
| K_sendSetQueue (size : Z)
| K_sendAddToSubQueue (id : SongID)
| K_sendRemoveFromSubQueue (pos : Z)
| K_sendGetSubQueueSize
| K_sendGetSubQueue
| K_sendSkipSubQueueSongs (n : Z)
| K_sendGetRepeat
| K_sendSetRepeat (m : RepeatMode.t)
| K_sendGetShuffle
| K_sendSetShuffle (m : ShuffleMode.t)
| K_sendGetSong
| K_sendGetStatus
| K_sendGetPosition
| K_sendSetPosition.

(** An element of [writeQueue]: the frame and its completion callback. *)
Definition Entry : Set := (string * Callback)%type.

(* ================================================================== *)
(** ** The data members of [class Sysmodule]

    [Sysmodule.hpp] is not among the sources; the members and their types
    are those the member functions use.  The three mutexes have no field:
    [writeMutex] is held exactly at the program points of the loop that say
    so below, [queueMutex] and [subQueueMutex] only ever protect one call. *)

Record Sysmodule : Type := {
  writeQueue       : list Entry;
  error_           : bool;
  exit_            : bool;
  socket           : SockFD;
  (** a [steady_clock::time_point], in nanoseconds *)
  lastUpdateTime   : Z;
  currentSong_     : SongID;
  position_        : float;
  queue_           : list SongID;
  queueChanged_    : bool;
  queueSize_       : Z;
  repeatMode_      : RepeatMode.t;
  shuffleMode_     : ShuffleMode.t;
  songIdx_         : Z;
  subQueue_        : list SongID;
  subQueueChanged_ : bool;
  subQueueSize_    : Z;
  status_          : PlaybackStatus.t;
  volume_          : float
}.

Definition set_writeQueue v (s : Sysmodule) :=
  let '(Build_Sysmodule _ b c d e f g h i j k l m n o p q r) := s in
  Build_Sysmodule v b c d e f g h i j k l m n o p q r.
Definition set_error_ v (s : Sysmodule) :=
  let '(Build_Sysmodule a _ c d e f g h i j k l m n o p q r) := s in
  Build_Sysmodule a v c d e f g h i j k l m n o p q r.
Definition set_exit_ v (s : Sysmodule) :=
  let '(Build_Sysmodule a b _ d e f g h i j k l m n o p q r) := s in
  Build_Sysmodule a b v d e f g h i j k l m n o p q r.
Definition set_socket v (s : Sysmodule) :=
  let '(Build_Sysmodule a b c _ e f g h i j k l m n o p q r) := s in
  Build_Sysmodule a b c v e f g h i j k l m n o p q r.
Definition set_lastUpdateTime v (s : Sysmodule) :=
  let '(Build_Sysmodule a b c d _ f g h i j k l m n o p q r) := s in
  Build_Sysmodule a b c d v f g h i j k l m n o p q r.
Definition set_currentSong_ v (s : Sysmodule) :=
  let '(Build_Sysmodule a b c d e _ g h i j k l m n o p q r) := s in
  Build_Sysmodule a b c d e v g h i j k l m n o p q r.
Definition set_position_ v (s : Sysmodule) :=
  let '(Build_Sysmodule a b c d e f _ h i j k l m n o p q r) := s in
  Build_Sysmodule a b c d e f v h i j k l m n o p q r.
Definition set_queue_ v (s : Sysmodule) :=
  let '(Build_Sysmodule a b c d e f g _ i j k l m n o p q r) := s in
  Build_Sysmodule a b c d e f g v i j k l m n o p q r.
Definition set_queueChanged_ v (s : Sysmodule) :=
  let '(Build_Sysmodule a b c d e f g h _ j k l m n o p q r) := s in
  Build_Sysmodule a b c d e f g h v j k l m n o p q r.
Definition set_queueSize_ v (s : Sysmodule) :=
  let '(Build_Sysmodule a b c d e f g h i _ k l m n o p q r) := s in
  Build_Sysmodule a b c d e f g h i v k l m n o p q r.
Definition set_repeatMode_ v (s : Sysmodule) :=
  let '(Build_Sysmodule a b c d e f g h i j _ l m n o p q r) := s in
  Build_Sysmodule a b c d e f g h i j v l m n o p q r.
Definition set_shuffleMode_ v (s : Sysmodule) :=
  let '(Build_Sysmodule a b c d e f g h i j k _ m n o p q r) := s in
  Build_Sysmodule a b c d e f g h i j k v m n o p q r.
Definition set_songIdx_ v (s : Sysmodule) :=
  let '(Build_Sysmodule a b c d e f g h i j k l _ n o p q r) := s in
  Build_Sysmodule a b c d e f g h i j k l v n o p q r.
Definition set_subQueue_ v (s : Sysmodule) :=
  let '(Build_Sysmodule a b c d e f g h i j k l m _ o p q r) := s in
  Build_Sysmodule a b c d e f g h i j k l m v o p q r.
Definition set_subQueueChanged_ v (s : Sysmodule) :=
  let '(Build_Sysmodule a b c d e f g h i j k l m n _ p q r) := s in
  Build_Sysmodule a b c d e f g h i j k l m n v p q r.
Definition set_subQueueSize_ v (s : Sysmodule) :=
  let '(Build_Sysmodule a b c d e f g h i j k l m n o _ q r) := s in
  Build_Sysmodule a b c d e f g h i j k l m n o v q r.
Definition set_status_ v (s : Sysmodule) :=
  let '(Build_Sysmodule a b c d e f g h i j k l m n o p _ r) := s in
  Build_Sysmodule a b c d e f g h i j k l m n o p v r.
Definition set_volume_ v (s : Sysmodule) :=
  let '(Build_Sysmodule a b c d e f g h i j k l m n o p q _) := s in
  Build_Sysmodule a b c d e f g h i j k l m n o p q v.

(** The cached playback state, as one value. *)
Record Cached : Type := {
  c_currentSong  : SongID;
  c_position     : float;
  c_volume       : float;
  c_status       : PlaybackStatus.t;
  c_repeatMode   : RepeatMode.t;
  c_shuffleMode  : ShuffleMode.t;
  c_queueSize    : Z;
  c_subQueueSize : Z;
  c_songIdx      : Z;
  c_queue        : list SongID;
  c_subQueue     : list SongID
}.

Definition cached (s : Sysmodule) : Cached :=
  {| c_currentSong := currentSong_ s;
     c_position := position_ s;
     c_volume := volume_ s;
     c_status := status_ s;
     c_repeatMode := repeatMode_ s;
     c_shuffleMode := shuffleMode_ s;
     c_queueSize := queueSize_ s;
     c_subQueueSize := subQueueSize_ s;
     c_songIdx := songIdx_ s;
     c_queue := queue_ s;
     c_subQueue := subQueue_ s |}.

(** The members that hold cached playback state or its dirty flags. *)
Inductive Field : Set :=
| F_currentSong | F_position | F_volume | F_status | F_repeatMode
| F_shuffleMode | F_queueSize | F_subQueueSize | F_songIdx
| F_queue | F_subQueue | F_queueChanged | F_subQueueChanged.

(** What an observer of one run can see, in order. *)
Inductive Event : Type :=
| EvSocketWrite (frame : string) (ok : bool)
| EvSocketRead (response : string)
| EvEnqueue (e : Entry)               (* [writeQueue.push] *)
| EvInvoke (e : Entry) (response : string)  (* [queuedFunc(str)] *)
| EvStore (f : Field)                 (* assignment to a cached member *)
| EvError                             (* [error_ = true] *)
| EvDiscard (q : list Entry).         (* [writeQueue] replaced by an empty queue *)

(* ================================================================== *)
(** ** The client *)

(** What the client is compiled and run against: the protocol constants and
    the socket layer with the world it acts on.  [residue] is what the
    storage of a local variable holds before the program has assigned it
    (read as an [int]); nothing is assumed about it. *)
Class Environment : Type := {
  World : Type;
  sock : Socket.api World;
  P : Protocol.t;
  residue : World -> Z
}.

Section Client.

Context {env : Environment}.

(** Everything the member functions and the lambdas can touch: the
    object, the world behind the socket, and the [std::atomic<bool> done]
    locals of the blocking helpers, by address.  [trace] is a ghost
    record of what happened. *)
Record Machine : Type := {
  self  : Sysmodule;
  net   : World;
  flags : nat -> bool;
  trace : list Event
}.

Definition with_self v (m : Machine) : Machine :=
  {| self := v; net := net m; flags := flags m; trace := trace m |}.
Definition with_net v (m : Machine) : Machine :=
  {| self := self m; net := v; flags := flags m; trace := trace m |}.
Definition with_flag (d : nat) (v : bool) (m : Machine) : Machine :=
  {| self := self m; net := net m;
     flags := fun x => if Nat.eqb x d then v else flags m x;
     trace := trace m |}.
Definition with_event (e : Event) (m : Machine) : Machine :=
  {| self := self m; net := net m; flags := flags m;
     trace := trace m ++ [e] |}.

(** *** State and exceptions *)

Inductive Result (A : Type) : Type :=
| Ret (a : A) (m : Machine)
| Raise (f : fault) (m : Machine).

Arguments Raise {A} f m.

Definition M (A : Type) : Type := Machine -> Result A.

Definition ret {A} (a : A) : M A := fun m => Ret a m.

Definition bind {A B} (c : M A) (k : A -> M B) : M B :=
  fun m => match c m with
           | Ret a m' => k a m'
           | Raise f m' => Raise f m'
           end.

Local Notation "x <- c1 ;; c2" := (bind c1 (fun x => c2))
  (at level 61, c1 at next level, right associativity).
Local Notation "c1 ;; c2" := (bind c1 (fun _ => c2))
  (at level 61, right associativity).

Definition get {A} (f : Sysmodule -> A) : M A := fun m => Ret (f (self m)) m.
Definition modify (u : Sysmodule -> Sysmodule) : M unit :=
  fun m => Ret tt (with_self (u (self m)) m).
Definition emit (e : Event) : M unit := fun m => Ret tt (with_event e m).
Definition throw {A} (f : fault) : M A := fun m => Raise f m.

(** A library call that returns or throws. *)
Definition call {A} (r : fault + A) : M A :=
  match r with
  | inr a => ret a
  | inl f => throw f
  end.

(** [this->member = v] for a cached member. *)
Definition assign (f : Field) (u : Sysmodule -> Sysmodule) : M unit :=
  modify u ;; emit (EvStore f).

Definition when (b : bool) (c : M unit) : M unit := if b then c else ret tt.

(** [done = v] on the flag at address [d]. *)
Definition set_done (d : nat) (v : bool) : M unit :=
  fun m => Ret tt (with_flag d v m).

(** The value of a local that was declared without an initialiser and is
    read before any assignment. *)
Definition uninitialised : M Z := fun m => Ret (residue (net m)) m.

Fixpoint for_each {A} (l : list A) (body : A -> M unit) : M unit :=
  match l with
  | [] => ret tt
  | a :: l' => body a ;; for_each l' body
  end.

(** *** [Utils::Socket] on [this->socket] *)

Definition socket_create (port : Z) : M SockFD := fun m =>
  let (fd, w) := Socket.createSocket sock port (net m) in
  Ret fd (with_net w m).

Definition socket_close (fd : SockFD) : M unit := fun m =>
  Ret tt (with_net (Socket.closeSocket sock fd (net m)) m).

Definition socket_setTimeout (fd : SockFD) (t : Z) : M unit := fun m =>
  Ret tt (with_net (Socket.setTimeout sock fd t (net m)) m).

Definition socket_write (frame : string) : M bool := fun m =>
  let (ok, w) := Socket.writeToSocket sock (socket (self m)) frame (net m) in
  Ret ok (with_event (EvSocketWrite frame ok) (with_net w m)).

Definition socket_read : M string := fun m =>
  let (str, w) := Socket.readFromSocket sock (socket (self m)) (net m) in
  Ret str (with_event (EvSocketRead str) (with_net w m)).

(** *** Frames *)

(** [#define DELIM std::string(1, Protocol::Delimiter)] *)
Definition DELIM : string := String (Protocol.Delimiter P) "".

(** [std::to_string((int)Protocol::Command::c)] *)
Definition opcode (c : Protocol.Command) : string :=
  to_string (Protocol.command P c).

(** *** [Sysmodule::addToWriteQueue] *)

Definition addToWriteQueue (s : string) (f : Callback) : M unit :=
  err <- get error_ ;;
  if err then ret tt
  else
    (* std::scoped_lock mtx(this->writeMutex) *)
    modify (fun o => set_writeQueue (writeQueue o ++ [(s, f)]) o) ;;
    emit (EvEnqueue (s, f)).

(** The second half of [addToWriteQueue] on its own: the lock and the
    push, for a caller that has passed the test of [error_]. *)
Definition push (e : Entry) : M unit :=
  modify (fun o => set_writeQueue (writeQueue o ++ [e]) o) ;;
  emit (EvEnqueue e).

(** *** The request builders *)

Definition sendResume : M unit := addToWriteQueue (opcode Protocol.Resume) K_sendResume.
Definition sendPause : M unit := addToWriteQueue (opcode Protocol.Pause) K_sendPause.
Definition sendPrevious : M unit := addToWriteQueue (opcode Protocol.Previous) K_sendPrevious.
Definition sendNext : M unit := addToWriteQueue (opcode Protocol.Next) K_sendNext.
Definition sendGetVolume : M unit := addToWriteQueue (opcode Protocol.GetVolume) K_sendGetVolume.

Definition sendSetVolume (v : float) : M unit :=
  addToWriteQueue (opcode Protocol.SetVolume ++ DELIM ++ to_string_double v)
                  K_sendSetVolume.

Definition sendSetSongIdx (id : Z) : M unit :=
  addToWriteQueue (opcode Protocol.SetQueueIdx ++ DELIM ++ to_string id)
                  K_sendSetSongIdx.

Definition sendGetSongIdx : M unit := addToWriteQueue (opcode Protocol.QueueIdx) K_sendGetSongIdx.
Definition sendGetQueueSize : M unit := addToWriteQueue (opcode Protocol.QueueSize) K_sendGetQueueSize.

Definition sendRemoveFromQueue (pos : Z) : M unit :=
  addToWriteQueue (opcode Protocol.RemoveFromQueue ++ DELIM ++ to_string pos)
                  (K_sendRemoveFromQueue pos).

Definition sendGetQueue (s e : Z) : M unit :=
  addToWriteQueue
    (opcode Protocol.GetQueue ++ DELIM ++ to_string s ++ DELIM ++ to_string e)
    K_sendGetQueue.

Definition sendSetQueue (q : list SongID) : M unit :=
  let seq := fold_left (fun acc id => acc ++ DELIM ++ to_string id) q "" in
  let size := Z.of_nat (List.length q) in
  addToWriteQueue (opcode Protocol.SetQueue ++ seq) (K_sendSetQueue size).

Definition sendAddToSubQueue (id : SongID) : M unit :=
  addToWriteQueue (opcode Protocol.AddToSubQueue ++ DELIM ++ to_string id)
                  (K_sendAddToSubQueue id).

Definition sendRemoveFromSubQueue (pos : Z) : M unit :=
  addToWriteQueue (opcode Protocol.RemoveFromSubQueue ++ DELIM ++ to_string pos)
                  (K_sendRemoveFromSubQueue pos).

Definition sendGetSubQueueSize : M unit :=
  addToWriteQueue (opcode Protocol.SubQueueSize) K_sendGetSubQueueSize.

Definition sendGetSubQueue (s e : Z) : M unit :=
  addToWriteQueue
    (opcode Protocol.GetSubQueue ++ DELIM ++ to_string s ++ DELIM ++ to_string e)
    K_sendGetSubQueue.

Definition sendSkipSubQueueSongs (n : Z) : M unit :=
  addToWriteQueue (opcode Protocol.SkipSubQueueSongs ++ DELIM ++ to_string n)
                  (K_sendSkipSubQueueSongs n).

Definition sendGetRepeat : M unit := addToWriteQueue (opcode Protocol.GetRepeat) K_sendGetRepeat.

Definition sendSetRepeat (m : RepeatMode.t) : M unit :=
  addToWriteQueue
    (opcode Protocol.SetRepeat ++ DELIM ++ to_string (RepeatMode.to_int m))
    (K_sendSetRepeat m).

Definition sendGetShuffle : M unit := addToWriteQueue (opcode Protocol.GetShuffle) K_sendGetShuffle.

Definition sendSetShuffle (m : ShuffleMode.t) : M unit :=
  addToWriteQueue
    (opcode Protocol.SetShuffle ++ DELIM ++ to_string (ShuffleMode.to_int m))
    (K_sendSetShuffle m).

Definition sendGetSong : M unit := addToWriteQueue (opcode Protocol.GetSong) K_sendGetSong.
Definition sendGetStatus : M unit := addToWriteQueue (opcode Protocol.GetStatus) K_sendGetStatus.
Definition sendGetPosition : M unit := addToWriteQueue (opcode Protocol.GetPosition) K_sendGetPosition.

Definition sendSetPosition (pos : float) : M unit :=
  assign F_position (set_position_ pos) ;;
  addToWriteQueue (opcode Protocol.SetPosition ++ DELIM ++ to_string_double pos)
                  K_sendSetPosition.

Definition exit : M unit := modify (set_exit_ true).

(** *** The bodies of the lambdas *)

(** [switch ((Protocol::Repeat)v)]: the case taken, if any. *)
Definition switch_Repeat (v : Z) : option RepeatMode.t :=
  if v =? Protocol.Repeat_Off P then Some RepeatMode.Off
  else if v =? Protocol.Repeat_One P then Some RepeatMode.One
  else if v =? Protocol.Repeat_All P then Some RepeatMode.All
  else None.

(** [switch ((Protocol::Status)v)] *)
Definition switch_Status (v : Z) : option PlaybackStatus.t :=
  if v =? Protocol.Status_Error P then Some PlaybackStatus.Error
  else if v =? Protocol.Status_Playing P then Some PlaybackStatus.Playing
  else if v =? Protocol.Status_Paused P then Some PlaybackStatus.Paused
  else if v =? Protocol.Status_Stopped P then Some PlaybackStatus.Stopped
  else None.

(** [(Protocol::Shuffle)v == Protocol::Shuffle::Off ? Off : On] *)
Definition shuffle_of (v : Z) : ShuffleMode.t :=
  if v =? Protocol.Shuffle_Off P then ShuffleMode.Off else ShuffleMode.On.

(** The [strtok]/[strtol] loop of the two queue lambdas.  The second
    argument of [strtok] is [&Protocol::Delimiter]; it is read as the
    one-character string made of the delimiter. *)
Definition decode_ids (s : string) : list SongID :=
  map (fun tok => to_int (strtol tok))
      (strtok_all (Protocol.Delimiter P) (c_str s)).

Definition run (k : Callback) (s : string) : M unit :=
  match k with
  | K_waitReset d =>
      set_done d true
  | K_waitSongIdx d =>
      v <- call (stoi s) ;;
      assign F_songIdx (set_songIdx_ (to_size_t v)) ;;
      set_done d true
  | K_sendResume | K_sendPause | K_sendPrevious | K_sendNext | K_sendGetSong =>
      v <- call (stoi s) ;;
      assign F_currentSong (set_currentSong_ v)
  | K_sendGetVolume | K_sendSetVolume =>
      v <- call (stod s) ;;
      assign F_volume (set_volume_ v)
  | K_sendSetSongIdx =>
      v <- call (stoi s) ;;
      assign F_songIdx (set_songIdx_ (to_size_t v))
  | K_sendGetSongIdx =>
      tmp <- call (stoul s) ;;
      cur <- get songIdx_ ;;
      when (negb (cur =? tmp))
           (sendGetQueue 0 25000 ;; sendGetSubQueue 0 5000) ;;
      assign F_songIdx (set_songIdx_ tmp)
  | K_sendGetQueueSize =>
      tmp <- call (stoul s) ;;
      cur <- get queueSize_ ;;
      when (negb (cur =? tmp)) (sendGetQueue 0 25000) ;;
      assign F_queueSize (set_queueSize_ tmp)
  | K_sendRemoveFromQueue _ | K_sendSetQueue _
  | K_sendRemoveFromSubQueue _ | K_sendSkipSubQueueSongs _ =>
      _ <- call (stoul s) ;;
      ret tt
  | K_sendAddToSubQueue _ =>
      _ <- call (stoi s) ;;
      ret tt
  | K_sendGetQueue =>
      (* std::scoped_lock mtx(this->queueMutex) *)
      assign F_queue (set_queue_ []) ;;
      for_each (strtok_all (Protocol.Delimiter P) (c_str s))
               (fun tok =>
                  assign F_queue
                    (fun o => set_queue_ (queue_ o ++ [to_int (strtol tok)]) o)) ;;
      assign F_queueChanged (set_queueChanged_ true)
  | K_sendGetSubQueue =>
      (* std::scoped_lock mtx(this->subQueueMutex) *)
      assign F_subQueue (set_subQueue_ []) ;;
      for_each (strtok_all (Protocol.Delimiter P) (c_str s))
               (fun tok =>
                  assign F_subQueue
                    (fun o => set_subQueue_ (subQueue_ o ++ [to_int (strtol tok)]) o)) ;;
      assign F_subQueueChanged (set_subQueueChanged_ true)
  | K_sendGetSubQueueSize =>
      tmp <- call (stoul s) ;;
      cur <- get subQueueSize_ ;;
      when (negb (cur =? tmp)) (sendGetSubQueue 0 5000) ;;
      assign F_subQueueSize (set_subQueueSize_ tmp)
  | K_sendGetRepeat =>
      v <- call (stoi s) ;;
      let rm := match switch_Repeat v with
                | Some r => r
                | None => RepeatMode.Off
                end in
      assign F_repeatMode (set_repeatMode_ rm)
  | K_sendSetRepeat m =>
      v <- call (stoi s) ;;
      match switch_Repeat v with
      | Some rm =>
          if negb (RepeatMode.eqb rm m) then ret tt
          else assign F_repeatMode (set_repeatMode_ rm)
      | None =>
          (* no case assigned [rm]: it still holds what its storage held,
             and is stored only if that happens to equal [m] *)
          g <- uninitialised ;;
          if negb (g =? RepeatMode.to_int m) then ret tt
          else assign F_repeatMode (set_repeatMode_ m)
      end
  | K_sendGetShuffle =>
      v <- call (stoi s) ;;
      assign F_shuffleMode (set_shuffleMode_ (shuffle_of v))
  | K_sendSetShuffle _ =>
      v <- call (stoi s) ;;
      sendGetQueue 0 25000 ;;
      assign F_shuffleMode (set_shuffleMode_ (shuffle_of v))
  | K_sendGetStatus =>
      v <- call (stoi s) ;;
      let ps := match switch_Status v with
                | Some x => x
                | None => PlaybackStatus.Error
                end in
      assign F_status (set_status_ ps)
  | K_sendGetPosition | K_sendSetPosition =>
      v <- call (stod s) ;;
      assign F_position (set_position_ v)
  end.

(** *** The accessors that write *)

Definition queueChanged : M bool :=
  b <- get queueChanged_ ;;
  if b then assign F_queueChanged (set_queueChanged_ false) ;; ret true
  else ret false.

Definition subQueueChanged : M bool :=
  b <- get subQueueChanged_ ;;
  if b then assign F_subQueueChanged (set_subQueueChanged_ false) ;; ret true
  else ret false.

(** *** [Sysmodule::reconnect] *)

Definition raise_error : M unit := modify (set_error_ true) ;; emit EvError.

Definition reconnect : M unit :=
  (* std::scoped_lock mtx(this->writeMutex) *)
  fd <- get socket ;;
  when (0 <=? fd) (socket_close fd) ;;
  fd' <- socket_create (Protocol.Port P) ;;
  modify (set_socket fd') ;;
  socket_setTimeout fd' (Protocol.Timeout P) ;;
  _ <- socket_write (opcode Protocol.Version) ;;
  str <- socket_read ;;
  if 0 <? Z.of_nat (String.length str) then
    ver <- call (stoi str) ;;
    if negb (ver =? Protocol.version P) then raise_error
    else modify (set_error_ false)
  else raise_error.

(** *** [Sysmodule::Sysmodule]

    The containers are default-constructed before the body runs; the
    other members start with whatever their storage held. *)
Definition storage (junk : Sysmodule) : Sysmodule :=
  set_writeQueue [] (set_queue_ [] (set_subQueue_ [] junk)).

Definition Sysmodule_ctor (now : Z) : M unit :=
  modify (set_currentSong_ (-1)) ;;
  modify (set_error_ true) ;;
  modify (set_exit_ false) ;;
  modify (set_lastUpdateTime now) ;;
  modify (set_position_ 0%float) ;;
  modify (set_queueChanged_ false) ;;
  modify (set_queueSize_ 0) ;;
  modify (set_repeatMode_ RepeatMode.Off) ;;
  modify (set_shuffleMode_ ShuffleMode.Off) ;;
  modify (set_songIdx_ 0) ;;
  modify (set_subQueueChanged_ false) ;;
  modify (set_status_ PlaybackStatus.Stopped) ;;
  modify (set_volume_ 100%float) ;;
  modify (set_socket (-1)) ;;
  reconnect ;;
  sendGetQueue 0 25000 ;;
  sendGetSubQueue 0 5000.

(** [new Sysmodule()] on storage [junk], at time [now], in world [w]. *)
Definition new_Sysmodule (junk : Sysmodule) (now : Z) (w : World) : Result unit :=
  Sysmodule_ctor now
    {| self := storage junk; net := w; flags := fun _ => false; trace := [] |}.

(** *** [Sysmodule::process], one program point at a time

    The loop runs in a thread of its own.  Its program points are the
    places where another thread can observe it or get in its way: every
    acquisition and release of [writeMutex] starts a new one. *)

Inductive LoopPC : Type :=
| L_top                            (* [while (!this->exit_)] *)
| L_lock                           (* about to take [writeMutex] *)
| L_drain                          (* [while (!writeQueue.empty())], mutex held *)
| L_call (e : Entry) (str : string) (* mutex released, [queuedFunc(str)] is next *)
| L_relock                         (* the callback returned; [mtx.lock()] is next *)
| L_refresh                        (* mutex released after the drain *)
| L_returned                       (* [process()] returned *)
| L_terminate (f : fault).         (* an exception nobody catches: [std::terminate] *)

(** The two blocking helpers, seen from the thread that called them. *)
Inductive WaitKind : Set := WReset | WSongIdx.

(** A consumer thread that is followed through a call, by the address of
    its [done] flag (or any number, for a call that has none).  [W_lock]
    is the program point inside [addToWriteQueue] between the test of
    [error_] and the [scoped_lock]: the test found the flag clear, the
    push of [e] is still to come; [k] is the blocking helper that made the
    call, if one did. *)
Inductive Waiter : Set :=
| W_none                           (* no call uses this flag *)
| W_test (k : WaitKind)            (* at [while (!done)] *)
| W_sleep (k : WaitKind)           (* in the body of that loop *)
| W_returned (v : option Z)        (* the call returned ([v]: its value) *)
| W_lock (e : Entry) (k : option WaitKind).

Record Config : Type := {
  machine : Machine;
  pc      : LoopPC;
  waiters : nat -> Waiter
}.

Definition with_pc (l : LoopPC) (c : Config) : Config :=
  {| machine := machine c; pc := l; waiters := waiters c |}.
Definition with_waiter (d : nat) (w : Waiter) (c : Config) : Config :=
  {| machine := machine c; pc := pc c;
     waiters := fun x => if Nat.eqb x d then w else waiters c x |}.

(** Runs [act] on the machine; the loop goes to [next] when it returns,
    the process ends when it throws. *)
Definition continue {A} (act : M A) (next : A -> LoopPC) (c : Config) : Config :=
  match act (machine c) with
  | Ret a m => {| machine := m; pc := next a; waiters := waiters c |}
  | Raise f m => {| machine := m; pc := L_terminate f; waiters := waiters c |}
  end.

(** [writeQueue = std::queue<...>()] *)
Definition discard : M unit :=
  q <- get writeQueue ;;
  modify (set_writeQueue []) ;;
  emit (EvDiscard q).

(** [#define UPDATE_DELAY 0.1], in nanoseconds. *)
Definition UPDATE_DELAY : Z := 100000000.

(** The battery of polls of one refresh. *)
Definition refresh (now : Z) : M unit :=
  sendGetPosition ;;
  sendGetQueueSize ;;
  sendGetRepeat ;;
  sendGetShuffle ;;
  sendGetSong ;;
  sendGetSongIdx ;;
  sendGetSubQueueSize ;;
  sendGetStatus ;;
  sendGetVolume ;;
  modify (set_lastUpdateTime now).

(** One step of the loop thread; [now] is what [steady_clock::now()]
    returns if the step asks.  [None]: the thread has ended. *)
Definition loop_step (now : Z) (c : Config) : option Config :=
  match pc c with
  | L_top =>
      let o := self (machine c) in
      Some (with_pc (if exit_ o then L_returned
                     else if error_ o then L_top   (* sleep 50 ms, [continue] *)
                     else L_lock) c)
  | L_lock =>
      Some (with_pc L_drain c)
  | L_drain =>
      match writeQueue (self (machine c)) with
      | [] => Some (with_pc L_refresh c)              (* [mtx.unlock()] *)
      | (frame, f) :: _ =>
          Some (continue
                  (ok <- socket_write frame ;;
                   if negb ok then
                     raise_error ;; discard ;; ret L_drain
                   else
                     str <- socket_read ;;
                     if Nat.eqb (String.length str) 0 then
                       raise_error ;; discard ;; ret L_drain
                     else
                       (* [queuedFunc = front().second; mtx.unlock()] *)
                       ret (L_call (frame, f) str))
                  (fun l => l) c)
      end
  | L_call e str =>
      Some (continue (emit (EvInvoke e str) ;; run (snd e) str)
                     (fun _ => L_relock) c)
  | L_relock =>
      Some (continue
              (modify (fun o => set_writeQueue (tl (writeQueue o)) o) ;;
               err <- get error_ ;;
               when err discard)
              (fun _ => L_drain) c)
  | L_refresh =>
      let o := self (machine c) in
      Some (continue
              (if UPDATE_DELAY <? now - lastUpdateTime o then refresh now
               else ret tt (* sleep 5 ms *))
              (fun _ => L_top) c)
  | L_returned | L_terminate _ => None
  end.

(** *** The threads together *)

(** The calls a consumer thread can make without blocking. *)
Inductive Request : Type :=
| R_sendResume | R_sendPause | R_sendPrevious | R_sendNext
| R_sendGetVolume | R_sendSetVolume (v : float)
| R_sendSetSongIdx (id : Z) | R_sendGetSongIdx | R_sendGetQueueSize
| R_sendRemoveFromQueue (pos : Z) | R_sendGetQueue (s e : Z)
| R_sendSetQueue (q : list SongID) | R_sendAddToSubQueue (id : SongID)
| R_sendRemoveFromSubQueue (pos : Z) | R_sendGetSubQueueSize
| R_sendGetSubQueue (s e : Z) | R_sendSkipSubQueueSongs (n : Z)
| R_sendGetRepeat | R_sendSetRepeat (m : RepeatMode.t)
| R_sendGetShuffle | R_sendSetShuffle (m : ShuffleMode.t)
| R_sendGetSong | R_sendGetStatus | R_sendGetPosition
| R_sendSetPosition (pos : float).

Definition perform (r : Request) : M unit :=
  match r with
  | R_sendResume => sendResume
  | R_sendPause => sendPause
  | R_sendPrevious => sendPrevious
  | R_sendNext => sendNext
  | R_sendGetVolume => sendGetVolume
  | R_sendSetVolume v => sendSetVolume v
  | R_sendSetSongIdx id => sendSetSongIdx id
  | R_sendGetSongIdx => sendGetSongIdx
  | R_sendGetQueueSize => sendGetQueueSize
  | R_sendRemoveFromQueue pos => sendRemoveFromQueue pos
  | R_sendGetQueue s e => sendGetQueue s e
  | R_sendSetQueue q => sendSetQueue q
  | R_sendAddToSubQueue id => sendAddToSubQueue id
  | R_sendRemoveFromSubQueue pos => sendRemoveFromSubQueue pos
  | R_sendGetSubQueueSize => sendGetSubQueueSize
  | R_sendGetSubQueue s e => sendGetSubQueue s e
  | R_sendSkipSubQueueSongs n => sendSkipSubQueueSongs n
  | R_sendGetRepeat => sendGetRepeat
  | R_sendSetRepeat m => sendSetRepeat m
  | R_sendGetShuffle => sendGetShuffle
  | R_sendSetShuffle m => sendSetShuffle m
  | R_sendGetSong => sendGetSong
  | R_sendGetStatus => sendGetStatus
  | R_sendGetPosition => sendGetPosition
  | R_sendSetPosition pos => sendSetPosition pos
  end.

(** What a request builder does before it calls [addToWriteQueue], and
    the entry it calls it with. *)
Definition prelude (r : Request) : M unit :=
  match r with
  | R_sendSetPosition pos => assign F_position (set_position_ pos)
  | _ => ret tt
  end.

Definition request_entry (r : Request) : Entry :=
  match r with
  | R_sendResume => (opcode Protocol.Resume, K_sendResume)
  | R_sendPause => (opcode Protocol.Pause, K_sendPause)
  | R_sendPrevious => (opcode Protocol.Previous, K_sendPrevious)
  | R_sendNext => (opcode Protocol.Next, K_sendNext)
  | R_sendGetVolume => (opcode Protocol.GetVolume, K_sendGetVolume)
  | R_sendSetVolume v =>
      (opcode Protocol.SetVolume ++ DELIM ++ to_string_double v, K_sendSetVolume)
  | R_sendSetSongIdx id =>
      (opcode Protocol.SetQueueIdx ++ DELIM ++ to_string id, K_sendSetSongIdx)
  | R_sendGetSongIdx => (opcode Protocol.QueueIdx, K_sendGetSongIdx)
  | R_sendGetQueueSize => (opcode Protocol.QueueSize, K_sendGetQueueSize)
  | R_sendRemoveFromQueue pos =>
      (opcode Protocol.RemoveFromQueue ++ DELIM ++ to_string pos,
       K_sendRemoveFromQueue pos)
  | R_sendGetQueue s e =>
      (opcode Protocol.GetQueue ++ DELIM ++ to_string s ++ DELIM ++ to_string e,
       K_sendGetQueue)
  | R_sendSetQueue q =>
      (opcode Protocol.SetQueue
         ++ fold_left (fun acc id => acc ++ DELIM ++ to_string id) q "",
       K_sendSetQueue (Z.of_nat (List.length q)))
  | R_sendAddToSubQueue id =>
      (opcode Protocol.AddToSubQueue ++ DELIM ++ to_string id,
       K_sendAddToSubQueue id)
  | R_sendRemoveFromSubQueue pos =>
      (opcode Protocol.RemoveFromSubQueue ++ DELIM ++ to_string pos,
       K_sendRemoveFromSubQueue pos)
  | R_sendGetSubQueueSize => (opcode Protocol.SubQueueSize, K_sendGetSubQueueSize)
  | R_sendGetSubQueue s e =>
      (opcode Protocol.GetSubQueue ++ DELIM ++ to_string s ++ DELIM ++ to_string e,
       K_sendGetSubQueue)
  | R_sendSkipSubQueueSongs n =>
      (opcode Protocol.SkipSubQueueSongs ++ DELIM ++ to_string n,
       K_sendSkipSubQueueSongs n)
  | R_sendGetRepeat => (opcode Protocol.GetRepeat, K_sendGetRepeat)
  | R_sendSetRepeat m =>
      (opcode Protocol.SetRepeat ++ DELIM ++ to_string (RepeatMode.to_int m),
       K_sendSetRepeat m)
  | R_sendGetShuffle => (opcode Protocol.GetShuffle, K_sendGetShuffle)
  | R_sendSetShuffle m =>
      (opcode Protocol.SetShuffle ++ DELIM ++ to_string (ShuffleMode.to_int m),
       K_sendSetShuffle m)
  | R_sendGetSong => (opcode Protocol.GetSong, K_sendGetSong)
  | R_sendGetStatus => (opcode Protocol.GetStatus, K_sendGetStatus)
  | R_sendGetPosition => (opcode Protocol.GetPosition, K_sendGetPosition)
  | R_sendSetPosition pos =>
      (opcode Protocol.SetPosition ++ DELIM ++ to_string_double pos,
       K_sendSetPosition)
  end.

(** The entry a blocking helper calls [addToWriteQueue] with. *)
Definition wait_entry (k : WaitKind) (d : nat) : Entry :=
  match k with
  | WReset => (opcode Protocol.Reset, K_waitReset d)
  | WSongIdx => (opcode Protocol.QueueIdx, K_waitSongIdx d)
  end.

(** What the scheduler can pick next.

    A call that pushes on the queue comes in two grains.  [A_request],
    [A_waitReset] and [A_waitSongIdx] are the call run through
    [addToWriteQueue] in one piece, no other thread in between.
    [A_enter] and [A_enter_wait] are the same call by the thread numbered
    [d], as far as the test of [error_] in [addToWriteQueue]; if the flag
    is clear the thread is left between that test and the lock, and a
    later [A_wait_step d] makes it take the lock and push, whatever has
    become of the flag meanwhile. *)
Inductive Action : Type :=
| A_loop (now : Z)            (* the loop thread takes a step *)
| A_request (r : Request)     (* a consumer thread runs a request builder *)
| A_queueChanged              (* ... or one of the writing accessors *)
| A_subQueueChanged
| A_exit
| A_reconnect
| A_waitReset (done : nat)    (* a consumer thread enters [waitReset] *)
| A_waitSongIdx (done : nat)
| A_wait_step (done : nat)    (* ... and goes on with it *)
| A_enter (d : nat) (r : Request)
| A_enter_wait (k : WaitKind) (done : nat).

Definition alive (c : Config) : bool :=
  match pc c with
  | L_terminate _ => false
  | _ => true
  end.

(** [writeMutex] is the loop's from [L_drain] until it leaves it. *)
Definition mutex_free (c : Config) : bool :=
  match pc c with
  | L_drain => false
  | _ => true
  end.

(** A call of [addToWriteQueue] goes through when it need not lock
    or can. *)
Definition can_enqueue (c : Config) : bool :=
  error_ (self (machine c)) || mutex_free c.

(** A call made by a consumer thread: an exception ends the process,
    the loop is otherwise where it was. *)
Definition consumer {A} (act : M A) (c : Config) : Config :=
  continue act (fun _ => pc c) c.

Definition wait_step (d : nat) (c : Config) : option Config :=
  let m := machine c in
  match waiters c d with
  | W_test k =>
      if flags m d then
        Some (with_waiter d
                (W_returned match k with
                            | WReset => None
                            | WSongIdx => Some (songIdx_ (self m))
                            end) c)
      else Some (with_waiter d (W_sleep k) c)
  | W_sleep WReset =>
      (* sleep 5 ms *)
      Some (with_waiter d (W_test WReset) c)
  | W_sleep WSongIdx =>
      (* sleep 5 ms *)
      if error_ (self m) then Some (with_waiter d (W_returned (Some SIZE_MAX)) c)
      else Some (with_waiter d (W_test WSongIdx) c)
  | W_lock e k =>
      (* std::scoped_lock mtx(this->writeMutex); writeQueue.push(...) *)
      if mutex_free c then
        Some (with_waiter d
                match k with
                | Some k' => W_test k'
                | None => W_none           (* the builder returns *)
                end
                (consumer (push e) c))
      else None
  | W_none | W_returned _ => None
  end.

(** [std::atomic<bool> done = false;] then the request. *)
Definition wait_call (k : WaitKind) (d : nat) (c : Config) : option Config :=
  match waiters c d with
  | W_none =>
      if can_enqueue c then
        Some (with_waiter d (W_test k)
                (consumer
                   (set_done d false ;;
                    match k with
                    | WReset =>
                        addToWriteQueue (opcode Protocol.Reset) (K_waitReset d)
                    | WSongIdx =>
                        addToWriteQueue (opcode Protocol.QueueIdx) (K_waitSongIdx d)
                    end) c))
      else None
  | _ => None
  end.

(** A call of [addToWriteQueue e] by thread [d], as far as its lock:
    [before] is what the caller does first.  If [error_] is set the call
    is over ([dropped] is where the thread is then); if not, the thread
    stands before the lock. *)
Definition enter_call (d : nat) (before : M unit) (e : Entry)
    (k : option WaitKind) (dropped : Waiter) (c : Config) : option Config :=
  match waiters c d with
  | W_none =>
      let c1 := consumer before c in
      Some (with_waiter d
              (if error_ (self (machine c1)) then dropped else W_lock e k) c1)
  | _ => None
  end.

(** One scheduled action; [None] when the thread cannot move (it waits
    for the mutex, it has ended, or the process has).

    [reconnect] and the accessors are one action each: the first holds
    [writeMutex] from its first statement to its last, the others are a
    single test and store.  A lambda and the battery of polls of a
    refresh are one action of the loop thread each: the loop is the only
    thread that discards, so nothing can be thrown away between a test
    of [error_] it makes there and the push that follows. *)
Definition step (a : Action) (c : Config) : option Config :=
  if negb (alive c) then None
  else
    match a with
    | A_loop now => loop_step now c
    | A_request r => if can_enqueue c then Some (consumer (perform r) c) else None
    | A_queueChanged => Some (consumer queueChanged c)
    | A_subQueueChanged => Some (consumer subQueueChanged c)
    | A_exit => Some (consumer exit c)
    | A_reconnect => if mutex_free c then Some (consumer reconnect c) else None
    | A_waitReset d => wait_call WReset d c
    | A_waitSongIdx d => wait_call WSongIdx d c
    | A_wait_step d => wait_step d c
    | A_enter d r => enter_call d (prelude r) (request_entry r) None W_none c
    | A_enter_wait k d =>
        enter_call d (set_done d false) (wait_entry k d) (Some k) (W_test k) c
    end.

Fixpoint exec (sched : list Action) (c : Config) : option Config :=
  match sched with
  | [] => Some c
  | a :: sched' =>
      match step a c with
      | Some c' => exec sched' c'
      | None => None
      end
  end.

(** The loop thread on its own, [n] steps. *)
Definition run_loop (n : nat) (now : Z) : Config -> option Config :=
  exec (repeat (A_loop now) n).

Local Open Scope list_scope.

(** *** Reading a trace *)

(** The entries pushed, oldest first. *)
Definition enqueued (t : list Event) : list Entry :=
  flat_map (fun ev => match ev with EvEnqueue e => [e] | _ => [] end) t.

(** The entries whose callback was called, oldest first. *)
Definition invoked (t : list Event) : list Entry :=
  flat_map (fun ev => match ev with EvInvoke e _ => [e] | _ => [] end) t.

Definition is_io (ev : Event) : bool :=
  match ev with
  | EvSocketWrite _ _ | EvSocketRead _ => true
  | _ => false
  end.

(** The traffic on the socket. *)
Definition socket_io (t : list Event) : list Event := filter is_io t.

Definition is_failure (ev : Event) : bool :=
  match ev with
  | EvError | EvDiscard _ => true
  | _ => false
  end.

(** The places where the error flag was raised or the queue thrown away. *)
Definition failures (t : list Event) : list Event := filter is_failure t.

(** Events that a lambda or a request builder can cause. *)
Definition is_local (ev : Event) : bool :=
  match ev with
  | EvEnqueue _ | EvStore _ => true
  | _ => false
  end.

(** *** Derived notions used in the statements *)

(** The drain serves the [n] requests at the head of the queue, one after
    the other: each takes the loop from [L_drain] through the call of its
    callback back to [L_drain]. *)
Fixpoint serve (now : Z) (n : nat) (c : Config) : option Config :=
  match n with
  | O => Some c
  | S n' =>
      match run_loop 3 now c with
      | Some c1 =>
          match pc c1 with
          | L_drain => serve now n' c1
          | _ => None
          end
      | None => None
      end
  end.

(** The round trip for [frame] fails in the present world: the write
    fails, or the read that follows returns nothing. *)
Definition exchange_fails (frame : string) (m : Machine) : bool :=
  let fd := socket (self m) in
  let (ok, w) := Socket.writeToSocket sock fd frame (net m) in
  if ok then Nat.eqb (String.length (fst (Socket.readFromSocket sock fd w))) 0
  else true.

(** What the server answers to the version query of [reconnect]. *)
Definition handshake_reply (m : Machine) : string :=
  let fd := socket (self m) in
  let w0 := if 0 <=? fd then Socket.closeSocket sock fd (net m) else net m in
  let (fd', w1) := Socket.createSocket sock (Protocol.Port P) w0 in
  let w2 := Socket.setTimeout sock fd' (Protocol.Timeout P) w1 in
  let (_, w3) := Socket.writeToSocket sock fd' (opcode Protocol.Version) w2 in
  fst (Socket.readFromSocket sock fd' w3).

(** The conversion a lambda starts with, and how it fails on [s]. *)
Definition parse_fault (k : Callback) (s : string) : option fault :=
  let failed {A} (r : fault + A) :=
    match r with inl f => Some f | inr _ => None end in
  match k with
  | K_waitReset _ | K_sendGetQueue | K_sendGetSubQueue => None
  | K_waitSongIdx _ | K_sendResume | K_sendPause | K_sendPrevious
  | K_sendNext | K_sendSetSongIdx | K_sendAddToSubQueue _ | K_sendGetRepeat
  | K_sendSetRepeat _ | K_sendGetShuffle | K_sendSetShuffle _
  | K_sendGetSong | K_sendGetStatus => failed (stoi s)
  | K_sendGetSongIdx | K_sendGetQueueSize | K_sendRemoveFromQueue _
  | K_sendSetQueue _ | K_sendRemoveFromSubQueue _ | K_sendGetSubQueueSize
  | K_sendSkipSubQueueSongs _ => failed (stoul s)
  | K_sendGetVolume | K_sendSetVolume | K_sendGetPosition
  | K_sendSetPosition => failed (stod s)
  end.

(** A response listing [ids]: their decimal forms, the delimiter between. *)
Definition id_list (ids : list SongID) : string :=
  String.concat DELIM (map to_string ids).

(** The frames of the two re-fetches. *)
Definition refetch_queue : Entry :=
  (opcode Protocol.GetQueue ++ DELIM ++ to_string 0 ++ DELIM ++ to_string 25000,
   K_sendGetQueue)%string.
Definition refetch_subQueue : Entry :=
  (opcode Protocol.GetSubQueue ++ DELIM ++ to_string 0 ++ DELIM ++ to_string 5000,
   K_sendGetSubQueue)%string.

(** A consumer-side or callback-side action leaves the socket alone and
    can only push and store. *)
Definition extends (m m' : Machine) : Prop :=
  net m' = net m /\
  error_ (self m') = error_ (self m) /\
  socket (self m') = socket (self m) /\
  exists t,
    trace m' = trace m ++ t /\
    forallb is_local t = true /\
    writeQueue (self m') = writeQueue (self m) ++ enqueued t /\
    (error_ (self m) = true -> enqueued t = []).

(** An update of cached members only. *)
Definition keeps (u : Sysmodule -> Sysmodule) : Prop :=
  forall o, writeQueue (u o) = writeQueue o /\
            error_ (u o) = error_ o /\
            socket (u o) = socket o.

Definition tame {A} (c : M A) : Prop :=
  forall m, match c m with
            | Ret _ m' => extends m m'
            | Raise _ m' => extends m m'
            end.

(** An action that leaves the cached playback state and the completion
    flags as they are. *)
Definition untouched (m m' : Machine) : Prop :=
  cached (self m') = cached (self m) /\ flags m' = flags m.

Definition discreet {A} (c : M A) : Prop :=
  forall m, match c m with
            | Ret _ m' => untouched m m'
            | Raise _ m' => untouched m m'
            end.

(** The gate is shut: the error flag is set and the loop is not about to
    drain requests: none that were queued before, and, if it still has to
    take the lock, none that a call past its test of the flag is about to
    push. *)
Definition gated (c : Config) : Prop :=
  error_ (self (machine c)) = true /\
  (pc c = L_lock \/ pc c = L_drain -> writeQueue (self (machine c)) = []) /\
  (pc c = L_lock -> forall d e k, waiters c d <> W_lock e k).

(** The loop thread is asleep at the top of [process()], or gone. *)
Definition parked (c : Config) : Prop :=
  match pc c with
  | L_top | L_returned | L_terminate _ => True
  | _ => False
  end.

(** A call of [waitReset] on flag [d] is still in its polling loop. *)
Definition polling (d : nat) (c : Config) : Prop :=
  waiters c d = W_test WReset \/ waiters c d = W_sleep WReset.

(** *** The moves of the system, by their effect

    Every scheduled action is one of these eight kinds of move.  [t] is
    always what the move adds to the trace. *)

(** The loop is not in the middle of serving a request. *)
Definition plain (l : LoopPC) : Prop :=
  match l with
  | L_call _ _ | L_relock | L_terminate _ => False
  | _ => True
  end.

(** Events that neither push nor call. *)
Definition silent (t : list Event) : Prop := enqueued t = [] /\ invoked t = [].

Inductive moves (c c' : Config) : Prop :=
| mv_quiet :
    (* a thread moves on without touching the object *)
    machine c' = machine c ->
    pc c' = pc c \/ (plain (pc c) /\ plain (pc c')) ->
    moves c c'
| mv_local :
    (* a request builder, an accessor, the refresh battery *)
    extends (machine c) (machine c') ->
    pc c' = pc c \/ (pc c = L_refresh /\ pc c' = L_top)
      \/ (exists f, pc c' = L_terminate f) ->
    moves c c'
| mv_sent e q str t :
    (* the loop got the response to the request at the head *)
    pc c = L_drain ->
    writeQueue (self (machine c)) = e :: q ->
    pc c' = L_call e str ->
    self (machine c') = self (machine c) ->
    trace (machine c') = trace (machine c) ++ t ->
    silent t -> failures t = [] ->
    moves c c'
| mv_failed t :
    (* the round trip failed *)
    pc c = L_drain -> pc c' = L_drain ->
    writeQueue (self (machine c')) = [] ->
    error_ (self (machine c')) = true ->
    trace (machine c') = trace (machine c) ++ t ->
    silent t -> failures t <> [] ->
    moves c c'
| mv_called e str :
    (* the loop ran the callback *)
    pc c = L_call e str ->
    extends (with_event (EvInvoke e str) (machine c)) (machine c') ->
    pc c' = L_relock \/ (exists f, pc c' = L_terminate f) ->
    moves c c'
| mv_popped t :
    (* the loop popped the request it served *)
    pc c = L_relock -> pc c' = L_drain ->
    error_ (self (machine c')) = error_ (self (machine c)) ->
    trace (machine c') = trace (machine c) ++ t ->
    silent t ->
    (error_ (self (machine c)) = false ->
     writeQueue (self (machine c')) = tl (writeQueue (self (machine c))) /\ t = []) ->
    (error_ (self (machine c)) = true -> writeQueue (self (machine c')) = []) ->
    moves c c'
| mv_reconnected t :
    (* a consumer called [reconnect] *)
    pc c' = pc c \/ (exists f, pc c' = L_terminate f) ->
    writeQueue (self (machine c')) = writeQueue (self (machine c)) ->
    trace (machine c') = trace (machine c) ++ t ->
    silent t ->
    (failures t = [] -> pc c' = pc c -> error_ (self (machine c')) = false) ->
    moves c c'
| mv_pushed e :
    (* a call that had passed its test of the error flag got the lock
       and pushed *)
    pc c' = pc c -> pc c <> L_drain ->
    error_ (self (machine c')) = error_ (self (machine c)) ->
    writeQueue (self (machine c')) = writeQueue (self (machine c)) ++ [e] ->
    trace (machine c') = trace (machine c) ++ [EvEnqueue e] ->
    moves c c'.

(** The queue discipline, as long as nothing failed: what was pushed is
    what was called, in that order, followed by what still waits. *)
Definition fifo (c : Config) : Prop :=
  let t := trace (machine c) in
  let q := writeQueue (self (machine c)) in
  match pc c with
  | L_terminate _ => exists rest, enqueued t = invoked t ++ rest
  | L_call e _ =>
      error_ (self (machine c)) = false /\
      exists q', q = e :: q' /\ enqueued t = invoked t ++ q
  | L_relock =>
      error_ (self (machine c)) = false /\
      exists e q', q = e :: q' /\ enqueued t = invoked t ++ q'
  | _ =>
      error_ (self (machine c)) = false /\ enqueued t = invoked t ++ q
  end.

(** Since the trace was [t0]: whatever waits in the queue, is being
    served, or was called, was pushed after [t0]. *)
Definition fresh_since (t0 : list Event) (c : Config) : Prop :=
  exists t,
    trace (machine c) = t0 ++ t /\
    incl (writeQueue (self (machine c))) (enqueued t) /\
    incl (invoked t) (enqueued t) /\
    forall e str, pc c = L_call e str -> In e (enqueued t).

End Client.

Arguments Raise {env A} f m.

(* ================================================================== *)
(** ** The rest of the class, and what the further properties speak of *)

(** [l1] is [l2] with some of its elements left out. *)
Inductive subseq {A : Type} : list A -> list A -> Prop :=
| subseq_nil : subseq [] []
| subseq_skip x l1 l2 : subseq l1 l2 -> subseq l1 (x :: l2)
| subseq_take x l1 l2 : subseq l1 l2 -> subseq (x :: l1) (x :: l2).

(** The string begins with a decimal digit. *)
Definition starts_with_digit (s : string) : bool :=
  match s with
  | String c _ => isdigit c
  | EmptyString => false
  end.

Section Remainder.

Context {env : Environment}.

Local Notation "x <- c1 ;; c2" := (bind c1 (fun x => c2))
  (at level 61, c1 at next level, right associativity).
Local Notation "c1 ;; c2" := (bind c1 (fun _ => c2))
  (at level 61, right associativity).

(** *** The accessors that only read *)

Definition error : M bool := get error_.
Definition currentSong : M SongID := get currentSong_.
Definition position : M float := get position_.
(** [std::scoped_lock mtx(this->queueMutex)], then a copy *)
Definition queue : M (list SongID) := get queue_.
Definition queueSize : M Z := get queueSize_.
Definition repeatMode : M RepeatMode.t := get repeatMode_.
Definition shuffleMode : M ShuffleMode.t := get shuffleMode_.
Definition songIdx : M Z := get songIdx_.
(** [std::scoped_lock mtx(this->subQueueMutex)], then a copy *)
Definition subQueue : M (list SongID) := get subQueue_.
Definition subQueueSize : M Z := get subQueueSize_.
Definition status : M PlaybackStatus.t := get status_.
Definition volume : M float := get volume_.

(** *** [Sysmodule::~Sysmodule] *)

Definition Sysmodule_dtor : M unit :=
  fd <- get socket ;;
  when (0 <=? fd) (socket_close fd).

(** *** The process after [new Sysmodule()]

    The object is constructed on storage [junk], at time [now], in world
    [w]; the thread that will run [process()] is about to start.  An
    exception that leaves the constructor ends the process, like any
    other that nobody catches. *)
Definition launched (junk : Sysmodule) (now : Z) (w : World) : Config :=
  match new_Sysmodule junk now w with
  | Ret _ m => {| machine := m; pc := L_top; waiters := fun _ => W_none |}
  | Raise f m => {| machine := m; pc := L_terminate f; waiters := fun _ => W_none |}
  end.

(** What the server answers to the version query of the constructor,
    which starts without a socket, in world [w]. *)
Definition greeting (w : World) : string :=
  let (fd, w1) := Socket.createSocket sock (Protocol.Port P) w in
  let w2 := Socket.setTimeout sock fd (Protocol.Timeout P) w1 in
  let (_, w3) := Socket.writeToSocket sock fd (opcode Protocol.Version) w2 in
  fst (Socket.readFromSocket sock fd w3).

(** What the server answers to [frame] in the present world (nothing
    if the write fails). *)
Definition exchange_reply (frame : string) (m : Machine) : string :=
  let fd := socket (self m) in
  let (ok, w) := Socket.writeToSocket sock fd frame (net m) in
  if ok then fst (Socket.readFromSocket sock fd w) else "".

(** The world after the round trip for [frame]. *)
Definition net_after_exchange (frame : string) (m : Machine) : World :=
  let fd := socket (self m) in
  let (ok, w) := Socket.writeToSocket sock fd frame (net m) in
  if ok then snd (Socket.readFromSocket sock fd w) else w.

(** The descriptor and the world after the socket calls of [reconnect]. *)
Definition socket_after_handshake (m : Machine) : SockFD :=
  let fd := socket (self m) in
  let w0 := if 0 <=? fd then Socket.closeSocket sock fd (net m) else net m in
  fst (Socket.createSocket sock (Protocol.Port P) w0).

Definition net_after_handshake (m : Machine) : World :=
  let fd := socket (self m) in
  let w0 := if 0 <=? fd then Socket.closeSocket sock fd (net m) else net m in
  let (fd', w1) := Socket.createSocket sock (Protocol.Port P) w0 in
  let w2 := Socket.setTimeout sock fd' (Protocol.Timeout P) w1 in
  let (_, w3) := Socket.writeToSocket sock fd' (opcode Protocol.Version) w2 in
  snd (Socket.readFromSocket sock fd' w3).

(** *** Further notions used in the statements *)

Local Open Scope list_scope.

(** The action leaves the member [f] as it was, whether it returns or
    throws. *)
Definition preserves {A B} (f : Sysmodule -> A) (c : M B) : Prop :=
  forall m, match c m with
            | Ret _ m' => f (self m') = f (self m)
            | Raise _ m' => f (self m') = f (self m)
            end.

(** How many requests the lambda of an entry pushes at most when it is
    called. *)
Definition spawns (k : Callback) : nat :=
  match k with
  | K_sendGetSongIdx => 2%nat
  | K_sendGetQueueSize | K_sendGetSubQueueSize | K_sendSetShuffle _ => 1%nat
  | _ => 0%nat
  end.

(** A bound on the round trips a queue can still cause: one for each
    entry and one for each request its lambda can push (the lambdas of
    those push nothing). *)
Definition weight (q : list Entry) : nat :=
  fold_right (fun e n => S (spawns (snd e) + n)%nat) O q.

(** The lambdas that only compare the acknowledgement with what was
    asked for; the branch taken on a difference is empty. *)
Definition is_ack (k : Callback) : bool :=
  match k with
  | K_sendRemoveFromQueue _ | K_sendSetQueue _ | K_sendAddToSubQueue _
  | K_sendRemoveFromSubQueue _ | K_sendSkipSubQueueSongs _ => true
  | _ => false
  end.

(** The frames handed to [writeToSocket], oldest first. *)
Definition written (t : list Event) : list string :=
  flat_map (fun ev => match ev with EvSocketWrite f _ => [f] | _ => [] end) t.

(** The nine polls of one refresh, in the order [process()] issues them. *)
Definition polls : list Entry :=
  [ (opcode Protocol.GetPosition, K_sendGetPosition);
    (opcode Protocol.QueueSize, K_sendGetQueueSize);
    (opcode Protocol.GetRepeat, K_sendGetRepeat);
    (opcode Protocol.GetShuffle, K_sendGetShuffle);
    (opcode Protocol.GetSong, K_sendGetSong);
    (opcode Protocol.QueueIdx, K_sendGetSongIdx);
    (opcode Protocol.SubQueueSize, K_sendGetSubQueueSize);
    (opcode Protocol.GetStatus, K_sendGetStatus);
    (opcode Protocol.GetVolume, K_sendGetVolume) ].

(** The queue discipline when requests may fail: what was pushed is
    what has left the queue ([gone]: served or thrown away) followed by
    what still waits, and the callbacks called so far are entries that
    have left it, in the order they were pushed, each at most once. *)
Definition orderly (c : Config) : Prop :=
  let t := trace (machine c) in
  let q := writeQueue (self (machine c)) in
  match pc c with
  | L_terminate _ => subseq (invoked t) (enqueued t)
  | L_call e _ =>
      exists gone q', q = e :: q' /\ enqueued t = gone ++ q /\
                      subseq (invoked t) gone
  | L_relock =>
      exists gone e q', q = e :: q' /\ enqueued t = gone ++ q /\
                        subseq (invoked t) (gone ++ [e])
  | _ => exists gone, enqueued t = gone ++ q /\ subseq (invoked t) gone
  end.

End Remainder.

(* ================================================================== *)
(** ** The socket layer with a record of its calls

    Any socket layer, wrapped so that the world also holds the list of
    the calls made so far, each with the descriptor it was made on.  The
    client cannot tell the difference. *)

Module Logged.

Inductive call : Set :=
| Created (fd : SockFD)          (* [createSocket] returned [fd] *)
| Closed (fd : SockFD)
| Configured (fd : SockFD)       (* [setTimeout] *)
| Wrote (fd : SockFD)
| Read (fd : SockFD).

Section Wrap.

Context (env : Environment).

Local Open Scope list_scope.

Definition api : Socket.api (World * list call) := {|
  Socket.createSocket := fun port wl =>
    let r := Socket.createSocket sock port (fst wl) in
    (fst r, (snd r, snd wl ++ [Created (fst r)]));
  Socket.closeSocket := fun fd wl =>
    (Socket.closeSocket sock fd (fst wl), snd wl ++ [Closed fd]);
  Socket.setTimeout := fun fd t wl =>
    (Socket.setTimeout sock fd t (fst wl), snd wl ++ [Configured fd]);
  Socket.writeToSocket := fun fd frame wl =>
    let r := Socket.writeToSocket sock fd frame (fst wl) in
    (fst r, (snd r, snd wl ++ [Wrote fd]));
  Socket.readFromSocket := fun fd wl =>
    let r := Socket.readFromSocket sock fd (fst wl) in
    (fst r, (snd r, snd wl ++ [Read fd]))
|}.

Definition environment : Environment :=
  {| World := (World * list call)%type; sock := api; P := P;
     residue := fun wl => residue (fst wl) |}.

End Wrap.

(** The descriptor in hand after the calls of [log], starting with
    [cur] in hand ([None]: none).  The result is [None] as soon as a call
    breaks the discipline: a descriptor is created while a valid one is
    in hand (it would leak); one is closed that is not in hand, or is not
    valid; one is used that is not in hand. *)
Fixpoint track (log : list call) (cur : option SockFD) : option (option SockFD) :=
  match log with
  | nil => Some cur
  | Created fd :: l =>
      match cur with
      | None => track l (Some fd)
      | Some old => if old <? 0 then track l (Some fd) else None
      end
  | Closed fd :: l =>
      match cur with
      | Some old => if (old =? fd) && (0 <=? fd) then track l None else None
      | None => None
      end
  | Configured fd :: l | Wrote fd :: l | Read fd :: l =>
      match cur with
      | Some old => if old =? fd then track l cur else None
      | None => None
      end
  end.

(** A valid descriptor is in hand. *)
Definition holding (cur : option SockFD) : bool :=
  match cur with
  | Some fd => 0 <=? fd
  | None => false
  end.

(** The record of calls says that the descriptor in hand is the
    client's [socket]. *)
Definition in_hand (env : Environment) (m : @Machine (environment env)) : Prop :=
  track (snd (net m)) None = Some (Some (socket (self m))).

End Logged.

(* ================================================================== *)
(** ** A scripted sysmodule, for running the client *)

Module Scripted.

(** What the other end does with one request. *)
Inductive reply : Set :=
| WriteFails                 (* the write fails *)
| Answers (s : string).      (* the write succeeds, the read returns [s] *)

Record world : Set := {
  script : list reply;       (* what is still to come *)
  inbox  : string;           (* what the next read returns *)
  sent   : list string       (* the frames that arrived, oldest first *)
}.

Definition api : Socket.api world := {|
  Socket.createSocket := fun _ w => (3, w);
  Socket.closeSocket := fun _ w => w;
  Socket.setTimeout := fun _ _ w => w;
  Socket.writeToSocket := fun _ frame w =>
    match script w with
    | [] => (false, w)
    | WriteFails :: r => (false, {| script := r; inbox := ""; sent := sent w |})
    | Answers s :: r => (true, {| script := r; inbox := s; sent := sent w ++ [frame] |})
    end;
  Socket.readFromSocket := fun _ w =>
    (inbox w, {| script := script w; inbox := ""; sent := sent w |})
|}.

Definition command_number (c : Protocol.Command) : Z :=
  match c with
  | Protocol.Version => 0 | Protocol.Reset => 1 | Protocol.Resume => 2
  | Protocol.Pause => 3 | Protocol.Previous => 4 | Protocol.Next => 5
  | Protocol.GetVolume => 6 | Protocol.SetVolume => 7
  | Protocol.QueueIdx => 8 | Protocol.SetQueueIdx => 9
  | Protocol.QueueSize => 10 | Protocol.RemoveFromQueue => 11
  | Protocol.GetQueue => 12 | Protocol.SetQueue => 13
  | Protocol.AddToSubQueue => 14 | Protocol.RemoveFromSubQueue => 15
  | Protocol.SubQueueSize => 16 | Protocol.GetSubQueue => 17
  | Protocol.SkipSubQueueSongs => 18 | Protocol.GetRepeat => 19
  | Protocol.SetRepeat => 20 | Protocol.GetShuffle => 21
  | Protocol.SetShuffle => 22 | Protocol.GetSong => 23
  | Protocol.GetStatus => 24 | Protocol.GetPosition => 25
  | Protocol.SetPosition => 26
  end.

(** Modelled from the spec: [Protocol.hpp] is missing.  The version is the
    [1] of the scenario in the spec's section 8; the delimiter is one
    reserved byte (here the semicolon, to keep the frames readable); the
    enumerators count from 0 in the order they are listed. *)
Definition protocol : Protocol.t := {|
  Protocol.Delimiter := ";"%char;
  Protocol.version := 1;
  Protocol.Port := 3333;
  Protocol.Timeout := 3;
  Protocol.command := command_number;
  Protocol.Repeat_Off := 0;
  Protocol.Repeat_One := 1;
  Protocol.Repeat_All := 2;
  Protocol.Shuffle_Off := 0;
  Protocol.Status_Error := 0;
  Protocol.Status_Playing := 1;
  Protocol.Status_Paused := 2;
  Protocol.Status_Stopped := 3
|}.

(** A local that was never assigned reads as 0 here. *)
Definition environment : Environment :=
  {| World := world; sock := api; P := protocol; residue := fun _ => 0 |}.

Definition serving (l : list reply) : world :=
  {| script := l; inbox := ""; sent := [] |}.

(** Storage whose scalar members all hold the pattern [junk]. *)
Definition raw (junk : Z) : Sysmodule := {|
  writeQueue := []; error_ := true; exit_ := true; socket := junk;
  lastUpdateTime := junk; currentSong_ := junk; position_ := 0%float;
  queue_ := []; queueChanged_ := true; queueSize_ := junk;
  repeatMode_ := RepeatMode.All; shuffleMode_ := ShuffleMode.On;
  songIdx_ := junk; subQueue_ := []; subQueueChanged_ := true;
  subQueueSize_ := junk; status_ := PlaybackStatus.Error;
  volume_ := 0%float
|}.

(** The client constructed on zeroed storage against a server that plays
    [l], its loop thread not yet started.  ([Raise] cannot happen with the
    scripts used below; the machine is kept all the same.) *)
Definition start (junk : Z) (l : list reply) : @Config environment :=
  let m := match @new_Sysmodule environment (raw junk) 0 (serving l) with
           | Ret _ m => m
           | Raise _ m => m
           end in
  {| machine := m; pc := L_top; waiters := fun _ => W_none |}.

(** Where a schedule leads ([c] itself if some action cannot move). *)
Definition after (sched : list Action) (c : @Config environment) : @Config environment :=
  match @exec environment sched c with
  | Some c' => c'
  | None => c
  end.

(** The frames of the two requests the constructor queues, and of a
    volume poll. *)
Definition get_queue : Entry := ("12;0;25000", K_sendGetQueue).
Definition get_subQueue : Entry := ("17;0;5000", K_sendGetSubQueue).
Definition get_volume : Entry := ("6", K_sendGetVolume).
Definition next_song : Entry := ("5", K_sendNext).
Definition get_queueSize : Entry := ("10", K_sendGetQueueSize).

(** Scenario "tail": the handshake succeeds, a consumer polls the volume,
    the loop takes the lock; the server will answer the first request and
    then fail. *)
Definition tail_start : @Config environment :=
  after [A_request R_sendGetVolume; A_loop 0; A_loop 0]
        (start 0 [Answers "1"; Answers "5;9;12"; WriteFails]).

Definition tail_served : @Config environment :=
  match @serve environment 0 1 tail_start with
  | Some c => c
  | None => tail_start
  end.

(** Scenario "two producers": the handshake succeeds; two consumer threads
    enqueue while the loop is serving, the first in one piece, the second
    (thread 1) held up between its test of the error flag and the lock
    while the loop runs a lambda.  Then the loop runs alone. *)
Definition busy_start : @Config environment :=
  start 0 [Answers "1"; Answers "5;9;12"; Answers "7"; Answers "42.5";
           Answers "3"].

Definition busy_calls : list Action :=
  [A_request R_sendGetVolume; A_loop 0; A_loop 0; A_loop 0;
   A_enter 1 R_sendNext; A_loop 0; A_wait_step 1].

Definition busy_pushed : @Config environment := after busy_calls busy_start.

Definition busy_end : @Config environment :=
  after (repeat (A_loop 0) 11) busy_pushed.

(** Scenario "garbled volume": two consumers have enqueued; every write
    succeeds and every read returns something, but the volume poll is
    answered with [abc].  The loop has run for ten steps. *)
Definition garbled_volume : @Config environment :=
  after (A_request R_sendGetVolume :: A_request R_sendNext
           :: repeat (A_loop 0) 10)
        (start 0 [Answers "1"; Answers "5;9;12"; Answers "7"; Answers "abc";
                  Answers "3"]).

(** Scenario "wrong version": the server reports version 2, twice. *)
Definition mismatch_start : @Config environment :=
  start 0 [Answers "2"; Answers "2"; Answers "5"].

(** Scenario "race": the handshake succeeded, a consumer has enqueued, and
    the loop has passed its test of the error flag but not yet taken the
    lock; the server will report version 2 to the next handshake. *)
Definition race_lock : @Config environment :=
  after [A_request R_sendGetVolume; A_loop 0]
        (start 0 [Answers "1"; Answers "2"; Answers "5;9;12"]).

(** Scenario "garbage": the server answers the volume poll with [abc];
    the loop is about to call the lambda. *)
Definition garbage_call : @Config environment :=
  after [A_request R_sendGetVolume; A_loop 0; A_loop 0;
         A_loop 0; A_loop 0; A_loop 0;
         A_loop 0; A_loop 0; A_loop 0;
         A_loop 0]
        (start 0 [Answers "1"; Answers "5;9;12"; Answers "7"; Answers "abc"]).

(** Scenario "empty": the cached queue is [5; 9; 12]; a consumer asks for
    the queue again and the server answers with nothing. *)
Definition empty_drain : @Config environment :=
  after [A_loop 0; A_loop 0;
         A_loop 0; A_loop 0; A_loop 0;
         A_loop 0; A_loop 0; A_loop 0;
         A_loop 0; A_loop 0; A_loop 0;
         A_request (R_sendGetQueue 0 25000); A_loop 0]
        (start 0 [Answers "1"; Answers "5;9;12"; Answers "7"; Answers ""]).

(** Scenario "healthy": the handshake succeeded, nothing else happened;
    the storage held 7 everywhere. *)
Definition healthy : @Config environment := start 7 [Answers "1"].

(** Scenario "early exit": a consumer polls the volume, another calls
    [exit()] before the loop has started its first iteration; then the
    loop takes a step. *)
Definition early_exit : @Config environment :=
  after [A_request R_sendGetVolume; A_exit; A_loop 0] healthy.

(** Scenario "exit": the loop has the response to the first launch
    request when a consumer calls [exit()]. *)
Definition exiting : @Config environment :=
  after [A_loop 0; A_loop 0; A_loop 0; A_exit]
        (start 0 [Answers "1"; Answers "5;9;12"; Answers "7"]).

(** Scenario "rough": a freshly constructed client; the second launch
    request fails, a consumer reconnects and polls the volume again. *)
Definition rough_world : world :=
  serving [Answers "1"; Answers "5;9;12"; WriteFails; Answers "1";
           Answers "50.5"].

Definition fresh_client : @Config environment :=
  @launched environment (raw 0) 0 rough_world.

Definition rough_schedule : list Action :=
  [A_request R_sendGetVolume;
   A_loop 0; A_loop 0; A_loop 0; A_loop 0; A_loop 0;
   A_loop 0; A_loop 0; A_loop 0;
   A_reconnect; A_request R_sendGetVolume;
   A_loop 0; A_loop 0; A_loop 0; A_loop 0].

Definition rough_end : @Config environment := after rough_schedule fresh_client.

(** Scenario "lenient": the first handshake was refused; the server will
    answer the next version query with [ 1 (beta)]. *)
Definition lenient_start : @Config environment :=
  start 0 [Answers "2"; Answers " 1 (beta)"].

(** Scenario "garbled": a healthy client; the server will answer the
    next version query with [v1]. *)
Definition garbled_start : @Config environment :=
  start 0 [Answers "1"; Answers "v1"].

(** Scenario "stale": the launch requests are still in the queue when a
    second handshake is refused; the third will succeed. *)
Definition stale_start : @Config environment :=
  after [A_reconnect]
        (start 0 [Answers "1"; Answers "2"; Answers "1"; Answers "5;9;12"]).

(** The loop alone, for [n] steps at time 0, on a client whose server
    plays [l] after the handshake and the two launch requests. *)
Definition settled (n : nat) (l : list reply) : @Config environment :=
  after (repeat (A_loop 0) n)
        (start 0 (Answers "1" :: Answers "5;9;12" :: Answers "7" :: l)).

(** Scenario "late push": the queue is empty and the loop has passed its
    test of the error flag but not yet taken the lock; thread 1 is inside
    [sendGetVolume], past the test of the flag and before the lock; the
    server will report version 2 to the next handshake. *)
Definition race_push : @Config environment :=
  after [A_loop 0; A_enter 1 R_sendGetVolume]
        (settled 10 [Answers "2"; Answers "50.5"]).

(** Scenario "parked": as "late push", but the loop is still at the top
    of its iteration. *)
Definition parked_push : @Config environment :=
  after [A_enter 1 R_sendGetVolume]
        (settled 10 [Answers "2"; Answers "50.5"]).

(** Scenario "late after failure": the loop holds the lock with the two
    launch requests in the queue, and the write of the first will fail;
    thread 1 is inside [sendNext], past the test of the flag and before
    the lock. *)
Definition late_after_failure : @Config environment :=
  after [A_enter 1 R_sendNext; A_loop 0; A_loop 0]
        (start 0 [Answers "1"; WriteFails]).

(** Scenario "stalled poll": the loop has the response [3] to a poll of
    the queue size (the cached size is 0) when a handshake is refused; the
    lambda of the poll is next. *)
Definition stalled_poll : @Config environment :=
  after [A_request R_sendGetQueueSize; A_loop 0; A_loop 0; A_loop 0;
         A_reconnect]
        (settled 10 [Answers "3"; Answers "2"]).

(** Scenario "asleep": a call of [waitSongIdx] sleeps, its request in the
    queue, when a handshake is refused; the next one will succeed and the
    request will be answered with [4]. *)
Definition asleep : @Config environment :=
  after [A_waitSongIdx 0; A_wait_step 0; A_reconnect]
        (settled 10 [Answers "2"; Answers "1"; Answers "4"]).

(** Scenario "recorded": the client of scenario "rough" against the same
    server, with the calls of the socket layer recorded. *)
Definition recorded_client : @Config (Logged.environment environment) :=
  @launched (Logged.environment environment) (raw 0) 0 (rough_world, []).

Definition recorded_end : @Config (Logged.environment environment) :=
  match @exec (Logged.environment environment) rough_schedule recorded_client with
  | Some c => c
  | None => recorded_client
  end.

End Scripted.

(* ================================================================== *)
(** ** Facts about the library functions *)

Local Open Scope list_scope.
Unset Implicit Arguments.

Module CFacts.

Lemma to_int_id z : INT_MIN <= z <= INT_MAX -> to_int z = z.
Proof.
  unfold to_int, INT_MIN, INT_MAX. intros H.
  rewrite Z.mod_small; lia.
Qed.

Lemma to_size_t_id z : 0 <= z <= SIZE_MAX -> to_size_t z = z.
Proof.
  unfold to_size_t, SIZE_MAX. intros H. apply Z.mod_small. lia.
Qed.

Lemma digit_cases d : 0 <= d < 10 ->
  d = 0 \/ d = 1 \/ d = 2 \/ d = 3 \/ d = 4 \/ d = 5 \/ d = 6 \/ d = 7 \/ d = 8 \/ d = 9.
Proof. lia. Qed.

Lemma isdigit_digit_char d : 0 <= d < 10 -> isdigit (digit_char d) = true.
Proof.
  intros H. destruct (digit_cases d H) as [E|[E|[E|[E|[E|[E|[E|[E|[E|E]]]]]]]]];
    subst d; reflexivity.
Qed.

Lemma digit_val_digit_char d : 0 <= d < 10 -> digit_val (digit_char d) = d.
Proof.
  intros H. destruct (digit_cases d H) as [E|[E|[E|[E|[E|[E|[E|[E|[E|E]]]]]]]]];
    subst d; reflexivity.
Qed.

Lemma scan_digits_digit a d rest : 0 <= d < 10 ->
  scan_digits a (String (digit_char d) rest) = scan_digits (a * 10 + d) rest.
Proof.
  intros H. cbn [scan_digits].
  now rewrite (isdigit_digit_char d H), (digit_val_digit_char d H).
Qed.

(** Reading back what [to_digits] wrote: the digits of [n] shift the
    accumulator by a power of ten and add [n]. *)
Lemma scan_to_digits fuel : forall n rest,
  0 <= n < 10 ^ Z.of_nat fuel ->
  exists k, 0 <= k /\
    forall a, scan_digits a (to_digits fuel n rest)
              = scan_digits (a * 10 ^ k + n) rest.
Proof.
  induction fuel as [|fuel IH]; intros n rest Hn.
  - exists 0. split; [lia|]. intros a. cbn [to_digits].
    change (10 ^ Z.of_nat 0) with 1 in Hn.
    replace (a * 10 ^ 0 + n) with a by lia. reflexivity.
  - cbn [to_digits]. destruct (n <? 10) eqn:E.
    + apply Z.ltb_lt in E. exists 1. split; [lia|]. intros a.
      rewrite scan_digits_digit by lia. now rewrite Z.pow_1_r.
    + apply Z.ltb_ge in E.
      rewrite Nat2Z.inj_succ, Z.pow_succ_r in Hn by lia.
      assert (Hq : 0 <= n / 10 < 10 ^ Z.of_nat fuel).
      { split; [apply Z.div_pos; lia|].
        apply Z.div_lt_upper_bound; lia. }
      destruct (IH (n / 10) (String (digit_char (n mod 10)) rest) Hq)
        as (k & Hk & Hscan).
      exists (k + 1). split; [lia|]. intros a.
      rewrite Hscan.
      assert (Hm : 0 <= n mod 10 < 10) by (apply Z.mod_pos_bound; lia).
      rewrite scan_digits_digit by exact Hm.
      f_equal. rewrite Z.pow_add_r, Z.pow_1_r by lia.
      pose proof (Z.div_mod n 10). lia.
Qed.

Lemma digits_fuel_enough n : 0 <= n -> n < 10 ^ Z.of_nat (digits_fuel n).
Proof.
  intros Hn. unfold digits_fuel.
  rewrite Nat2Z.inj_succ, Z2Nat.id by apply Z.log2_nonneg.
  destruct (Z.eq_dec n 0) as [->|Hz]; [reflexivity|].
  pose proof (Z.log2_spec n ltac:(lia)) as [_ Hlt].
  eapply Z.lt_le_trans; [exact Hlt|].
  apply Z.pow_le_mono_l. pose proof (Z.log2_nonneg n). lia.
Qed.

Lemma to_digits_forall (p : ascii -> bool) fuel : forall n acc,
  (forall d, 0 <= d < 10 -> p (digit_char d) = true) ->
  0 <= n -> string_forall p acc = true ->
  string_forall p (to_digits fuel n acc) = true.
Proof.
  induction fuel as [|fuel IH]; intros n acc Hp Hn Hacc; cbn [to_digits].
  - exact Hacc.
  - destruct (n <? 10) eqn:E.
    + apply Z.ltb_lt in E. cbn [string_forall]. rewrite Hp by lia. exact Hacc.
    + apply IH; [exact Hp | apply Z.div_pos; lia |].
      cbn [string_forall]. rewrite Hp, Hacc; [reflexivity|].
      apply Z.mod_pos_bound; lia.
Qed.

(** [to_digits] with fuel left starts with a digit. *)
Lemma to_digits_head fuel : forall n acc, 0 <= n ->
  exists c t, to_digits (S fuel) n acc = String c t /\ isdigit c = true.
Proof.
  induction fuel as [|fuel IH]; intros n acc Hn.
  - cbn [to_digits]. destruct (n <? 10) eqn:E.
    + apply Z.ltb_lt in E. eexists _, _. split; [reflexivity|].
      apply isdigit_digit_char. lia.
    + eexists _, _. split; [reflexivity|].
      apply isdigit_digit_char, Z.mod_pos_bound. lia.
  - change (to_digits (S (S fuel)) n acc)
      with (if n <? 10 then String (digit_char n) acc
            else to_digits (S fuel) (n / 10) (String (digit_char (n mod 10)) acc)).
    destruct (n <? 10) eqn:E.
    + apply Z.ltb_lt in E. eexists _, _. split; [reflexivity|].
      apply isdigit_digit_char. lia.
    + apply IH, Z.div_pos; lia.
Qed.

Lemma scan_digits_nil a : scan_digits a "" = (a, "").
Proof. reflexivity. Qed.

Lemma isdigit_not_space c : isdigit c = true -> isspace c = false.
Proof.
  unfold isdigit, isspace. intros Hc.
  apply andb_true_iff in Hc as [H1 H2].
  apply Z.leb_le in H1. apply Z.leb_le in H2.
  destruct (code c =? 32) eqn:E1; [apply Z.eqb_eq in E1; lia|].
  destruct (9 <=? code c) eqn:E2; [|reflexivity].
  destruct (code c <=? 13) eqn:E3; [apply Z.leb_le in E3; lia|reflexivity].
Qed.

Lemma isdigit_no_sign c t : isdigit c = true ->
  scan_sign (String c t) = (false, String c t).
Proof.
  intros Hc. unfold scan_sign.
  destruct c as [[] [] [] [] [] [] [] []]; try reflexivity; discriminate Hc.
Qed.

Lemma scan_digits_value n : 0 <= n ->
  fst (scan_digits 0 (to_digits (digits_fuel n) n "")) = n.
Proof.
  intros Hn.
  destruct (scan_to_digits (digits_fuel n) n "" (conj Hn (digits_fuel_enough n Hn)))
    as (k & _ & Hscan).
  rewrite Hscan, scan_digits_nil. reflexivity.
Qed.

(** A string that starts with a digit is its own subject sequence. *)
Lemma scan_integer_head c t : isdigit c = true ->
  scan_integer (String c t) = Some (false, fst (scan_digits 0 (String c t))).
Proof.
  intros Hc. unfold scan_integer. cbn [skip_space].
  rewrite (isdigit_not_space c Hc), (isdigit_no_sign c t Hc), Hc. reflexivity.
Qed.

Lemma scan_integer_minus c t : isdigit c = true ->
  scan_integer (String "-" (String c t))
  = Some (true, fst (scan_digits 0 (String c t))).
Proof.
  intros Hc. unfold scan_integer.
  change (skip_space (String "-" (String c t))) with (String "-" (String c t)).
  cbn [scan_sign]. rewrite Hc. reflexivity.
Qed.

(** The digits of a natural number read back as that number. *)
Lemma scan_integer_digits n : 0 <= n ->
  scan_integer (to_digits (digits_fuel n) n "") = Some (false, n).
Proof.
  intros Hn.
  destruct (to_digits_head (Z.to_nat (Z.log2 n)) n "" Hn) as (c & t & Hs & Hc).
  fold (digits_fuel n) in Hs.
  rewrite Hs, scan_integer_head by exact Hc.
  rewrite <- Hs, scan_digits_value by exact Hn. reflexivity.
Qed.

Lemma scan_integer_to_string z :
  scan_integer (to_string z) = Some (z <? 0, Z.abs z).
Proof.
  unfold to_string. destruct (z <? 0) eqn:E.
  - apply Z.ltb_lt in E.
    assert (Hn : 0 <= - z) by lia.
    destruct (to_digits_head (Z.to_nat (Z.log2 (- z))) (- z) "" Hn) as (c & t & Hs & Hc).
    fold (digits_fuel (- z)) in Hs.
    replace (Z.abs z) with (- z) by lia.
    rewrite Hs, scan_integer_minus by exact Hc.
    rewrite <- Hs, scan_digits_value by exact Hn. reflexivity.
  - apply Z.ltb_ge in E. rewrite scan_integer_digits by exact E.
    f_equal. f_equal. lia.
Qed.

(** [strtol] reads back what [std::to_string] printed. *)
Lemma strtol_to_string z : LONG_MIN <= z <= LONG_MAX -> strtol (to_string z) = z.
Proof.
  intros Hz. unfold strtol. rewrite scan_integer_to_string.
  destruct (z <? 0) eqn:E; [apply Z.ltb_lt in E | apply Z.ltb_ge in E]; lia.
Qed.

Lemma stoi_to_string z : INT_MIN <= z <= INT_MAX -> stoi (to_string z) = inr z.
Proof.
  intros Hz. unfold stoi. rewrite scan_integer_to_string.
  assert (Hr : (if z <? 0 then - Z.abs z else Z.abs z) = z).
  { destruct (z <? 0) eqn:E; [apply Z.ltb_lt in E | apply Z.ltb_ge in E]; lia. }
  rewrite Hr. unfold in_int.
  destruct Hz as [H1 H2]. apply Z.leb_le in H1, H2. now rewrite H1, H2.
Qed.

(** *** Printed integers as tokens *)

Lemma string_forall_impl (p q : ascii -> bool) s :
  (forall c, p c = true -> q c = true) ->
  string_forall p s = true -> string_forall q s = true.
Proof.
  intros Hpq. induction s as [|c s IH]; cbn [string_forall]; [reflexivity|].
  intros H. apply andb_true_iff in H as [H1 H2].
  now rewrite (Hpq c H1), IH.
Qed.

Lemma string_forall_app p s1 s2 :
  string_forall p (s1 ++ s2)%string
  = string_forall p s1 && string_forall p s2.
Proof.
  induction s1 as [|c s1 IH]; cbn [append string_forall]; [reflexivity|].
  now rewrite IH, andb_assoc.
Qed.

Lemma to_string_chars z : string_forall is_number_char (to_string z) = true.
Proof.
  assert (Hd : forall d, 0 <= d < 10 -> is_number_char (digit_char d) = true).
  { intros d H. unfold is_number_char. now rewrite isdigit_digit_char. }
  unfold to_string. destruct (z <? 0) eqn:E.
  - apply Z.ltb_lt in E. cbn [string_forall].
    rewrite to_digits_forall; [reflexivity | exact Hd | lia | reflexivity].
  - apply Z.ltb_ge in E. apply to_digits_forall; [exact Hd | lia | reflexivity].
Qed.

Lemma to_string_not_empty z : to_string z <> "".
Proof.
  unfold to_string. destruct (z <? 0) eqn:E; [discriminate|].
  apply Z.ltb_ge in E.
  destruct (to_digits_head (Z.to_nat (Z.log2 z)) z "" E) as (c & t & Hs & _).
  fold (digits_fuel z) in Hs. rewrite Hs. discriminate.
Qed.

Lemma append_empty_r s : (s ++ "")%string = s.
Proof. induction s as [|c s IH]; cbn [append]; [reflexivity | now rewrite IH]. Qed.

Lemma append_assoc s1 s2 s3 :
  ((s1 ++ s2) ++ s3)%string = (s1 ++ (s2 ++ s3))%string.
Proof. induction s1 as [|c s1 IH]; cbn [append]; [reflexivity | now rewrite IH]. Qed.

(** [strtok] runs over characters that are not the delimiter. *)
Lemma strtok_from_run d s : forall tok rest,
  string_forall (fun c => negb (Ascii.eqb c d)) s = true ->
  strtok_from d (s ++ rest)%string tok = strtok_from d rest (tok ++ s)%string.
Proof.
  induction s as [|c s IH]; intros tok rest H.
  - cbn [append]. now rewrite append_empty_r.
  - cbn [string_forall] in H. apply andb_true_iff in H as [Hc Hs].
    apply negb_true_iff in Hc.
    cbn [append strtok_from]. rewrite Hc, IH by exact Hs.
    now rewrite append_assoc.
Qed.

Lemma strtok_from_end d tok : tok <> "" -> strtok_from d "" tok = [tok].
Proof. intros H. destruct tok; [congruence | reflexivity]. Qed.

Lemma strtok_from_delim d rest tok : tok <> "" ->
  strtok_from d (String d rest) tok = tok :: strtok_from d rest "".
Proof.
  intros H. cbn [strtok_from]. rewrite Ascii.eqb_refl.
  destruct tok; [congruence | reflexivity].
Qed.

(** Tokens joined by the delimiter come apart again. *)
Lemma strtok_all_concat d (l : list string) :
  Forall (fun x => x <> "" /\
                   string_forall (fun c => negb (Ascii.eqb c d)) x = true) l ->
  strtok_all d (String.concat (String d "") l) = l.
Proof.
  unfold strtok_all. induction 1 as [|x l [Hx Hd] Hl IH]; [reflexivity|].
  destruct l as [|y l'].
  - cbn [concat]. rewrite <- (append_empty_r x) at 1.
    rewrite strtok_from_run by exact Hd.
    now apply strtok_from_end.
  - change (concat (String d "") (x :: y :: l'))
      with (x ++ String d (concat (String d "") (y :: l')))%string.
    rewrite strtok_from_run by exact Hd. cbn [append].
    rewrite strtok_from_delim by exact Hx. now rewrite IH.
Qed.

Lemma c_str_id s :
  string_forall (fun c => negb (code c =? 0)) s = true -> c_str s = s.
Proof.
  induction s as [|c s IH]; cbn [string_forall c_str]; [reflexivity|].
  intros H. apply andb_true_iff in H as [Hc Hs].
  apply negb_true_iff in Hc. now rewrite Hc, IH.
Qed.

Lemma string_forall_concat p sep (l : list string) :
  string_forall p sep = true ->
  Forall (fun x => string_forall p x = true) l ->
  string_forall p (String.concat sep l) = true.
Proof.
  intros Hsep. induction 1 as [|x l Hx Hl IH]; [reflexivity|].
  destruct l as [|y l']; [exact Hx|].
  change (concat sep (x :: y :: l'))
    with (x ++ sep ++ concat sep (y :: l'))%string.
  now rewrite !string_forall_app, Hx, Hsep, IH.
Qed.

Lemma number_char_not_nul c : is_number_char c = true -> negb (code c =? 0) = true.
Proof.
  unfold is_number_char. intros H. apply negb_true_iff, Z.eqb_neq.
  apply orb_true_iff in H as [H|H].
  - unfold isdigit in H. apply andb_true_iff in H as [H _].
    apply Z.leb_le in H. lia.
  - apply Ascii.eqb_eq in H. subst c. discriminate.
Qed.

End CFacts.

Import CFacts.

(* ================================================================== *)
(** ** Properties of the client *)

Section Properties.

Context {env : Environment}.

(** *** Traces *)

Lemma enqueued_app t1 t2 : enqueued (t1 ++ t2) = enqueued t1 ++ enqueued t2.
Proof. apply flat_map_app. Qed.

Lemma invoked_app t1 t2 : invoked (t1 ++ t2) = invoked t1 ++ invoked t2.
Proof. apply flat_map_app. Qed.

Lemma socket_io_app t1 t2 : socket_io (t1 ++ t2) = socket_io t1 ++ socket_io t2.
Proof. apply filter_app. Qed.

Lemma failures_app t1 t2 : failures (t1 ++ t2) = failures t1 ++ failures t2.
Proof. apply filter_app. Qed.

(** Local events are neither calls, nor traffic, nor failures. *)
Lemma local_events t : forallb is_local t = true ->
  invoked t = [] /\ socket_io t = [] /\ failures t = [].
Proof.
  induction t as [|ev t IH]; [now auto|].
  cbn [forallb]. intros H. apply andb_true_iff in H as [Hev Ht].
  destruct (IH Ht) as (H1 & H2 & H3).
  destruct ev; try discriminate Hev; cbn; auto.
Qed.

(** *** What lambdas and request builders can do *)

Lemma extends_refl m : extends m m.
Proof.
  repeat split. exists []. rewrite !app_nil_r. repeat split; reflexivity.
Qed.

Lemma extends_trans m1 m2 m3 : extends m1 m2 -> extends m2 m3 -> extends m1 m3.
Proof.
  intros (N1 & E1 & S1 & t1 & T1 & L1 & Q1 & D1) (N2 & E2 & S2 & t2 & T2 & L2 & Q2 & D2).
  repeat split; try congruence.
  exists (t1 ++ t2). repeat split.
  - rewrite T2, T1. now rewrite app_assoc.
  - rewrite forallb_app. now rewrite L1, L2.
  - rewrite Q2, Q1, enqueued_app. now rewrite app_assoc.
  - intros H. rewrite enqueued_app, D1, D2 by congruence. reflexivity.
Qed.

Lemma tame_ret A (a : A) : tame (ret a).
Proof. intros m. apply extends_refl. Qed.

Lemma tame_throw A f : tame (@throw env A f).
Proof. intros m. apply extends_refl. Qed.

Lemma tame_call A (r : fault + A) : tame (call r).
Proof. destruct r; [apply tame_throw | apply tame_ret]. Qed.

Lemma tame_get A (f : Sysmodule -> A) : tame (get f).
Proof. intros m. apply extends_refl. Qed.

Lemma tame_uninitialised : tame uninitialised.
Proof. intros m. apply extends_refl. Qed.

Lemma tame_bind A B (c : M A) (k : A -> M B) :
  tame c -> (forall a, tame (k a)) -> tame (bind c k).
Proof.
  intros Hc Hk m. unfold bind. specialize (Hc m).
  destruct (c m) as [a m1|f m1]; [|exact Hc].
  specialize (Hk a m1).
  destruct (k a m1); eapply extends_trans; eassumption.
Qed.

Lemma tame_when b (c : M unit) : tame c -> tame (when b c).
Proof. destruct b; [trivial | intros _; apply tame_ret]. Qed.

Lemma tame_for_each A (l : list A) (body : A -> M unit) :
  (forall a, tame (body a)) -> tame (for_each l body).
Proof.
  intros H. induction l as [|a l IH]; cbn [for_each].
  - apply tame_ret.
  - apply tame_bind; [apply H | intros _; exact IH].
Qed.

Lemma tame_assign f u : keeps u -> tame (assign f u).
Proof.
  intros Hu m. cbn. destruct (Hu (self m)) as (Q & E & S).
  repeat split; try assumption.
  exists [EvStore f]. repeat split; cbn; try reflexivity.
  now rewrite app_nil_r.
Qed.

Lemma tame_set_done d v : tame (set_done d v).
Proof.
  intros m. repeat split. exists []. cbn. rewrite !app_nil_r.
  repeat split; reflexivity.
Qed.

Lemma addToWriteQueue_dropped m s f :
  error_ (self m) = true -> addToWriteQueue s f m = Ret tt m.
Proof.
  intros H. unfold addToWriteQueue, bind, get. now rewrite H.
Qed.

Lemma addToWriteQueue_pushed m s f :
  error_ (self m) = false ->
  addToWriteQueue s f m
  = Ret tt (with_event (EvEnqueue (s, f))
              (with_self (set_writeQueue (writeQueue (self m) ++ [(s, f)])
                                         (self m)) m)).
Proof.
  intros H. unfold addToWriteQueue, bind, get. now rewrite H.
Qed.

Lemma tame_addToWriteQueue s f : tame (addToWriteQueue s f).
Proof.
  intros m. destruct (error_ (self m)) eqn:E.
  - rewrite addToWriteQueue_dropped by exact E. apply extends_refl.
  - rewrite addToWriteQueue_pushed by exact E.
    destruct m as [o w fl tr]. cbn in *. destruct o. cbn in *.
    repeat split. exists [EvEnqueue (s, f)].
    repeat split; try reflexivity. cbn. congruence.
Qed.

Ltac keeps_tac := intros o; destruct o; cbn; repeat split; reflexivity.

Ltac tame_tac :=
  repeat first
    [ apply tame_ret | apply tame_throw | apply tame_call | apply tame_get
    | apply tame_uninitialised
    | apply tame_addToWriteQueue | apply tame_set_done
    | apply tame_assign; keeps_tac
    | apply tame_when
    | apply tame_for_each; intros
    | apply tame_bind; [|intros]
    | match goal with
      | |- tame (match ?x with _ => _ end) => destruct x
      end ].

Lemma tame_run k s : tame (run k s).
Proof.
  destruct k; unfold run, sendGetQueue, sendGetSubQueue; tame_tac.
Qed.

Lemma tame_perform r : tame (perform r).
Proof.
  destruct r; cbn [perform];
    unfold sendResume, sendPause, sendPrevious, sendNext, sendGetVolume,
      sendSetVolume, sendSetSongIdx, sendGetSongIdx, sendGetQueueSize,
      sendRemoveFromQueue, sendGetQueue, sendSetQueue, sendAddToSubQueue,
      sendRemoveFromSubQueue, sendGetSubQueueSize, sendGetSubQueue,
      sendSkipSubQueueSongs, sendGetRepeat, sendSetRepeat, sendGetShuffle,
      sendSetShuffle, sendGetSong, sendGetStatus, sendGetPosition,
      sendSetPosition; tame_tac.
Qed.

Lemma tame_queueChanged : tame queueChanged.
Proof. unfold queueChanged. tame_tac. Qed.

Lemma tame_subQueueChanged : tame subQueueChanged.
Proof. unfold subQueueChanged. tame_tac. Qed.

(** *** Running a sequence *)

Lemma bind_ret A B (c : M A) (k : A -> M B) m a m1 :
  c m = Ret a m1 -> bind c k m = k a m1.
Proof. intros H. unfold bind. now rewrite H. Qed.

Lemma bind_raise A B (c : M A) (k : A -> M B) m f m1 :
  c m = Raise f m1 -> bind c k m = Raise f m1.
Proof. intros H. unfold bind. now rewrite H. Qed.

(** *** The two queue lambdas *)

Lemma for_each_push_queue (f : string -> SongID) toks : forall m,
  exists m',
    for_each toks
      (fun tok => assign F_queue (fun o => set_queue_ (queue_ o ++ [f tok]) o)) m
    = Ret tt m' /\
    self m' = set_queue_ (queue_ (self m) ++ map f toks) (self m) /\
    net m' = net m /\ flags m' = flags m.
Proof.
  induction toks as [|tok toks IH]; intros m.
  - exists m. cbn. rewrite app_nil_r. destruct m as [[] ? ? ?]. now cbn.
  - cbn [for_each]. unfold bind at 1. cbn [assign modify emit bind].
    cbn beta iota.
    match goal with
    | |- context [for_each toks ?b ?m1] => destruct (IH m1) as (m' & Hr & Hs & Hn & Hf)
    end.
    exists m'. rewrite Hr. repeat split; try assumption.
    rewrite Hs. destruct m as [[] ? ? ?]. cbn. now rewrite <- app_assoc.
Qed.

Lemma for_each_push_subQueue (f : string -> SongID) toks : forall m,
  exists m',
    for_each toks
      (fun tok => assign F_subQueue (fun o => set_subQueue_ (subQueue_ o ++ [f tok]) o)) m
    = Ret tt m' /\
    self m' = set_subQueue_ (subQueue_ (self m) ++ map f toks) (self m) /\
    net m' = net m /\ flags m' = flags m.
Proof.
  induction toks as [|tok toks IH]; intros m.
  - exists m. cbn. rewrite app_nil_r. destruct m as [[] ? ? ?]. now cbn.
  - cbn [for_each]. unfold bind at 1. cbn [assign modify emit bind].
    cbn beta iota.
    match goal with
    | |- context [for_each toks ?b ?m1] => destruct (IH m1) as (m' & Hr & Hs & Hn & Hf)
    end.
    exists m'. rewrite Hr. repeat split; try assumption.
    rewrite Hs. destruct m as [[] ? ? ?]. cbn. now rewrite <- app_assoc.
Qed.

(** The get-queue lambda never throws; it replaces the cached queue by the
    decoded response and raises the dirty flag. *)
Lemma run_sendGetQueue s m :
  exists m', run K_sendGetQueue s m = Ret tt m' /\
    self m' = set_queueChanged_ true (set_queue_ (decode_ids s) (self m)) /\
    net m' = net m /\ flags m' = flags m.
Proof.
  unfold run, decode_ids.
  erewrite bind_ret by reflexivity.
  match goal with
  | |- context [bind (for_each ?l ?b) _ ?m1] =>
      destruct (for_each_push_queue (fun tok => to_int (strtol tok)) l m1)
        as (m' & Hr & Hs & Hn & Hf)
  end.
  erewrite bind_ret by exact Hr.
  eexists. split; [reflexivity|]. cbn.
  rewrite Hs, Hn, Hf. destruct m as [[] ? ? ?]. now cbn.
Qed.

Lemma run_sendGetSubQueue s m :
  exists m', run K_sendGetSubQueue s m = Ret tt m' /\
    self m' = set_subQueueChanged_ true (set_subQueue_ (decode_ids s) (self m)) /\
    net m' = net m /\ flags m' = flags m.
Proof.
  unfold run, decode_ids.
  erewrite bind_ret by reflexivity.
  match goal with
  | |- context [bind (for_each ?l ?b) _ ?m1] =>
      destruct (for_each_push_subQueue (fun tok => to_int (strtol tok)) l m1)
        as (m' & Hr & Hs & Hn & Hf)
  end.
  erewrite bind_ret by exact Hr.
  eexists. split; [reflexivity|]. cbn.
  rewrite Hs, Hn, Hf. destruct m as [[] ? ? ?]. now cbn.
Qed.

(** C6: the dirty flags [queueChanged_] and [subQueueChanged_] are set when
    the get-queue / get-sub-queue callback has refetched the sequence; the
    first call of the accessor after that returns true and resets the flag,
    the call right after it returns false. *)
Theorem dirty_flag_read_once s m :
  (exists m1 m2,
      run K_sendGetQueue s m = Ret tt m1 /\
      queueChanged_ (self m1) = true /\
      queueChanged m1 = Ret true m2 /\
      queueChanged_ (self m2) = false /\
      queueChanged m2 = Ret false m2) /\
  (exists m1 m2,
      run K_sendGetSubQueue s m = Ret tt m1 /\
      subQueueChanged_ (self m1) = true /\
      subQueueChanged m1 = Ret true m2 /\
      subQueueChanged_ (self m2) = false /\
      subQueueChanged m2 = Ret false m2).
Proof.
  split.
  - destruct (run_sendGetQueue s m) as (m1 & Hr & Hs & _).
    assert (Hq : queueChanged_ (self m1) = true).
    { rewrite Hs. now destruct (self m). }
    exists m1. eexists. split; [exact Hr|]. split; [exact Hq|].
    unfold queueChanged, bind, get. rewrite Hq. cbn.
    split; [reflexivity|]. destruct m1 as [[] ? ? ?]. now cbn.
  - destruct (run_sendGetSubQueue s m) as (m1 & Hr & Hs & _).
    assert (Hq : subQueueChanged_ (self m1) = true).
    { rewrite Hs. now destruct (self m). }
    exists m1. eexists. split; [exact Hr|]. split; [exact Hq|].
    unfold subQueueChanged, bind, get. rewrite Hq. cbn.
    split; [reflexivity|]. destruct m1 as [[] ? ? ?]. now cbn.
Qed.

(** *** The polls that trigger a re-fetch *)

(** C5 (amended): when the response to a queue-size, sub-queue-size or
    queue-index poll reports a value that differs from the cached one, the
    lambda calls the request builder of the full re-fetch of the affected
    sequence (main queue for the size; main queue, then sub-queue, for the
    index; sub-queue for the sub-queue size) before it stores the new
    value.  If the error flag is clear at that moment the re-fetch is
    pushed, and the trace shows the pushes, then the store.  If the flag
    is set (a handshake was refused while the loop was serving the poll)
    [addToWriteQueue] drops the re-fetch: nothing is pushed, and the new
    value is stored all the same. *)
Theorem poll_refetches_before_store m s tmp :
  stoul s = inr tmp ->
  (tmp <> queueSize_ (self m) ->
   exists m', run K_sendGetQueueSize s m = Ret tt m' /\
     queueSize_ (self m') = tmp /\
     (error_ (self m) = false ->
      trace m' = trace m ++ [EvEnqueue refetch_queue; EvStore F_queueSize] /\
      writeQueue (self m') = writeQueue (self m) ++ [refetch_queue]) /\
     (error_ (self m) = true ->
      trace m' = trace m ++ [EvStore F_queueSize] /\
      writeQueue (self m') = writeQueue (self m))) /\
  (tmp <> subQueueSize_ (self m) ->
   exists m', run K_sendGetSubQueueSize s m = Ret tt m' /\
     subQueueSize_ (self m') = tmp /\
     (error_ (self m) = false ->
      trace m' = trace m ++ [EvEnqueue refetch_subQueue; EvStore F_subQueueSize] /\
      writeQueue (self m') = writeQueue (self m) ++ [refetch_subQueue]) /\
     (error_ (self m) = true ->
      trace m' = trace m ++ [EvStore F_subQueueSize] /\
      writeQueue (self m') = writeQueue (self m))) /\
  (tmp <> songIdx_ (self m) ->
   exists m', run K_sendGetSongIdx s m = Ret tt m' /\
     songIdx_ (self m') = tmp /\
     (error_ (self m) = false ->
      trace m' = trace m ++ [EvEnqueue refetch_queue; EvEnqueue refetch_subQueue;
                             EvStore F_songIdx] /\
      writeQueue (self m')
      = writeQueue (self m) ++ [refetch_queue; refetch_subQueue]) /\
     (error_ (self m) = true ->
      trace m' = trace m ++ [EvStore F_songIdx] /\
      writeQueue (self m') = writeQueue (self m))).
Proof.
  intros Hs.
  split; [|split]; intros Hne; apply not_eq_sym in Hne; apply Z.eqb_neq in Hne;
    destruct m as [o w fl tr]; destruct o; cbn in Hne;
    unfold run, bind, call, get, when, sendGetQueue, sendGetSubQueue,
      addToWriteQueue, assign, modify, emit, bind, get, ret;
    rewrite Hs; cbn; rewrite Hne; cbn;
    destruct error_0; cbn;
    eexists; (split; [reflexivity|]); cbn;
    rewrite <- ?app_assoc; repeat split; try reflexivity; discriminate.
Qed.

(** *** Who writes the cached playback state *)

Lemma discreet_ret A (a : A) : discreet (ret a).
Proof. intros m. split; reflexivity. Qed.

Lemma discreet_throw A f : discreet (@throw env A f).
Proof. intros m. split; reflexivity. Qed.

Lemma discreet_call A (r : fault + A) : discreet (call r).
Proof. destruct r; [apply discreet_throw | apply discreet_ret]. Qed.

Lemma discreet_get A (f : Sysmodule -> A) : discreet (get f).
Proof. intros m. split; reflexivity. Qed.

Lemma discreet_emit ev : discreet (emit ev).
Proof. intros m. split; reflexivity. Qed.

Lemma discreet_modify u :
  (forall o, cached (u o) = cached o) -> discreet (modify u).
Proof. intros H m. split; [apply H | reflexivity]. Qed.

Lemma discreet_bind A B (c : M A) (k : A -> M B) :
  discreet c -> (forall a, discreet (k a)) -> discreet (bind c k).
Proof.
  intros Hc Hk m. unfold bind. specialize (Hc m).
  destruct (c m) as [a m1|f m1]; [|exact Hc].
  specialize (Hk a m1). destruct Hc as [H1 H2].
  destruct (k a m1); destruct Hk as [H3 H4]; split; congruence.
Qed.

Lemma discreet_when b (c : M unit) : discreet c -> discreet (when b c).
Proof. destruct b; [trivial | intros _; apply discreet_ret]. Qed.

Lemma discreet_socket_write frame : discreet (socket_write frame).
Proof.
  intros m. unfold socket_write.
  destruct (Socket.writeToSocket sock (socket (self m)) frame (net m)).
  split; reflexivity.
Qed.

Lemma discreet_socket_read : discreet socket_read.
Proof.
  intros m. unfold socket_read.
  destruct (Socket.readFromSocket sock (socket (self m)) (net m)).
  split; reflexivity.
Qed.

Lemma discreet_socket_create port : discreet (socket_create port).
Proof.
  intros m. unfold socket_create.
  destruct (Socket.createSocket sock port (net m)). split; reflexivity.
Qed.

Lemma discreet_socket_close fd : discreet (socket_close fd).
Proof. intros m. split; reflexivity. Qed.

Lemma discreet_socket_setTimeout fd t : discreet (socket_setTimeout fd t).
Proof. intros m. split; reflexivity. Qed.

Ltac same_cached := intros o; destruct o; reflexivity.

Ltac discreet_tac :=
  repeat first
    [ apply discreet_ret | apply discreet_throw | apply discreet_call
    | apply discreet_get | apply discreet_emit
    | apply discreet_socket_write | apply discreet_socket_read
    | apply discreet_socket_create | apply discreet_socket_close
    | apply discreet_socket_setTimeout
    | apply discreet_modify; same_cached
    | apply discreet_when
    | apply discreet_bind; [|intros]
    | match goal with
      | |- discreet (if ?x then _ else _) => destruct x
      | |- discreet (match ?x with _ => _ end) => destruct x
      end ].

Lemma discreet_addToWriteQueue s f : discreet (addToWriteQueue s f).
Proof. unfold addToWriteQueue. discreet_tac. Qed.

Lemma discreet_push e : discreet (push e).
Proof. unfold push. discreet_tac. Qed.

Lemma discreet_raise_error : discreet raise_error.
Proof. unfold raise_error. discreet_tac. Qed.

Lemma discreet_discard : discreet discard.
Proof. unfold discard. discreet_tac. Qed.

Lemma discreet_queueChanged : discreet queueChanged.
Proof. unfold queueChanged, assign. discreet_tac. Qed.

Lemma discreet_subQueueChanged : discreet subQueueChanged.
Proof. unfold subQueueChanged, assign. discreet_tac. Qed.

Lemma discreet_reconnect : discreet reconnect.
Proof. unfold reconnect, raise_error. discreet_tac. Qed.

Lemma discreet_refresh now : discreet (refresh now).
Proof.
  unfold refresh, sendGetPosition, sendGetQueueSize, sendGetRepeat,
    sendGetShuffle, sendGetSong, sendGetSongIdx, sendGetSubQueueSize,
    sendGetStatus, sendGetVolume.
  repeat (apply discreet_bind; [apply discreet_addToWriteQueue | intros _]).
  discreet_tac.
Qed.

(** Every request builder but [sendSetPosition] only enqueues. *)
Lemma discreet_perform r :
  (forall pos, r <> R_sendSetPosition pos) -> discreet (perform r).
Proof.
  intros Hr. destruct r; cbn [perform];
    try apply discreet_addToWriteQueue.
  now elim (Hr pos).
Qed.

Lemma continue_cached A (act : M A) next c :
  discreet act ->
  cached (self (machine (continue act next c))) = cached (self (machine c)).
Proof.
  intros H. unfold continue. specialize (H (machine c)).
  destruct (act (machine c)); exact (proj1 H).
Qed.

(** [sendSetPosition] stores the position it is given, on the spot. *)
Lemma sendSetPosition_stores pos m :
  exists m', perform (R_sendSetPosition pos) m = Ret tt m' /\
    position_ (self m') = pos /\
    currentSong_ (self m') = currentSong_ (self m) /\
    volume_ (self m') = volume_ (self m) /\
    status_ (self m') = status_ (self m) /\
    repeatMode_ (self m') = repeatMode_ (self m) /\
    shuffleMode_ (self m') = shuffleMode_ (self m) /\
    queueSize_ (self m') = queueSize_ (self m) /\
    subQueueSize_ (self m') = subQueueSize_ (self m) /\
    songIdx_ (self m') = songIdx_ (self m) /\
    queue_ (self m') = queue_ (self m) /\
    subQueue_ (self m') = subQueue_ (self m).
Proof.
  cbn [perform]. unfold sendSetPosition.
  erewrite bind_ret by reflexivity.
  match goal with |- context [addToWriteQueue ?s ?f ?m1] =>
    pose proof (discreet_addToWriteQueue s f m1) as H;
    destruct (addToWriteQueue s f m1) as [[] m'|] eqn:E
  end.
  - exists m'. split; [reflexivity|]. destruct H as [H _].
    destruct m as [[] ? ? ?]. cbn in H.
    apply (f_equal c_position) in H as H1.
    apply (f_equal c_currentSong) in H as H2.
    apply (f_equal c_volume) in H as H3.
    apply (f_equal c_status) in H as H4.
    apply (f_equal c_repeatMode) in H as H5.
    apply (f_equal c_shuffleMode) in H as H6.
    apply (f_equal c_queueSize) in H as H7.
    apply (f_equal c_subQueueSize) in H as H8.
    apply (f_equal c_songIdx) in H as H9.
    apply (f_equal c_queue) in H as H10.
    apply (f_equal c_subQueue) in H as H11.
    cbn in *. repeat split; assumption.
  - exfalso. unfold addToWriteQueue, bind, get in E.
    destruct (error_ (self _)); discriminate E.
Qed.

Lemma wait_request_cached d s f next c :
  cached (self (machine (continue (bind (set_done d false)
                                        (fun _ => addToWriteQueue s f)) next c)))
  = cached (self (machine c)).
Proof.
  unfold continue. erewrite bind_ret by reflexivity.
  pose proof (discreet_addToWriteQueue s f (with_flag d false (machine c))) as H.
  destruct (addToWriteQueue s f _); exact (proj1 H).
Qed.

(** What a call does as far as the lock of [addToWriteQueue]. *)
Lemma enter_call_inv d before e k dropped c c' :
  enter_call d before e k dropped c = Some c' ->
  waiters c d = W_none /\
  c' = with_waiter d
         (if error_ (self (machine (consumer before c))) then dropped
          else W_lock e k) (consumer before c).
Proof.
  unfold enter_call. destruct (waiters c d); try discriminate.
  intros [= <-]. split; reflexivity.
Qed.

(** A thread before the lock of [addToWriteQueue] goes on. *)
Lemma wait_step_lock d e k c :
  waiters c d = W_lock e k ->
  wait_step d c
  = if mutex_free c then
      Some (with_waiter d match k with
                          | Some k' => W_test k'
                          | None => W_none
                          end (consumer (push e) c))
    else None.
Proof. intros H. unfold wait_step. now rewrite H. Qed.

Lemma prelude_cases r :
  (exists pos, r = R_sendSetPosition pos /\
               prelude r = assign F_position (set_position_ pos)) \/
  ((forall pos, r <> R_sendSetPosition pos) /\ prelude r = ret tt).
Proof.
  destruct r; try (right; split; [discriminate | reflexivity]).
  left. eauto.
Qed.


(** The steps of a thread that is followed through its call: it moves
    on without touching anything, or it pushes, or it enters. *)
Lemma thread_step a c c' :
  step a c = Some c' ->
  match a with
  | A_wait_step d =>
      (exists w, c' = with_waiter d w c /\ forall e k, w <> W_lock e k) \/
      (exists e k, waiters c d = W_lock e k /\ mutex_free c = true /\
         c' = with_waiter d match k with
                            | Some k' => W_test k'
                            | None => W_none
                            end (consumer (push e) c))
  | A_enter d r =>
      waiters c d = W_none /\
      c' = with_waiter d
             (if error_ (self (machine (consumer (prelude r) c))) then W_none
              else W_lock (request_entry r) None)
             (consumer (prelude r) c)
  | A_enter_wait k d =>
      waiters c d = W_none /\
      c' = with_waiter d
             (if error_ (self (machine (consumer (set_done d false) c)))
              then W_test k else W_lock (wait_entry k d) (Some k))
             (consumer (set_done d false) c)
  | _ => True
  end.
Proof.
  unfold step. destruct (alive c); cbn [negb]; [|discriminate].
  destruct a as [now|r| | | | |d|d|d|d r|k d]; trivial.
  - unfold wait_step. intros H.
    destruct (waiters c d) as [|k|k| |e k] eqn:Ew; try discriminate.
    + left. destruct (flags (machine c) d); injection H as <-;
        eexists; (split; [reflexivity | discriminate]).
    + left. destruct k; [|destruct (error_ (self (machine c)))];
        injection H as <-; eexists; (split; [reflexivity | discriminate]).
    + right. destruct (mutex_free c); [|discriminate]. injection H as <-.
      exists e, k. auto.
  - apply enter_call_inv.
  - apply enter_call_inv.
Qed.

Lemma step_cached a c c' :
  step a c = Some c' ->
  (exists now e str, a = A_loop now /\ pc c = L_call e str) \/
  (exists pos, a = A_request (R_sendSetPosition pos)) \/
  (exists d pos, a = A_enter d (R_sendSetPosition pos)) \/
  cached (self (machine c')) = cached (self (machine c)).
Proof.
  unfold step. destruct (alive c); cbn [negb]; [|discriminate].
  destruct a as [now|r| | | | |d|d|d|d r|k d].
  - unfold loop_step. destruct (pc c) eqn:Epc; try discriminate.
    + intros [= <-]. do 3 right. reflexivity.
    + intros [= <-]. do 3 right. reflexivity.
    + destruct (writeQueue (self (machine c))) as [|[frame f] q].
      * intros [= <-]. do 3 right. reflexivity.
      * intros [= <-]. do 3 right. apply continue_cached.
        unfold raise_error, discard. discreet_tac.
    + intros _. left. eauto.
    + intros [= <-]. do 3 right. apply continue_cached.
      unfold discard. discreet_tac.
    + intros [= <-]. do 3 right. apply continue_cached.
      destruct (_ <? _); [apply discreet_refresh | apply discreet_ret].
  - destruct (can_enqueue c); [|discriminate]. intros [= <-].
    destruct r; try (do 3 right; apply continue_cached;
                     apply discreet_perform; discriminate).
    right. left. eauto.
  - intros [= <-]. do 3 right. apply continue_cached, discreet_queueChanged.
  - intros [= <-]. do 3 right. apply continue_cached, discreet_subQueueChanged.
  - intros [= <-]. do 3 right. apply continue_cached.
    unfold exit. discreet_tac.
  - destruct (mutex_free c); [|discriminate]. intros [= <-].
    do 3 right. apply continue_cached, discreet_reconnect.
  - unfold wait_call. destruct (waiters c d); try discriminate.
    destruct (can_enqueue c); [|discriminate]. intros [= <-].
    do 3 right. cbn [with_waiter machine]. apply wait_request_cached.
  - unfold wait_call. destruct (waiters c d); try discriminate.
    destruct (can_enqueue c); [|discriminate]. intros [= <-].
    do 3 right. cbn [with_waiter machine]. apply wait_request_cached.
  - unfold wait_step. intros H. do 3 right.
    destruct (waiters c d) as [|k|[]| |e k]; try discriminate;
      repeat match type of H with
             | context [if ?b then _ else _] => destruct b
             end;
      try discriminate; injection H as <-;
      first [reflexivity | apply continue_cached, discreet_push].
  - intros H. apply enter_call_inv in H as [_ ->].
    destruct (prelude_cases r) as [(pos & -> & _)|[_ Hp]].
    + right. right. left. eauto.
    + do 3 right. cbn [with_waiter machine]. unfold consumer. rewrite Hp.
      apply continue_cached, discreet_ret.
  - intros H. apply enter_call_inv in H as [_ ->]. do 3 right. reflexivity.
Qed.

(** C9 (amended): the cached playback state (current song, position,
    volume, status, repeat and shuffle mode, sizes, index, queues) changes
    only when the loop runs a completion callback, or when a consumer calls
    [sendSetPosition], which stores the requested position in the cache on
    the calling thread before it enqueues and touches nothing else of the
    cache.  No other request builder, accessor or helper changes it.  (A
    call of [sendSetPosition] is [A_request] when it runs in one piece and
    [A_enter] when it is followed by thread.) *)
Theorem cached_state_writers a c c' :
  step a c = Some c' ->
  cached (self (machine c')) <> cached (self (machine c)) ->
  ((exists now e str, a = A_loop now /\ pc c = L_call e str) \/
   (exists pos, a = A_request (R_sendSetPosition pos)) \/
   (exists d pos, a = A_enter d (R_sendSetPosition pos))) /\
  (forall pos, a = A_request (R_sendSetPosition pos) ->
     cached (self (machine c'))
     = let o := cached (self (machine c)) in
       {| c_currentSong := c_currentSong o; c_position := pos;
          c_volume := c_volume o; c_status := c_status o;
          c_repeatMode := c_repeatMode o; c_shuffleMode := c_shuffleMode o;
          c_queueSize := c_queueSize o; c_subQueueSize := c_subQueueSize o;
          c_songIdx := c_songIdx o; c_queue := c_queue o;
          c_subQueue := c_subQueue o |}) /\
  (forall d pos, a = A_enter d (R_sendSetPosition pos) ->
     cached (self (machine c'))
     = let o := cached (self (machine c)) in
       {| c_currentSong := c_currentSong o; c_position := pos;
          c_volume := c_volume o; c_status := c_status o;
          c_repeatMode := c_repeatMode o; c_shuffleMode := c_shuffleMode o;
          c_queueSize := c_queueSize o; c_subQueueSize := c_subQueueSize o;
          c_songIdx := c_songIdx o; c_queue := c_queue o;
          c_subQueue := c_subQueue o |}).
Proof.
  intros Hstep Hne. split; [|split].
  - destruct (step_cached a c c' Hstep) as [H|[H|[H|H]]]; auto. contradiction.
  - intros pos ->. unfold step in Hstep.
    destruct (alive c); [|discriminate].
    cbn [negb] in Hstep. destruct (can_enqueue c); [|discriminate].
    injection Hstep as <-. unfold consumer, continue.
    destruct (sendSetPosition_stores pos (machine c))
      as (m' & Hp & H1 & H2 & H3 & H4 & H5 & H6 & H7 & H8 & H9 & H10 & H11).
    cbn [perform] in *. rewrite Hp.
    cbn. unfold cached. now rewrite H1, H2, H3, H4, H5, H6, H7, H8, H9, H10, H11.
  - intros d pos ->. unfold step in Hstep.
    destruct (alive c); [|discriminate]. cbn [negb] in Hstep.
    apply enter_call_inv in Hstep as [_ ->].
    destruct c as [[[] ? ? ?] ? ?]. reflexivity.
Qed.

(** *** Responses that do not parse *)

Lemma run_parse_fault k s f m : parse_fault k s = Some f -> run k s m = Raise f m.
Proof.
  intros H.
  destruct k; cbv beta iota delta [parse_fault] in H; try discriminate H;
    unfold run, bind, call, throw;
    match type of H with
    | context [stoi s] => destruct (stoi s)
    | context [stoul s] => destruct (stoul s)
    | context [stod s] => destruct (stod s)
    end;
    cbn in H; try discriminate H; injection H as <-; reflexivity.
Qed.

Lemma step_terminated a c f : pc c = L_terminate f -> step a c = None.
Proof. intros H. unfold step, alive. now rewrite H. Qed.

(** C4 (amended): a response that the lambda's conversion ([std::stoi],
    [std::stoul], [std::stod]) cannot parse makes that call throw.
    [process()] has no handler, so the exception leaves the processing loop
    and ends the process: the error flag is not set, the queue is not
    discarded (the request is still at its head), and the object, cached
    state included, is as it was before the callback. *)
Theorem unparsable_response_terminates now c frame k str f :
  pc c = L_call (frame, k) str ->
  parse_fault k str = Some f ->
  exists c',
    step (A_loop now) c = Some c' /\
    pc c' = L_terminate f /\
    self (machine c') = self (machine c) /\
    trace (machine c') = trace (machine c) ++ [EvInvoke (frame, k) str] /\
    forall a, step a c' = None.
Proof.
  intros Hpc Hf. unfold step, alive, loop_step. rewrite Hpc. cbn [negb snd].
  unfold continue. erewrite bind_ret by reflexivity.
  rewrite (run_parse_fault k str f _ Hf).
  eexists. split; [reflexivity|]. cbn.
  repeat split.
Qed.

(** *** One round trip *)

Lemma loop_step_drain now c frame f q :
  pc c = L_drain ->
  writeQueue (self (machine c)) = (frame, f) :: q ->
  exists c' t,
    step (A_loop now) c = Some c' /\
    trace (machine c') = trace (machine c) ++ t /\ silent t /\
    ((exchange_fails frame (machine c) = true /\
      pc c' = L_drain /\
      writeQueue (self (machine c')) = [] /\
      error_ (self (machine c')) = true) \/
     (exchange_fails frame (machine c) = false /\
      (exists str, pc c' = L_call (frame, f) str) /\
      self (machine c') = self (machine c) /\
      failures t = [])).
Proof.
  intros Hpc Hq. unfold step, alive, loop_step. rewrite Hpc, Hq. cbn [negb].
  destruct c as [[o w fl tr] l ws]. destruct o.
  cbn in Hpc, Hq. subst l writeQueue0.
  unfold exchange_fails, continue, bind, socket_write, socket_read,
    raise_error, discard, modify, emit, get, ret, bind. cbn.
  destruct (Socket.writeToSocket sock socket0 frame w) as [[] w1]; cbn.
  - destruct (Socket.readFromSocket sock socket0 w1) as [str w2]; cbn.
    destruct (Nat.eqb (String.length str) 0); cbn.
    + eexists. eexists. split; [reflexivity|]. cbn.
      split; [rewrite <- !app_assoc; cbn; reflexivity|].
      split; [split; reflexivity|]. left. auto.
    + eexists. eexists. split; [reflexivity|]. cbn.
      split; [rewrite <- !app_assoc; cbn; reflexivity|].
      split; [split; reflexivity|]. right. repeat split. eauto.
  - eexists. eexists. split; [reflexivity|]. cbn.
    split; [rewrite <- !app_assoc; cbn; reflexivity|].
    split; [split; reflexivity|]. left. auto.
Qed.

(** *** While the error flag is set *)

Lemma tame_modify u : keeps u -> tame (modify u).
Proof.
  intros Hu m. cbn. destruct (Hu (self m)) as (Q & E & S).
  repeat split; try assumption.
  exists []. cbn. rewrite !app_nil_r. repeat split; assumption.
Qed.

Lemma tame_refresh now : tame (refresh now).
Proof.
  unfold refresh, sendGetPosition, sendGetQueueSize, sendGetRepeat,
    sendGetShuffle, sendGetSong, sendGetSongIdx, sendGetSubQueueSize,
    sendGetStatus, sendGetVolume.
  repeat (apply tame_bind; [apply tame_addToWriteQueue | intros _]).
  apply tame_modify. keeps_tac.
Qed.

Lemma tame_exit : tame exit.
Proof. apply tame_modify. keeps_tac. Qed.

Lemma tame_wait_request d s f :
  tame (bind (set_done d false) (fun _ => addToWriteQueue s f)).
Proof. tame_tac. Qed.

Lemma extends_in_error m m' :
  extends m m' -> error_ (self m) = true ->
  error_ (self m') = true /\
  net m' = net m /\
  writeQueue (self m') = writeQueue (self m) /\
  socket_io (trace m') = socket_io (trace m).
Proof.
  intros (N & E & S & t & T & L & Q & D) He.
  destruct (local_events t L) as (_ & Hio & _).
  repeat split; try congruence.
  - rewrite Q, D by exact He. apply app_nil_r.
  - rewrite T, socket_io_app, Hio. apply app_nil_r.
Qed.

Lemma continue_in_error A (act : M A) next c :
  tame act -> error_ (self (machine c)) = true ->
  let c' := continue act next c in
  error_ (self (machine c')) = true /\
  net (machine c') = net (machine c) /\
  writeQueue (self (machine c')) = writeQueue (self (machine c)) /\
  socket_io (trace (machine c')) = socket_io (trace (machine c)) /\
  waiters c' = waiters c /\
  ((exists a, pc c' = next a) \/ exists f, pc c' = L_terminate f).
Proof.
  intros Ht He. unfold continue. specialize (Ht (machine c)).
  destruct (act (machine c)) as [a m'|f m'];
    destruct (extends_in_error _ _ Ht He) as (H1 & H2 & H3 & H4);
    cbn; repeat split; eauto.
Qed.

Lemma call_in_error e str next c :
  error_ (self (machine c)) = true ->
  let c' := continue (bind (emit (EvInvoke e str)) (fun _ => run (snd e) str))
                     next c in
  error_ (self (machine c')) = true /\
  net (machine c') = net (machine c) /\
  socket_io (trace (machine c')) = socket_io (trace (machine c)).
Proof.
  intros He. unfold continue. erewrite bind_ret by reflexivity.
  pose proof (tame_run (snd e) str (with_event (EvInvoke e str) (machine c))) as Ht.
  destruct (run (snd e) str _) as [a m'|f m'];
    destruct (extends_in_error _ _ Ht He) as (H1 & H2 & H3 & H4);
    cbn; repeat split; try assumption;
    rewrite H4; cbn; rewrite socket_io_app; cbn; apply app_nil_r.
Qed.

Lemma relock_in_error c :
  error_ (self (machine c)) = true ->
  let c' := continue
              (bind (modify (fun o => set_writeQueue (tl (writeQueue o)) o))
                    (fun _ => bind (get error_) (fun err => when err discard)))
              (fun _ => L_drain) c in
  pc c' = L_drain /\
  error_ (self (machine c')) = true /\
  writeQueue (self (machine c')) = [] /\
  net (machine c') = net (machine c) /\
  socket_io (trace (machine c')) = socket_io (trace (machine c)).
Proof.
  intros He. destruct c as [[o w fl tr] l ws]. destruct o. cbn in He. subst.
  cbn. repeat split. rewrite socket_io_app. cbn. apply app_nil_r.
Qed.

Lemma gated_with_waiter d w c :
  gated c -> (forall e k, w <> W_lock e k) -> gated (with_waiter d w c).
Proof.
  intros (He & Hq & Hw) Hn. repeat split; try assumption.
  cbn. intros Hpc d' e k. destruct (Nat.eqb d' d); [apply Hn | now apply Hw].
Qed.

(** With the gate shut, whatever runs next (short of a reconnect) leaves
    it shut, and nothing goes over the socket. *)
Lemma step_gated a c c' :
  gated c -> a <> A_reconnect -> step a c = Some c' ->
  gated c' /\
  net (machine c') = net (machine c) /\
  socket_io (trace (machine c')) = socket_io (trace (machine c)).
Proof.
  intros (He & Hq & Hw) Ha. unfold step.
  destruct (alive c); cbn [negb]; [|discriminate].
  assert (Hkeep : forall A (act : M A), tame act ->
            let c1 := continue act (fun _ => pc c) c in
            gated c1 /\ net (machine c1) = net (machine c) /\
            socket_io (trace (machine c1)) = socket_io (trace (machine c)) /\
            error_ (self (machine c1)) = true).
  { intros A act Ht.
    destruct (continue_in_error A act (fun _ => pc c) c Ht He)
      as (H1 & H2 & H3 & H4 & H6 & H5).
    repeat split; try assumption.
    - intros Hpc. rewrite H3. apply Hq.
      destruct H5 as [[_ H5]|[f H5]]; rewrite H5 in Hpc; [exact Hpc|].
      destruct Hpc; discriminate.
    - intros Hpc. rewrite H6. apply Hw.
      destruct H5 as [[_ H5]|[f H5]]; rewrite H5 in Hpc; [exact Hpc|].
      discriminate. }
  destruct a as [now|r| | | | |d|d|d|d r|k d].
  - unfold loop_step. destruct (pc c) eqn:Epc; try discriminate.
    + intros [= <-]. rewrite He. unfold gated. cbn.
      repeat split; try assumption;
        destruct (exit_ _); intros H; first [discriminate H | destruct H as [H|H]; discriminate H].
    + intros [= <-]. unfold gated. cbn. repeat split; auto; discriminate.
    + rewrite (Hq (or_intror eq_refl)). intros [= <-].
      unfold gated. cbn. repeat split; try assumption;
        intros H; first [discriminate H | destruct H as [H|H]; discriminate H].
    + intros [= <-].
      destruct (call_in_error e str (fun _ => L_relock) c He) as (H1 & H2 & H3).
      repeat split; try assumption;
        unfold continue; destruct (bind _ _ (machine c)); cbn;
        intros H; first [discriminate H | destruct H as [H|H]; discriminate H].
    + intros [= <-].
      destruct (relock_in_error c He) as (H1 & H2 & H3 & H4 & H5).
      repeat split; try assumption; [intros _; assumption|].
      rewrite H1. discriminate.
    + intros [= <-].
      assert (Ht : tame (if UPDATE_DELAY <? now - lastUpdateTime (self (machine c))
                         then refresh now else ret tt)).
      { destruct (_ <? _); [apply tame_refresh | apply tame_ret]. }
      destruct (continue_in_error _ _ (fun _ => L_top) c Ht He)
        as (H1 & H2 & H3 & H4 & _ & H5).
      repeat split; try assumption;
        intros Hpc; destruct H5 as [[_ H5]|[f H5]]; rewrite H5 in Hpc;
        first [discriminate Hpc | destruct Hpc as [Hpc|Hpc]; discriminate Hpc].
  - destruct (can_enqueue c); [|discriminate]. intros [= <-].
    destruct (Hkeep _ _ (tame_perform r)) as (H1 & H2 & H3 & _). auto.
  - intros [= <-]. destruct (Hkeep _ _ tame_queueChanged) as (H1 & H2 & H3 & _).
    auto.
  - intros [= <-].
    destruct (Hkeep _ _ tame_subQueueChanged) as (H1 & H2 & H3 & _). auto.
  - intros [= <-]. destruct (Hkeep _ _ tame_exit) as (H1 & H2 & H3 & _). auto.
  - congruence.
  - unfold wait_call. destruct (waiters c d); try discriminate.
    destruct (can_enqueue c); [|discriminate]. intros [= <-].
    destruct (Hkeep _ _ (tame_wait_request d (opcode Protocol.Reset)
                           (K_waitReset d))) as (H1 & H2 & H3 & _).
    split; [|now split]. apply gated_with_waiter; [exact H1 | discriminate].
  - unfold wait_call. destruct (waiters c d); try discriminate.
    destruct (can_enqueue c); [|discriminate]. intros [= <-].
    destruct (Hkeep _ _ (tame_wait_request d (opcode Protocol.QueueIdx)
                           (K_waitSongIdx d))) as (H1 & H2 & H3 & _).
    split; [|now split]. apply gated_with_waiter; [exact H1 | discriminate].
  - unfold wait_step. intros H.
    destruct (waiters c d) as [|k|k| |e k] eqn:Ew; try discriminate.
    + assert (Hc : exists w, c' = with_waiter d w c /\
                             forall e k, w <> W_lock e k).
      { destruct (flags (machine c) d); injection H as <-;
          eexists; (split; [reflexivity | discriminate]). }
      destruct Hc as (w & -> & Hn). split; [|now split].
      apply gated_with_waiter; [now repeat split | exact Hn].
    + assert (Hc : exists w, c' = with_waiter d w c /\
                             forall e k, w <> W_lock e k).
      { destruct k; [|destruct (error_ (self (machine c)))];
          injection H as <-; eexists; (split; [reflexivity | discriminate]). }
      destruct Hc as (w & -> & Hn). split; [|now split].
      apply gated_with_waiter; [now repeat split | exact Hn].
    + destruct (mutex_free c) eqn:Em; [|discriminate]. injection H as <-.
      assert (Hpc : pc c <> L_lock /\ pc c <> L_drain).
      { split; intros Hpc.
        - exact (Hw Hpc d e k Ew).
        - unfold mutex_free in Em. rewrite Hpc in Em. discriminate. }
      destruct Hpc as [Hp1 Hp2].
      unfold gated, consumer, continue, push, bind, modify, emit. cbn.
      repeat split.
      * destruct (self (machine c)). exact He.
      * intros [H|H]; contradiction.
      * intros H; contradiction.
      * fold (socket_io (trace (machine c) ++ [EvEnqueue e])).
        rewrite socket_io_app. cbn. apply app_nil_r.
  - intros H. apply enter_call_inv in H as [_ ->].
    assert (Ht : tame (prelude r)).
    { destruct (prelude_cases r) as [(pos & _ & ->)|[_ ->]];
        [apply tame_assign; keeps_tac | apply tame_ret]. }
    destruct (Hkeep _ _ Ht) as (H1 & H2 & H3 & H4).
    unfold consumer. rewrite H4. split; [|now split].
    apply gated_with_waiter; [exact H1 | discriminate].
  - intros H. apply enter_call_inv in H as [_ ->].
    destruct (Hkeep _ _ (tame_set_done d false)) as (H1 & H2 & H3 & H4).
    unfold consumer. rewrite H4. split; [|now split].
    apply gated_with_waiter; [exact H1 | discriminate].
Qed.

Lemma exec_gated sched : forall c c',
  gated c -> ~ In A_reconnect sched -> exec sched c = Some c' ->
  gated c' /\
  net (machine c') = net (machine c) /\
  socket_io (trace (machine c')) = socket_io (trace (machine c)).
Proof.
  induction sched as [|a sched IH]; intros c c' Hg Hn; cbn [exec].
  - intros [= <-]. auto.
  - destruct (step a c) as [c1|] eqn:E; [|discriminate]. intros Hx.
    destruct (step_gated a c c1 Hg) as (Hg1 & N1 & S1); [|exact E|].
    { intros ->. apply Hn. now left. }
    destruct (IH c1 c' Hg1) as (Hg2 & N2 & S2); [|exact Hx|].
    { intros H. apply Hn. now right. }
    repeat split; try apply Hg2; congruence.
Qed.

(** *** The handshake *)

(** A version reply that is empty, or an [int] other than the client's
    version, makes [reconnect] return with the error flag set; the queue is
    not touched. *)
Lemma reconnect_rejected m :
  (handshake_reply m = "" \/
   exists ver, stoi (handshake_reply m) = inr ver /\ ver <> Protocol.version P) ->
  exists m', reconnect m = Ret tt m' /\
    error_ (self m') = true /\
    writeQueue (self m') = writeQueue (self m).
Proof.
  unfold handshake_reply, reconnect, bind, get, when, socket_close,
    socket_create, modify, socket_setTimeout, socket_write, socket_read,
    raise_error, emit, bind, ret, call.
  destruct m as [o w fl tr]. destruct o. cbn.
  destruct (0 <=? socket0); cbn;
    destruct (Socket.createSocket sock (Protocol.Port P) _) as [fd w1]; cbn;
    destruct (Socket.writeToSocket sock fd _ _) as [ok w2]; cbn;
    destruct (Socket.readFromSocket sock fd w2) as [str w3]; cbn;
    (intros [->|(ver & Hs & Hv)];
     [ cbn; eexists; repeat split
     | rewrite Hs; apply Z.eqb_neq in Hv; cbn;
       destruct (0 <? Z.of_nat (String.length str)); cbn;
       [rewrite Hv; cbn|]; eexists; repeat split ]).
Qed.

(** The error flag, once set, stays set until somebody reconnects. *)
Lemma step_error_sticky a c c' :
  error_ (self (machine c)) = true -> a <> A_reconnect ->
  step a c = Some c' -> error_ (self (machine c')) = true.
Proof.
  intros He Ha. unfold step. destruct (alive c); cbn [negb]; [|discriminate].
  assert (Hkeep : forall A (act : M A) next, tame act ->
            error_ (self (machine (continue act next c))) = true).
  { intros A act next Ht. now destruct (continue_in_error A act next c Ht He). }
  destruct a as [now|r| | | | |d|d|d|d r|k d].
  - unfold loop_step. destruct (pc c) eqn:Epc; try discriminate.
    + now intros [= <-].
    + now intros [= <-].
    + destruct (writeQueue (self (machine c))) as [|[frame f] q] eqn:Eq.
      * now intros [= <-].
      * intros Hs.
        destruct (loop_step_drain now c frame f q Epc Eq)
          as (c1 & t & Hs1 & _ & _ & Hcase).
        unfold step, alive, loop_step in Hs1. rewrite Epc, Eq in Hs1.
        cbn [negb] in Hs1. rewrite Hs1 in Hs. injection Hs as <-.
        destruct Hcase as [(_ & _ & _ & H)|(_ & _ & H & _)]; [exact H|].
        now rewrite H.
    + intros [= <-]. now destruct (call_in_error e str (fun _ => L_relock) c He).
    + intros [= <-]. now destruct (relock_in_error c He) as (_ & H & _).
    + intros [= <-]. apply Hkeep.
      destruct (_ <? _); [apply tame_refresh | apply tame_ret].
  - destruct (can_enqueue c); [|discriminate]. intros [= <-].
    apply Hkeep, tame_perform.
  - intros [= <-]. apply Hkeep, tame_queueChanged.
  - intros [= <-]. apply Hkeep, tame_subQueueChanged.
  - intros [= <-]. apply Hkeep, tame_exit.
  - congruence.
  - unfold wait_call. destruct (waiters c d); try discriminate.
    destruct (can_enqueue c); [|discriminate]. intros [= <-].
    apply (Hkeep _ _ _ (tame_wait_request d _ _)).
  - unfold wait_call. destruct (waiters c d); try discriminate.
    destruct (can_enqueue c); [|discriminate]. intros [= <-].
    apply (Hkeep _ _ _ (tame_wait_request d _ _)).
  - unfold wait_step. intros H.
    destruct (waiters c d) as [|k|[]| |e k]; try discriminate;
      [ | | | destruct (mutex_free c); [|discriminate]; injection H as <-;
              destruct c as [[[] ? ? ?] ? ?]; exact He ];
      repeat match type of H with
             | context [if ?b then _ else _] => destruct b eqn:?
             end;
      injection H as <-; cbn; congruence.
  - intros H. apply enter_call_inv in H as [_ ->].
    cbn [with_waiter machine]. apply Hkeep.
    destruct (prelude_cases r) as [(pos & _ & ->)|[_ ->]];
      [apply tame_assign; keeps_tac | apply tame_ret].
  - intros H. apply enter_call_inv in H as [_ ->].
    cbn [with_waiter machine]. apply Hkeep, tame_set_done.
Qed.

Lemma exec_error_sticky sched : forall c c',
  error_ (self (machine c)) = true -> ~ In A_reconnect sched ->
  exec sched c = Some c' -> error_ (self (machine c')) = true.
Proof.
  induction sched as [|a sched IH]; intros c c' He Hn; cbn [exec].
  - now intros [= <-].
  - destruct (step a c) as [c1|] eqn:E; [|discriminate].
    apply IH.
    + apply (step_error_sticky a c c1 He); [|exact E].
      intros ->. apply Hn. now left.
    + intros H. apply Hn. now right.
Qed.

(** X26: the handshake gate, where it holds.  If the server's reply to
    the version query is empty or an [int] other than the client's
    compiled-in version, [reconnect] leaves the error flag set; as long as
    nobody reconnects, the flag stays set and every call of
    [addToWriteQueue] that starts is dropped, leaving the machine as it
    was.  The processing loop does no further socket I/O (the traffic and
    the world are as the handshake left them), provided the handshake did
    not catch it between its test of the flag and the lock while requests
    were pending or a call stood between its own test of the flag and the
    lock. *)
Theorem handshake_gate c :
  alive c = true ->
  mutex_free c = true ->
  (handshake_reply (machine c) = "" \/
   exists ver, stoi (handshake_reply (machine c)) = inr ver /\
               ver <> Protocol.version P) ->
  exists c1,
    step A_reconnect c = Some c1 /\
    error_ (self (machine c1)) = true /\
    forall sched c2,
      ~ In A_reconnect sched ->
      exec sched c1 = Some c2 ->
      error_ (self (machine c2)) = true /\
      (forall s f, addToWriteQueue s f (machine c2) = Ret tt (machine c2)) /\
      ((pc c = L_lock ->
        writeQueue (self (machine c)) = [] /\
        forall d e k, waiters c d <> W_lock e k) ->
       socket_io (trace (machine c2)) = socket_io (trace (machine c1)) /\
       net (machine c2) = net (machine c1)).
Proof.
  intros Ha Hm Hbad.
  destruct (reconnect_rejected (machine c) Hbad) as (m' & Hr & He & Hw).
  unfold step. rewrite Ha, Hm. cbn [negb].
  unfold consumer, continue. rewrite Hr.
  eexists. split; [reflexivity|]. cbn [machine]. split; [exact He|].
  intros sched c2 Hn Hx.
  pose proof (exec_error_sticky sched _ c2 (He : error_ (self (machine {| machine := m'; pc := pc c; waiters := waiters c |})) = true) Hn Hx) as He2.
  split; [exact He2|]. split.
  - intros s f. now apply addToWriteQueue_dropped.
  - intros Hq.
    match type of Hx with exec _ ?c1 = _ => assert (Hg : gated c1) end.
    { split; [exact He|]. cbn. rewrite Hw. split.
      - intros [H|H]; [now apply Hq|].
        unfold mutex_free in Hm. rewrite H in Hm. discriminate.
      - intros H. now apply Hq. }
    destruct (exec_gated sched _ c2 Hg Hn Hx) as (_ & N & S). now split.
Qed.

(** *** The blocking helpers *)

Lemma discreet_flags A (act : M A) :
  discreet act ->
  forall m, match act m with
            | Ret _ m' => flags m' = flags m
            | Raise _ m' => flags m' = flags m
            end.
Proof.
  intros H m. specialize (H m). destruct (act m); exact (proj2 H).
Qed.

Lemma perform_flags r m :
  match perform r m with
  | Ret _ m' => flags m' = flags m
  | Raise _ m' => flags m' = flags m
  end.
Proof.
  destruct r; try (apply discreet_flags, discreet_perform; discriminate).
  cbn [perform]. unfold sendSetPosition. erewrite bind_ret by reflexivity.
  match goal with
  | |- context [addToWriteQueue ?s ?f ?m1] =>
      pose proof (discreet_addToWriteQueue s f m1) as H;
      destruct (addToWriteQueue s f m1); exact (proj2 H)
  end.
Qed.

Lemma continue_flags A (act : M A) next c :
  (forall m, match act m with
             | Ret _ m' => flags m' = flags m
             | Raise _ m' => flags m' = flags m
             end) ->
  flags (machine (continue act next c)) = flags (machine c).
Proof.
  intros H. unfold continue. specialize (H (machine c)).
  destruct (act (machine c)); exact H.
Qed.

Lemma discreet_exit : discreet exit.
Proof. unfold exit. discreet_tac. Qed.

(** With the error flag set and the loop parked, a [waitReset] that is
    polling keeps polling: nothing can flip its flag. *)
Lemma step_polling d a c c' :
  error_ (self (machine c)) = true -> parked c ->
  flags (machine c) d = false -> polling d c ->
  a <> A_reconnect -> step a c = Some c' ->
  error_ (self (machine c')) = true /\ parked c' /\
  flags (machine c') d = false /\ polling d c'.
Proof.
  intros He Hp Hf Hw Ha. unfold step.
  destruct (alive c); cbn [negb]; [|discriminate].
  assert (Hkeep : forall A (act : M A), tame act ->
            (forall m, match act m with
                       | Ret _ m' => flags m' = flags m
                       | Raise _ m' => flags m' = flags m
                       end) ->
            let c1 := continue act (fun _ => pc c) c in
            error_ (self (machine c1)) = true /\ parked c1 /\
            flags (machine c1) d = false /\ polling d c1).
  { intros A act Ht Hfl.
    destruct (continue_in_error A act (fun _ => pc c) c Ht He)
      as (H1 & _ & _ & _ & H2 & H3).
    pose proof (continue_flags A act (fun _ => pc c) c Hfl) as H4.
    cbv zeta. repeat split.
    - exact H1.
    - unfold parked. destruct H3 as [[_ ->]|[f ->]]; [exact Hp | exact I].
    - now rewrite H4.
    - unfold polling. now rewrite H2. }
  destruct a as [now|r| | | | |d'|d'|d'|d' r|k d'].
  - unfold loop_step, parked in *. destruct (pc c) eqn:Epc; try contradiction;
      try discriminate.
    intros [= <-]. rewrite He. cbn. unfold parked. cbn.
    repeat split; try assumption. now destruct (exit_ _).
  - destruct (can_enqueue c); [|discriminate]. intros [= <-].
    apply Hkeep; [apply tame_perform | apply perform_flags].
  - intros [= <-].
    apply Hkeep; [apply tame_queueChanged | apply discreet_flags, discreet_queueChanged].
  - intros [= <-].
    apply Hkeep; [apply tame_subQueueChanged | apply discreet_flags, discreet_subQueueChanged].
  - intros [= <-].
    apply Hkeep; [apply tame_exit | apply discreet_flags, discreet_exit].
  - congruence.
  - unfold wait_call. destruct (waiters c d') eqn:Ew; try discriminate.
    destruct (can_enqueue c); [|discriminate]. intros [= <-].
    assert (Hd : Nat.eqb d d' = false).
    { apply Nat.eqb_neq. intros ->. destruct Hw as [H|H]; congruence. }
    match goal with
    | |- context [consumer ?act c] =>
        destruct (continue_in_error _ act (fun _ => pc c) c
                    (tame_wait_request d' _ _) He)
          as (H1 & _ & _ & _ & H2 & H3)
    end.
    repeat split.
    + exact H1.
    + unfold parked. cbn [with_waiter pc]. unfold consumer.
      destruct H3 as [[_ ->]|[f ->]]; [exact Hp | exact I].
    + cbn [with_waiter machine]. unfold consumer, continue.
      erewrite bind_ret by reflexivity.
      match goal with
      | |- context [addToWriteQueue ?s ?f ?m1] =>
          pose proof (discreet_addToWriteQueue s f m1) as H;
          destruct (addToWriteQueue s f m1); destruct H as [_ H];
          cbn; rewrite H; cbn; now rewrite Hd
      end.
    + unfold polling. cbn [with_waiter waiters]. rewrite Hd.
      unfold consumer. rewrite H2. exact Hw.
  - unfold wait_call. destruct (waiters c d') eqn:Ew; try discriminate.
    destruct (can_enqueue c); [|discriminate]. intros [= <-].
    assert (Hd : Nat.eqb d d' = false).
    { apply Nat.eqb_neq. intros ->. destruct Hw as [H|H]; congruence. }
    match goal with
    | |- context [consumer ?act c] =>
        destruct (continue_in_error _ act (fun _ => pc c) c
                    (tame_wait_request d' _ _) He)
          as (H1 & _ & _ & _ & H2 & H3)
    end.
    repeat split.
    + exact H1.
    + unfold parked. cbn [with_waiter pc]. unfold consumer.
      destruct H3 as [[_ ->]|[f ->]]; [exact Hp | exact I].
    + cbn [with_waiter machine]. unfold consumer, continue.
      erewrite bind_ret by reflexivity.
      match goal with
      | |- context [addToWriteQueue ?s ?f ?m1] =>
          pose proof (discreet_addToWriteQueue s f m1) as H;
          destruct (addToWriteQueue s f m1); destruct H as [_ H];
          cbn; rewrite H; cbn; now rewrite Hd
      end.
    + unfold polling. cbn [with_waiter waiters]. rewrite Hd.
      unfold consumer. rewrite H2. exact Hw.
  - unfold wait_step. destruct (Nat.eqb d d') eqn:Hd.
    + apply Nat.eqb_eq in Hd. subst d'. unfold polling in *.
      destruct Hw as [Hw|Hw]; rewrite Hw.
      * rewrite Hf. intros [= <-]. cbn. rewrite Nat.eqb_refl. auto.
      * intros [= <-]. cbn. rewrite Nat.eqb_refl. auto.
    + intros H.
      destruct (waiters c d') as [|k|k| |e k]; try discriminate.
      * assert (Hm : machine c' = machine c /\ pc c' = pc c /\
                     waiters c' d = waiters c d).
        { destruct (flags (machine c) d'); injection H as <-; cbn;
            rewrite Hd; auto. }
        destruct Hm as (Hm & Hpc & Hwd).
        unfold parked, polling. rewrite Hm, Hpc, Hwd. auto.
      * assert (Hm : machine c' = machine c /\ pc c' = pc c /\
                     waiters c' d = waiters c d).
        { destruct k; [|destruct (error_ (self (machine c)))];
            injection H as <-; cbn; rewrite Hd; auto. }
        destruct Hm as (Hm & Hpc & Hwd).
        unfold parked, polling. rewrite Hm, Hpc, Hwd. auto.
      * destruct (mutex_free c); [|discriminate]. injection H as <-.
        unfold parked, polling in *. destruct c as [[[] ? ? ?] ? ?].
        cbn in *. rewrite Hd. auto.
  - intros H. apply enter_call_inv in H as [Hn ->].
    assert (Hd : Nat.eqb d d' = false).
    { apply Nat.eqb_neq. intros ->. destruct Hw as [H|H]; congruence. }
    unfold parked, polling in *.
    destruct (prelude_cases r) as [(pos & _ & ->)|[_ ->]];
      destruct c as [[[] ? ? ?] ? ?]; cbn in *; rewrite Hd; auto.
  - intros H. apply enter_call_inv in H as [Hn ->].
    assert (Hd : Nat.eqb d d' = false).
    { apply Nat.eqb_neq. intros ->. destruct Hw as [H|H]; congruence. }
    unfold parked, polling in *.
    destruct c as [[[] ? ? ?] ? ?]; cbn in *; rewrite Hd; auto.
Qed.


Lemma exec_polling d sched : forall c c',
  error_ (self (machine c)) = true -> parked c ->
  flags (machine c) d = false -> polling d c ->
  ~ In A_reconnect sched -> exec sched c = Some c' ->
  polling d c'.
Proof.
  induction sched as [|a sched IH]; intros c c' He Hp Hf Hw Hn; cbn [exec].
  - now intros [= <-].
  - destruct (step a c) as [c1|] eqn:E; [|discriminate]. intros Hx.
    destruct (step_polling d a c c1 He Hp Hf Hw) as (He1 & Hp1 & Hf1 & Hw1);
      [|exact E|].
    { intros ->. apply Hn. now left. }
    apply (IH c1 c' He1 Hp1 Hf1 Hw1); [|exact Hx].
    intros H. apply Hn. now right.
Qed.

(** C8 (where the code departs from it): [waitReset] called while the error
    flag is set never returns.  Its request is dropped, its loop tests
    nothing but [done], and nothing can set [done]: whatever the other
    threads do, short of a reconnect, the call is still polling. *)
Theorem waitReset_waits_forever d sched c c' :
  error_ (self (machine c)) = true ->
  pc c = L_top ->
  waiters c d = W_none ->
  ~ In A_reconnect sched ->
  exec (A_waitReset d :: sched) c = Some c' ->
  polling d c'.
Proof.
  intros He Hpc Hw Hn. cbn [exec]. unfold step, alive, wait_call, can_enqueue.
  rewrite Hpc, Hw, He. cbn [negb orb].
  unfold consumer, continue. erewrite bind_ret by reflexivity.
  rewrite addToWriteQueue_dropped by exact He.
  apply exec_polling; cbn; try assumption.
  - unfold parked. cbn. now rewrite Hpc.
  - now rewrite Nat.eqb_refl.
  - unfold polling. cbn. rewrite Nat.eqb_refl. now left.
Qed.

(** [waitSongIdx], its sibling, does test the error flag: called in the
    same situation it returns the sentinel at the end of its first sleep. *)
Lemma waitSongIdx_returns_sentinel d c :
  error_ (self (machine c)) = true ->
  pc c = L_top ->
  waiters c d = W_none ->
  exists c',
    exec [A_waitSongIdx d; A_wait_step d; A_wait_step d] c = Some c' /\
    waiters c' d = W_returned (Some SIZE_MAX).
Proof.
  intros He Hpc Hw. cbn [exec]. unfold step, alive, wait_call, can_enqueue.
  rewrite Hpc, Hw, He. cbn [negb orb].
  unfold consumer, continue. erewrite bind_ret by reflexivity.
  rewrite addToWriteQueue_dropped by exact He.
  cbn. rewrite Hpc. cbn. unfold wait_step. cbn. rewrite Nat.eqb_refl.
  cbn. rewrite Nat.eqb_refl. cbn. rewrite He.
  eexists. split; [reflexivity|]. cbn. now rewrite Nat.eqb_refl.
Qed.

(** *** Every step is one of the moves *)

Lemma continue_moves A (act : M A) next c :
  tame act ->
  (forall a, next a = pc c \/ (pc c = L_refresh /\ next a = L_top)) ->
  moves c (continue act next c).
Proof.
  intros Ht Hn. apply mv_local.
  - unfold continue. specialize (Ht (machine c)).
    destruct (act (machine c)); exact Ht.
  - unfold continue. destruct (act (machine c)) as [a m'|f m']; cbn; [|eauto].
    destruct (Hn a) as [H|H]; auto.
Qed.

Lemma consumer_moves A (act : M A) c : tame act -> moves c (consumer act c).
Proof. intros Ht. apply continue_moves; auto. Qed.

Lemma relock_clear m :
  error_ (self m) = false ->
  bind (modify (fun o => set_writeQueue (tl (writeQueue o)) o))
       (fun _ => bind (get error_) (fun err => when err discard)) m
  = Ret tt (with_self (set_writeQueue (tl (writeQueue (self m))) (self m)) m).
Proof.
  intros He. destruct m as [o w fl tr]. destruct o. cbn in He. subst. reflexivity.
Qed.

Lemma relock_moves c :
  pc c = L_relock ->
  moves c (continue
             (bind (modify (fun o => set_writeQueue (tl (writeQueue o)) o))
                   (fun _ => bind (get error_) (fun err => when err discard)))
             (fun _ => L_drain) c).
Proof.
  intros Hpc. destruct c as [[o w fl tr] l ws]. destruct o.
  cbn in Hpc. subst l. destruct error_0.
  - eapply mv_popped with (t := [EvDiscard _]); cbn; try reflexivity.
    + split; reflexivity.
    + discriminate.
  - eapply mv_popped with (t := []); cbn; try reflexivity.
    + now rewrite app_nil_r.
    + split; reflexivity.
    + auto.
    + discriminate.
Qed.

Lemma drain_moves frame f q c :
  pc c = L_drain ->
  writeQueue (self (machine c)) = (frame, f) :: q ->
  moves c
    (continue
       (bind (socket_write frame)
          (fun ok =>
             if negb ok
             then bind raise_error (fun _ => bind discard (fun _ => ret L_drain))
             else bind socket_read
                    (fun str =>
                       if Nat.eqb (String.length str) 0
                       then bind raise_error
                              (fun _ => bind discard (fun _ => ret L_drain))
                       else ret (L_call (frame, f) str))))
       (fun l => l) c).
Proof.
  intros Hpc Hq. destruct c as [[o w fl tr] l ws]. destruct o.
  cbn in Hpc, Hq. subst l writeQueue0.
  unfold continue, bind, socket_write, socket_read, raise_error, discard,
    modify, emit, get, ret, bind. cbn.
  destruct (Socket.writeToSocket sock socket0 frame w) as [[] w1]; cbn.
  - destruct (Socket.readFromSocket sock socket0 w1) as [str w2]; cbn.
    destruct (Nat.eqb (String.length str) 0); cbn.
    + eapply mv_failed; cbn; try reflexivity.
      * rewrite <- !app_assoc. cbn. reflexivity.
      * split; reflexivity.
      * discriminate.
    + eapply mv_sent; cbn; try reflexivity.
      * rewrite <- !app_assoc. cbn. reflexivity.
      * split; reflexivity.
      * reflexivity.
  - eapply mv_failed; cbn; try reflexivity.
    + rewrite <- !app_assoc. cbn. reflexivity.
    + split; reflexivity.
    + discriminate.
Qed.

Lemma call_moves e str c :
  pc c = L_call e str ->
  moves c (continue (bind (emit (EvInvoke e str)) (fun _ => run (snd e) str))
                    (fun _ => L_relock) c).
Proof.
  intros Hpc. apply mv_called with (e := e) (str := str); [exact Hpc| |].
  - unfold continue. erewrite bind_ret by reflexivity.
    pose proof (tame_run (snd e) str (with_event (EvInvoke e str) (machine c))) as Ht.
    destruct (run (snd e) str _); exact Ht.
  - unfold continue. destruct (bind _ _ (machine c)); cbn; eauto.
Qed.

Lemma reconnect_effect m :
  match reconnect m with
  | Ret _ m' =>
      writeQueue (self m') = writeQueue (self m) /\
      exists t, trace m' = trace m ++ t /\ silent t /\
                (failures t = [] -> error_ (self m') = false)
  | Raise _ m' =>
      writeQueue (self m') = writeQueue (self m) /\
      exists t, trace m' = trace m ++ t /\ silent t
  end.
Proof.
  unfold reconnect, bind, get, when, socket_close, socket_create, modify,
    socket_setTimeout, socket_write, socket_read, raise_error, emit, bind,
    ret, call, throw.
  destruct m as [o w fl tr]. destruct o. cbn.
  destruct (0 <=? socket0); cbn;
    destruct (Socket.createSocket sock (Protocol.Port P) _) as [fd w1]; cbn;
    destruct (Socket.writeToSocket sock fd _ _) as [ok w2]; cbn;
    destruct (Socket.readFromSocket sock fd w2) as [str w3]; cbn;
    destruct (0 <? Z.of_nat (String.length str)); cbn;
    try destruct (stoi str) as [flt|ver]; cbn;
    try destruct (negb (ver =? Protocol.version P)); cbn;
    (split; [reflexivity|]); eexists;
    (split; [rewrite <- ?app_assoc; cbn; reflexivity|]);
    repeat split; try reflexivity; cbn; try discriminate.
Qed.

Lemma reconnect_moves c : alive c = true -> moves c (consumer reconnect c).
Proof.
  intros Ha. unfold consumer, continue.
  pose proof (reconnect_effect (machine c)) as H.
  destruct (reconnect (machine c)) as [[] m'|f m'].
  - destruct H as (Hq & t & Ht & Hs & He).
    eapply mv_reconnected with (t := t); cbn; auto.
  - destruct H as (Hq & t & Ht & Hs).
    eapply mv_reconnected with (t := t); cbn; eauto.
    intros _ H. unfold alive in Ha. rewrite <- H in Ha. discriminate.
Qed.

Lemma moves_with_waiter d w c c1 : moves c c1 -> moves c (with_waiter d w c1).
Proof.
  destruct 1;
    [ apply mv_quiet | apply mv_local | eapply mv_sent | eapply mv_failed
    | eapply mv_called | eapply mv_popped | eapply mv_reconnected
    | eapply mv_pushed ];
    cbn; eassumption.
Qed.

Lemma push_moves e c : mutex_free c = true -> moves c (consumer (push e) c).
Proof.
  intros Hm. apply mv_pushed with (e := e).
  - reflexivity.
  - intros H. unfold mutex_free in Hm. rewrite H in Hm. discriminate.
  - now destruct c as [[[] ? ? ?] ? ?].
  - now destruct c as [[[] ? ? ?] ? ?].
  - reflexivity.
Qed.

Lemma tame_prelude r : tame (prelude r).
Proof.
  destruct (prelude_cases r) as [(pos & _ & ->)|[_ ->]];
    [apply tame_assign; keeps_tac | apply tame_ret].
Qed.

Lemma step_moves a c c' : step a c = Some c' -> moves c c'.
Proof.
  unfold step. destruct (alive c) eqn:Ha; cbn [negb]; [|discriminate].
  destruct a as [now|r| | | | |d|d|d|d r|k d].
  - unfold loop_step. destruct (pc c) eqn:Epc; try discriminate.
    + intros [= <-]. apply mv_quiet; [reflexivity|]. right. cbn. rewrite Epc.
      split; [exact I|]. destruct (exit_ _); [exact I|]. now destruct (error_ _).
    + intros [= <-]. apply mv_quiet; [reflexivity|]. right. cbn. now rewrite Epc.
    + destruct (writeQueue (self (machine c))) as [|[frame f] q] eqn:Eq.
      * intros [= <-]. apply mv_quiet; [reflexivity|]. right. cbn. now rewrite Epc.
      * intros [= <-]. now apply drain_moves with (q := q).
    + intros [= <-]. now apply call_moves.
    + intros [= <-]. now apply relock_moves.
    + intros [= <-]. apply continue_moves; [|auto].
      destruct (_ <? _); [apply tame_refresh | apply tame_ret].
  - destruct (can_enqueue c); [|discriminate]. intros [= <-].
    apply consumer_moves, tame_perform.
  - intros [= <-]. apply consumer_moves, tame_queueChanged.
  - intros [= <-]. apply consumer_moves, tame_subQueueChanged.
  - intros [= <-]. apply consumer_moves, tame_exit.
  - destruct (mutex_free c); [|discriminate]. intros [= <-].
    now apply reconnect_moves.
  - unfold wait_call. destruct (waiters c d); try discriminate.
    destruct (can_enqueue c); [|discriminate]. intros [= <-].
    apply moves_with_waiter, consumer_moves, tame_wait_request.
  - unfold wait_call. destruct (waiters c d); try discriminate.
    destruct (can_enqueue c); [|discriminate]. intros [= <-].
    apply moves_with_waiter, consumer_moves, tame_wait_request.
  - unfold wait_step. intros H.
    destruct (waiters c d) as [|k|k| |e k]; try discriminate.
    + destruct (flags (machine c) d); injection H as <-; apply mv_quiet; auto.
    + destruct k; [|destruct (error_ (self (machine c)))];
        injection H as <-; apply mv_quiet; auto.
    + destruct (mutex_free c) eqn:Em; [|discriminate]. injection H as <-.
      now apply moves_with_waiter, push_moves.
  - intros H. apply enter_call_inv in H as [_ ->].
    apply moves_with_waiter, consumer_moves, tame_prelude.
  - intros H. apply enter_call_inv in H as [_ ->].
    apply moves_with_waiter, consumer_moves, tame_set_done.
Qed.


(** The trace only grows. *)
Lemma moves_trace c c' :
  moves c c' -> exists t, trace (machine c') = trace (machine c) ++ t.
Proof.
  intros [Hm _|(_ & _ & _ & t & Ht & _) _|e q str t _ _ _ _ Ht _ _
         |t _ _ _ _ Ht _ _|e str _ (_ & _ & _ & t & Ht & _) _
         |t _ _ _ Ht _ _ _|t _ _ Ht _ _|e _ _ _ _ Ht].
  - exists []. now rewrite Hm, app_nil_r.
  - eauto.
  - eauto.
  - eauto.
  - exists (EvInvoke e str :: t). rewrite Ht. cbn. now rewrite <- app_assoc.
  - eauto.
  - eauto.
  - eauto.
Qed.

Lemma exec_trace sched : forall c c',
  exec sched c = Some c' -> exists t, trace (machine c') = trace (machine c) ++ t.
Proof.
  induction sched as [|a sched IH]; intros c c'; cbn [exec].
  - intros [= <-]. exists []. now rewrite app_nil_r.
  - destruct (step a c) as [c1|] eqn:E; [|discriminate]. intros Hx.
    destruct (moves_trace c c1 (step_moves a c c1 E)) as [t1 H1].
    destruct (IH c1 c' Hx) as [t2 H2].
    exists (t1 ++ t2). rewrite H2, H1. now rewrite app_assoc.
Qed.

(** *** First in, first out *)

Lemma fifo_rest c :
  fifo c ->
  exists rest, enqueued (trace (machine c)) = invoked (trace (machine c)) ++ rest.
Proof.
  unfold fifo. destruct (pc c).
  1-3, 6-7: intros [_ H]; eauto.
  - intros [_ (q' & Hq & H)]. eauto.
  - intros [_ (e & q' & Hq & H)]. eauto.
  - trivial.
Qed.

Lemma fifo_plain c :
  fifo c -> plain (pc c) ->
  error_ (self (machine c)) = false /\
  enqueued (trace (machine c))
  = invoked (trace (machine c)) ++ writeQueue (self (machine c)).
Proof. unfold fifo, plain. destruct (pc c); intros H Hp; try contradiction; exact H. Qed.

Lemma plain_fifo c :
  plain (pc c) ->
  error_ (self (machine c)) = false ->
  enqueued (trace (machine c))
  = invoked (trace (machine c)) ++ writeQueue (self (machine c)) ->
  fifo c.
Proof. unfold fifo, plain. destruct (pc c); intros Hp He H; try contradiction; auto. Qed.

Lemma moves_fifo c c' :
  moves c c' -> fifo c ->
  (forall t, trace (machine c') = trace (machine c) ++ t -> failures t = []) ->
  fifo c'.
Proof.
  intros Hm Hf Hquiet.
  destruct Hm as [Hm Hpc|(N & E & S & t & Ht & Hl & Hq & Hd) Hpc
                 |e q str t Hpc Hq Hpc' Hs Ht [He Hi] _
                 |t _ _ _ _ Ht _ Hfail|e str Hpc (N & E & S & t & Ht & Hl & Hq & Hd) Hpc'
                 |t Hpc Hpc' He Ht [Hen Hi] Hok _|t Hpc Hq Ht [He Hi] Herr
                 |e Hpc Hnd He Hq Ht].
  - (* quiet *)
    destruct Hpc as [Hpc|[Hp Hp']].
    + unfold fifo in *. now rewrite Hm, Hpc.
    + destruct (fifo_plain c Hf Hp) as [He H].
      apply plain_fifo; [exact Hp'| |]; now rewrite Hm.
  - (* local *)
    destruct (local_events t Hl) as (Hi & _ & _).
    assert (Hrest : exists rest, enqueued (trace (machine c'))
                                 = invoked (trace (machine c')) ++ rest).
    { destruct (fifo_rest c Hf) as [rest Hr]. exists (rest ++ enqueued t).
      rewrite Ht, enqueued_app, invoked_app, Hi, Hr, app_nil_r.
      now rewrite app_assoc. }
    destruct Hpc as [Hpc|[[Hpc Hpc']|[f Hpc]]].
    + unfold fifo in *. rewrite Hpc, E, Hq, Ht, enqueued_app, invoked_app, Hi,
        app_nil_r.
      destruct (pc c).
      1-3, 6-7: destruct Hf as [He H]; split; [exact He|];
        rewrite H; now rewrite app_assoc.
      * destruct Hf as [He (q' & Hq' & H)]. split; [exact He|].
        exists (q' ++ enqueued t). rewrite Hq', H. split; [reflexivity|].
        rewrite Hq'. now rewrite <- app_assoc.
      * destruct Hf as [He (e & q' & Hq' & H)]. split; [exact He|].
        exists e, (q' ++ enqueued t). rewrite Hq', H. split; [reflexivity|].
        now rewrite app_assoc.
      * destruct Hf as [rest H]. exists (rest ++ enqueued t).
        rewrite H. now rewrite app_assoc.
    + assert (Hp : plain (pc c)) by now rewrite Hpc.
      destruct (fifo_plain c Hf Hp) as [He H].
      apply plain_fifo; [now rewrite Hpc' | congruence |].
      rewrite Hq, Ht, enqueued_app, invoked_app, Hi, app_nil_r, H.
      now rewrite app_assoc.
    + unfold fifo. rewrite Hpc. exact Hrest.
  - (* sent *)
    assert (Hp : plain (pc c)) by now rewrite Hpc.
    destruct (fifo_plain c Hf Hp) as [Herr H].
    unfold fifo. rewrite Hpc', Hs, Ht, enqueued_app, invoked_app, He, Hi, !app_nil_r.
    split; [exact Herr|]. exists q. now rewrite <- Hq.
  - (* failed *)
    now elim Hfail; apply Hquiet.
  - (* called *)
    destruct (local_events t Hl) as (Hi & _ & _).
    unfold fifo in Hf. rewrite Hpc in Hf. destruct Hf as [He (q' & Hq' & H)].
    cbn in Ht, Hq, E.
    assert (Hinv : invoked (trace (machine c'))
                   = invoked (trace (machine c)) ++ [e]).
    { rewrite Ht, !invoked_app, Hi, app_nil_r. reflexivity. }
    assert (Henq : enqueued (trace (machine c'))
                   = invoked (trace (machine c)) ++ e :: q' ++ enqueued t).
    { rewrite Ht, !enqueued_app, H, Hq'. cbn. rewrite app_nil_r.
      now rewrite <- app_assoc. }
    destruct Hpc' as [Hpc'|[f Hpc']]; unfold fifo; rewrite Hpc'.
    + split; [congruence|]. exists e, (q' ++ enqueued t).
      rewrite Hq, Hq', Hinv, Henq. split; [reflexivity|].
      now rewrite <- app_assoc.
    + exists (q' ++ enqueued t). rewrite Hinv, Henq. now rewrite <- app_assoc.
  - (* popped *)
    unfold fifo in Hf. rewrite Hpc in Hf. destruct Hf as [Herr (e & q' & Hq' & H)].
    destruct (Hok Herr) as [Hq ->].
    unfold fifo. rewrite Hpc', He, Hq, Hq', Ht, app_nil_r. cbn. auto.
  - (* reconnected *)
    assert (Hrest : exists rest, enqueued (trace (machine c'))
                                 = invoked (trace (machine c')) ++ rest).
    { destruct (fifo_rest c Hf) as [rest Hr]. exists rest.
      now rewrite Ht, enqueued_app, invoked_app, He, Hi, !app_nil_r. }
    destruct Hpc as [Hpc|[f Hpc]].
    + specialize (Herr (Hquiet t Ht) Hpc).
      unfold fifo in *. rewrite Hpc, Herr, Hq, Ht, enqueued_app, invoked_app,
        He, Hi, !app_nil_r.
      destruct (pc c).
      1-3, 6-7: destruct Hf as [_ H]; auto.
      * destruct Hf as [_ H]. auto.
      * destruct Hf as [_ H]. auto.
      * exact Hf.
    + unfold fifo. rewrite Hpc. exact Hrest.
  - (* pushed *)
    unfold fifo in *. rewrite Hpc, He, Hq, Ht, enqueued_app, invoked_app.
    cbn [enqueued invoked flat_map app]. rewrite app_nil_r.
    destruct (pc c).
    1-3, 6-7: destruct Hf as [Herr H]; split; [exact Herr|];
      rewrite H; now rewrite app_assoc.
    + destruct Hf as [Herr (q' & Hq' & H)]. split; [exact Herr|].
      exists (q' ++ [e]). rewrite Hq', H. split; [reflexivity|].
      rewrite Hq'. now rewrite <- app_assoc.
    + destruct Hf as [Herr (e0 & q' & Hq' & H)]. split; [exact Herr|].
      exists e0, (q' ++ [e]). rewrite Hq', H. split; [reflexivity|].
      now rewrite app_assoc.
    + destruct Hf as [rest H]. exists (rest ++ [e]).
      rewrite H. now rewrite app_assoc.
Qed.

Lemma failures_nil_app t1 t2 : failures (t1 ++ t2) = [] -> failures t1 = [] /\ failures t2 = [].
Proof. rewrite failures_app. apply app_eq_nil. Qed.

Lemma exec_fifo sched : forall c c',
  fifo c -> exec sched c = Some c' ->
  (forall t, trace (machine c') = trace (machine c) ++ t -> failures t = []) ->
  fifo c'.
Proof.
  induction sched as [|a sched IH]; intros c c' Hf; cbn [exec].
  - now intros [= <-].
  - destruct (step a c) as [c1|] eqn:E; [|discriminate]. intros Hx Hquiet.
    pose proof (step_moves a c c1 E) as Hm.
    destruct (moves_trace c c1 Hm) as [t1 H1].
    destruct (exec_trace sched c1 c' Hx) as [t2 H2].
    assert (H12 : failures (t1 ++ t2) = []).
    { apply Hquiet. rewrite H2, H1. now rewrite app_assoc. }
    apply failures_nil_app in H12 as [F1 F2].
    apply (IH c1 c'); [|exact Hx|].
    + apply (moves_fifo c c1 Hm Hf). intros t Ht.
      rewrite H1 in Ht. apply app_inv_head in Ht. now subst t.
    + intros t Ht. rewrite H2 in Ht. apply app_inv_head in Ht. now subst t.
Qed.

(** Under every schedule, as long as no failure occurs, the sequence of
    calls is a prefix of the sequence of pushes; what is missing is what
    still waits in the queue. *)
Lemma fifo_prefix sched c0 c :
  pc c0 = L_top ->
  error_ (self (machine c0)) = false ->
  enqueued (trace (machine c0))
  = invoked (trace (machine c0)) ++ writeQueue (self (machine c0)) ->
  exec sched c0 = Some c ->
  (forall t, trace (machine c) = trace (machine c0) ++ t -> failures t = []) ->
  (exists rest,
      enqueued (trace (machine c)) = invoked (trace (machine c)) ++ rest) /\
  (plain (pc c) ->
   enqueued (trace (machine c))
   = invoked (trace (machine c)) ++ writeQueue (self (machine c))) /\
  (plain (pc c) -> writeQueue (self (machine c)) = [] ->
   invoked (trace (machine c)) = enqueued (trace (machine c))).
Proof.
  intros Hpc He H0 Hx Hquiet.
  assert (Hf0 : fifo c0).
  { apply plain_fifo; [now rewrite Hpc | exact He | exact H0]. }
  pose proof (exec_fifo sched c0 c Hf0 Hx Hquiet) as Hf.
  split; [now apply fifo_rest|]. split.
  - intros Hp. now apply fifo_plain.
  - intros Hp Hq. destruct (fifo_plain c Hf Hp) as [_ H].
    rewrite H, Hq. now rewrite app_nil_r.
Qed.

(** *** The drain, request by request *)

Lemma loop_step_call now c e str :
  pc c = L_call e str ->
  exists c',
    step (A_loop now) c = Some c' /\
    extends (with_event (EvInvoke e str) (machine c)) (machine c') /\
    (pc c' = L_relock \/ exists f, pc c' = L_terminate f).
Proof.
  intros Hpc. unfold step, alive, loop_step. rewrite Hpc. cbn [negb].
  eexists. split; [reflexivity|]. unfold continue.
  erewrite bind_ret by reflexivity.
  pose proof (tame_run (snd e) str (with_event (EvInvoke e str) (machine c))) as Ht.
  destruct (run (snd e) str _); cbn; eauto.
Qed.

Lemma loop_step_relock now c :
  pc c = L_relock ->
  error_ (self (machine c)) = false ->
  step (A_loop now) c
  = Some {| machine := with_self
                         (set_writeQueue (tl (writeQueue (self (machine c))))
                                         (self (machine c)))
                         (machine c);
            pc := L_drain;
            waiters := waiters c |}.
Proof.
  intros Hpc He. unfold step, alive, loop_step. rewrite Hpc. cbn [negb].
  unfold continue. now rewrite relock_clear.
Qed.

Lemma loop_step_drained now c :
  pc c = L_drain ->
  writeQueue (self (machine c)) = [] ->
  step (A_loop now) c = Some (with_pc L_refresh c).
Proof.
  intros Hpc Hq. unfold step, alive, loop_step. now rewrite Hpc, Hq.
Qed.

Lemma loop_step_refresh now c :
  pc c = L_refresh ->
  exists c', step (A_loop now) c = Some c' /\ pc c' <> L_drain.
Proof.
  intros Hpc. unfold step, alive, loop_step. rewrite Hpc. cbn [negb].
  eexists. split; [reflexivity|]. unfold continue.
  match goal with |- context [match ?x with _ => _ end] => destruct x end;
    cbn; discriminate.
Qed.

Lemma set_writeQueue_fields q o :
  writeQueue (set_writeQueue q o) = q /\ error_ (set_writeQueue q o) = error_ o.
Proof. destruct o. split; reflexivity. Qed.

(** Serving the request at the head: its callback is called, once, and
    the request leaves the queue; what the callback pushed is behind. *)
Lemma serve_one now c c1 e rest :
  pc c = L_drain ->
  error_ (self (machine c)) = false ->
  writeQueue (self (machine c)) = e :: rest ->
  run_loop 3 now c = Some c1 ->
  pc c1 = L_drain ->
  error_ (self (machine c1)) = false /\
  exists t, trace (machine c1) = trace (machine c) ++ t /\
            invoked t = [e] /\
            writeQueue (self (machine c1)) = rest ++ enqueued t.
Proof.
  intros Hpc He Hq Hrun Hpc1. destruct e as [frame f].
  unfold run_loop in Hrun. cbn [repeat exec] in Hrun.
  destruct (loop_step_drain now c frame f rest Hpc Hq)
    as (c' & t1 & Hs1 & Ht1 & [Hen1 Hin1] & Hcase).
  rewrite Hs1 in Hrun.
  destruct Hcase as [(_ & Hpc' & Hq' & _)|(_ & [str Hpc'] & Hself & _)].
  - (* the round trip failed: the loop is at the top three steps later *)
    rewrite (loop_step_drained now c' Hpc' Hq') in Hrun.
    destruct (loop_step_refresh now (with_pc L_refresh c') eq_refl)
      as (c'' & Hs3 & Hne).
    rewrite Hs3 in Hrun. injection Hrun as <-. contradiction.
  - destruct (loop_step_call now c' (frame, f) str Hpc')
      as (c'' & Hs2 & (N & E & S & t2 & Ht2 & Hl2 & Hq2 & Hd2) & Hpc'').
    rewrite Hs2 in Hrun.
    destruct Hpc'' as [Hpc''|[flt Hpc'']].
    + assert (He'' : error_ (self (machine c'')) = false).
      { rewrite E. cbn. now rewrite Hself. }
      rewrite (loop_step_relock now c'' Hpc'' He'') in Hrun.
      injection Hrun as <-. cbn.
      destruct (set_writeQueue_fields (tl (writeQueue (self (machine c''))))
                                      (self (machine c''))) as [Hw Herr].
      rewrite Hw, Herr. split; [exact He''|].
      destruct (local_events t2 Hl2) as (Hi2 & _ & _).
      exists (t1 ++ EvInvoke (frame, f) str :: t2). repeat split.
      * rewrite Ht2. cbn. rewrite Ht1. now rewrite <- !app_assoc.
      * rewrite invoked_app, Hin1. cbn [app].
        change (invoked (EvInvoke (frame, f) str :: t2))
          with ((frame, f) :: invoked t2).
        now rewrite Hi2.
      * rewrite Hq2. cbn [with_event self]. rewrite Hself, Hq. cbn [tl app].
        rewrite enqueued_app, Hen1. reflexivity.
    + rewrite (step_terminated (A_loop now) c'' flt Hpc'') in Hrun. discriminate.
Qed.

Lemma serve_spec now pre : forall c c1 rest,
  pc c = L_drain ->
  error_ (self (machine c)) = false ->
  writeQueue (self (machine c)) = pre ++ rest ->
  serve now (List.length pre) c = Some c1 ->
  pc c1 = L_drain /\
  error_ (self (machine c1)) = false /\
  exists t, trace (machine c1) = trace (machine c) ++ t /\
            invoked t = pre /\
            writeQueue (self (machine c1)) = rest ++ enqueued t.
Proof.
  induction pre as [|e pre IH]; intros c c1 rest Hpc He Hq; cbn [List.length serve].
  - intros [= <-]. repeat split; try assumption.
    exists []. cbn. rewrite !app_nil_r. auto.
  - destruct (run_loop 3 now c) as [c'|] eqn:Hrun; [|discriminate].
    destruct (pc c') eqn:Hpc'; try discriminate. intros Hserve.
    destruct (serve_one now c c' e (pre ++ rest) Hpc He Hq Hrun Hpc')
      as (He' & t1 & Ht1 & Hi1 & Hq1).
    rewrite <- app_assoc in Hq1.
    destruct (IH c' c1 (rest ++ enqueued t1) Hpc' He' Hq1 Hserve)
      as (Hpc1 & He1 & t2 & Ht2 & Hi2 & Hq2).
    repeat split; try assumption.
    exists (t1 ++ t2). repeat split.
    + rewrite Ht2, Ht1. now rewrite app_assoc.
    + rewrite invoked_app, Hi1, Hi2. reflexivity.
    + rewrite Hq2, enqueued_app. now rewrite app_assoc.
Qed.

(** *** What is called later was pushed later *)

Lemma incl_tl A (l : list A) : incl (tl l) l.
Proof. destruct l; [apply incl_refl | apply incl_tl, incl_refl]. Qed.

Lemma moves_fresh t0 c c' : moves c c' -> fresh_since t0 c -> fresh_since t0 c'.
Proof.
  intros Hm (t & Ht & Hq & Hi & Hc).
  destruct Hm as [Hm Hpc|(N & E & S & t1 & Ht1 & Hl & Hq1 & Hd) Hpc
                 |e q str t1 Hpc Hq1 Hpc' Hs Ht1 [Hen Hin] _
                 |t1 _ Hpc' Hq1 _ Ht1 [Hen Hin] _
                 |e str Hpc (N & E & S & t1 & Ht1 & Hl & Hq1 & Hd) Hpc'
                 |t1 Hpc Hpc' He Ht1 [Hen Hin] Hok Hbad
                 |t1 Hpc Hq1 Ht1 [Hen Hin] _
                 |e1 Hpc _ _ Hq1 Ht1].
  - exists t. rewrite Hm. repeat split; try assumption.
    intros e str H. destruct Hpc as [Hpc|[_ Hp]].
    + rewrite Hpc in H. eauto.
    + rewrite H in Hp. contradiction.
  - destruct (local_events t1 Hl) as (Hi1 & _ & _).
    exists (t ++ t1). rewrite Ht1, Ht, Hq1, enqueued_app, invoked_app, Hi1, app_nil_r.
    repeat split.
    + now rewrite app_assoc.
    + apply incl_app; [now apply incl_appl | apply incl_appr, incl_refl].
    + now apply incl_appl.
    + intros e str H. apply in_or_app. left.
      destruct Hpc as [Hpc|[[_ Hpc]|[f Hpc]]]; rewrite Hpc in H;
        [eauto | discriminate | discriminate].
  - exists (t ++ t1). rewrite Ht1, Ht, Hs, enqueued_app, invoked_app, Hen, Hin, !app_nil_r.
    repeat split; try assumption.
    + now rewrite app_assoc.
    + intros e' str' H. rewrite Hpc' in H. injection H as <- _.
      apply Hq. rewrite Hq1. now left.
  - exists (t ++ t1). rewrite Ht1, Ht, Hq1, enqueued_app, invoked_app, Hen, Hin, !app_nil_r.
    repeat split; try assumption.
    + now rewrite app_assoc.
    + intros x [].
    + intros e str H. rewrite Hpc' in H. discriminate.
  - destruct (local_events t1 Hl) as (Hi1 & _ & _). cbn in Ht1, Hq1.
    exists (t ++ EvInvoke e str :: t1).
    rewrite Ht1, Ht, Hq1, enqueued_app, invoked_app.
    change (invoked (EvInvoke e str :: t1)) with (e :: invoked t1).
    change (enqueued (EvInvoke e str :: t1)) with (enqueued t1).
    rewrite Hi1. cbn [with_event trace self].
    repeat split.
    + now rewrite <- !app_assoc.
    + apply incl_app; [now apply incl_appl | apply incl_appr, incl_refl].
    + apply incl_app; [now apply incl_appl|].
      intros x [<-|[]]. apply in_or_app. left. eauto.
    + intros e' str' H. destruct Hpc' as [Hpc'|[f Hpc']]; rewrite Hpc' in H;
        discriminate.
  - exists (t ++ t1). rewrite Ht1, Ht, enqueued_app, invoked_app, Hen, Hin, !app_nil_r.
    repeat split; try assumption.
    + now rewrite app_assoc.
    + destruct (error_ (self (machine c))) eqn:Eerr.
      * rewrite (Hbad eq_refl). intros x [].
      * destruct (Hok eq_refl) as [-> _].
        eapply incl_tran; [apply incl_tl | exact Hq].
    + intros e str H. rewrite Hpc' in H. discriminate.
  - exists (t ++ t1). rewrite Ht1, Ht, Hq1, enqueued_app, invoked_app, Hen, Hin, !app_nil_r.
    repeat split; try assumption.
    + now rewrite app_assoc.
    + intros e str H. destruct Hpc as [Hpc|[f Hpc]]; rewrite Hpc in H;
        [eauto | discriminate].
  - exists (t ++ [EvEnqueue e1]).
    rewrite Ht1, Ht, Hq1, enqueued_app, invoked_app.
    cbn [enqueued invoked flat_map app]. rewrite app_nil_r.
    repeat split.
    + now rewrite app_assoc.
    + apply incl_app; [now apply incl_appl | apply incl_appr, incl_refl].
    + now apply incl_appl.
    + intros e str H. rewrite Hpc in H. apply in_or_app. left. eauto.
Qed.

Lemma exec_fresh t0 sched : forall c c',
  fresh_since t0 c -> exec sched c = Some c' -> fresh_since t0 c'.
Proof.
  induction sched as [|a sched IH]; intros c c' Hf; cbn [exec].
  - now intros [= <-].
  - destruct (step a c) as [c1|] eqn:E; [|discriminate].
    apply IH. apply (moves_fresh t0 c c1); [now apply (step_moves a)|exact Hf].
Qed.

(** C1: the drain is at a queue of N requests; it serves the first k-1,
    and the round trip of request k fails (the write fails, or the read
    returns nothing).  Then the loop sets the error flag and empties the
    queue; during the drain the callbacks of the first k-1 requests were
    called and no other; the drain is over; and whatever is called later,
    under any schedule, was pushed after the failure: the callbacks of
    requests k..N are never called. *)
Theorem fail_discards_tail now pre e post c c1 :
  pc c = L_drain ->
  error_ (self (machine c)) = false ->
  writeQueue (self (machine c)) = pre ++ e :: post ->
  serve now (List.length pre) c = Some c1 ->
  exchange_fails (fst e) (machine c1) = true ->
  exists c2 t,
    step (A_loop now) c1 = Some c2 /\
    trace (machine c2) = trace (machine c) ++ t /\
    invoked t = pre /\
    error_ (self (machine c2)) = true /\
    writeQueue (self (machine c2)) = [] /\
    step (A_loop now) c2 = Some (with_pc L_refresh c2) /\
    forall sched c3,
      exec sched c2 = Some c3 -> fresh_since (trace (machine c2)) c3.
Proof.
  intros Hpc He Hq Hserve Hfail.
  destruct (serve_spec now pre c c1 (e :: post) Hpc He Hq Hserve)
    as (Hpc1 & He1 & t1 & Ht1 & Hi1 & Hq1).
  destruct e as [frame f]. cbn [fst] in Hfail. cbn [app] in Hq1.
  destruct (loop_step_drain now c1 frame f _ Hpc1 Hq1)
    as (c2 & t2 & Hs & Ht2 & [Hen2 Hin2] & Hcase).
  destruct Hcase as [(_ & Hpc2 & Hq2 & He2)|(Hok & _)]; [|congruence].
  exists c2, (t1 ++ t2). repeat split; try assumption.
  - rewrite Ht2, Ht1. now rewrite app_assoc.
  - rewrite invoked_app, Hi1, Hin2. apply app_nil_r.
  - now apply loop_step_drained.
  - intros sched c3. apply exec_fresh.
    exists []. rewrite app_nil_r, Hq2. repeat split.
    + intros x [].
    + intros x [].
    + intros e str H. rewrite Hpc2 in H. discriminate.
Qed.

(** *** Decoding the queue responses *)

Lemma decode_ids_id_list ids :
  is_number_char (Protocol.Delimiter P) = false ->
  code (Protocol.Delimiter P) <> 0 ->
  Forall (fun z => INT_MIN <= z <= INT_MAX) ids ->
  decode_ids (id_list ids) = ids.
Proof.
  intros Hd Hnul Hids. unfold decode_ids, id_list, DELIM.
  set (d := Protocol.Delimiter P) in *.
  assert (Hnum : forall c, is_number_char c = true -> negb (Ascii.eqb c d) = true).
  { intros c Hc. apply negb_true_iff. destruct (Ascii.eqb c d) eqn:E; [|reflexivity].
    apply Ascii.eqb_eq in E. congruence. }
  rewrite c_str_id.
  - rewrite strtok_all_concat.
    + rewrite map_map. induction Hids as [|z ids Hz _ IH]; [reflexivity|].
      cbn [map]. rewrite IH. f_equal.
      rewrite strtol_to_string, to_int_id; [reflexivity | exact Hz |].
      unfold INT_MIN, INT_MAX, LONG_MIN, LONG_MAX in *. lia.
    + apply Forall_forall. intros x Hx. apply in_map_iff in Hx as (z & <- & _).
      split; [apply to_string_not_empty|].
      eapply string_forall_impl; [exact Hnum | apply to_string_chars].
  - apply string_forall_concat.
    + cbn. apply andb_true_iff. split; [|reflexivity].
      apply negb_true_iff, Z.eqb_neq. exact Hnul.
    + apply Forall_forall. intros x Hx. apply in_map_iff in Hx as (z & <- & _).
      eapply string_forall_impl; [exact number_char_not_nul | apply to_string_chars].
Qed.

Lemma decode_ids_empty : decode_ids "" = [].
Proof. reflexivity. Qed.

(** C7 (amended): the get-queue and get-sub-queue lambdas do tolerate an
    empty string (the cached sequence becomes empty, nothing is thrown),
    but the processing loop never hands them one: an empty response is a
    transport failure, which sets the error flag, discards the queue, calls
    no callback and leaves the cached sequences as they were.  A response
    made of the decimal forms of identifiers with the delimiter between
    them (the delimiter being no digit, no minus sign and not NUL) replaces
    the cached sequence by those identifiers, in order. *)
Theorem queue_response_decoding ids :
  is_number_char (Protocol.Delimiter P) = false ->
  code (Protocol.Delimiter P) <> 0 ->
  Forall (fun z => INT_MIN <= z <= INT_MAX) ids ->
  (forall m, exists m1 m2,
      run K_sendGetQueue (id_list ids) m = Ret tt m1 /\
      queue_ (self m1) = ids /\
      run K_sendGetSubQueue (id_list ids) m = Ret tt m2 /\
      subQueue_ (self m2) = ids) /\
  (forall m, exists m1 m2,
      run K_sendGetQueue "" m = Ret tt m1 /\
      queue_ (self m1) = [] /\
      run K_sendGetSubQueue "" m = Ret tt m2 /\
      subQueue_ (self m2) = []) /\
  (forall now c frame k q w1 w2,
      pc c = L_drain ->
      writeQueue (self (machine c)) = (frame, k) :: q ->
      Socket.writeToSocket sock (socket (self (machine c))) frame (net (machine c))
      = (true, w1) ->
      Socket.readFromSocket sock (socket (self (machine c))) w1 = ("", w2) ->
      exists c' t,
        step (A_loop now) c = Some c' /\
        trace (machine c') = trace (machine c) ++ t /\
        invoked t = [] /\
        error_ (self (machine c')) = true /\
        writeQueue (self (machine c')) = [] /\
        queue_ (self (machine c')) = queue_ (self (machine c)) /\
        subQueue_ (self (machine c')) = subQueue_ (self (machine c))).
Proof.
  intros Hd Hnul Hids. split; [|split].
  - intros m.
    destruct (run_sendGetQueue (id_list ids) m) as (m1 & H1 & S1 & _).
    destruct (run_sendGetSubQueue (id_list ids) m) as (m2 & H2 & S2 & _).
    exists m1, m2. rewrite H1, H2, S1, S2.
    rewrite (decode_ids_id_list ids Hd Hnul Hids).
    destruct (self m). repeat split.
  - intros m.
    destruct (run_sendGetQueue "" m) as (m1 & H1 & S1 & _).
    destruct (run_sendGetSubQueue "" m) as (m2 & H2 & S2 & _).
    exists m1, m2. rewrite H1, H2, S1, S2, decode_ids_empty.
    destruct (self m). repeat split.
  - intros now c frame k q w1 w2 Hpc Hq Hw Hr.
    destruct (loop_step_drain now c frame k q Hpc Hq)
      as (c' & t & Hs & Ht & [_ Hin] & Hcase).
    assert (Hf : exchange_fails frame (machine c) = true).
    { unfold exchange_fails. now rewrite Hw, Hr. }
    destruct Hcase as [(_ & _ & Hq' & He')|(Hok & _)]; [|congruence].
    exists c', t. repeat split; try assumption.
    + destruct (step_cached _ _ _ Hs)
        as [(? & ? & ? & _ & H)|[[? H]|[(? & ? & H)|H]]];
        [congruence | discriminate | discriminate | exact (f_equal c_queue H)].
    + destruct (step_cached _ _ _ Hs)
        as [(? & ? & ? & _ & H)|[[? H]|[(? & ? & H)|H]]];
        [congruence | discriminate | discriminate
        | exact (f_equal c_subQueue H)].
Qed.

(** *** The constructor *)

Lemma reconnect_self m :
  exists b fd,
    match reconnect m with
    | Ret _ m' => self m' = set_error_ b (set_socket fd (self m))
    | Raise _ m' => self m' = set_error_ b (set_socket fd (self m))
    end.
Proof.
  unfold reconnect, bind, get, when, socket_close, socket_create, modify,
    socket_setTimeout, socket_write, socket_read, raise_error, emit, bind,
    ret, call, throw.
  destruct m as [o w fl tr]. destruct o. cbn.
  destruct (0 <=? socket0); cbn;
    destruct (Socket.createSocket sock (Protocol.Port P) _) as [fd w1]; cbn;
    destruct (Socket.writeToSocket sock fd _ _) as [ok w2]; cbn;
    destruct (Socket.readFromSocket sock fd w2) as [str w3]; cbn;
    destruct (0 <? Z.of_nat (String.length str)); cbn;
    try destruct (stoi str) as [flt|ver]; cbn;
    try destruct (negb (ver =? Protocol.version P)); cbn;
    eexists _, fd; reflexivity.
Qed.

Lemma addToWriteQueue_self s f m :
  exists q m',
    addToWriteQueue s f m = Ret tt m' /\ self m' = set_writeQueue q (self m).
Proof.
  destruct (error_ (self m)) eqn:E.
  - rewrite addToWriteQueue_dropped by exact E.
    exists (writeQueue (self m)), m. split; [reflexivity|]. now destruct (self m).
  - rewrite addToWriteQueue_pushed by exact E. eexists _, _. split; reflexivity.
Qed.

(** The object after [new Sysmodule()], whether the handshake succeeds,
    fails or throws: the assignments of the constructor on the storage,
    then the socket and the error flag as [reconnect] leaves them and the
    queue as the two initial requests leave it. *)
Lemma new_Sysmodule_self junk now w :
  exists b fd q,
    match new_Sysmodule junk now w with
    | Ret _ m => self m
    | Raise _ m => self m
    end
    = set_writeQueue q
        (set_error_ b
           (set_socket fd
              (set_socket (-1)
                 (set_volume_ 100%float
                    (set_status_ PlaybackStatus.Stopped
                       (set_subQueueChanged_ false
                          (set_songIdx_ 0
                             (set_shuffleMode_ ShuffleMode.Off
                                (set_repeatMode_ RepeatMode.Off
                                   (set_queueSize_ 0
                                      (set_queueChanged_ false
                                         (set_position_ 0%float
                                            (set_lastUpdateTime now
                                               (set_exit_ false
                                                  (set_error_ true
                                                     (set_currentSong_ (-1)
                                                        (storage junk))))))))))))))))).
Proof.
  unfold new_Sysmodule, Sysmodule_ctor.
  do 14 (erewrite bind_ret by reflexivity;
         cbn [modify with_self self net flags trace]).
  match goal with |- context [bind reconnect _ ?m1] => set (m := m1) end.
  destruct (reconnect_self m) as (b & fd & Hr).
  unfold bind at 1. destruct (reconnect m) as [[] m1|flt m1].
  - unfold sendGetQueue, sendGetSubQueue.
    match goal with |- context [bind (addToWriteQueue ?s ?f) _ m1] =>
      destruct (addToWriteQueue_self s f m1) as (q1 & m2 & H1 & S1)
    end.
    erewrite bind_ret by exact H1.
    match goal with |- context [addToWriteQueue ?s ?f m2] =>
      destruct (addToWriteQueue_self s f m2) as (q2 & m3 & H2 & S2)
    end.
    rewrite H2, S2, S1, Hr. subst m. cbn [self].
    exists b, fd, q2. now destruct junk.
  - rewrite Hr. subst m. cbn [self].
    exists b, fd, []. now destruct junk.
Qed.

(** The members that hold cached state have the defaults, except for
    [subQueueSize_], which the constructor never assigns. *)
Lemma Sysmodule_ctor_defaults junk now w :
  let o := match new_Sysmodule junk now w with
           | Ret _ m => self m
           | Raise _ m => self m
           end in
  currentSong_ o = -1 /\ position_ o = 0%float /\ volume_ o = 100%float /\
  status_ o = PlaybackStatus.Stopped /\ repeatMode_ o = RepeatMode.Off /\
  shuffleMode_ o = ShuffleMode.Off /\ songIdx_ o = 0 /\ queueSize_ o = 0 /\
  queueChanged_ o = false /\ subQueueChanged_ o = false /\
  queue_ o = [] /\ subQueue_ o = [] /\
  subQueueSize_ o = subQueueSize_ junk.
Proof.
  intros o. destruct (new_Sysmodule_self junk now w) as (b & fd & q & H).
  subst o. rewrite H. destruct junk. cbn. repeat split.
Qed.

End Properties.

(* ================================================================== *)
(** ** Further properties of the client *)

Section Further.

Context {env : Environment}.

(** *** Members an action leaves alone *)

Lemma preserves_ret A B (f : Sysmodule -> A) (b : B) : preserves f (ret b).
Proof. intros m. reflexivity. Qed.

Lemma preserves_throw A B (f : Sysmodule -> A) flt : preserves f (@throw env B flt).
Proof. intros m. reflexivity. Qed.

Lemma preserves_call A B (f : Sysmodule -> A) (r : fault + B) : preserves f (call r).
Proof. destruct r; [apply preserves_throw | apply preserves_ret]. Qed.

Lemma preserves_get A B (f : Sysmodule -> A) (g : Sysmodule -> B) :
  preserves f (get g).
Proof. intros m. reflexivity. Qed.

Lemma preserves_emit A (f : Sysmodule -> A) ev : preserves f (emit ev).
Proof. intros m. reflexivity. Qed.

Lemma preserves_set_done A (f : Sysmodule -> A) d v : preserves f (set_done d v).
Proof. intros m. reflexivity. Qed.

Lemma preserves_socket_write A (f : Sysmodule -> A) frame :
  preserves f (socket_write frame).
Proof.
  intros m. unfold socket_write.
  now destruct (Socket.writeToSocket sock (socket (self m)) frame (net m)).
Qed.

Lemma preserves_socket_read A (f : Sysmodule -> A) : preserves f socket_read.
Proof.
  intros m. unfold socket_read.
  now destruct (Socket.readFromSocket sock (socket (self m)) (net m)).
Qed.

Lemma preserves_socket_create A (f : Sysmodule -> A) port :
  preserves f (socket_create port).
Proof.
  intros m. unfold socket_create.
  now destruct (Socket.createSocket sock port (net m)).
Qed.

Lemma preserves_socket_close A (f : Sysmodule -> A) fd :
  preserves f (socket_close fd).
Proof. intros m. reflexivity. Qed.

Lemma preserves_socket_setTimeout A (f : Sysmodule -> A) fd t :
  preserves f (socket_setTimeout fd t).
Proof. intros m. reflexivity. Qed.

Lemma preserves_modify A (f : Sysmodule -> A) u :
  (forall o, f (u o) = f o) -> preserves f (modify u).
Proof. intros H m. cbn. apply H. Qed.

Lemma preserves_bind A B C (f : Sysmodule -> A) (c : M B) (k : B -> M C) :
  preserves f c -> (forall b, preserves f (k b)) -> preserves f (bind c k).
Proof.
  intros Hc Hk m. unfold bind. specialize (Hc m).
  destruct (c m) as [b m1|flt m1]; [|exact Hc].
  specialize (Hk b m1). destruct (k b m1); congruence.
Qed.

Lemma preserves_when A (f : Sysmodule -> A) b (c : M unit) :
  preserves f c -> preserves f (when b c).
Proof. destruct b; [trivial | intros _; apply preserves_ret]. Qed.

Lemma preserves_for_each A B (f : Sysmodule -> A) (l : list B) body :
  (forall b, preserves f (body b)) -> preserves f (for_each l body).
Proof.
  intros H. induction l as [|b l IH]; cbn [for_each].
  - apply preserves_ret.
  - apply preserves_bind; [apply H | intros _; exact IH].
Qed.

Lemma preserves_assign A (f : Sysmodule -> A) fld u :
  (forall o, f (u o) = f o) -> preserves f (assign fld u).
Proof.
  intros H. apply preserves_bind; [now apply preserves_modify|].
  intros _. apply preserves_emit.
Qed.

Lemma preserves_addToWriteQueue A (f : Sysmodule -> A) s k :
  (forall q o, f (set_writeQueue q o) = f o) ->
  preserves f (addToWriteQueue s k).
Proof.
  intros H. unfold addToWriteQueue.
  apply preserves_bind; [apply preserves_get|]. intros [|].
  - apply preserves_ret.
  - apply preserves_bind; [|intros _; apply preserves_emit].
    apply preserves_modify. intros o. apply H.
Qed.

Lemma preserves_uninitialised A (f : Sysmodule -> A) : preserves f uninitialised.
Proof. intros m. reflexivity. Qed.

Lemma preserves_push A (f : Sysmodule -> A) e :
  (forall q o, f (set_writeQueue q o) = f o) -> preserves f (push e).
Proof.
  intros H. unfold push.
  apply preserves_bind; [|intros _; apply preserves_emit].
  apply preserves_modify. intros o. apply H.
Qed.

Lemma preserves_prelude A (f : Sysmodule -> A) r :
  (forall p o, f (set_position_ p o) = f o) -> preserves f (prelude r).
Proof.
  intros H. destruct (prelude_cases r) as [(pos & _ & ->)|[_ ->]].
  - apply preserves_assign. intros o. apply H.
  - apply preserves_ret.
Qed.

Ltac frame_tac :=
  repeat first
    [ apply preserves_ret | apply preserves_throw | apply preserves_call
    | apply preserves_get | apply preserves_emit | apply preserves_set_done
    | apply preserves_uninitialised
    | apply preserves_push; intros ? []; reflexivity
    | apply preserves_prelude; intros ? []; reflexivity
    | apply preserves_socket_write | apply preserves_socket_read
    | apply preserves_socket_create | apply preserves_socket_close
    | apply preserves_socket_setTimeout
    | apply preserves_addToWriteQueue; intros ? []; reflexivity
    | apply preserves_assign; intros []; reflexivity
    | apply preserves_modify; intros []; reflexivity
    | apply preserves_when
    | apply preserves_for_each; intros
    | apply preserves_bind; [|intros]
    | match goal with
      | |- preserves _ (match ?x with _ => _ end) => destruct x
      end ].

Ltac unfold_builders :=
  unfold sendResume, sendPause, sendPrevious, sendNext, sendGetVolume,
    sendSetVolume, sendSetSongIdx, sendGetSongIdx, sendGetQueueSize,
    sendRemoveFromQueue, sendGetQueue, sendSetQueue, sendAddToSubQueue,
    sendRemoveFromSubQueue, sendGetSubQueueSize, sendGetSubQueue,
    sendSkipSubQueueSongs, sendGetRepeat, sendSetRepeat, sendGetShuffle,
    sendSetShuffle, sendGetSong, sendGetStatus, sendGetPosition,
    sendSetPosition.

Lemma continue_preserves A B (f : Sysmodule -> A) (act : M B) next c :
  preserves f act ->
  f (self (machine (continue act next c))) = f (self (machine c)).
Proof.
  intros H. unfold continue. specialize (H (machine c)).
  now destruct (act (machine c)).
Qed.

(** *** Schedules in sequence *)

Lemma exec_app s1 : forall s2 c,
  exec (s1 ++ s2) c
  = match exec s1 c with
    | Some c1 => exec s2 c1
    | None => None
    end.
Proof.
  induction s1 as [|a s1 IH]; intros s2 c; cbn [app exec]; [reflexivity|].
  destruct (step a c); [apply IH | reflexivity].
Qed.

Lemma run_loop_add n1 n2 now c c1 c2 :
  run_loop n1 now c = Some c1 ->
  run_loop n2 now c1 = Some c2 ->
  run_loop (n1 + n2) now c = Some c2.
Proof.
  unfold run_loop. intros H1 H2. now rewrite repeat_app, exec_app, H1.
Qed.

Lemma run_loop_one now c c1 :
  step (A_loop now) c = Some c1 -> run_loop 1 now c = Some c1.
Proof. intros H. unfold run_loop. cbn. now rewrite H. Qed.

(** *** The program points of one round trip *)

Lemma loop_step_at_call now c e str :
  pc c = L_call e str ->
  step (A_loop now) c
  = Some (continue (bind (emit (EvInvoke e str)) (fun _ => run (snd e) str))
                   (fun _ => L_relock) c).
Proof. intros H. unfold step, alive, loop_step. now rewrite H. Qed.

Lemma loop_step_at_relock now c :
  pc c = L_relock ->
  step (A_loop now) c
  = Some (continue
            (bind (modify (fun o => set_writeQueue (tl (writeQueue o)) o))
                  (fun _ => bind (get error_) (fun err => when err discard)))
            (fun _ => L_drain) c).
Proof. intros H. unfold step, alive, loop_step. now rewrite H. Qed.

Lemma loop_step_at_refresh now c :
  pc c = L_refresh ->
  step (A_loop now) c
  = Some (continue
            (if UPDATE_DELAY <? now - lastUpdateTime (self (machine c))
             then refresh now else ret tt)
            (fun _ => L_top) c).
Proof. intros H. unfold step, alive, loop_step. now rewrite H. Qed.

(** *** What a lambda can push *)

Lemma weight_app q1 q2 : weight (q1 ++ q2) = (weight q1 + weight q2)%nat.
Proof.
  induction q1 as [|e q1 IH]; cbn [app weight fold_right]; [reflexivity|].
  fold (weight (q1 ++ q2)). fold (weight q1). rewrite IH. lia.
Qed.

Lemma run_spawns k s m :
  match run k s m with
  | Ret _ m' | Raise _ m' =>
      exists new,
        writeQueue (self m') = writeQueue (self m) ++ new /\
        (weight new <= spawns k)%nat /\
        error_ (self m') = error_ (self m)
  end.
Proof.
  destruct k;
    try (destruct (run_sendGetQueue s m) as (m' & -> & Hs & _);
         exists []; rewrite Hs, app_nil_r; destruct (self m); cbn;
         repeat split; lia);
    try (destruct (run_sendGetSubQueue s m) as (m' & -> & Hs & _);
         exists []; rewrite Hs, app_nil_r; destruct (self m); cbn;
         repeat split; lia);
    destruct m as [o w fl tr]; destruct o;
    unfold run, bind, call, get, when, throw, ret, sendGetQueue,
      sendGetSubQueue, addToWriteQueue, assign, modify, emit, set_done,
      bind, get, ret; cbn;
    repeat match goal with
           | |- context [match stoi s with _ => _ end] => destruct (stoi s); cbn
           | |- context [match stoul s with _ => _ end] => destruct (stoul s); cbn
           | |- context [match stod s with _ => _ end] => destruct (stod s); cbn
           | |- context [match switch_Repeat ?v with _ => _ end] =>
               destruct (switch_Repeat v); cbn
           | |- context [if ?b then _ else _] => destruct b; cbn
           end;
    rewrite <- ?app_assoc; cbn [app];
    first [ exists []; split; [now rewrite app_nil_r|];
            split; [cbn; lia | reflexivity]
          | eexists; split; [reflexivity|];
            split; [cbn; lia | reflexivity] ].
Qed.

(** *** The drain ends *)

Lemma drain_ends now w : forall c,
  pc c = L_drain ->
  (weight (writeQueue (self (machine c))) <= w)%nat ->
  exists n c',
    (n <= 3 * w + 1)%nat /\
    run_loop n now c = Some c' /\
    ((pc c' = L_refresh /\ writeQueue (self (machine c')) = []) \/
     exists f, pc c' = L_terminate f).
Proof.
  induction w as [|w IH]; intros c Hpc Hw.
  - destruct (writeQueue (self (machine c))) as [|e q] eqn:Eq;
      [|cbn in Hw; lia].
    exists 1%nat, (with_pc L_refresh c). split; [lia|].
    split; [apply run_loop_one, loop_step_drained; assumption|].
    left. split; [reflexivity | exact Eq].
  - destruct (writeQueue (self (machine c))) as [|[frame f] q] eqn:Eq.
    { exists 1%nat, (with_pc L_refresh c). split; [lia|].
      split; [apply run_loop_one, loop_step_drained; assumption|].
      left. split; [reflexivity | exact Eq]. }
    destruct (loop_step_drain now c frame f q Hpc Eq)
      as (c1 & t & H1 & _ & _ & [(_ & Hpc1 & Hq1 & _)|(_ & (str & Hpc1) & Hs1 & _)]).
    + (* the round trip failed *)
      exists 2%nat, (with_pc L_refresh c1). split; [lia|]. split.
      * apply (run_loop_add 1 1 now c c1); apply run_loop_one;
          [exact H1 | now apply loop_step_drained].
      * left. split; [reflexivity | exact Hq1].
    + (* the lambda is called *)
      pose proof (loop_step_at_call now c1 (frame, f) str Hpc1) as H2.
      set (c2 := continue _ _ c1) in H2.
      pose proof (run_spawns f str (with_event (EvInvoke (frame, f) str) (machine c1)))
        as Hsp.
      assert (Hc2 : (exists flt, pc c2 = L_terminate flt) \/
                    (pc c2 = L_relock /\
                     exists new,
                       writeQueue (self (machine c2)) = ((frame, f) :: q) ++ new /\
                       (weight new <= spawns f)%nat)).
      { subst c2. unfold continue. erewrite bind_ret by reflexivity. cbn [snd].
        destruct (run f str _) as [[] m2|flt m2]; cbn.
        - right. split; [reflexivity|].
          destruct Hsp as (new & Hq & Hn & _). exists new.
          split; [|exact Hn]. rewrite Hq. cbn. now rewrite Hs1, Eq.
        - left. eauto. }
      destruct Hc2 as [(flt & Hpc2)|(Hpc2 & new & Hq2 & Hn)].
      * exists 2%nat, c2. split; [lia|]. split.
        -- apply (run_loop_add 1 1 now c c1); apply run_loop_one; assumption.
        -- right. eauto.
      * pose proof (loop_step_at_relock now c2 Hpc2) as H3.
        set (c3 := continue _ _ c2) in H3.
        assert (Hc3 : pc c3 = L_drain /\
                      (weight (writeQueue (self (machine c3))) <= w)%nat).
        { destruct (error_ (self (machine c2))) eqn:E2.
          - destruct (relock_in_error c2 E2) as (Hp & _ & Hq & _).
            fold c3 in Hp, Hq. split; [exact Hp|]. rewrite Hq. cbn. lia.
          - subst c3. unfold continue.
            rewrite (relock_clear (machine c2) E2). cbn.
            split; [reflexivity|].
            destruct (self (machine c2)); cbn in *. subst writeQueue0. cbn.
            rewrite weight_app. cbn in Hw. fold (weight q) in Hw. lia. }
        destruct Hc3 as (Hpc3 & Hw3).
        destruct (IH c3 Hpc3 Hw3) as (n & c4 & Hn4 & Hr4 & Hend).
        exists (3 + n)%nat, c4. split; [lia|]. split; [|exact Hend].
        apply (run_loop_add 3 n now c c3); [|exact Hr4].
        apply (run_loop_add 1 2 now c c1); [now apply run_loop_one|].
        apply (run_loop_add 1 1 now c1 c2); now apply run_loop_one.
Qed.

(** X1: the drain always ends.  Left alone, the loop thread that holds
    the lock gets to the end of its inner [while] after at most three
    steps for each request in the queue and each request a lambda pushes
    meanwhile, plus one: it leaves with the queue empty, or the process
    has ended in a lambda that threw. *)
Theorem drain_terminates now c :
  pc c = L_drain ->
  exists n c',
    (n <= 3 * weight (writeQueue (self (machine c))) + 1)%nat /\
    run_loop n now c = Some c' /\
    ((pc c' = L_refresh /\ writeQueue (self (machine c')) = []) \/
     exists f, pc c' = L_terminate f).
Proof. intros Hpc. now apply drain_ends. Qed.

(** *** [exit()] *)

Lemma run_keeps k s :
  preserves exit_ (run k s) /\ preserves lastUpdateTime (run k s) /\
  preserves socket (run k s) /\ preserves error_ (run k s).
Proof.
  repeat split; destruct k; unfold run, sendGetQueue, sendGetSubQueue;
    frame_tac.
Qed.

Lemma perform_keeps_exit r : preserves exit_ (perform r).
Proof. destruct r; cbn [perform]; unfold_builders; frame_tac. Qed.

Lemma reconnect_keeps_exit : preserves exit_ reconnect.
Proof. unfold reconnect, raise_error. frame_tac. Qed.

Lemma refresh_keeps_exit now : preserves exit_ (refresh now).
Proof. unfold refresh. unfold_builders. frame_tac. Qed.

Lemma step_exit_sticky a c c' :
  exit_ (self (machine c)) = true -> step a c = Some c' ->
  exit_ (self (machine c')) = true.
Proof.
  intros He.
  intros Hstep. pose proof (thread_step a c c' Hstep) as Hth. revert Hstep.
  unfold step. destruct (alive c); cbn [negb]; [|discriminate].
  destruct a as [now|r| | | | |d|d|d|d r|k d].
  - unfold loop_step. destruct (pc c) eqn:Epc; try discriminate.
    + intros [= <-]. exact He.
    + intros [= <-]. exact He.
    + destruct (writeQueue _) as [|[frame f] q]; intros [= <-]; [exact He|].
      rewrite continue_preserves; [exact He|].
      unfold raise_error, discard. frame_tac.
    + intros [= <-]. rewrite continue_preserves; [exact He|].
      apply preserves_bind; [apply preserves_emit | intros _; apply run_keeps].
    + intros [= <-]. rewrite continue_preserves; [exact He|].
      unfold discard. frame_tac.
    + intros [= <-]. rewrite continue_preserves; [exact He|].
      destruct (_ <? _); [apply refresh_keeps_exit | apply preserves_ret].
  - destruct (can_enqueue c); [|discriminate]. intros [= <-].
    unfold consumer. rewrite continue_preserves; [exact He|].
    apply perform_keeps_exit.
  - intros [= <-]. unfold consumer. rewrite continue_preserves; [exact He|].
    unfold queueChanged. frame_tac.
  - intros [= <-]. unfold consumer. rewrite continue_preserves; [exact He|].
    unfold subQueueChanged. frame_tac.
  - intros [= <-]. unfold consumer, continue, exit. cbn.
    now destruct (self (machine c)).
  - destruct (mutex_free c); [|discriminate]. intros [= <-].
    unfold consumer. rewrite continue_preserves; [exact He|].
    apply reconnect_keeps_exit.
  - unfold wait_call. destruct (waiters c d); try discriminate.
    destruct (can_enqueue c); [|discriminate]. intros [= <-].
    cbn [machine with_waiter]. unfold consumer.
    rewrite continue_preserves; [exact He|]. frame_tac.
  - unfold wait_call. destruct (waiters c d); try discriminate.
    destruct (can_enqueue c); [|discriminate]. intros [= <-].
    cbn [machine with_waiter]. unfold consumer.
    rewrite continue_preserves; [exact He|]. frame_tac.
  - intros _. destruct Hth as [(w & -> & _)|(e & k & _ & _ & ->)];
      [exact He|].
    cbn [machine with_waiter]. unfold consumer.
    rewrite continue_preserves; [exact He|]. frame_tac.
  - intros _. destruct Hth as [_ ->].
    cbn [machine with_waiter]. unfold consumer.
    rewrite continue_preserves; [exact He|]. frame_tac.
  - intros _. destruct Hth as [_ ->].
    cbn [machine with_waiter]. unfold consumer.
    rewrite continue_preserves; [exact He|]. frame_tac.
Qed.


Lemma exec_exit_sticky sched : forall c c',
  exit_ (self (machine c)) = true -> exec sched c = Some c' ->
  exit_ (self (machine c')) = true.
Proof.
  induction sched as [|a sched IH]; intros c c' He; cbn [exec].
  - now intros [= <-].
  - destruct (step a c) as [c1|] eqn:E; [|discriminate].
    apply IH. exact (step_exit_sticky a c c1 He E).
Qed.

Lemma continue_pc A (act : M A) next c :
  (exists a, pc (continue act next c) = next a) \/
  exists f, pc (continue act next c) = L_terminate f.
Proof.
  unfold continue. destruct (act (machine c)); cbn; eauto.
Qed.

Lemma exit_from_top now c :
  pc c = L_top -> exit_ (self (machine c)) = true ->
  run_loop 1 now c = Some (with_pc L_returned c).
Proof.
  intros Hpc He. apply run_loop_one. unfold step, alive, loop_step.
  now rewrite Hpc, He.
Qed.

Lemma exit_from_refresh now c :
  pc c = L_refresh -> exit_ (self (machine c)) = true ->
  exists n c', run_loop n now c = Some c' /\
    (pc c' = L_returned \/ exists f, pc c' = L_terminate f).
Proof.
  intros Hpc He. pose proof (loop_step_at_refresh now c Hpc) as H1.
  set (c1 := continue _ _ c) in H1.
  pose proof (step_exit_sticky _ _ _ He H1) as He1.
  destruct (continue_pc _ (if UPDATE_DELAY <? now - lastUpdateTime (self (machine c))
                           then refresh now else ret tt) (fun _ => L_top) c)
    as [(_ & Hp)|(f & Hp)]; fold c1 in Hp.
  - exists 2%nat, (with_pc L_returned c1). split; [|now left].
    apply (run_loop_add 1 1 now c c1); [now apply run_loop_one|].
    now apply exit_from_top.
  - exists 1%nat, c1. split; [now apply run_loop_one | right; eauto].
Qed.

Lemma exit_from_drain now c :
  pc c = L_drain -> exit_ (self (machine c)) = true ->
  exists n c', run_loop n now c = Some c' /\
    (pc c' = L_returned \/ exists f, pc c' = L_terminate f).
Proof.
  intros Hpc He.
  destruct (drain_ends now _ c Hpc (Nat.le_refl _))
    as (n & c1 & _ & Hr & [(Hp & _)|Hp]).
  - pose proof (exec_exit_sticky _ _ _ He Hr) as He1.
    destruct (exit_from_refresh now c1 Hp He1) as (n2 & c2 & Hr2 & Hend).
    exists (n + n2)%nat, c2. split; [|exact Hend].
    now apply (run_loop_add n n2 now c c1).
  - exists n, c1. split; [exact Hr | now right].
Qed.

Lemma exit_after_step now c c1 :
  step (A_loop now) c = Some c1 ->
  exit_ (self (machine c)) = true ->
  (pc c1 = L_drain \/ exists f, pc c1 = L_terminate f) ->
  exists n c', run_loop n now c = Some c' /\
    (pc c' = L_returned \/ exists f, pc c' = L_terminate f).
Proof.
  intros H1 He [Hp|Hp].
  - pose proof (step_exit_sticky _ _ _ He H1) as He1.
    destruct (exit_from_drain now c1 Hp He1) as (n & c2 & Hr & Hend).
    exists (1 + n)%nat, c2. split; [|exact Hend].
    apply (run_loop_add 1 n now c c1); [now apply run_loop_one | exact Hr].
  - exists 1%nat, c1. split; [now apply run_loop_one | now right].
Qed.

Lemma exit_from_relock now c :
  pc c = L_relock -> exit_ (self (machine c)) = true ->
  exists n c', run_loop n now c = Some c' /\
    (pc c' = L_returned \/ exists f, pc c' = L_terminate f).
Proof.
  intros Hpc He. pose proof (loop_step_at_relock now c Hpc) as H1.
  apply (exit_after_step now c _ H1 He).
  match goal with |- context [continue ?act ?next c] =>
    destruct (continue_pc _ act next c) as [(_ & Hp)|Hp]
  end; [now left | now right].
Qed.

(** X2: [exit()] is final and is obeyed.  No call clears [exit_] again,
    under any schedule; and from wherever the loop thread is, it returns
    from [process()] after finitely many of its own steps (it first
    finishes the drain it is in), unless the process ends in a lambda
    that throws. *)
Theorem exit_stops_loop now c :
  exit_ (self (machine c)) = true ->
  (forall sched c', exec sched c = Some c' -> exit_ (self (machine c')) = true) /\
  exists n c',
    run_loop n now c = Some c' /\
    (pc c' = L_returned \/ exists f, pc c' = L_terminate f).
Proof.
  intros He. split.
  { intros sched c'. now apply exec_exit_sticky. }
  destruct (pc c) eqn:Hpc.
  - exists 1%nat, (with_pc L_returned c).
    split; [now apply exit_from_top | now left].
  - apply (exit_after_step now c (with_pc L_drain c)); [|exact He|now left].
    unfold step, alive, loop_step. now rewrite Hpc.
  - now apply exit_from_drain.
  - pose proof (loop_step_at_call now c e str Hpc) as H1.
    set (c1 := continue _ _ c) in H1.
    pose proof (step_exit_sticky _ _ _ He H1) as He1.
    destruct (continue_pc _ (bind (emit (EvInvoke e str)) (fun _ => run (snd e) str))
                (fun _ => L_relock) c) as [(_ & Hp)|(f & Hp)]; fold c1 in Hp.
    + destruct (exit_from_relock now c1 Hp He1) as (n & c2 & Hr & Hend).
      exists (1 + n)%nat, c2. split; [|exact Hend].
      apply (run_loop_add 1 n now c c1); [now apply run_loop_one | exact Hr].
    + exists 1%nat, c1. split; [now apply run_loop_one | right; eauto].
  - now apply exit_from_relock.
  - now apply exit_from_refresh.
  - exists 0%nat, c. split; [reflexivity | now left].
  - exists 0%nat, c. split; [reflexivity | right; eauto].
Qed.

(** *** First in, first out: every request is served, in order *)

Lemma consumer_pc A (act : M A) c :
  pc (consumer act c) = pc c \/ exists f, pc (consumer act c) = L_terminate f.
Proof.
  unfold consumer.
  destruct (continue_pc A act (fun _ => pc c) c) as [[_ H]|H]; auto.
Qed.

(** Only the loop thread moves the loop. *)
Lemma step_consumer_pc a c c' :
  step a c = Some c' -> (forall now, a <> A_loop now) ->
  pc c' = pc c \/ exists f, pc c' = L_terminate f.
Proof.
  intros Hs Ha. pose proof (thread_step a c c' Hs) as Hth. revert Hs.
  unfold step. destruct (alive c); cbn [negb]; [|discriminate].
  destruct a as [now|r| | | | |d|d|d|d r|k d].
  - now elim (Ha now).
  - destruct (can_enqueue c); [|discriminate]. intros [= <-]. apply consumer_pc.
  - intros [= <-]. apply consumer_pc.
  - intros [= <-]. apply consumer_pc.
  - intros [= <-]. apply consumer_pc.
  - destruct (mutex_free c); [|discriminate]. intros [= <-]. apply consumer_pc.
  - unfold wait_call. destruct (waiters c d); try discriminate.
    destruct (can_enqueue c); [|discriminate]. intros [= <-].
    cbn [with_waiter pc]. apply consumer_pc.
  - unfold wait_call. destruct (waiters c d); try discriminate.
    destruct (can_enqueue c); [|discriminate]. intros [= <-].
    cbn [with_waiter pc]. apply consumer_pc.
  - intros _. destruct Hth as [(w & -> & _)|(e & k & _ & _ & ->)];
      cbn [with_waiter pc]; [now left | apply consumer_pc].
  - intros _. destruct Hth as [_ ->]. cbn [with_waiter pc]. apply consumer_pc.
  - intros _. destruct Hth as [_ ->]. cbn [with_waiter pc]. apply consumer_pc.
Qed.

(** [process()] returns only when [exit_] is set. *)
Lemma step_returned a c c' :
  (pc c = L_returned -> exit_ (self (machine c)) = true) ->
  step a c = Some c' ->
  pc c' = L_returned -> exit_ (self (machine c')) = true.
Proof.
  intros HJ Hs Hp.
  assert (Hnl : (forall now, a <> A_loop now) -> pc c <> L_returned -> False).
  { intros Ha Hn. destruct (step_consumer_pc a c c' Hs Ha) as [H|[f H]];
      congruence. }
  destruct (pc c) eqn:Hpc;
    [ | | | | | | exact (step_exit_sticky a c c' (HJ eq_refl) Hs) | ];
    (destruct a as [now|r| | | | |d|d|d|d r|k d];
     [ | exfalso; apply Hnl; discriminate .. ]).
  - (* L_top *)
    unfold step, alive, loop_step in Hs. rewrite Hpc in Hs. cbn [negb] in Hs.
    injection Hs as <-. cbn in Hp |- *.
    destruct (exit_ (self (machine c))); [reflexivity|].
    destruct (error_ (self (machine c))); discriminate.
  - unfold step, alive, loop_step in Hs. rewrite Hpc in Hs. cbn [negb] in Hs.
    injection Hs as <-. discriminate.
  - (* L_drain *)
    destruct (writeQueue (self (machine c))) as [|[frame f] q] eqn:Eq.
    + rewrite (loop_step_drained now c Hpc Eq) in Hs. injection Hs as <-.
      discriminate.
    + destruct (loop_step_drain now c frame f q Hpc Eq)
        as (c1 & t & H1 & _ & _ & [(_ & H & _)|(_ & (str & H) & _)]);
        rewrite H1 in Hs; injection Hs as <-; congruence.
  - rewrite (loop_step_at_call now c e str Hpc) in Hs. injection Hs as <-.
    match type of Hp with context [continue ?act ?next c] =>
      destruct (continue_pc _ act next c) as [(_ & H)|(f & H)]
    end; congruence.
  - rewrite (loop_step_at_relock now c Hpc) in Hs. injection Hs as <-.
    match type of Hp with context [continue ?act ?next c] =>
      destruct (continue_pc _ act next c) as [(_ & H)|(f & H)]
    end; congruence.
  - rewrite (loop_step_at_refresh now c Hpc) in Hs. injection Hs as <-.
    match type of Hp with context [continue ?act ?next c] =>
      destruct (continue_pc _ act next c) as [(_ & H)|(f & H)]
    end; congruence.
  - rewrite (step_terminated (A_loop now) c f Hpc) in Hs. discriminate.
Qed.

Lemma exec_returned sched : forall c c',
  (pc c = L_returned -> exit_ (self (machine c)) = true) ->
  exec sched c = Some c' ->
  pc c' = L_returned -> exit_ (self (machine c')) = true.
Proof.
  induction sched as [|a sched IH]; intros c c' HJ; cbn [exec].
  - now intros [= <-].
  - destruct (step a c) as [c1|] eqn:E; [|discriminate].
    apply IH. exact (step_returned a c c1 HJ E).
Qed.

(** A healthy loop that has not been told to stop gets to its drain. *)
Lemma reach_drain now c :
  error_ (self (machine c)) = false ->
  exit_ (self (machine c)) = false ->
  pc c <> L_returned ->
  exists n c1,
    run_loop n now c = Some c1 /\
    (pc c1 = L_drain \/ exists f, pc c1 = L_terminate f).
Proof.
  intros He Hx Hr.
  assert (Htop : forall c0, pc c0 = L_top ->
            error_ (self (machine c0)) = false ->
            exit_ (self (machine c0)) = false ->
            run_loop 2 now c0 = Some (with_pc L_drain c0)).
  { intros c0 Hp0 He0 Hx0.
    apply (run_loop_add 1 1 now c0 (with_pc L_lock c0)); apply run_loop_one.
    - unfold step, alive, loop_step. now rewrite Hp0, Hx0, He0.
    - reflexivity. }
  destruct (pc c) eqn:Hpc.
  - exists 2%nat, (with_pc L_drain c). split; [now apply Htop | now left].
  - exists 1%nat, (with_pc L_drain c). split; [|now left].
    apply run_loop_one. unfold step, alive, loop_step. now rewrite Hpc.
  - exists 0%nat, c. split; [reflexivity | now left].
  - pose proof (loop_step_at_call now c e str Hpc) as H1.
    set (c1 := continue _ _ c) in H1.
    assert (He1 : error_ (self (machine c1)) = false).
    { unfold c1. rewrite continue_preserves; [exact He|].
      apply preserves_bind; [apply preserves_emit | intros _; apply run_keeps]. }
    destruct (continue_pc _ (bind (emit (EvInvoke e str))
                                 (fun _ => run (snd e) str))
                (fun _ => L_relock) c) as [(_ & Hp)|(f & Hp)]; fold c1 in Hp.
    + eexists 2%nat, _. split;
        [ apply (run_loop_add 1 1 now c c1); apply run_loop_one;
          [exact H1 | now apply loop_step_relock]
        | left; reflexivity ].
    + exists 1%nat, c1. split; [now apply run_loop_one | right; eauto].
  - eexists 1%nat, _. split;
      [ apply run_loop_one; now apply loop_step_relock | left; reflexivity ].
  - pose proof (loop_step_at_refresh now c Hpc) as H1.
    set (act := if UPDATE_DELAY <? now - lastUpdateTime (self (machine c))
                then refresh now else ret tt) in H1.
    set (c1 := continue act (fun _ => L_top) c) in H1.
    assert (Hk : preserves error_ act /\ preserves exit_ act).
    { unfold act. destruct (_ <? _).
      - split; [|apply refresh_keeps_exit].
        unfold refresh. unfold_builders. frame_tac.
      - split; apply preserves_ret. }
    destruct Hk as [Hk1 Hk2].
    assert (He1 : error_ (self (machine c1)) = false).
    { unfold c1. now rewrite continue_preserves. }
    assert (Hx1 : exit_ (self (machine c1)) = false).
    { unfold c1. now rewrite continue_preserves. }
    destruct (continue_pc _ act (fun _ => L_top) c) as [(_ & Hp)|(f & Hp)];
      fold c1 in Hp.
    + exists 3%nat, (with_pc L_drain c1). split; [|now left].
      apply (run_loop_add 1 2 now c c1); [now apply run_loop_one|].
      now apply Htop.
    + exists 1%nat, c1. split; [now apply run_loop_one | right; eauto].
  - now elim Hr.
  - exists 0%nat, c. split; [reflexivity | right; eauto].
Qed.

Lemma returned_stays now c : pc c = L_returned -> step (A_loop now) c = None.
Proof. intros H. unfold step, alive, loop_step. now rewrite H. Qed.

(** C2 (amended): for every sequence of enqueue calls by any number of
    consumer threads, interleaved with the processing loop in any way
    ([sched]), the loop, left to itself afterwards and not told to exit,
    gets to the end of a drain.  If no failure has occurred by then (no
    error was raised, nothing was discarded), the callbacks that were
    called are a prefix of the requests that were pushed, in the order in
    which they were pushed; and if moreover no lambda threw on a response
    that does not parse, the queue is empty and every request has had its
    callback called: the calls are exactly the pushes, those of [sched]
    first, then those that lambdas pushed during the drain. *)
Theorem fifo_order now sched c0 c :
  pc c0 = L_top ->
  error_ (self (machine c0)) = false ->
  enqueued (trace (machine c0))
  = invoked (trace (machine c0)) ++ writeQueue (self (machine c0)) ->
  exec sched c0 = Some c ->
  exit_ (self (machine c)) = false ->
  exists n c' t,
    run_loop n now c = Some c' /\
    trace (machine c') = trace (machine c) ++ t /\
    ((forall t0, trace (machine c') = trace (machine c0) ++ t0 ->
                 failures t0 = []) ->
     (exists rest,
        enqueued (trace (machine c)) ++ enqueued t
        = invoked (trace (machine c')) ++ rest) /\
     (alive c' = true ->
      pc c' = L_refresh /\
      writeQueue (self (machine c')) = [] /\
      invoked (trace (machine c'))
      = enqueued (trace (machine c)) ++ enqueued t)).
Proof.
  intros Hpc He H0 Hx Hexit.
  assert (Hf0 : fifo c0).
  { apply plain_fifo; [now rewrite Hpc | exact He | exact H0]. }
  assert (Hret : pc c <> L_returned).
  { intros H.
    assert (Hj : pc c0 = L_returned -> exit_ (self (machine c0)) = true)
      by (rewrite Hpc; discriminate).
    pose proof (exec_returned sched c0 c Hj Hx H) as Hy. congruence. }
  destruct (exec_trace sched c0 c Hx) as [t1 Ht1].
  (* a run that ends a drain or ends the process is as wanted *)
  assert (Hout : forall n c',
            run_loop n now c = Some c' ->
            (pc c' = L_refresh /\ writeQueue (self (machine c')) = []) \/
            (exists f, pc c' = L_terminate f) ->
            exists n c' t,
              run_loop n now c = Some c' /\
              trace (machine c') = trace (machine c) ++ t /\
              ((forall t0, trace (machine c') = trace (machine c0) ++ t0 ->
                           failures t0 = []) ->
               (exists rest,
                  enqueued (trace (machine c)) ++ enqueued t
                  = invoked (trace (machine c')) ++ rest) /\
               (alive c' = true ->
                pc c' = L_refresh /\
                writeQueue (self (machine c')) = [] /\
                invoked (trace (machine c'))
                = enqueued (trace (machine c)) ++ enqueued t))).
  { intros n c' Hr Hcase. destruct (exec_trace _ c c' Hr) as [t Ht].
    exists n, c', t. split; [exact Hr|]. split; [exact Ht|].
    intros Hquiet.
    assert (Hfifo : fifo c').
    { apply (exec_fifo (sched ++ repeat (A_loop now) n) c0 c' Hf0);
        [|exact Hquiet].
      rewrite exec_app, Hx. exact Hr. }
    rewrite <- enqueued_app, <- Ht. split; [now apply fifo_rest|].
    intros Ha. destruct Hcase as [[Hp Hq]|[f Hp]].
    - split; [exact Hp|]. split; [exact Hq|].
      assert (Hpl : plain (pc c')) by now rewrite Hp.
      destruct (fifo_plain c' Hfifo Hpl) as [_ H].
      rewrite H, Hq. now rewrite app_nil_r.
    - unfold alive in Ha. rewrite Hp in Ha. discriminate Ha. }
  destruct (failures t1) as [|ev l] eqn:Efail.
  - (* no failure so far: the loop is healthy *)
    assert (Hf : fifo c).
    { apply (exec_fifo sched c0 c Hf0 Hx). intros t Ht.
      rewrite Ht1 in Ht. apply app_inv_head in Ht. now subst t. }
    assert (Herr : (exists f, pc c = L_terminate f) \/
                   error_ (self (machine c)) = false).
    { unfold fifo in Hf. destruct (pc c); try (right; apply Hf). left. eauto. }
    destruct Herr as [Hterm|Herr].
    { apply (Hout 0%nat c); [reflexivity | now right]. }
    destruct (reach_drain now c Herr Hexit Hret) as (n1 & c1 & Hr1 & Hp1).
    destruct Hp1 as [Hp1|Hp1].
    + destruct (drain_ends now _ c1 Hp1 (Nat.le_refl _))
        as (n2 & c2 & _ & Hr2 & Hcase).
      apply (Hout (n1 + n2)%nat c2);
        [now apply (run_loop_add n1 n2 now c c1) | exact Hcase].
    + apply (Hout n1 c1); [exact Hr1 | now right].
  - (* a failure has occurred already *)
    exists 0%nat, c, []. split; [reflexivity|].
    split; [now rewrite app_nil_r|].
    intros Hquiet. specialize (Hquiet t1 Ht1). congruence.
Qed.

(** *** Delivery in order, at most once *)

Lemma subseq_refl A (l : list A) : subseq l l.
Proof. induction l; constructor; assumption. Qed.

Lemma subseq_app_r A (l1 l2 l3 : list A) :
  subseq l1 l2 -> subseq l1 (l2 ++ l3).
Proof.
  induction 1 as [|x l1 l2 _ IH|x l1 l2 _ IH]; cbn [app].
  - induction l3; constructor; assumption.
  - now apply subseq_skip.
  - now apply subseq_take.
Qed.

Lemma subseq_snoc A (l1 l2 : list A) x :
  subseq l1 l2 -> subseq (l1 ++ [x]) (l2 ++ [x]).
Proof.
  induction 1 as [|y l1 l2 _ IH|y l1 l2 _ IH]; cbn [app].
  - apply subseq_take, subseq_nil.
  - now apply subseq_skip.
  - now apply subseq_take.
Qed.

Lemma subseq_app_mid A (l1 l2 l3 : list A) x :
  subseq l1 (l2 ++ [x]) -> subseq l1 (l2 ++ x :: l3).
Proof.
  intros H. change (x :: l3) with ([x] ++ l3). rewrite app_assoc.
  now apply subseq_app_r.
Qed.

Lemma orderly_plain_elim c :
  plain (pc c) -> orderly c ->
  exists gone,
    enqueued (trace (machine c)) = gone ++ writeQueue (self (machine c)) /\
    subseq (invoked (trace (machine c))) gone.
Proof. unfold orderly. destruct (pc c); cbn; intros Hp H; now try contradiction. Qed.

Lemma orderly_plain_intro c gone :
  plain (pc c) ->
  enqueued (trace (machine c)) = gone ++ writeQueue (self (machine c)) ->
  subseq (invoked (trace (machine c))) gone ->
  orderly c.
Proof.
  unfold orderly. destruct (pc c); cbn; intros Hp He Hs;
    try contradiction; eauto.
Qed.

Lemma orderly_sub c :
  orderly c ->
  subseq (invoked (trace (machine c))) (enqueued (trace (machine c))).
Proof.
  unfold orderly. destruct (pc c).
  - intros (gone & -> & H). now apply subseq_app_r.
  - intros (gone & -> & H). now apply subseq_app_r.
  - intros (gone & -> & H). now apply subseq_app_r.
  - intros (gone & q' & _ & -> & H). now apply subseq_app_r.
  - intros (gone & e & q' & Hq & -> & H). rewrite Hq. now apply subseq_app_mid.
  - intros (gone & -> & H). now apply subseq_app_r.
  - intros (gone & -> & H). now apply subseq_app_r.
  - trivial.
Qed.

Lemma moves_orderly c c' : moves c c' -> orderly c -> orderly c'.
Proof.
  intros Hm Ho.
  destruct Hm as [Hm Hpc|(N & E & S & t1 & Ht1 & Hl & Hq1 & Hd) Hpc
                 |e q str t1 Hpc Hq1 Hpc' Hs Ht1 [Hen Hin] _
                 |t1 Hpc Hpc' Hq1 _ Ht1 [Hen Hin] _
                 |e str Hpc (N & E & S & t1 & Ht1 & Hl & Hq1 & Hd) Hpc'
                 |t1 Hpc Hpc' He Ht1 [Hen Hin] Hok Hbad
                 |t1 Hpc Hq1 Ht1 [Hen Hin] _
                 |e1 Hpc _ _ Hq1 Ht1].
  - (* quiet *)
    destruct Hpc as [Hpc|[Hp Hp']].
    + unfold orderly in *. now rewrite Hm, Hpc.
    + apply orderly_plain_elim in Ho as (gone & He & Hs); [|exact Hp].
      apply (orderly_plain_intro c' gone Hp'); now rewrite Hm.
  - (* local *)
    destruct (local_events t1 Hl) as (Hi1 & _ & _).
    destruct Hpc as [Hpc|[[Hr Ht]|[f Hf]]].
    + unfold orderly in *.
      rewrite Hpc, Ht1, Hq1, enqueued_app, invoked_app, Hi1, app_nil_r.
      destruct (pc c).
      * destruct Ho as (gone & He & Hs). exists gone. now rewrite He, app_assoc.
      * destruct Ho as (gone & He & Hs). exists gone. now rewrite He, app_assoc.
      * destruct Ho as (gone & He & Hs). exists gone. now rewrite He, app_assoc.
      * destruct Ho as (gone & q' & Hq & He & Hs).
        exists gone, (q' ++ enqueued t1). rewrite He, Hq, app_assoc. now cbn.
      * destruct Ho as (gone & e & q' & Hq & He & Hs).
        exists gone, e, (q' ++ enqueued t1). rewrite He, Hq, app_assoc. now cbn.
      * destruct Ho as (gone & He & Hs). exists gone. now rewrite He, app_assoc.
      * destruct Ho as (gone & He & Hs). exists gone. now rewrite He, app_assoc.
      * now apply subseq_app_r.
    + assert (Hp : plain (pc c)) by now rewrite Hr.
      assert (Hp' : plain (pc c')) by now rewrite Ht.
      apply orderly_plain_elim in Ho as (gone & He & Hs); [|exact Hp].
      apply (orderly_plain_intro c' gone Hp').
      * now rewrite Ht1, Hq1, enqueued_app, He, app_assoc.
      * now rewrite Ht1, invoked_app, Hi1, app_nil_r.
    + apply orderly_sub in Ho. unfold orderly. rewrite Hf.
      rewrite Ht1, enqueued_app, invoked_app, Hi1, app_nil_r.
      now apply subseq_app_r.
  - (* sent *)
    unfold orderly in *. rewrite Hpc in Ho. rewrite Hpc'.
    destruct Ho as (gone & He & Hsub). exists gone, q.
    rewrite Hs, Ht1, enqueued_app, invoked_app, Hen, Hin, !app_nil_r.
    auto.
  - (* failed *)
    unfold orderly in *. rewrite Hpc in Ho. rewrite Hpc'.
    destruct Ho as (gone & He & Hsub).
    exists (gone ++ writeQueue (self (machine c))).
    rewrite Hq1, Ht1, enqueued_app, invoked_app, Hen, Hin, !app_nil_r.
    split; [exact He | now apply subseq_app_r].
  - (* called *)
    destruct (local_events t1 Hl) as (Hi1 & _ & _). cbn in Ht1, Hq1.
    unfold orderly in Ho. rewrite Hpc in Ho.
    destruct Ho as (gone & q' & Hq & He & Hsub).
    assert (Hinv : invoked (trace (machine c'))
                   = invoked (trace (machine c)) ++ [e]).
    { rewrite Ht1, !invoked_app, Hi1, app_nil_r. reflexivity. }
    assert (Henq : enqueued (trace (machine c'))
                   = gone ++ e :: q' ++ enqueued t1).
    { rewrite Ht1, !enqueued_app, He, Hq. cbn. rewrite <- !app_assoc. now cbn. }
    destruct Hpc' as [Hpc'|[f Hf]]; unfold orderly.
    + rewrite Hpc'. exists gone, e, (q' ++ enqueued t1).
      rewrite Hq1, Hq, Hinv, Henq. repeat split. now apply subseq_snoc.
    + rewrite Hf, Hinv, Henq. now apply subseq_app_mid, subseq_snoc.
  - (* popped *)
    unfold orderly in *. rewrite Hpc in Ho. rewrite Hpc'.
    destruct Ho as (gone & e & q' & Hq & Henq & Hsub).
    rewrite Ht1, enqueued_app, invoked_app, Hen, Hin, !app_nil_r.
    destruct (error_ (self (machine c))) eqn:Eerr.
    + rewrite (Hbad eq_refl). exists (gone ++ writeQueue (self (machine c))).
      rewrite app_nil_r. split; [exact Henq|].
      rewrite Hq. now apply subseq_app_mid.
    + destruct (Hok eq_refl) as [-> _]. exists (gone ++ [e]).
      split; [|exact Hsub]. rewrite Henq, Hq. cbn. now rewrite <- app_assoc.
  - (* reconnected *)
    destruct Hpc as [Hpc|[f Hf]].
    + unfold orderly in *.
      rewrite Hpc, Hq1, Ht1, enqueued_app, invoked_app, Hen, Hin, !app_nil_r.
      exact Ho.
    + apply orderly_sub in Ho. unfold orderly.
      rewrite Hf, Ht1, enqueued_app, invoked_app, Hen, Hin, !app_nil_r.
      exact Ho.
  - (* pushed *)
    unfold orderly in *.
    rewrite Hpc, Ht1, Hq1, enqueued_app, invoked_app.
    cbn [enqueued invoked flat_map app]. rewrite app_nil_r.
    destruct (pc c).
    + destruct Ho as (gone & He & Hs). exists gone. now rewrite He, app_assoc.
    + destruct Ho as (gone & He & Hs). exists gone. now rewrite He, app_assoc.
    + destruct Ho as (gone & He & Hs). exists gone. now rewrite He, app_assoc.
    + destruct Ho as (gone & q' & Hq & He & Hs).
      exists gone, (q' ++ [e1]). rewrite He, Hq, app_assoc. now cbn.
    + destruct Ho as (gone & e & q' & Hq & He & Hs).
      exists gone, e, (q' ++ [e1]). rewrite He, Hq, app_assoc. now cbn.
    + destruct Ho as (gone & He & Hs). exists gone. now rewrite He, app_assoc.
    + destruct Ho as (gone & He & Hs). exists gone. now rewrite He, app_assoc.
    + now apply subseq_app_r.
Qed.

Lemma exec_orderly sched : forall c c',
  orderly c -> exec sched c = Some c' -> orderly c'.
Proof.
  induction sched as [|a sched IH]; intros c c' Ho; cbn [exec].
  - now intros [= <-].
  - destruct (step a c) as [c1|] eqn:E; [|discriminate].
    apply IH. apply (moves_orderly c c1); [now apply (step_moves a) | exact Ho].
Qed.

(** *** The trace of the constructor *)

Lemma local_written t : forallb is_local t = true -> written t = [].
Proof.
  induction t as [|ev t IH]; [reflexivity|].
  cbn [forallb]. intros H. apply andb_true_iff in H as [Hev Ht].
  destruct ev; try discriminate Hev; cbn; auto.
Qed.

Lemma written_app t1 t2 : written (t1 ++ t2) = written t1 ++ written t2.
Proof. apply flat_map_app. Qed.

(** [reconnect] writes the version query and nothing else. *)
Lemma reconnect_trace m :
  match reconnect m with
  | Ret _ m' | Raise _ m' =>
      writeQueue (self m') = writeQueue (self m) /\
      exists t, trace m' = trace m ++ t /\ silent t /\
                written t = [opcode Protocol.Version]
  end.
Proof.
  unfold reconnect, bind, get, when, socket_close, socket_create, modify,
    socket_setTimeout, socket_write, socket_read, raise_error, emit, bind,
    ret, call, throw.
  destruct m as [o w fl tr]. destruct o. cbn.
  destruct (0 <=? socket0); cbn;
    destruct (Socket.createSocket sock (Protocol.Port P) _) as [fd w1]; cbn;
    destruct (Socket.writeToSocket sock fd _ _) as [ok w2]; cbn;
    destruct (Socket.readFromSocket sock fd w2) as [str w3]; cbn;
    destruct (0 <? Z.of_nat (String.length str)); cbn;
    try destruct (stoi str) as [flt|ver]; cbn;
    try destruct (negb (ver =? Protocol.version P)); cbn;
    (split; [reflexivity|]); eexists;
    (split; [rewrite <- ?app_assoc; cbn; reflexivity|]);
    repeat split; reflexivity.
Qed.

Lemma new_Sysmodule_trace junk now w :
  match new_Sysmodule junk now w with
  | Ret _ m | Raise _ m =>
      invoked (trace m) = [] /\
      enqueued (trace m) = writeQueue (self m) /\
      written (trace m) = [opcode Protocol.Version]
  end.
Proof.
  unfold new_Sysmodule, Sysmodule_ctor.
  do 14 (erewrite bind_ret by reflexivity;
         cbn [modify with_self self net flags trace]).
  match goal with |- context [bind reconnect _ ?m1] => set (m := m1) end.
  assert (Hq0 : writeQueue (self m) = []) by (subst m; now destruct junk).
  assert (Ht0 : trace m = []) by reflexivity.
  pose proof (reconnect_trace m) as Hr.
  unfold bind at 1. destruct (reconnect m) as [[] m1|flt m1];
    destruct Hr as (Hq1 & t1 & Ht1 & [Hen Hin] & Hw1);
    rewrite Ht0 in Ht1; cbn [app] in Ht1; rewrite Hq0 in Hq1.
  - pose proof (tame_bind _ _ (sendGetQueue 0 25000)
                  (fun _ => sendGetSubQueue 0 5000)
                  (tame_addToWriteQueue _ _)
                  (fun _ => tame_addToWriteQueue _ _) m1) as Ht.
    destruct (bind (sendGetQueue 0 25000) (fun _ => sendGetSubQueue 0 5000) m1)
      as [[] m2|flt m2];
      destruct Ht as (_ & _ & _ & t2 & Ht2 & Hl & Hq2 & _);
      destruct (local_events t2 Hl) as (Hi2 & _ & _);
      rewrite Ht2, Ht1, invoked_app, enqueued_app, written_app, Hin, Hen,
        Hi2, Hw1, Hq2, Hq1, (local_written t2 Hl); repeat split.
  - rewrite Ht1, Hin, Hen, Hw1, Hq1. repeat split.
Qed.

Lemma launched_config junk now w :
  let c := launched junk now w in
  (pc c = L_top \/ exists f, pc c = L_terminate f) /\
  invoked (trace (machine c)) = [] /\
  enqueued (trace (machine c)) = writeQueue (self (machine c)) /\
  written (trace (machine c)) = [opcode Protocol.Version].
Proof.
  unfold launched. pose proof (new_Sysmodule_trace junk now w) as H.
  destruct (new_Sysmodule junk now w) as [[] m|f m]; cbn; split; eauto.
Qed.

Lemma subseq_nil_l A (l : list A) : subseq [] l.
Proof. induction l; constructor; assumption. Qed.

Lemma orderly_start c :
  (pc c = L_top \/ exists f, pc c = L_terminate f) ->
  invoked (trace (machine c)) = [] ->
  enqueued (trace (machine c)) = writeQueue (self (machine c)) ->
  orderly c.
Proof.
  intros [Hp|[f Hp]] Hi He; unfold orderly; rewrite Hp, Hi.
  - exists []. split; [exact He | constructor].
  - apply subseq_nil_l.
Qed.

Lemma launched_orderly junk now w : orderly (launched junk now w).
Proof.
  pose proof (launched_config junk now w) as H. cbn zeta in H.
  destruct H as (Hp & Hi & He & _).
  apply orderly_start; assumption.
Qed.

(** X3: in every run of a freshly constructed client, with whatever
    failures, reconnects and interleaving of threads, the callbacks are
    called in the order in which their requests were pushed, and each
    request's callback at most once: the sequence of calls is the
    sequence of pushes with some of them left out. *)
Theorem delivery_in_order junk now w sched c :
  exec sched (launched junk now w) = Some c ->
  subseq (invoked (trace (machine c))) (enqueued (trace (machine c))).
Proof.
  intros Hx. apply orderly_sub.
  exact (exec_orderly sched _ c (launched_orderly junk now w) Hx).
Qed.

(** *** What goes out on the socket *)

Lemma extends_written m m' :
  extends m m' -> exists t, trace m' = trace m ++ t /\ written t = [].
Proof.
  intros (_ & _ & _ & t & Ht & Hl & _). exists t.
  split; [exact Ht | now apply local_written].
Qed.

Lemma continue_written A (act : M A) next c :
  tame act ->
  exists t, trace (machine (continue act next c)) = trace (machine c) ++ t /\
            written t = [].
Proof.
  intros Ht. unfold continue. specialize (Ht (machine c)).
  destruct (act (machine c)); cbn; now apply extends_written.
Qed.

(** One step writes at most the frame at the head of the queue, or the
    version query. *)
Lemma step_written a c c' :
  step a c = Some c' ->
  exists t,
    trace (machine c') = trace (machine c) ++ t /\
    forall frame, In frame (written t) ->
      frame = opcode Protocol.Version \/
      exists k q, writeQueue (self (machine c)) = (frame, k) :: q.
Proof.
  assert (Hnone : forall t : list Event, written t = [] ->
            forall frame, In frame (written t) ->
              frame = opcode Protocol.Version \/
              exists k q, writeQueue (self (machine c)) = (frame, k) :: q).
  { intros t -> frame []. }
  assert (Hquiet : forall c1 : Config, machine c1 = machine c ->
            exists t,
              trace (machine c1) = trace (machine c) ++ t /\
              forall frame, In frame (written t) ->
                frame = opcode Protocol.Version \/
                exists k q, writeQueue (self (machine c)) = (frame, k) :: q).
  { intros c1 ->. exists []. rewrite app_nil_r. split; [reflexivity|].
    intros frame []. }
  assert (Htame : forall A (act : M A) next, tame act ->
            exists t,
              trace (machine (continue act next c)) = trace (machine c) ++ t /\
              forall frame, In frame (written t) ->
                frame = opcode Protocol.Version \/
                exists k q, writeQueue (self (machine c)) = (frame, k) :: q).
  { intros A act next Ht.
    destruct (continue_written A act next c Ht) as (t & Htr & Hw).
    exists t. split; [exact Htr | now apply Hnone]. }
  intros Hstep. pose proof (thread_step a c c' Hstep) as Hth. revert Hstep.
  unfold step. destruct (alive c) eqn:Ha; cbn [negb]; [|discriminate].
  destruct a as [now|r| | | | |d|d|d|d r|k d].
  - unfold loop_step. destruct (pc c) eqn:Epc; try discriminate.
    + intros [= <-]. now apply Hquiet.
    + intros [= <-]. now apply Hquiet.
    + destruct (writeQueue (self (machine c))) as [|[frame f] q] eqn:Eq.
      * intros [= <-]. now apply Hquiet.
      * intros [= <-].
        destruct c as [[o w fl tr] l ws]. destruct o.
        cbn in Epc, Eq. subst l writeQueue0.
        unfold continue, bind, socket_write, socket_read,
          raise_error, discard, modify, emit, get, ret, bind. cbn.
        destruct (Socket.writeToSocket sock socket0 frame w) as [[] w1]; cbn;
          [destruct (Socket.readFromSocket sock socket0 w1) as [str w2]; cbn;
           destruct (Nat.eqb (String.length str) 0); cbn|];
          eexists;
          (split; [rewrite <- !app_assoc; cbn; reflexivity|]);
          cbn; intros x [<-|[]]; right; eauto.
    + intros [= <-]. unfold continue. erewrite bind_ret by reflexivity.
      pose proof (tame_run (snd e) str (with_event (EvInvoke e str) (machine c)))
        as Ht.
      destruct (run (snd e) str _) as [[] m'|flt m']; cbn [machine];
        destruct (extends_written _ _ Ht) as (t & Htr & Hw);
        exists (EvInvoke e str :: t);
        (split; [rewrite Htr; cbn; now rewrite <- app_assoc|]);
        apply Hnone; exact Hw.
    + intros [= <-].
      destruct c as [[o w fl tr] l ws]. destruct o. cbn in Epc. subst l.
      unfold continue, bind, modify, get, when, discard, emit, ret, bind. cbn.
      destruct error_0; cbn;
        [exists [EvDiscard (tl writeQueue0)] | exists []; rewrite app_nil_r];
        (split; [reflexivity|]); cbn; intros x [].
    + intros [= <-]. apply Htame.
      destruct (_ <? _); [apply tame_refresh | apply tame_ret].
  - destruct (can_enqueue c); [|discriminate]. intros [= <-].
    apply Htame, tame_perform.
  - intros [= <-]. apply Htame, tame_queueChanged.
  - intros [= <-]. apply Htame, tame_subQueueChanged.
  - intros [= <-]. apply Htame, tame_exit.
  - destruct (mutex_free c); [|discriminate]. intros [= <-].
    unfold consumer, continue.
    pose proof (reconnect_trace (machine c)) as H.
    destruct (reconnect (machine c)) as [[] m'|f m'];
      destruct H as (_ & t & Ht & _ & Hw); exists t; cbn;
      (split; [exact Ht|]); rewrite Hw; intros x [<-|[]]; now left.
  - unfold wait_call. destruct (waiters c d); try discriminate.
    destruct (can_enqueue c); [|discriminate]. intros [= <-].
    cbn [machine with_waiter]. apply Htame, tame_wait_request.
  - unfold wait_call. destruct (waiters c d); try discriminate.
    destruct (can_enqueue c); [|discriminate]. intros [= <-].
    cbn [machine with_waiter]. apply Htame, tame_wait_request.
  - intros _. destruct Hth as [(w & -> & _)|(e & k & _ & _ & ->)].
    + now apply Hquiet.
    + exists [EvEnqueue e]. split; [reflexivity|]. intros x [].
  - intros _. destruct Hth as [_ ->]. cbn [machine with_waiter].
    apply Htame, tame_prelude.
  - intros _. destruct Hth as [_ ->]. cbn [machine with_waiter].
    apply Htame, tame_set_done.
Qed.


Lemma enqueued_frames_app t1 t2 :
  map fst (enqueued (t1 ++ t2)) = map fst (enqueued t1) ++ map fst (enqueued t2).
Proof. now rewrite enqueued_app, map_app. Qed.

Lemma exec_written sched : forall c c',
  fresh_since [] c ->
  (forall frame, In frame (written (trace (machine c))) ->
     frame = opcode Protocol.Version \/
     In frame (map fst (enqueued (trace (machine c))))) ->
  exec sched c = Some c' ->
  forall frame, In frame (written (trace (machine c'))) ->
    frame = opcode Protocol.Version \/
    In frame (map fst (enqueued (trace (machine c')))).
Proof.
  induction sched as [|a sched IH]; intros c c' Hf Hw; cbn [exec].
  - now intros [= <-].
  - destruct (step a c) as [c1|] eqn:E; [|discriminate].
    apply IH.
    + apply (moves_fresh [] c c1); [now apply (step_moves a) | exact Hf].
    + destruct (step_written a c c1 E) as (t & Ht & Hstep).
      intros frame. rewrite Ht, written_app, enqueued_frames_app.
      intros Hin. apply in_app_or in Hin as [Hin|Hin].
      * destruct (Hw frame Hin) as [->|H]; [now left|].
        right. apply in_or_app. now left.
      * destruct (Hstep frame Hin) as [->|(k & q & Hq)]; [now left|].
        right. apply in_or_app. left.
        destruct Hf as (t0 & Ht0 & Hincl & _). cbn [app] in Ht0.
        rewrite Ht0. apply (in_map fst _ (frame, k)).
        apply Hincl. rewrite Hq. now left.
Qed.

Lemma fresh_start c :
  (pc c = L_top \/ exists f, pc c = L_terminate f) ->
  invoked (trace (machine c)) = [] ->
  enqueued (trace (machine c)) = writeQueue (self (machine c)) ->
  fresh_since [] c.
Proof.
  intros Hp Hi He.
  exists (trace (machine c)).
  split; [reflexivity|]. rewrite Hi, He.
  split; [apply incl_refl|]. split; [intros x []|].
  intros e str H. destruct Hp as [Hp|[f Hp]]; rewrite Hp in H; discriminate.
Qed.

Lemma launched_fresh junk now w : fresh_since [] (launched junk now w).
Proof.
  pose proof (launched_config junk now w) as H. cbn zeta in H.
  destruct H as (Hp & Hi & He & _).
  apply fresh_start; assumption.
Qed.

(** X4: in every run of a freshly constructed client, every frame handed
    to [writeToSocket] is the version query of a handshake or the frame
    of a request that was pushed on the queue before: the client sends
    nothing that nobody asked for. *)
Theorem written_frames_were_enqueued junk now w sched c :
  exec sched (launched junk now w) = Some c ->
  forall frame, In frame (written (trace (machine c))) ->
    frame = opcode Protocol.Version \/
    In frame (map fst (enqueued (trace (machine c)))).
Proof.
  intros Hx.
  apply (exec_written sched (launched junk now w) c);
    [apply launched_fresh | | exact Hx].
  pose proof (launched_config junk now w) as H. cbn zeta in H.
  destruct H as (_ & _ & _ & Hw).
  intros frame Hin. rewrite Hw in Hin. destruct Hin as [<-|[]]. now left.
Qed.

(** *** Numbers with something around them *)

Lemma to_digits_app fuel : forall n acc sfx,
  (to_digits fuel n acc ++ sfx)%string = to_digits fuel n (acc ++ sfx)%string.
Proof.
  induction fuel as [|fuel IH]; intros n acc sfx; cbn [to_digits];
    [reflexivity|].
  destruct (n <? 10); [reflexivity|]. now rewrite IH.
Qed.

Lemma scan_digits_stop a sfx :
  starts_with_digit sfx = false -> scan_digits a sfx = (a, sfx).
Proof. destruct sfx as [|c t]; cbn; [reflexivity|]. now intros ->. Qed.

Lemma scan_digits_to_digits n sfx :
  0 <= n -> starts_with_digit sfx = false ->
  fst (scan_digits 0 (to_digits (digits_fuel n) n sfx)) = n.
Proof.
  intros Hn Hs.
  destruct (scan_to_digits (digits_fuel n) n sfx
              (conj Hn (digits_fuel_enough n Hn))) as (k & _ & Hscan).
  rewrite Hscan, scan_digits_stop by exact Hs. reflexivity.
Qed.

Lemma skip_space_pad pad s :
  string_forall isspace pad = true -> skip_space (pad ++ s)%string = skip_space s.
Proof.
  induction pad as [|c pad IH]; cbn [append string_forall]; [reflexivity|].
  intros H. apply andb_true_iff in H as [Hc Hp].
  cbn [skip_space]. rewrite Hc. now apply IH.
Qed.

Lemma scan_integer_pad pad s :
  string_forall isspace pad = true ->
  scan_integer (pad ++ s)%string = scan_integer s.
Proof. intros H. unfold scan_integer. now rewrite skip_space_pad. Qed.

(** White space before a printed integer and anything but a digit after
    it do not change what the scanner reads. *)
Lemma scan_integer_around pad z sfx :
  string_forall isspace pad = true ->
  starts_with_digit sfx = false ->
  scan_integer (pad ++ to_string z ++ sfx)%string = Some (z <? 0, Z.abs z).
Proof.
  intros Hp Hs. rewrite scan_integer_pad by exact Hp.
  unfold to_string. destruct (z <? 0) eqn:E.
  - apply Z.ltb_lt in E. assert (Hn : 0 <= - z) by lia.
    cbn [append]. rewrite to_digits_app. cbn [append].
    destruct (to_digits_head (Z.to_nat (Z.log2 (- z))) (- z) sfx Hn)
      as (c & t & Hd & Hc).
    fold (digits_fuel (- z)) in Hd.
    rewrite Hd, scan_integer_minus by exact Hc.
    rewrite <- Hd, scan_digits_to_digits by assumption.
    do 2 f_equal. lia.
  - apply Z.ltb_ge in E.
    rewrite to_digits_app. cbn [append].
    destruct (to_digits_head (Z.to_nat (Z.log2 z)) z sfx E)
      as (c & t & Hd & Hc).
    fold (digits_fuel z) in Hd.
    rewrite Hd, scan_integer_head by exact Hc.
    rewrite <- Hd, scan_digits_to_digits by assumption.
    do 2 f_equal. lia.
Qed.

Lemma stoi_around pad z sfx :
  string_forall isspace pad = true ->
  starts_with_digit sfx = false ->
  INT_MIN <= z <= INT_MAX ->
  stoi (pad ++ to_string z ++ sfx)%string = inr z.
Proof.
  intros Hp Hs Hz. unfold stoi. rewrite scan_integer_around by assumption.
  assert (Hr : (if z <? 0 then - Z.abs z else Z.abs z) = z).
  { destruct (z <? 0) eqn:E; [apply Z.ltb_lt in E | apply Z.ltb_ge in E]; lia. }
  rewrite Hr. unfold in_int.
  destruct Hz as [H1 H2]. apply Z.leb_le in H1, H2. now rewrite H1, H2.
Qed.

Lemma stoi_not_empty s v : stoi s = inr v -> s <> "".
Proof. intros H ->. discriminate H. Qed.

(** *** The handshake *)

(** The handshake as a function of the reply. *)
Lemma reconnect_cases m :
  let reply := handshake_reply m in
  match reconnect m with
  | Ret _ m' =>
      writeQueue (self m') = writeQueue (self m) /\
      ((reply = "" /\ error_ (self m') = true) \/
       exists ver, stoi reply = inr ver /\
                   error_ (self m') = negb (ver =? Protocol.version P))
  | Raise f m' =>
      reply <> "" /\ stoi reply = inl f /\
      writeQueue (self m') = writeQueue (self m) /\
      error_ (self m') = error_ (self m)
  end.
Proof.
  unfold handshake_reply, reconnect, bind, get, when, socket_close,
    socket_create, modify, socket_setTimeout, socket_write, socket_read,
    raise_error, emit, bind, ret, call, throw.
  destruct m as [o w fl tr]. destruct o. cbn.
  destruct (0 <=? socket0); cbn;
    destruct (Socket.createSocket sock (Protocol.Port P) _) as [fd w1]; cbn;
    destruct (Socket.writeToSocket sock fd _ _) as [ok w2]; cbn;
    destruct (Socket.readFromSocket sock fd w2) as [[|ch str] w3]; cbn;
    try (split; [reflexivity|]; left; split; reflexivity);
    change (0 <? Z.pos (Pos.of_succ_nat (String.length str))) with true; cbn;
    destruct (stoi (String ch str)) as [flt|ver]; cbn;
    try (repeat split; congruence);
    destruct (ver =? Protocol.version P) eqn:E; cbn;
    (split; [reflexivity|]); right; exists ver; rewrite E;
    split; reflexivity.
Qed.

Lemma reconnect_accepted m :
  stoi (handshake_reply m) = inr (Protocol.version P) ->
  exists m', reconnect m = Ret tt m' /\
    error_ (self m') = false /\
    writeQueue (self m') = writeQueue (self m).
Proof.
  intros Hs. pose proof (reconnect_cases m) as H. cbn zeta in H.
  destruct (reconnect m) as [[] m'|f m'].
  - destruct H as (Hq & [(He & _)|(ver & Hv & He)]).
    + rewrite He in Hs. discriminate Hs.
    + rewrite Hs in Hv. injection Hv as <-.
      rewrite Z.eqb_refl in He. exists m'. auto.
  - destruct H as (_ & Hf & _). rewrite Hs in Hf. discriminate Hf.
Qed.

(** X5: the version check reads a number off the front of the reply and
    ignores the rest.  A reply made of white space, the client's version
    in decimal, and any text that does not go on with a digit is accepted
    like the bare number: the handshake succeeds and the error flag is
    cleared. *)
Theorem handshake_reads_prefix m pad sfx :
  INT_MIN <= Protocol.version P <= INT_MAX ->
  string_forall isspace pad = true ->
  starts_with_digit sfx = false ->
  handshake_reply m = (pad ++ to_string (Protocol.version P) ++ sfx)%string ->
  exists m', reconnect m = Ret tt m' /\ error_ (self m') = false.
Proof.
  intros Hv Hp Hs Hr.
  destruct (reconnect_accepted m) as (m' & H & He & _).
  - rewrite Hr. now apply stoi_around.
  - eauto.
Qed.

(** X6: a version reply that is not empty and does not begin with a
    number makes [std::stoi] throw inside [reconnect]; nobody catches it.
    The process ends there, whichever thread called; the error flag is
    not even raised. *)
Theorem garbled_version_terminates c f :
  alive c = true ->
  mutex_free c = true ->
  handshake_reply (machine c) <> "" ->
  stoi (handshake_reply (machine c)) = inl f ->
  exists c',
    step A_reconnect c = Some c' /\
    pc c' = L_terminate f /\
    error_ (self (machine c')) = error_ (self (machine c)) /\
    forall a, step a c' = None.
Proof.
  intros Ha Hm Hne Hs. unfold step. rewrite Ha, Hm. cbn [negb].
  unfold consumer, continue.
  pose proof (reconnect_cases (machine c)) as H. cbn zeta in H.
  destruct (reconnect (machine c)) as [[] m'|f' m'].
  - destruct H as (_ & [(He & _)|(ver & Hv & _)]); [contradiction|].
    rewrite Hs in Hv. discriminate Hv.
  - destruct H as (_ & Hf & _ & He). rewrite Hs in Hf. injection Hf as <-.
    eexists. split; [reflexivity|]. cbn.
    split; [reflexivity|]. split; [exact He|]. reflexivity.
Qed.

(** *** The constructor *)

Lemma push_spec s f m :
  error_ (self m) = false ->
  exists m',
    addToWriteQueue s f m = Ret tt m' /\
    error_ (self m') = false /\
    writeQueue (self m') = writeQueue (self m) ++ [(s, f)] /\
    trace m' = trace m ++ [EvEnqueue (s, f)].
Proof.
  intros He. rewrite addToWriteQueue_pushed by exact He.
  eexists. split; [reflexivity|].
  destruct m as [o w fl tr]. destruct o. cbn in *. auto.
Qed.

Lemma handshake_reply_greeting m :
  socket (self m) < 0 -> handshake_reply m = greeting (net m).
Proof.
  intros H. unfold handshake_reply, greeting.
  apply Z.leb_gt in H. now rewrite H.
Qed.

(** X7: what the constructor leaves in the queue depends on the
    handshake.  If the server reports the client's version, the error
    flag is clear and the queue holds the two launch requests (the whole
    queue, then the whole sub-queue).  If the reply is empty or reports
    another version, the error flag is set and the queue is empty: the
    launch requests were dropped.  If the reply is not a number, the
    constructor throws. *)
Theorem ctor_launch_fetch junk now w :
  (stoi (greeting w) = inr (Protocol.version P) ->
   exists m, new_Sysmodule junk now w = Ret tt m /\
     error_ (self m) = false /\
     writeQueue (self m) = [refetch_queue; refetch_subQueue]) /\
  (greeting w = "" \/
   (exists ver, stoi (greeting w) = inr ver /\ ver <> Protocol.version P) ->
   exists m, new_Sysmodule junk now w = Ret tt m /\
     error_ (self m) = true /\
     writeQueue (self m) = []) /\
  (forall f, greeting w <> "" -> stoi (greeting w) = inl f ->
   exists m, new_Sysmodule junk now w = Raise f m).
Proof.
  unfold new_Sysmodule, Sysmodule_ctor.
  do 14 (erewrite bind_ret by reflexivity;
         cbn [modify with_self self net flags trace]).
  match goal with |- context [bind reconnect _ ?m1] => set (m := m1) end.
  assert (Hq0 : writeQueue (self m) = []) by (subst m; now destruct junk).
  assert (Hg : handshake_reply m = greeting w).
  { apply (handshake_reply_greeting m). subst m. now destruct junk. }
  clearbody m. rewrite <- Hg. clear Hg. split; [|split].
  - intros Hs. destruct (reconnect_accepted m Hs) as (m1 & Hr & He & Hq).
    erewrite bind_ret by exact Hr. unfold sendGetQueue, sendGetSubQueue.
    match goal with |- context [bind (addToWriteQueue ?s ?f) _ m1] =>
      destruct (push_spec s f m1 He) as (m2 & H2 & He2 & Hq2 & _)
    end.
    erewrite bind_ret by exact H2.
    match goal with |- context [addToWriteQueue ?s ?f m2] =>
      destruct (push_spec s f m2 He2) as (m3 & H3 & He3 & Hq3 & _)
    end.
    exists m3. split; [exact H3|]. split; [exact He3|].
    rewrite Hq3, Hq2, Hq, Hq0. reflexivity.
  - intros Hs. destruct (reconnect_rejected m Hs) as (m1 & Hr & He & Hq).
    erewrite bind_ret by exact Hr. unfold sendGetQueue, sendGetSubQueue.
    erewrite bind_ret by (apply addToWriteQueue_dropped; exact He).
    rewrite addToWriteQueue_dropped by exact He.
    exists m1. repeat split; congruence.
  - intros f Hne Hs.
    pose proof (reconnect_cases m) as H. cbn zeta in H.
    destruct (reconnect m) as [[] m1|f' m1] eqn:Hr.
    + destruct H as (_ & [(He & _)|(ver & Hv & _)]); [contradiction|].
      rewrite Hs in Hv. discriminate Hv.
    + destruct H as (_ & Hf & _). rewrite Hs in Hf. injection Hf as <-.
      exists m1. now apply bind_raise.
Qed.

(** *** Requests that were waiting when a handshake failed *)

Lemma drain_writes now c frame f q :
  pc c = L_drain ->
  writeQueue (self (machine c)) = (frame, f) :: q ->
  exists c' t,
    step (A_loop now) c = Some c' /\
    trace (machine c') = trace (machine c) ++ t /\
    written t = [frame] /\ enqueued t = [] /\ invoked t = [].
Proof.
  intros Hpc Hq. unfold step, alive, loop_step. rewrite Hpc, Hq. cbn [negb].
  destruct c as [[o w fl tr] l ws]. destruct o.
  cbn in Hpc, Hq. subst l writeQueue0.
  unfold continue, bind, socket_write, socket_read,
    raise_error, discard, modify, emit, get, ret, bind. cbn.
  destruct (Socket.writeToSocket sock socket0 frame w) as [[] w1]; cbn;
    [destruct (Socket.readFromSocket sock socket0 w1) as [str w2]; cbn;
     destruct (Nat.eqb (String.length str) 0); cbn|];
    eexists; eexists; (split; [reflexivity|]); cbn;
    (split; [rewrite <- !app_assoc; cbn; reflexivity|]);
    repeat split; reflexivity.
Qed.

(** X8: a reconnect does not clear the queue.  Requests that were
    waiting while the error flag was up (pushed before a handshake
    failed, with the loop asleep at its top) are not dropped: after the
    next successful handshake the loop sends the one at the head. *)
Theorem queued_requests_survive_reconnect now c frame k q :
  pc c = L_top ->
  exit_ (self (machine c)) = false ->
  writeQueue (self (machine c)) = (frame, k) :: q ->
  stoi (handshake_reply (machine c)) = inr (Protocol.version P) ->
  exists c' t,
    exec [A_reconnect; A_loop now; A_loop now; A_loop now] c = Some c' /\
    trace (machine c') = trace (machine c) ++ t /\
    written t = [opcode Protocol.Version; frame] /\
    enqueued t = [].
Proof.
  intros Hpc Hx Hq Hs.
  destruct (reconnect_accepted (machine c) Hs) as (m1 & Hr & He & Hq1).
  pose proof (reconnect_trace (machine c)) as Ht.
  pose proof (reconnect_keeps_exit (machine c)) as Hk.
  rewrite Hr in Ht, Hk. destruct Ht as (_ & t1 & Ht1 & [Hen1 _] & Hw1).
  set (c1 := {| machine := m1; pc := L_top; waiters := waiters c |}).
  assert (H1 : step A_reconnect c = Some c1).
  { unfold step, alive, mutex_free. rewrite Hpc. cbn [negb].
    unfold consumer, continue. now rewrite Hr, Hpc. }
  assert (H2 : step (A_loop now) c1 = Some (with_pc L_lock c1)).
  { unfold step, alive, loop_step. cbn. now rewrite Hk, Hx, He. }
  assert (H3 : step (A_loop now) (with_pc L_lock c1)
               = Some (with_pc L_drain c1)) by reflexivity.
  destruct (drain_writes now (with_pc L_drain c1) frame k q eq_refl)
    as (c4 & t4 & H4 & Ht4 & Hw4 & Hen4 & _).
  { cbn. now rewrite Hq1. }
  exists c4, (t1 ++ t4). cbn [exec]. rewrite H1, H2, H3, H4.
  split; [reflexivity|]. cbn in Ht4.
  rewrite Ht4, Ht1, written_app, enqueued_app, Hw1, Hw4, Hen1, Hen4.
  now rewrite app_assoc.
Qed.

(** *** The two windows of the handshake gate *)

(** C3 (where the code departs from it): the gate is tested outside the
    lock, twice.  [process()] tests [error_] at the top of an iteration
    and takes [writeMutex] later; [addToWriteQueue] tests [error_] and
    takes [writeMutex] later.  A handshake that is refused in between
    sets the flag too late for either.  With the loop between its test
    and its lock: if a request is waiting, the loop still sends the one at
    the head; if none is waiting but a call of [addToWriteQueue] stands
    between its own test and its lock, that call still pushes, with the
    flag set, and the loop sends what it pushed. *)
Theorem handshake_gate_race now c :
  pc c = L_lock ->
  (handshake_reply (machine c) = "" \/
   exists ver, stoi (handshake_reply (machine c)) = inr ver /\
               ver <> Protocol.version P) ->
  exists c1,
    step A_reconnect c = Some c1 /\
    error_ (self (machine c1)) = true /\
    (forall e q,
       writeQueue (self (machine c)) = e :: q ->
       exists c2 t,
         exec [A_loop now; A_loop now] c1 = Some c2 /\
         trace (machine c2) = trace (machine c1) ++ t /\
         written t = [fst e]) /\
    (forall d e k,
       writeQueue (self (machine c)) = [] ->
       waiters c d = W_lock e k ->
       exists c2 t,
         exec [A_wait_step d; A_loop now; A_loop now] c1 = Some c2 /\
         trace (machine c2) = trace (machine c1) ++ t /\
         enqueued t = [e] /\
         written t = [fst e]).
Proof.
  intros Hpc Hbad.
  destruct (reconnect_rejected (machine c) Hbad) as (m1 & Hr & He & Hq1).
  set (c1 := {| machine := m1; pc := L_lock; waiters := waiters c |}).
  exists c1. split; [|split; [exact He|split]].
  - unfold step, alive, mutex_free. rewrite Hpc. cbn [negb].
    unfold consumer, continue. now rewrite Hr, Hpc.
  - intros [frame f] q Hq.
    assert (H2 : step (A_loop now) c1 = Some (with_pc L_drain c1))
      by reflexivity.
    destruct (drain_writes now (with_pc L_drain c1) frame f q eq_refl)
      as (c3 & t3 & H3 & Ht3 & Hw3 & _).
    { cbn. now rewrite Hq1. }
    exists c3, t3. cbn [exec]. rewrite H2, H3. auto.
  - intros d [frame f] k Hq Hw.
    set (c2 := with_waiter d match k with
                             | Some k' => W_test k'
                             | None => W_none
                             end (consumer (push (frame, f)) c1)).
    assert (H2 : step (A_wait_step d) c1 = Some c2).
    { unfold step, alive. cbn [c1 pc negb].
      rewrite (wait_step_lock d (frame, f) k c1 Hw).
      reflexivity. }
    assert (H3 : step (A_loop now) c2 = Some (with_pc L_drain c2))
      by reflexivity.
    destruct (drain_writes now (with_pc L_drain c2) frame f [] eq_refl)
      as (c4 & t4 & H4 & Ht4 & Hw4 & Hen4 & _).
    { cbn. destruct m1 as [[] ? ? ?]. cbn in Hq1 |- *.
      rewrite Hq1, Hq. reflexivity. }
    exists c4, (EvEnqueue (frame, f) :: t4). cbn [exec]. rewrite H2, H3, H4.
    split; [reflexivity|]. cbn in Ht4. rewrite Ht4.
    split; [now rewrite <- app_assoc|].
    change (EvEnqueue (frame, f) :: t4) with ([EvEnqueue (frame, f)] ++ t4).
    rewrite enqueued_app, written_app, Hen4, Hw4. split; reflexivity.
Qed.

(** *** The two grains of a call *)





(** *** What the lambdas do with the response *)

(** X9: no lambda, on no response, raises or clears the error flag, asks
    the loop to stop, or touches the socket, the connection behind it or
    the time of the last refresh, whether it returns or throws. *)
Theorem callbacks_leave_the_connection_alone k s m :
  match run k s m with
  | Ret _ m' | Raise _ m' =>
      error_ (self m') = error_ (self m) /\
      exit_ (self m') = exit_ (self m) /\
      socket (self m') = socket (self m) /\
      lastUpdateTime (self m') = lastUpdateTime (self m) /\
      net m' = net m
  end.
Proof.
  destruct (run_keeps k s) as (Hx & Hl & Hs & He).
  specialize (Hx m). specialize (Hl m). specialize (Hs m). specialize (He m).
  pose proof (tame_run k s m) as Ht.
  destruct (run k s m); destruct Ht as (Hn & _); auto.
Qed.

(** X10: the lambdas of [sendRemoveFromQueue], [sendSetQueue],
    [sendAddToSubQueue], [sendRemoveFromSubQueue] and
    [sendSkipSubQueueSongs] parse the acknowledgement and do nothing with
    it: whatever number the server answers, equal to what was asked or
    not, the client is exactly as before; the only other outcome is the
    exception of the conversion. *)
Theorem acknowledgements_are_ignored k s m :
  is_ack k = true ->
  run k s m = match parse_fault k s with
              | None => Ret tt m
              | Some f => Raise f m
              end.
Proof.
  destruct k; try discriminate; intros _;
    unfold run, parse_fault, bind, call, throw, ret;
    match goal with
    | |- context [stoul s] => destruct (stoul s)
    | |- context [stoi s] => destruct (stoi s)
    end; reflexivity.
Qed.

Lemma run_stoi_ok (k : Z -> M unit) s v m :
  stoi s = inr v -> bind (call (stoi s)) k m = k v m.
Proof. intros H. unfold bind, call. now rewrite H. Qed.

Lemma switch_Repeat_none v :
  v <> Protocol.Repeat_Off P -> v <> Protocol.Repeat_One P ->
  v <> Protocol.Repeat_All P -> switch_Repeat v = None.
Proof.
  intros H1 H2 H3. unfold switch_Repeat.
  apply Z.eqb_neq in H1, H2, H3. now rewrite H1, H2, H3.
Qed.

(** X11: what the polls make of a code they do not know.  A repeat code
    that is none of Off, One, All is stored as [RepeatMode::Off]; a status
    code that is none of the four is stored as [PlaybackStatus::Error];
    any shuffle code other than Off is stored as [ShuffleMode::On].  None
    of them reports anything. *)
Theorem unknown_codes_fall_back s v m :
  stoi s = inr v ->
  (v <> Protocol.Repeat_Off P -> v <> Protocol.Repeat_One P ->
   v <> Protocol.Repeat_All P ->
   run K_sendGetRepeat s m
   = assign F_repeatMode (set_repeatMode_ RepeatMode.Off) m) /\
  (v <> Protocol.Status_Error P -> v <> Protocol.Status_Playing P ->
   v <> Protocol.Status_Paused P -> v <> Protocol.Status_Stopped P ->
   run K_sendGetStatus s m
   = assign F_status (set_status_ PlaybackStatus.Error) m) /\
  (v <> Protocol.Shuffle_Off P ->
   run K_sendGetShuffle s m
   = assign F_shuffleMode (set_shuffleMode_ ShuffleMode.On) m).
Proof.
  intros Hs. unfold run. rewrite !(run_stoi_ok _ s v m Hs).
  split; [|split].
  - intros H1 H2 H3. now rewrite switch_Repeat_none.
  - intros H1 H2 H3 H4. unfold switch_Status.
    apply Z.eqb_neq in H1, H2, H3, H4. now rewrite H1, H2, H3, H4.
  - intros H. unfold shuffle_of. apply Z.eqb_neq in H. now rewrite H.
Qed.

(** X12: the lambda of [sendSetRepeat m] never stores a mode other than
    the one that was asked for.  It stores the mode the server reports
    only if it is the mode that was asked for; a different known mode
    leaves the client as it was.  On a code that is none of the three no
    case assigns the local [rm]: it is compared with [m] as its storage
    left it, and the lambda returns with the client as it was, or, if
    that residue happens to equal [m], with [m] stored. *)
Theorem set_repeat_needs_echo req s v m :
  stoi s = inr v ->
  (forall rm, switch_Repeat v = Some rm ->
     (rm = req ->
      run (K_sendSetRepeat req) s m
      = assign F_repeatMode (set_repeatMode_ req) m) /\
     (rm <> req -> run (K_sendSetRepeat req) s m = Ret tt m)) /\
  (v <> Protocol.Repeat_Off P -> v <> Protocol.Repeat_One P ->
   v <> Protocol.Repeat_All P ->
   run (K_sendSetRepeat req) s m
   = if residue (net m) =? RepeatMode.to_int req
     then assign F_repeatMode (set_repeatMode_ req) m
     else Ret tt m) /\
  (run (K_sendSetRepeat req) s m = Ret tt m \/
   run (K_sendSetRepeat req) s m
   = assign F_repeatMode (set_repeatMode_ req) m).
Proof.
  intros Hs. unfold run. rewrite (run_stoi_ok _ s v m Hs).
  assert (Hnone : bind uninitialised
                    (fun g => if negb (g =? RepeatMode.to_int req) then ret tt
                              else assign F_repeatMode (set_repeatMode_ req)) m
                  = if residue (net m) =? RepeatMode.to_int req
                    then assign F_repeatMode (set_repeatMode_ req) m
                    else Ret tt m).
  { unfold bind, uninitialised.
    now destruct (residue (net m) =? RepeatMode.to_int req). }
  split; [|split].
  - intros rm ->. split.
    + intros ->. now destruct req.
    + intros Hne. destruct rm, req; try reflexivity; congruence.
  - intros H1 H2 H3. now rewrite switch_Repeat_none.
  - destruct (switch_Repeat v) as [rm|].
    + destruct rm, req; cbn; auto.
    + rewrite Hnone. destruct (_ =? _); auto.
Qed.

(** X13: the lambda of [sendSetShuffle] does not compare in earnest: it
    stores what the server reports, asked for or not.  Before the store
    it calls [sendGetQueue(0, 25000)]: the re-fetch of the whole queue is
    pushed if the error flag is clear at that moment, and dropped if it
    is set; the mode is stored either way. *)
Theorem set_shuffle_trusts_reply req s v m :
  stoi s = inr v ->
  exists m',
    run (K_sendSetShuffle req) s m = Ret tt m' /\
    shuffleMode_ (self m') = shuffle_of v /\
    (error_ (self m) = false ->
     writeQueue (self m') = writeQueue (self m) ++ [refetch_queue] /\
     trace m' = trace m ++ [EvEnqueue refetch_queue; EvStore F_shuffleMode]) /\
    (error_ (self m) = true ->
     writeQueue (self m') = writeQueue (self m) /\
     trace m' = trace m ++ [EvStore F_shuffleMode]).
Proof.
  intros Hs. unfold run. rewrite (run_stoi_ok _ s v m Hs).
  unfold sendGetQueue. destruct (error_ (self m)) eqn:He.
  - erewrite bind_ret by (apply addToWriteQueue_dropped; exact He).
    eexists. split; [reflexivity|].
    destruct m as [o w fl tr]. destruct o. cbn.
    repeat split; discriminate.
  - erewrite bind_ret by (apply addToWriteQueue_pushed; exact He).
    eexists. split; [reflexivity|].
    destruct m as [o w fl tr]. destruct o. cbn.
    rewrite <- app_assoc. repeat split; discriminate.
Qed.

(** *** Indices on the wire *)

Lemma mod_wrap v : - 2 ^ 64 <= v < 0 -> v mod 2 ^ 64 = 2 ^ 64 + v.
Proof.
  intros Hv. symmetry. apply (Z.mod_unique_pos v (2 ^ 64) (-1)); lia.
Qed.

Lemma stoul_to_string n : 0 <= n <= ULONG_MAX -> stoul (to_string n) = inr n.
Proof.
  intros Hn. unfold stoul. rewrite scan_integer_to_string.
  assert (E : (n <? 0) = false) by (apply Z.ltb_ge; lia). rewrite E.
  assert (E2 : (ULONG_MAX <? Z.abs n) = false) by (apply Z.ltb_ge; lia).
  rewrite E2. f_equal. lia.
Qed.

Lemma stoul_to_string_neg v :
  - ULONG_MAX <= v < 0 -> stoul (to_string v) = inr (2 ^ 64 + v).
Proof.
  intros Hv. unfold stoul. rewrite scan_integer_to_string.
  assert (E : (v <? 0) = true) by (apply Z.ltb_lt; lia). rewrite E.
  assert (E2 : (ULONG_MAX <? Z.abs v) = false) by (apply Z.ltb_ge; lia).
  rewrite E2. f_equal. unfold to_size_t, ULONG_MAX in *.
  replace (- Z.abs v) with v by lia.
  apply mod_wrap. lia.
Qed.

Lemma stoi_to_string_big n :
  INT_MAX < n -> stoi (to_string n) = inl out_of_range.
Proof.
  intros Hn. unfold stoi. rewrite scan_integer_to_string.
  unfold INT_MAX in Hn.
  assert (E : (n <? 0) = false) by (apply Z.ltb_ge; lia). rewrite E.
  unfold in_int, INT_MAX.
  assert (E2 : (Z.abs n <=? 2 ^ 31 - 1) = false) by (apply Z.leb_gt; lia).
  now rewrite E2, andb_false_r.
Qed.

Lemma run_sendGetSongIdx s tmp m :
  stoul s = inr tmp ->
  exists m', run K_sendGetSongIdx s m = Ret tt m' /\ songIdx_ (self m') = tmp.
Proof.
  intros Hs. destruct m as [o w fl tr]. destruct o.
  unfold run, bind, call, get, when, sendGetQueue, sendGetSubQueue,
    addToWriteQueue, assign, modify, emit, bind, get, ret.
  rewrite Hs. cbn. destruct (songIdx_0 =? tmp); cbn;
    [|destruct error_0; cbn]; eexists; split; reflexivity.
Qed.

Lemma run_stoi_index k d s v m :
  k = K_sendSetSongIdx \/ k = K_waitSongIdx d ->
  stoi s = inr v ->
  exists m', run k s m = Ret tt m' /\ songIdx_ (self m') = to_size_t v.
Proof.
  intros [->| ->] Hs; unfold run; rewrite (run_stoi_ok _ s v m Hs);
    destruct m as [o w fl tr]; destruct o; cbn;
    eexists; split; reflexivity.
Qed.

Lemma run_stoi_index_fails k d s f m :
  k = K_sendSetSongIdx \/ k = K_waitSongIdx d ->
  stoi s = inl f -> run k s m = Raise f m.
Proof.
  intros [->| ->] Hs; unfold run, bind, call, throw; now rewrite Hs.
Qed.

(** X14: how a reported queue index becomes [songIdx_].  The poll
    ([sendGetSongIdx]) converts with [std::stoul]; [sendSetSongIdx] and
    [waitSongIdx] convert with [std::stoi] and widen to [size_t].  An
    index that fits an [int] is stored as it is by all three.  A negative
    number is stored as that number plus 2^64 by all three (for -1 that
    is the value [waitSongIdx] returns on error).  An index above
    [INT_MAX] is stored by the poll and makes the other two throw. *)
Theorem song_index_conversions d m :
  (forall n k,
     0 <= n <= INT_MAX ->
     k = K_sendGetSongIdx \/ k = K_sendSetSongIdx \/ k = K_waitSongIdx d ->
     exists m', run k (to_string n) m = Ret tt m' /\ songIdx_ (self m') = n) /\
  (forall v k,
     INT_MIN <= v < 0 ->
     k = K_sendGetSongIdx \/ k = K_sendSetSongIdx \/ k = K_waitSongIdx d ->
     exists m', run k (to_string v) m = Ret tt m' /\
                songIdx_ (self m') = 2 ^ 64 + v) /\
  (forall n,
     INT_MAX < n <= ULONG_MAX ->
     (exists m', run K_sendGetSongIdx (to_string n) m = Ret tt m' /\
                 songIdx_ (self m') = n) /\
     run K_sendSetSongIdx (to_string n) m = Raise out_of_range m /\
     run (K_waitSongIdx d) (to_string n) m = Raise out_of_range m).
Proof.
  split; [|split].
  - intros n k Hn [->|Hk].
    + apply run_sendGetSongIdx, stoul_to_string.
      unfold INT_MAX, ULONG_MAX in *. lia.
    + destruct (run_stoi_index k d (to_string n) n m Hk) as (m' & Hr & Hi).
      { apply stoi_to_string. unfold INT_MIN, INT_MAX in *. lia. }
      exists m'. split; [exact Hr|]. rewrite Hi. apply to_size_t_id.
      unfold INT_MAX, SIZE_MAX in *. lia.
  - intros v k Hv [->|Hk].
    + apply run_sendGetSongIdx, stoul_to_string_neg.
      unfold INT_MIN, ULONG_MAX in *. lia.
    + destruct (run_stoi_index k d (to_string v) v m Hk) as (m' & Hr & Hi).
      { apply stoi_to_string. unfold INT_MIN, INT_MAX in *. lia. }
      exists m'. split; [exact Hr|]. rewrite Hi. unfold to_size_t, INT_MIN in *.
      apply mod_wrap. lia.
  - intros n Hn. split; [|split].
    + apply run_sendGetSongIdx, stoul_to_string.
      unfold INT_MAX in *. lia.
    + apply (run_stoi_index_fails _ d); [now left|].
      now apply stoi_to_string_big.
    + apply (run_stoi_index_fails _ d); [now right|].
      now apply stoi_to_string_big.
Qed.

(** *** Lists of identifiers on the wire *)

Lemma strtok_from_token d x rest :
  string_forall (fun c => negb (Ascii.eqb c d)) x = true ->
  strtok_from d (x ++ String d rest)%string ""
  = if String.eqb x "" then strtok_from d rest ""
    else x :: strtok_from d rest "".
Proof.
  intros Hx. rewrite strtok_from_run by exact Hx. cbn [append].
  destruct x as [|c x]; cbn [strtok_from String.eqb];
    now rewrite Ascii.eqb_refl.
Qed.

Lemma strtok_from_last d x :
  string_forall (fun c => negb (Ascii.eqb c d)) x = true ->
  strtok_from d x "" = if String.eqb x "" then [] else [x].
Proof.
  intros Hx. rewrite <- (append_empty_r x) at 1.
  rewrite strtok_from_run by exact Hx. cbn [append].
  now destruct x.
Qed.

(** [strtok] never returns an empty token. *)
Lemma strtok_all_concat_filter d (l : list string) :
  Forall (fun x => string_forall (fun c => negb (Ascii.eqb c d)) x = true) l ->
  strtok_all d (String.concat (String d "") l)
  = filter (fun x => negb (String.eqb x "")) l.
Proof.
  unfold strtok_all. induction 1 as [|x l Hx Hl IH]; [reflexivity|].
  destruct l as [|y l'].
  - cbn [concat filter]. rewrite strtok_from_last by exact Hx.
    now destruct (String.eqb x "").
  - change (concat (String d "") (x :: y :: l'))
      with (x ++ String d (concat (String d "") (y :: l')))%string.
    rewrite strtok_from_token by exact Hx. rewrite IH.
    cbn [filter]. now destruct (String.eqb x "").
Qed.

Lemma decode_ids_fields toks :
  code (Protocol.Delimiter P) <> 0 ->
  Forall (fun x => string_forall
                     (fun c => negb (Ascii.eqb c (Protocol.Delimiter P)) &&
                               negb (code c =? 0)) x = true) toks ->
  decode_ids (String.concat DELIM toks)
  = map (fun tok => to_int (strtol tok))
        (filter (fun x => negb (String.eqb x "")) toks).
Proof.
  intros Hd Ht. unfold decode_ids, DELIM. rewrite c_str_id.
  - rewrite strtok_all_concat_filter; [reflexivity|].
    eapply Forall_impl; [|exact Ht]. cbn beta. intros x Hx.
    eapply string_forall_impl; [|exact Hx]. cbn beta.
    intros c Hc. now apply andb_true_iff in Hc as [Hc _].
  - apply string_forall_concat.
    + cbn. apply Z.eqb_neq in Hd. now rewrite Hd.
    + eapply Forall_impl; [|exact Ht]. cbn beta. intros x Hx.
      eapply string_forall_impl; [|exact Hx]. cbn beta.
      intros c Hc. now apply andb_true_iff in Hc as [_ Hc].
Qed.

(** X15: empty fields of a queue response vanish.  For fields that
    contain neither the delimiter nor NUL, joined by the delimiter, the
    two queue lambdas store one identifier for each field that is not
    empty, in order: a leading, trailing or doubled delimiter yields no
    entry, so the identifiers after it move up. *)
Theorem empty_fields_are_skipped toks m :
  code (Protocol.Delimiter P) <> 0 ->
  Forall (fun x => string_forall
                     (fun c => negb (Ascii.eqb c (Protocol.Delimiter P)) &&
                               negb (code c =? 0)) x = true) toks ->
  let ids := map (fun tok => to_int (strtol tok))
                 (filter (fun x => negb (String.eqb x "")) toks) in
  exists m1 m2,
    run K_sendGetQueue (String.concat DELIM toks) m = Ret tt m1 /\
    queue_ (self m1) = ids /\
    run K_sendGetSubQueue (String.concat DELIM toks) m = Ret tt m2 /\
    subQueue_ (self m2) = ids.
Proof.
  intros Hd Ht ids.
  destruct (run_sendGetQueue (String.concat DELIM toks) m) as (m1 & H1 & S1 & _).
  destruct (run_sendGetSubQueue (String.concat DELIM toks) m) as (m2 & H2 & S2 & _).
  exists m1, m2. rewrite H1, H2, S1, S2, decode_ids_fields by assumption.
  destruct (self m). now cbn.
Qed.

Lemma decode_ids_token tok :
  code (Protocol.Delimiter P) <> 0 ->
  tok <> "" ->
  string_forall (fun c => negb (Ascii.eqb c (Protocol.Delimiter P)) &&
                          negb (code c =? 0)) tok = true ->
  decode_ids tok = [to_int (strtol tok)].
Proof.
  intros Hd Hne Ht.
  pose proof (decode_ids_fields [tok] Hd (Forall_cons _ Ht (Forall_nil _))) as H.
  cbn [concat filter map] in H. rewrite H.
  destruct tok; [congruence | reflexivity].
Qed.

Lemma to_string_token z :
  is_number_char (Protocol.Delimiter P) = false ->
  string_forall (fun c => negb (Ascii.eqb c (Protocol.Delimiter P)) &&
                          negb (code c =? 0)) (to_string z) = true.
Proof.
  intros Hd. eapply string_forall_impl; [|apply to_string_chars].
  cbn beta. intros c Hc. rewrite (number_char_not_nul c Hc), andb_true_r.
  apply negb_true_iff, Ascii.eqb_neq. intros ->. congruence.
Qed.

(** X16: the queue lambdas take any field for an identifier.  A field
    in which [strtol] finds no number is stored as identifier 0; a number
    that fits a [long] but not an [int] is stored reduced modulo 2^32;
    a number above [LONG_MAX] is stored as -1 ([strtol] returns
    [LONG_MAX], which the [int] element of the vector cuts down).  None
    of them is reported. *)
Theorem stray_fields_become_ids m :
  code (Protocol.Delimiter P) <> 0 ->
  (forall tok,
     tok <> "" ->
     string_forall (fun c => negb (Ascii.eqb c (Protocol.Delimiter P)) &&
                             negb (code c =? 0)) tok = true ->
     scan_integer tok = None ->
     exists m', run K_sendGetQueue tok m = Ret tt m' /\ queue_ (self m') = [0]) /\
  (forall n,
     is_number_char (Protocol.Delimiter P) = false ->
     LONG_MIN <= n <= LONG_MAX ->
     exists m', run K_sendGetQueue (to_string n) m = Ret tt m' /\
                queue_ (self m') = [(n + 2 ^ 31) mod 2 ^ 32 - 2 ^ 31]) /\
  (forall n,
     is_number_char (Protocol.Delimiter P) = false ->
     LONG_MAX < n ->
     exists m', run K_sendGetQueue (to_string n) m = Ret tt m' /\
                queue_ (self m') = [-1]).
Proof.
  intros Hd. split; [|split].
  - intros tok Hne Ht Hs.
    destruct (run_sendGetQueue tok m) as (m' & Hr & Hq & _).
    exists m'. split; [exact Hr|].
    rewrite Hq, decode_ids_token by assumption.
    unfold strtol. rewrite Hs. destruct (self m). reflexivity.
  - intros n Hc Hn.
    destruct (run_sendGetQueue (to_string n) m) as (m' & Hr & Hq & _).
    exists m'. split; [exact Hr|].
    rewrite Hq, decode_ids_token;
      [|exact Hd | apply to_string_not_empty | now apply to_string_token].
    rewrite strtol_to_string by exact Hn. destruct (self m). reflexivity.
  - intros n Hc Hn.
    destruct (run_sendGetQueue (to_string n) m) as (m' & Hr & Hq & _).
    exists m'. split; [exact Hr|].
    rewrite Hq, decode_ids_token;
      [|exact Hd | apply to_string_not_empty | now apply to_string_token].
    unfold strtol. rewrite scan_integer_to_string.
    unfold LONG_MAX, LONG_MIN in *.
    assert (E : (n <? 0) = false) by (apply Z.ltb_ge; lia). rewrite E.
    replace (Z.max (- 2 ^ 63) (Z.min (2 ^ 63 - 1) (Z.abs n)))
      with (2 ^ 63 - 1) by lia.
    destruct (self m). reflexivity.
Qed.

(** *** The frame of [sendSetQueue] *)

Lemma fold_frame sep l : forall acc,
  fold_left (fun a y => (a ++ sep ++ y)%string) l acc
  = (acc ++ fold_left (fun a y => (a ++ sep ++ y)%string) l "")%string.
Proof.
  induction l as [|y l IH]; intros acc; cbn [fold_left].
  - now rewrite append_empty_r.
  - rewrite IH, (IH ("" ++ sep ++ y)%string). cbn [append].
    now rewrite !append_assoc.
Qed.

Lemma concat_fold sep l : forall x,
  String.concat sep (x :: l)
  = (x ++ fold_left (fun a y => (a ++ sep ++ y)%string) l "")%string.
Proof.
  induction l as [|y l IH]; intros x.
  - cbn. now rewrite append_empty_r.
  - change (concat sep (x :: y :: l))
      with (x ++ sep ++ concat sep (y :: l))%string.
    rewrite IH. cbn [fold_left].
    rewrite (fold_frame sep l ("" ++ sep ++ y)%string). cbn [append].
    now rewrite !append_assoc.
Qed.

Lemma fold_left_to_string sep (q : list Z) : forall acc,
  fold_left (fun a id => (a ++ sep ++ to_string id)%string) q acc
  = fold_left (fun a y => (a ++ sep ++ y)%string) (map to_string q) acc.
Proof.
  induction q as [|id q IH]; intros acc; cbn [fold_left map];
    [reflexivity | apply IH].
Qed.

(** X17: the frame of [sendSetQueue] reads back.  With the error flag
    clear, [sendSetQueue q] pushes one entry; split at the delimiter the
    way the client itself splits a response, its frame is the number of
    the command followed by the identifiers of [q] in order, and its
    lambda remembers the length of [q]. *)
Theorem sendSetQueue_round_trip q m :
  error_ (self m) = false ->
  is_number_char (Protocol.Delimiter P) = false ->
  code (Protocol.Delimiter P) <> 0 ->
  INT_MIN <= Protocol.command P Protocol.SetQueue <= INT_MAX ->
  Forall (fun z => INT_MIN <= z <= INT_MAX) q ->
  exists frame m',
    sendSetQueue q m = Ret tt m' /\
    writeQueue (self m')
    = writeQueue (self m) ++ [(frame, K_sendSetQueue (Z.of_nat (List.length q)))] /\
    decode_ids frame = Protocol.command P Protocol.SetQueue :: q.
Proof.
  intros He Hd Hn Hc Hq. unfold sendSetQueue.
  match goal with |- context [addToWriteQueue ?s ?f m] =>
    destruct (push_spec s f m He) as (m' & Hr & _ & Hw & _); exists s, m'
  end.
  split; [exact Hr|]. split; [exact Hw|].
  rewrite fold_left_to_string. unfold opcode.
  rewrite <- (concat_fold DELIM (map to_string q)
                (to_string (Protocol.command P Protocol.SetQueue))).
  change (String.concat DELIM
            (to_string (Protocol.command P Protocol.SetQueue) :: map to_string q))
    with (id_list (Protocol.command P Protocol.SetQueue :: q)).
  apply decode_ids_id_list; [exact Hd | exact Hn |].
  now constructor.
Qed.

(** *** The refresh *)

Ltac push_step :=
  match goal with
  | He : error_ (self ?m0) = false
    |- context [bind (addToWriteQueue ?s ?f) _ ?m0] =>
      let m1 := fresh "m" in
      let H := fresh "H" in
      let He1 := fresh "He" in
      let Hq := fresh "Hq" in
      destruct (push_spec s f m0 He) as (m1 & H & He1 & Hq & _);
      erewrite bind_ret by exact H; clear H
  end.

Lemma refresh_healthy now m :
  error_ (self m) = false ->
  exists m',
    refresh now m = Ret tt m' /\
    writeQueue (self m') = writeQueue (self m) ++ polls /\
    lastUpdateTime (self m') = now.
Proof.
  intros He. unfold refresh. unfold_builders.
  do 9 push_step.
  eexists. split; [reflexivity|]. cbn [modify with_self self].
  match goal with |- context [set_lastUpdateTime now (self ?m9)] =>
    assert (Hl : writeQueue (set_lastUpdateTime now (self m9)) = writeQueue (self m9)
                 /\ lastUpdateTime (set_lastUpdateTime now (self m9)) = now)
      by (destruct (self m9); split; reflexivity)
  end.
  destruct Hl as [-> ->]. split; [|reflexivity].
  repeat match goal with H : writeQueue _ = _ |- _ => rewrite H; clear H end.
  rewrite <- !app_assoc. reflexivity.
Qed.

Lemma refresh_in_error now m :
  error_ (self m) = true ->
  refresh now m = Ret tt (with_self (set_lastUpdateTime now (self m)) m).
Proof.
  intros He. unfold refresh. unfold_builders.
  do 9 (erewrite bind_ret by (apply addToWriteQueue_dropped; exact He)).
  reflexivity.
Qed.

(** X18: the refresh at the end of an iteration.  If no more than
    [UPDATE_DELAY] has passed since the last one, nothing happens.
    Otherwise the time of the last refresh becomes [now] and, with the
    error flag clear, the nine polls are pushed in the order of the
    source (position, queue size, repeat, shuffle, song, queue index,
    sub-queue size, status, volume); with the error flag set (the drain
    just failed) all nine are dropped and only the time is taken. *)
Theorem refresh_regimes now c :
  pc c = L_refresh ->
  exists c',
    step (A_loop now) c = Some c' /\
    pc c' = L_top /\
    (now - lastUpdateTime (self (machine c)) <= UPDATE_DELAY ->
     machine c' = machine c) /\
    (UPDATE_DELAY < now - lastUpdateTime (self (machine c)) ->
     lastUpdateTime (self (machine c')) = now /\
     (error_ (self (machine c)) = false ->
      writeQueue (self (machine c'))
      = writeQueue (self (machine c)) ++ polls) /\
     (error_ (self (machine c)) = true ->
      writeQueue (self (machine c')) = writeQueue (self (machine c)))).
Proof.
  intros Hpc. rewrite (loop_step_at_refresh now c Hpc).
  eexists. split; [reflexivity|]. unfold continue.
  destruct (UPDATE_DELAY <? now - lastUpdateTime (self (machine c))) eqn:E.
  - apply Z.ltb_lt in E.
    destruct (error_ (self (machine c))) eqn:Ee.
    + rewrite (refresh_in_error now _ Ee). cbn [pc machine].
      split; [reflexivity|]. split; [lia|]. intros _.
      destruct (self (machine c)); cbn. repeat split; congruence.
    + destruct (refresh_healthy now _ Ee) as (m' & -> & Hq & Hl).
      cbn [pc machine]. split; [reflexivity|]. split; [lia|]. intros _.
      repeat split; [exact Hl | intros _; exact Hq | congruence].
  - apply Z.ltb_ge in E. cbn. split; [reflexivity|].
    split; [reflexivity | lia].
Qed.

(** *** The blocking helpers, when all goes well *)

Lemma loop_keeps_waiters now c c' :
  step (A_loop now) c = Some c' -> waiters c' = waiters c.
Proof.
  unfold step. destruct (alive c); cbn [negb]; [|discriminate].
  unfold loop_step. destruct (pc c); try discriminate;
    try (intros [= <-]; unfold continue;
         repeat match goal with
                | |- context [match ?x with _ => _ end] => destruct x
                end; reflexivity).
  destruct (writeQueue _) as [|[frame f] q]; intros [= <-]; [reflexivity|].
  unfold continue.
  match goal with |- context [match ?x with _ => _ end] => destruct x end;
    reflexivity.
Qed.

Lemma exchange_congr frame m m' :
  socket (self m') = socket (self m) -> net m' = net m ->
  exchange_fails frame m' = exchange_fails frame m /\
  exchange_reply frame m' = exchange_reply frame m.
Proof.
  intros Hs Hn. unfold exchange_fails, exchange_reply. now rewrite Hs, Hn.
Qed.

Lemma drain_reply now c frame f q :
  pc c = L_drain ->
  writeQueue (self (machine c)) = (frame, f) :: q ->
  exchange_fails frame (machine c) = false ->
  exists c' t,
    step (A_loop now) c = Some c' /\
    pc c' = L_call (frame, f) (exchange_reply frame (machine c)) /\
    self (machine c') = self (machine c) /\
    trace (machine c') = trace (machine c) ++ t /\
    silent t /\ written t = [frame].
Proof.
  intros Hpc Hq. unfold step, alive, loop_step. rewrite Hpc, Hq. cbn [negb].
  destruct c as [[o w fl tr] l ws]. destruct o.
  cbn in Hpc, Hq. subst l writeQueue0.
  unfold exchange_fails, exchange_reply, continue, bind, socket_write,
    socket_read, raise_error, discard, modify, emit, get, ret, bind. cbn.
  destruct (Socket.writeToSocket sock socket0 frame w) as [[] w1]; cbn;
    [|discriminate].
  destruct (Socket.readFromSocket sock socket0 w1) as [str w2]; cbn.
  intros ->. eexists. eexists. split; [reflexivity|]. cbn.
  split; [reflexivity|]. split; [reflexivity|].
  split; [rewrite <- !app_assoc; cbn; reflexivity|].
  repeat split.
Qed.

(** A blocking helper enters: it clears its flag and pushes its request. *)
Lemma wait_call_enters k d c :
  alive c = true -> mutex_free c = true ->
  waiters c d = W_none ->
  error_ (self (machine c)) = false ->
  let a := match k with WReset => A_waitReset d | WSongIdx => A_waitSongIdx d end in
  let e := match k with
           | WReset => (opcode Protocol.Reset, K_waitReset d)
           | WSongIdx => (opcode Protocol.QueueIdx, K_waitSongIdx d)
           end in
  exists c1,
    step a c = Some c1 /\
    pc c1 = pc c /\
    waiters c1 d = W_test k /\
    writeQueue (self (machine c1)) = writeQueue (self (machine c)) ++ [e] /\
    error_ (self (machine c1)) = false /\
    exit_ (self (machine c1)) = exit_ (self (machine c)) /\
    socket (self (machine c1)) = socket (self (machine c)) /\
    net (machine c1) = net (machine c) /\
    trace (machine c1) = trace (machine c) ++ [EvEnqueue e].
Proof.
  intros Ha Hm Hw He a e.
  assert (Hs : step a c = wait_call k d c).
  { subst a. unfold step. rewrite Ha. now destruct k. }
  rewrite Hs. unfold wait_call, can_enqueue. rewrite Hw, Hm, orb_true_r.
  unfold consumer, continue. erewrite bind_ret by reflexivity.
  assert (Hp : forall s f,
            exists m1,
              addToWriteQueue s f (with_flag d false (machine c)) = Ret tt m1 /\
              writeQueue (self m1) = writeQueue (self (machine c)) ++ [(s, f)] /\
              error_ (self m1) = false /\
              exit_ (self m1) = exit_ (self (machine c)) /\
              socket (self m1) = socket (self (machine c)) /\
              net m1 = net (machine c) /\
              trace m1 = trace (machine c) ++ [EvEnqueue (s, f)]).
  { intros s f. rewrite addToWriteQueue_pushed by exact He.
    eexists. split; [reflexivity|].
    destruct (machine c) as [o w fl tr]. destruct o. cbn in *. auto 10. }
  destruct k; subst e;
    match goal with |- context [addToWriteQueue ?s ?f _] =>
      destruct (Hp s f) as (m1 & -> & Hq & He1 & Hx & Hso & Hn & Ht)
    end;
    eexists; (split; [reflexivity|]); cbn;
    rewrite Nat.eqb_refl; auto 10.
Qed.

Lemma top_to_drain now c :
  pc c = L_top ->
  exit_ (self (machine c)) = false ->
  error_ (self (machine c)) = false ->
  exec [A_loop now; A_loop now] c = Some (with_pc L_drain c).
Proof.
  intros Hpc Hx He. cbn [exec]. unfold step at 1, alive, loop_step.
  rewrite Hpc, Hx, He. cbn. reflexivity.
Qed.

Lemma wait_step_done k d c :
  alive c = true ->
  waiters c d = W_test k ->
  flags (machine c) d = true ->
  exists c',
    step (A_wait_step d) c = Some c' /\
    waiters c' d
    = W_returned match k with
                 | WReset => None
                 | WSongIdx => Some (songIdx_ (self (machine c)))
                 end.
Proof.
  intros Ha Hw Hf. unfold step, wait_step. rewrite Ha, Hw, Hf. cbn [negb].
  eexists. split; [reflexivity|]. cbn. now rewrite Nat.eqb_refl.
Qed.

(** One request pushed by a blocking helper on an idle, healthy client
    and served by the loop: where the loop is after the call. *)
Lemma wait_round_trip now k d c :
  pc c = L_top ->
  exit_ (self (machine c)) = false ->
  error_ (self (machine c)) = false ->
  writeQueue (self (machine c)) = [] ->
  waiters c d = W_none ->
  let a := match k with WReset => A_waitReset d | WSongIdx => A_waitSongIdx d end in
  let e := match k with
           | WReset => (opcode Protocol.Reset, K_waitReset d)
           | WSongIdx => (opcode Protocol.QueueIdx, K_waitSongIdx d)
           end in
  exchange_fails (fst e) (machine c) = false ->
  exists c4,
    exec [a; A_loop now; A_loop now; A_loop now] c = Some c4 /\
    pc c4 = L_call e (exchange_reply (fst e) (machine c)) /\
    waiters c4 d = W_test k.
Proof.
  intros Hpc Hx He Hq Hw a e Hex.
  assert (Ha : alive c = true) by (unfold alive; now rewrite Hpc).
  assert (Hm : mutex_free c = true) by (unfold mutex_free; now rewrite Hpc).
  destruct (wait_call_enters k d c Ha Hm Hw He)
    as (c1 & H1 & Hpc1 & Hw1 & Hq1 & He1 & Hx1 & Hs1 & Hn1 & _).
  fold a in H1. fold e in Hq1. rewrite Hq in Hq1. cbn [app] in Hq1.
  rewrite Hpc in Hpc1. rewrite Hx in Hx1.
  destruct (exchange_congr (fst e) (machine c) (machine c1) Hs1 Hn1) as [Hf Hr].
  destruct e as [frame f] eqn:Ee. cbn [fst] in *.
  destruct (drain_reply now (with_pc L_drain c1) frame f [] eq_refl Hq1)
    as (c4 & t & H4 & Hpc4 & _).
  { cbn. now rewrite Hf. }
  exists c4. split.
  - change [a; A_loop now; A_loop now; A_loop now]
      with ([a] ++ [A_loop now; A_loop now] ++ [A_loop now]).
    rewrite (exec_app [a]).
    replace (exec [a] c) with (Some c1) by (cbn [exec]; now rewrite H1).
    rewrite exec_app, (top_to_drain now c1 Hpc1 Hx1 He1).
    cbn [exec]. now rewrite H4.
  - split; [cbn in Hpc4; now rewrite Hpc4, Hr|].
    rewrite (loop_keeps_waiters now _ c4 H4). exact Hw1.
Qed.

(** X19: [waitReset] on an idle, healthy client returns.  The call
    pushes its request, the loop sends it, and whatever the server
    answers, as long as it is not empty, the lambda sets the flag without
    looking at the answer; the caller's next test of the flag ends the
    wait. *)
Theorem waitReset_completes now d c :
  pc c = L_top ->
  exit_ (self (machine c)) = false ->
  error_ (self (machine c)) = false ->
  writeQueue (self (machine c)) = [] ->
  waiters c d = W_none ->
  exchange_fails (opcode Protocol.Reset) (machine c) = false ->
  exists c',
    exec [A_waitReset d; A_loop now; A_loop now; A_loop now; A_loop now;
          A_wait_step d] c = Some c' /\
    waiters c' d = W_returned None.
Proof.
  intros Hpc Hx He Hq Hw Hex.
  destruct (wait_round_trip now WReset d c Hpc Hx He Hq Hw Hex)
    as (c4 & H4 & Hpc4 & Hw4).
  pose proof (loop_step_at_call now c4 _ _ Hpc4) as H5.
  set (c5 := continue _ _ c4) in H5.
  assert (Hc5 : alive c5 = true /\ waiters c5 d = W_test WReset /\
                flags (machine c5) d = true).
  { subst c5. unfold continue. erewrite bind_ret by reflexivity. cbn.
    now rewrite Nat.eqb_refl. }
  destruct Hc5 as (Ha5 & Hw5 & Hf5).
  destruct (wait_step_done WReset d c5 Ha5 Hw5 Hf5) as (c6 & H6 & Hw6).
  exists c6. split; [|exact Hw6].
  change [A_waitReset d; A_loop now; A_loop now; A_loop now; A_loop now;
          A_wait_step d]
    with ([A_waitReset d; A_loop now; A_loop now; A_loop now]
            ++ [A_loop now; A_wait_step d]).
  rewrite exec_app, H4. cbn [exec]. now rewrite H5, H6.
Qed.

(** X20: [waitSongIdx] on an idle, healthy client returns what the
    server reports.  The reply is converted with [std::stoi], widened to
    [size_t] and stored in [songIdx_]; the caller's next test of the flag
    ends the wait with that value. *)
Theorem waitSongIdx_returns_index now d c v :
  pc c = L_top ->
  exit_ (self (machine c)) = false ->
  error_ (self (machine c)) = false ->
  writeQueue (self (machine c)) = [] ->
  waiters c d = W_none ->
  exchange_fails (opcode Protocol.QueueIdx) (machine c) = false ->
  stoi (exchange_reply (opcode Protocol.QueueIdx) (machine c)) = inr v ->
  exists c',
    exec [A_waitSongIdx d; A_loop now; A_loop now; A_loop now; A_loop now;
          A_wait_step d] c = Some c' /\
    waiters c' d = W_returned (Some (to_size_t v)) /\
    songIdx_ (self (machine c')) = to_size_t v.
Proof.
  intros Hpc Hx He Hq Hw Hex Hs.
  destruct (wait_round_trip now WSongIdx d c Hpc Hx He Hq Hw Hex)
    as (c4 & H4 & Hpc4 & Hw4).
  cbn [fst] in Hpc4.
  pose proof (loop_step_at_call now c4 _ _ Hpc4) as H5.
  set (c5 := continue _ _ c4) in H5.
  assert (Hc5 : alive c5 = true /\ waiters c5 d = W_test WSongIdx /\
                flags (machine c5) d = true /\
                songIdx_ (self (machine c5)) = to_size_t v).
  { subst c5. unfold continue. erewrite bind_ret by reflexivity.
    cbn [snd]. unfold run. rewrite (run_stoi_ok _ _ v _ Hs).
    cbn. rewrite Nat.eqb_refl. destruct (self (machine c4)). cbn. auto. }
  destruct Hc5 as (Ha5 & Hw5 & Hf5 & Hi5).
  destruct (wait_step_done WSongIdx d c5 Ha5 Hw5 Hf5) as (c6 & H6 & Hw6).
  exists c6. split; [|split].
  - change [A_waitSongIdx d; A_loop now; A_loop now; A_loop now; A_loop now;
            A_wait_step d]
      with ([A_waitSongIdx d; A_loop now; A_loop now; A_loop now]
              ++ [A_loop now; A_wait_step d]).
    rewrite exec_app, H4. cbn [exec]. now rewrite H5, H6.
  - now rewrite Hw6, Hi5.
  - unfold step, wait_step in H6. rewrite Ha5, Hw5, Hf5 in H6.
    injection H6 as <-. exact Hi5.
Qed.

(** *** A request that outlives its caller *)

Lemma call_invokes now c e str :
  pc c = L_call e str ->
  exists c' t,
    step (A_loop now) c = Some c' /\
    waiters c' = waiters c /\
    trace (machine c') = trace (machine c) ++ t /\
    invoked t = [e].
Proof.
  intros Hpc. rewrite (loop_step_at_call now c e str Hpc).
  unfold continue. erewrite bind_ret by reflexivity.
  pose proof (tame_run (snd e) str (with_event (EvInvoke e str) (machine c)))
    as Ht.
  destruct (run (snd e) str _) as [[] m'|flt m'];
    destruct Ht as (_ & _ & _ & t & Htr & Hl & _);
    destruct (local_events t Hl) as (Hi & _ & _);
    eexists; exists (EvInvoke e str :: t);
    (split; [reflexivity|]); cbn [waiters machine];
    (split; [reflexivity|]);
    (split; [rewrite Htr; cbn; now rewrite <- app_assoc|]);
    change (invoked (EvInvoke e str :: t)) with (e :: invoked t);
    now rewrite Hi.
Qed.

(** X21: [waitSongIdx] gives up without taking its request back.  The
    call sleeps with its request still in the queue and the error flag
    set (a handshake failed meanwhile, the loop is asleep at its top); it
    returns the sentinel.  After the next successful handshake the loop
    sends the request and calls its lambda, which holds a reference to
    the [done] of the call that has returned. *)
Theorem waitSongIdx_request_outlives_call now d c frame q :
  pc c = L_top ->
  exit_ (self (machine c)) = false ->
  error_ (self (machine c)) = true ->
  waiters c d = W_sleep WSongIdx ->
  writeQueue (self (machine c)) = (frame, K_waitSongIdx d) :: q ->
  stoi (handshake_reply (machine c)) = inr (Protocol.version P) ->
  (forall m1, reconnect (machine c) = Ret tt m1 ->
              exchange_fails frame m1 = false) ->
  exists c' t,
    exec [A_wait_step d; A_reconnect;
          A_loop now; A_loop now; A_loop now; A_loop now] c = Some c' /\
    waiters c' d = W_returned (Some SIZE_MAX) /\
    trace (machine c') = trace (machine c) ++ t /\
    invoked t = [(frame, K_waitSongIdx d)].
Proof.
  intros Hpc Hx He Hw Hq Hs Hex.
  set (c1 := with_waiter d (W_returned (Some SIZE_MAX)) c).
  assert (H1 : step (A_wait_step d) c = Some c1).
  { unfold step, alive, wait_step. now rewrite Hpc, Hw, He. }
  destruct (reconnect_accepted (machine c) Hs) as (m1 & Hr & He1 & Hq1).
  pose proof (reconnect_trace (machine c)) as Ht.
  pose proof (reconnect_keeps_exit (machine c)) as Hk.
  rewrite Hr in Ht, Hk. destruct Ht as (_ & t1 & Ht1 & [_ Hin1] & _).
  set (c2 := {| machine := m1; pc := L_top; waiters := waiters c1 |}).
  assert (H2 : step A_reconnect c1 = Some c2).
  { subst c1. unfold step, alive, mutex_free. cbn [pc with_waiter].
    rewrite Hpc. cbn [negb]. unfold consumer, continue.
    cbn [machine with_waiter pc waiters]. now rewrite Hr, Hpc. }
  assert (H34 : exec [A_loop now; A_loop now] c2 = Some (with_pc L_drain c2)).
  { apply top_to_drain; [reflexivity | cbn; congruence | exact He1]. }
  destruct (drain_reply now (with_pc L_drain c2) frame (K_waitSongIdx d) q eq_refl)
    as (c5 & t5 & H5 & Hpc5 & _ & Ht5 & [_ Hin5] & _).
  { cbn. now rewrite Hq1. }
  { cbn. now apply Hex. }
  destruct (call_invokes now c5 _ _ Hpc5) as (c6 & t6 & H6 & Hw6 & Ht6 & Hin6).
  exists c6, (t1 ++ t5 ++ t6). split; [|split; [|split]].
  - change [A_wait_step d; A_reconnect;
            A_loop now; A_loop now; A_loop now; A_loop now]
      with ([A_wait_step d; A_reconnect] ++ [A_loop now; A_loop now]
              ++ [A_loop now; A_loop now]).
    rewrite (exec_app [A_wait_step d; A_reconnect]).
    replace (exec [A_wait_step d; A_reconnect] c) with (Some c2)
      by (cbn [exec]; now rewrite H1, H2).
    rewrite exec_app, H34. cbn [exec]. now rewrite H5, H6.
  - rewrite Hw6, (loop_keeps_waiters now _ c5 H5). cbn.
    now rewrite Nat.eqb_refl.
  - rewrite Ht6, Ht5. subst c2. cbn [machine with_pc]. rewrite Ht1.
    now rewrite <- !app_assoc.
  - now rewrite !invoked_app, Hin1, Hin5, Hin6.
Qed.

(** *** A push that comes after the discard *)

(** X28: the discard does not reach a call that is past its test of the
    error flag.  The drain fails on the request at the head, sets the
    flag and throws the queue away; a call of [addToWriteQueue] that had
    found the flag clear before and was waiting for the lock pushes as
    soon as the loop releases it: the queue then holds that one request,
    with the error flag set. *)
Theorem push_after_discard now c d e k frame f q :
  pc c = L_drain ->
  writeQueue (self (machine c)) = (frame, f) :: q ->
  exchange_fails frame (machine c) = true ->
  waiters c d = W_lock e k ->
  step (A_wait_step d) c = None /\
  exists c1 c2,
    step (A_loop now) c = Some c1 /\
    error_ (self (machine c1)) = true /\
    writeQueue (self (machine c1)) = [] /\
    exec [A_loop now; A_wait_step d] c1 = Some c2 /\
    error_ (self (machine c2)) = true /\
    writeQueue (self (machine c2)) = [e] /\
    pc c2 = L_refresh.
Proof.
  intros Hpc Hq Hfail Hw. split.
  { unfold step, alive. rewrite Hpc. cbn [negb].
    rewrite (wait_step_lock d e k c Hw). unfold mutex_free. now rewrite Hpc. }
  destruct (loop_step_drain now c frame f q Hpc Hq)
    as (c1 & t & H1 & _ & _ & [(_ & Hpc1 & Hq1 & He1)|(Hok & _)]);
    [|congruence].
  pose proof (loop_keeps_waiters now c c1 H1) as Hw1.
  set (c2 := with_pc L_refresh c1).
  assert (H2 : step (A_loop now) c1 = Some c2)
    by now apply loop_step_drained.
  assert (Hw2 : waiters c2 d = W_lock e k) by (cbn; now rewrite Hw1).
  exists c1. eexists. split; [exact H1|]. split; [exact He1|].
  split; [exact Hq1|]. cbn [exec]. rewrite H2.
  unfold step. cbn [alive c2 with_pc pc negb].
  rewrite (wait_step_lock d e k c2 Hw2). cbn [mutex_free c2 with_pc pc].
  split; [reflexivity|]. cbn [with_waiter machine pc].
  unfold consumer, continue, push, bind, modify, emit. cbn.
  destruct (self (machine c1)). cbn in He1, Hq1 |- *. subst.
  repeat split.
Qed.

(** *** Who changes the world behind the socket *)

Lemma reconnect_world m :
  match reconnect m with
  | Ret _ m' | Raise _ m' =>
      net m' = net_after_handshake m /\
      socket (self m') = socket_after_handshake m
  end.
Proof.
  unfold net_after_handshake, socket_after_handshake, reconnect, bind, get,
    when, socket_close, socket_create, modify, socket_setTimeout,
    socket_write, socket_read, raise_error, emit, bind, ret, call, throw.
  destruct m as [o w fl tr]. destruct o. cbn.
  destruct (0 <=? socket0); cbn;
    destruct (Socket.createSocket sock (Protocol.Port P) _) as [fd w1]; cbn;
    destruct (Socket.writeToSocket sock fd _ _) as [ok w2]; cbn;
    destruct (Socket.readFromSocket sock fd w2) as [str w3]; cbn;
    destruct (0 <? Z.of_nat (String.length str)); cbn;
    try destruct (stoi str) as [flt|ver]; cbn;
    try destruct (negb (ver =? Protocol.version P)); cbn;
    split; reflexivity.
Qed.

(** Only the handshake and the round trip of the drain touch the world
    or the descriptor. *)
Lemma step_world a c c' :
  step a c = Some c' ->
  (net (machine c') = net (machine c) /\
   socket (self (machine c')) = socket (self (machine c))) \/
  (a = A_reconnect /\
   net (machine c') = net_after_handshake (machine c) /\
   socket (self (machine c')) = socket_after_handshake (machine c)) \/
  (exists now frame f q,
     a = A_loop now /\ pc c = L_drain /\
     writeQueue (self (machine c)) = (frame, f) :: q /\
     net (machine c') = net_after_exchange frame (machine c) /\
     socket (self (machine c')) = socket (self (machine c))).
Proof.
  assert (Htame : forall A (act : M A) next, tame act ->
            net (machine (continue act next c)) = net (machine c) /\
            socket (self (machine (continue act next c)))
            = socket (self (machine c))).
  { intros A act next Ht. unfold continue. specialize (Ht (machine c)).
    destruct (act (machine c)); destruct Ht as (N & _ & S & _); cbn; auto. }
  intros Hstep. pose proof (thread_step a c c' Hstep) as Hth. revert Hstep.
  unfold step. destruct (alive c) eqn:Ha; cbn [negb]; [|discriminate].
  destruct a as [now|r| | | | |d|d|d|d r|k d].
  - unfold loop_step. destruct (pc c) eqn:Epc; try discriminate.
    + intros [= <-]. left. auto.
    + intros [= <-]. left. auto.
    + destruct (writeQueue (self (machine c))) as [|[frame f] q] eqn:Eq.
      * intros [= <-]. left. auto.
      * intros [= <-]. right. right. exists now, frame, f, q.
        repeat split.
        -- unfold net_after_exchange, continue, bind, socket_write.
           destruct (Socket.writeToSocket sock _ frame _) as [[] w1]; cbn;
             [|reflexivity].
           unfold socket_read. cbn.
           destruct (Socket.readFromSocket sock _ w1) as [str w2]; cbn.
           now destruct (Nat.eqb (String.length str) 0).
        -- apply continue_preserves. unfold raise_error, discard. frame_tac.
    + intros [= <-]. left. unfold continue. erewrite bind_ret by reflexivity.
      pose proof (tame_run (snd e) str (with_event (EvInvoke e str) (machine c)))
        as Ht.
      destruct (run (snd e) str _); destruct Ht as (N & _ & S & _); cbn; auto.
    + intros [= <-]. left. split.
      * unfold continue, bind, modify, get, when, discard, emit, ret, bind.
        cbn. now destruct (error_ _).
      * apply continue_preserves. unfold discard. frame_tac.
    + intros [= <-]. left. apply Htame.
      destruct (_ <? _); [apply tame_refresh | apply tame_ret].
  - destruct (can_enqueue c); [|discriminate]. intros [= <-].
    left. apply Htame, tame_perform.
  - intros [= <-]. left. apply Htame, tame_queueChanged.
  - intros [= <-]. left. apply Htame, tame_subQueueChanged.
  - intros [= <-]. left. apply Htame, tame_exit.
  - destruct (mutex_free c); [|discriminate]. intros [= <-].
    right. left. split; [reflexivity|]. unfold consumer, continue.
    pose proof (reconnect_world (machine c)) as H.
    destruct (reconnect (machine c)); exact H.
  - unfold wait_call. destruct (waiters c d); try discriminate.
    destruct (can_enqueue c); [|discriminate]. intros [= <-].
    left. cbn [machine with_waiter]. apply Htame, tame_wait_request.
  - unfold wait_call. destruct (waiters c d); try discriminate.
    destruct (can_enqueue c); [|discriminate]. intros [= <-].
    left. cbn [machine with_waiter]. apply Htame, tame_wait_request.
  - intros _. left. destruct Hth as [(w & -> & _)|(e & k & _ & _ & ->)];
      [auto|].
    cbn [machine with_waiter]. now destruct c as [[[] ? ? ?] ? ?].
  - intros _. left. destruct Hth as [_ ->]. cbn [machine with_waiter].
    apply Htame, tame_prelude.
  - intros _. left. destruct Hth as [_ ->]. cbn [machine with_waiter].
    apply Htame, tame_set_done.
Qed.


(** *** [waitSongIdx] when the error flag is up *)

(** X23: [waitSongIdx] tests the error flag after every sleep, before
    it looks at [done] again.  Entered with the flag up, it pushes
    nothing, causes no traffic and returns the sentinel after its first
    sleep, wherever the loop is.  And a call that is asleep when the flag
    goes up returns the sentinel even if its request has been answered
    meanwhile and [done] is set. *)
Theorem waitSongIdx_gives_up_on_error d c :
  alive c = true ->
  error_ (self (machine c)) = true ->
  (waiters c d = W_none ->
   exists c',
     exec [A_waitSongIdx d; A_wait_step d; A_wait_step d] c = Some c' /\
     waiters c' d = W_returned (Some SIZE_MAX) /\
     self (machine c') = self (machine c) /\
     net (machine c') = net (machine c) /\
     trace (machine c') = trace (machine c)) /\
  (waiters c d = W_sleep WSongIdx ->
   step (A_wait_step d) c
   = Some (with_waiter d (W_returned (Some SIZE_MAX)) c)).
Proof.
  intros Ha He. split.
  - intros Hw. cbn [exec]. unfold step, wait_call, can_enqueue.
    rewrite Ha, Hw, He. cbn [negb orb].
    unfold consumer, continue. erewrite bind_ret by reflexivity.
    rewrite addToWriteQueue_dropped by exact He.
    unfold alive in *. cbn [pc with_waiter machine waiters].
    rewrite Ha. cbn [negb]. unfold wait_step. cbn. rewrite Nat.eqb_refl.
    cbn. rewrite Ha. cbn. rewrite Nat.eqb_refl. rewrite He.
    eexists. split; [reflexivity|]. cbn. rewrite Nat.eqb_refl. auto.
  - intros Hw. unfold step, wait_step. now rewrite Ha, Hw, He.
Qed.

(** *** What the accessors return after construction *)

(** X24: right after construction, whichever way the handshake went, the
    reading accessors return the constructor's defaults and leave the
    object alone: song -1, position 0, volume 100, status Stopped, repeat
    and shuffle Off, queue index and queue size 0, both sequences empty,
    both dirty flags down.  [subQueueSize()] returns what the storage
    held. *)
Theorem accessors_after_construction junk now w :
  let m := match new_Sysmodule junk now w with
           | Ret _ m => m
           | Raise _ m => m
           end in
  currentSong m = Ret (-1) m /\ position m = Ret 0%float m /\
  volume m = Ret 100%float m /\ status m = Ret PlaybackStatus.Stopped m /\
  repeatMode m = Ret RepeatMode.Off m /\
  shuffleMode m = Ret ShuffleMode.Off m /\
  songIdx m = Ret 0 m /\ queueSize m = Ret 0 m /\
  queue m = Ret [] m /\ subQueue m = Ret [] m /\
  queueChanged m = Ret false m /\ subQueueChanged m = Ret false m /\
  subQueueSize m = Ret (subQueueSize_ junk) m.
Proof.
  intros m.
  pose proof (Sysmodule_ctor_defaults junk now w) as H. cbn zeta in H.
  assert (Hm : self m = match new_Sysmodule junk now w with
                        | Ret _ m0 => self m0
                        | Raise _ m0 => self m0
                        end).
  { subst m. now destruct (new_Sysmodule junk now w). }
  rewrite <- Hm in H. clearbody m. clear Hm.
  destruct H as (H1 & H2 & H3 & H4 & H5 & H6 & H7 & H8 & H9 & H10 & H11 & H12 & H13).
  unfold currentSong, position, volume, status, repeatMode, shuffleMode,
    songIdx, queueSize, queue, subQueue, subQueueSize, queueChanged,
    subQueueChanged, bind, get.
  rewrite H1, H2, H3, H4, H5, H6, H7, H8, H9, H10, H11, H12, H13.
  repeat split.
Qed.

(** *** An iteration with nothing to do *)

(** X25: an iteration of the loop with nothing to do changes nothing.
    With the error flag clear, the queue empty and the last refresh no
    more than [UPDATE_DELAY] ago, the loop goes from the top through the
    lock, the drain and the refresh test back to the top and the process
    is exactly as before.  With the error flag set it does not even take
    the lock: one step and it is at the top again. *)
Theorem idle_iteration_changes_nothing now c :
  pc c = L_top ->
  exit_ (self (machine c)) = false ->
  (error_ (self (machine c)) = false ->
   writeQueue (self (machine c)) = [] ->
   now - lastUpdateTime (self (machine c)) <= UPDATE_DELAY ->
   run_loop 4 now c = Some c) /\
  (error_ (self (machine c)) = true -> run_loop 1 now c = Some c).
Proof.
  intros Hpc Hx. destruct c as [m l ws]. cbn in Hpc. subst l.
  cbn [machine] in *. split.
  - intros He Hq Ht. unfold run_loop. cbn [repeat exec].
    unfold step at 1, alive, loop_step. cbn [pc negb machine].
    rewrite Hx, He. unfold with_pc. cbn [machine pc waiters].
    unfold step at 1, alive, loop_step. cbn [pc negb machine].
    unfold with_pc. cbn [machine pc waiters].
    unfold step at 1, alive, loop_step. cbn [pc negb machine].
    rewrite Hq. unfold with_pc. cbn [machine pc waiters].
    unfold step at 1, alive, loop_step. cbn [pc negb machine].
    apply Z.ltb_ge in Ht. now rewrite Ht.
  - intros He. unfold run_loop. cbn [repeat exec].
    unfold step, alive, loop_step. cbn [pc negb machine].
    now rewrite Hx, He.
Qed.

End Further.

(* ================================================================== *)
(** ** The discipline of the descriptor *)

Section Descriptor.

Context (E : Environment).

Local Notation "'L'" := (Logged.environment E).

Import Logged.

Lemma track_app l1 : forall l2 cur,
  track (l1 ++ l2) cur
  = match track l1 cur with
    | Some cur' => track l2 cur'
    | None => None
    end.
Proof.
  induction l1 as [|x l1 IH]; intros l2 cur; [reflexivity|].
  cbn [app].
  destruct x; destruct cur as [old|]; cbn [track]; try reflexivity;
    try apply IH;
    repeat match goal with
           | |- context [if ?b then _ else _] => destruct b
           end;
    try reflexivity; apply IH.
Qed.

Lemma exchange_in_hand frame (m : @Machine L) :
  in_hand m ->
  track (snd (@net_after_exchange L frame m)) None
  = Some (Some (socket (self m))).
Proof.
  unfold in_hand. intros H. unfold net_after_exchange. cbn.
  destruct (fst (Socket.writeToSocket sock _ frame _)); cbn;
    rewrite ?track_app, H; cbn; rewrite ?Z.eqb_refl; cbn;
    rewrite ?track_app; cbn; rewrite ?Z.eqb_refl; reflexivity.
Qed.

Lemma handshake_in_hand (m : @Machine L) :
  in_hand m \/
  (track (snd (net m)) None = Some None /\ socket (self m) < 0) ->
  track (snd (@net_after_handshake L m)) None
  = Some (Some (@socket_after_handshake L m)).
Proof.
  unfold in_hand. intros H.
  unfold net_after_handshake, socket_after_handshake. cbn.
  destruct (0 <=? socket (self m)) eqn:Es; cbn.
  - destruct H as [H|[_ H]]; [|apply Z.leb_le in Es; lia].
    rewrite !track_app, H. cbn. rewrite Z.eqb_refl, Es. cbn.
    now rewrite !Z.eqb_refl.
  - apply Z.leb_gt in Es. apply Z.ltb_lt in Es.
    destruct H as [H|[H _]]; rewrite !track_app, H; cbn;
      rewrite ?Es; cbn; now rewrite !Z.eqb_refl.
Qed.

Lemma step_in_hand a (c c' : @Config L) :
  @step L a c = Some c' -> in_hand (machine c) -> in_hand (machine c').
Proof.
  intros Hs H.
  destruct (@step_world L a c c' Hs)
    as [[Hn Hk]|[(_ & Hn & Hk)|(now & frame & f & q & _ & _ & _ & Hn & Hk)]];
    unfold in_hand; rewrite Hn, Hk.
  - exact H.
  - apply handshake_in_hand. now left.
  - now apply exchange_in_hand.
Qed.

Lemma exec_in_hand sched : forall c c' : @Config L,
  @exec L sched c = Some c' -> in_hand (machine c) -> in_hand (machine c').
Proof.
  induction sched as [|a sched IH]; intros c c'; cbn [exec].
  - now intros [= <-].
  - destruct (@step L a c) as [c1|] eqn:Es; [|discriminate].
    intros Hx H. apply (IH c1 c' Hx). exact (step_in_hand a c c1 Es H).
Qed.

Lemma ctor_in_hand junk now w :
  match @new_Sysmodule L junk now (w, []) with
  | Ret _ m | Raise _ m => in_hand m
  end.
Proof.
  unfold in_hand, new_Sysmodule, Sysmodule_ctor.
  do 14 (erewrite bind_ret by reflexivity;
         cbn [modify with_self self net flags trace]).
  match goal with |- context [bind reconnect _ ?m1] => set (m := m1) end.
  assert (Hpre : in_hand m \/
                 (track (snd (net m)) None = Some None /\ socket (self m) < 0)).
  { right. subst m. destruct junk. cbn. split; [reflexivity | lia]. }
  clearbody m.
  pose proof (@reconnect_world L m) as Hw.
  pose proof (handshake_in_hand m Hpre) as Hh.
  unfold bind at 1. destruct (reconnect m) as [[] m1|flt m1];
    destruct Hw as (Hn & Hk); rewrite <- Hn, <- Hk in Hh.
  - pose proof (tame_bind _ _ (sendGetQueue 0 25000)
                  (fun _ => sendGetSubQueue 0 5000)
                  (tame_addToWriteQueue _ _)
                  (fun _ => tame_addToWriteQueue _ _) m1) as Ht.
    destruct (bind (sendGetQueue 0 25000) (fun _ => sendGetSubQueue 0 5000) m1)
      as [[] m2|flt m2];
      destruct Ht as (N & _ & S & _); now rewrite N, S.
  - exact Hh.
Qed.

Lemma launched_in_hand junk now w :
  in_hand (machine (@launched L junk now (w, []))).
Proof.
  unfold launched. pose proof (ctor_in_hand junk now w) as H.
  destruct (@new_Sysmodule L junk now (w, [])); exact H.
Qed.

(** X22: the client keeps to one descriptor.  Run against any socket
    layer that records its calls, from construction on and under every
    schedule: a socket is created only when no valid one is in hand (none
    leaks), a socket is closed only if it is the valid one in hand (none
    is closed twice), every [setTimeout], write and read is made on the
    descriptor created last and not closed since, and that descriptor is
    the member [socket].  After the destructor no valid descriptor is in
    hand. *)
Theorem one_descriptor junk now w sched (c : @Config L) :
  @exec L sched (@launched L junk now (w, [])) = Some c ->
  track (snd (net (machine c))) None = Some (Some (socket (self (machine c)))) /\
  exists m' cur,
    @Sysmodule_dtor L (machine c) = Ret tt m' /\
    track (snd (net m')) None = Some cur /\
    holding cur = false.
Proof.
  intros Hx.
  pose proof (exec_in_hand sched _ c Hx (launched_in_hand junk now w)) as H.
  unfold in_hand in H. split; [exact H|].
  unfold Sysmodule_dtor, bind, get, when, socket_close, ret.
  destruct (0 <=? socket (self (machine c))) eqn:Es.
  - eexists. exists None. split; [reflexivity|]. cbn.
    rewrite track_app, H. cbn. rewrite Z.eqb_refl, Es. auto.
  - eexists. exists (Some (socket (self (machine c)))).
    split; [reflexivity|]. split; [exact H|]. exact Es.
Qed.

End Descriptor.

(* ================================================================== *)
(** ** The scenarios, run *)

Import Scripted.

(** The statement of C1 holds of scenario "tail": request 2 of 3 fails. *)
Lemma fail_discards_tail_witness :
  pc tail_start = L_drain /\
  error_ (self (machine tail_start)) = false /\
  writeQueue (self (machine tail_start))
  = [get_queue] ++ get_subQueue :: [get_volume] /\
  @serve environment 0 (List.length [get_queue]) tail_start = Some tail_served /\
  @exchange_fails environment (fst get_subQueue) (machine tail_served) = true /\
  exists c2 t,
    @step environment (A_loop 0) tail_served = Some c2 /\
    trace (machine c2) = trace (machine tail_start) ++ t /\
    invoked t = [get_queue] /\
    error_ (self (machine c2)) = true /\
    writeQueue (self (machine c2)) = [] /\
    @step environment (A_loop 0) c2 = Some (with_pc L_refresh c2) /\
    forall sched c3,
      @exec environment sched c2 = Some c3 ->
      fresh_since (trace (machine c2)) c3.
Proof.
  assert (H1 : pc tail_start = L_drain) by (vm_compute; reflexivity).
  assert (H2 : error_ (self (machine tail_start)) = false)
    by (vm_compute; reflexivity).
  assert (H3 : writeQueue (self (machine tail_start))
               = [get_queue] ++ get_subQueue :: [get_volume])
    by (vm_compute; reflexivity).
  assert (H4 : @serve environment 0 (List.length [get_queue]) tail_start
               = Some tail_served)
    by (vm_compute; reflexivity).
  assert (H5 : @exchange_fails environment (fst get_subQueue)
                 (machine tail_served) = true)
    by (vm_compute; reflexivity).
  repeat (split; [assumption|]).
  exact (@fail_discards_tail environment 0 [get_queue] get_subQueue [get_volume]
           tail_start tail_served H1 H2 H3 H4 H5).
Defined.

(** C2 as stated fails in scenarios "garbled volume" and "early exit".
    In neither does a transport failure occur.  In the first the lambda
    of the volume poll throws and the process ends: the request behind it
    is never served.  In the second [process()] returns at its first test
    of [exit_]: none of the three requests is ever served. *)
Lemma fifo_order_counterexample :
  (failures (trace (machine garbled_volume)) = [] /\
   enqueued (trace (machine garbled_volume))
   = [get_queue; get_subQueue; get_volume; next_song] /\
   invoked (trace (machine garbled_volume))
   = [get_queue; get_subQueue; get_volume] /\
   forall a, @step environment a garbled_volume = None) /\
  (failures (trace (machine early_exit)) = [] /\
   enqueued (trace (machine early_exit))
   = [get_queue; get_subQueue; get_volume] /\
   invoked (trace (machine early_exit)) = [] /\
   forall now, @step environment (A_loop now) early_exit = None).
Proof.
  split.
  - split; [vm_compute; reflexivity|]. split; [vm_compute; reflexivity|].
    split; [vm_compute; reflexivity|].
    intros a. apply (@step_terminated environment a _ invalid_argument).
    vm_compute. reflexivity.
  - split; [vm_compute; reflexivity|]. split; [vm_compute; reflexivity|].
    split; [vm_compute; reflexivity|].
    intros now. apply (@returned_stays environment).
    vm_compute. reflexivity.
Qed.

(** The amended C2 on scenario "two producers": four requests were
    pushed, by the constructor and by two consumer threads; the loop,
    left alone for eleven steps, has called the four callbacks in the
    order of the pushes. *)
Lemma fifo_order_witness :
  pc busy_start = L_top /\
  error_ (self (machine busy_start)) = false /\
  enqueued (trace (machine busy_start))
  = invoked (trace (machine busy_start)) ++ writeQueue (self (machine busy_start)) /\
  @exec environment busy_calls busy_start = Some busy_pushed /\
  exit_ (self (machine busy_pushed)) = false /\
  enqueued (trace (machine busy_pushed))
  = [get_queue; get_subQueue; get_volume; next_song] /\
  invoked (trace (machine busy_pushed)) = [get_queue] /\
  @run_loop environment 11 0 busy_pushed = Some busy_end /\
  pc busy_end = L_refresh /\
  failures (trace (machine busy_end)) = [] /\
  invoked (trace (machine busy_end))
  = [get_queue; get_subQueue; get_volume; next_song] /\
  exists n c' t,
    @run_loop environment n 0 busy_pushed = Some c' /\
    trace (machine c') = trace (machine busy_pushed) ++ t /\
    ((forall t0, trace (machine c') = trace (machine busy_start) ++ t0 ->
                 failures t0 = []) ->
     (exists rest,
        enqueued (trace (machine busy_pushed)) ++ enqueued t
        = invoked (trace (machine c')) ++ rest) /\
     (alive c' = true ->
      pc c' = L_refresh /\
      writeQueue (self (machine c')) = [] /\
      invoked (trace (machine c'))
      = enqueued (trace (machine busy_pushed)) ++ enqueued t)).
Proof.
  assert (H1 : pc busy_start = L_top) by (vm_compute; reflexivity).
  assert (H2 : error_ (self (machine busy_start)) = false)
    by (vm_compute; reflexivity).
  assert (H3 : enqueued (trace (machine busy_start))
               = invoked (trace (machine busy_start))
                 ++ writeQueue (self (machine busy_start)))
    by (vm_compute; reflexivity).
  assert (H4 : @exec environment busy_calls busy_start = Some busy_pushed)
    by (vm_compute; reflexivity).
  assert (H5 : exit_ (self (machine busy_pushed)) = false)
    by (vm_compute; reflexivity).
  split; [exact H1|]. split; [exact H2|]. split; [exact H3|].
  split; [exact H4|]. split; [exact H5|].
  split; [vm_compute; reflexivity|]. split; [vm_compute; reflexivity|].
  split; [vm_compute; reflexivity|]. split; [vm_compute; reflexivity|].
  split; [vm_compute; reflexivity|]. split; [vm_compute; reflexivity|].
  exact (@fifo_order environment 0 busy_calls busy_start busy_pushed
           H1 H2 H3 H4 H5).
Defined.

(** C3 (where the code departs from it), on scenarios "race" and "late
    push": the handshake is refused and the error flag set; in the first
    the loop then sends the request at the head of the queue, in the
    second the call of [sendGetVolume] pushes its request and the loop
    sends that. *)
Lemma handshake_gate_race_witness :
  pc race_lock = L_lock /\
  @handshake_reply environment (machine race_lock) = "2" /\
  writeQueue (self (machine race_lock)) = [get_queue; get_subQueue; get_volume] /\
  pc race_push = L_lock /\
  @handshake_reply environment (machine race_push) = "2" /\
  writeQueue (self (machine race_push)) = [] /\
  waiters race_push 1%nat = W_lock get_volume None /\
  (exists c1 c2 t,
     @step environment A_reconnect race_lock = Some c1 /\
     error_ (self (machine c1)) = true /\
     @exec environment [A_loop 0; A_loop 0] c1 = Some c2 /\
     trace (machine c2) = trace (machine c1) ++ t /\
     written t = ["12;0;25000"]) /\
  (exists c1 c2 t,
     @step environment A_reconnect race_push = Some c1 /\
     error_ (self (machine c1)) = true /\
     @exec environment [A_wait_step 1; A_loop 0; A_loop 0] c1 = Some c2 /\
     trace (machine c2) = trace (machine c1) ++ t /\
     enqueued t = [get_volume] /\
     written t = ["6"]).
Proof.
  assert (H1 : pc race_lock = L_lock) by (vm_compute; reflexivity).
  assert (H2 : @handshake_reply environment (machine race_lock) = "2")
    by (vm_compute; reflexivity).
  assert (H3 : writeQueue (self (machine race_lock))
               = [get_queue; get_subQueue; get_volume])
    by (vm_compute; reflexivity).
  assert (H4 : pc race_push = L_lock) by (vm_compute; reflexivity).
  assert (H5 : @handshake_reply environment (machine race_push) = "2")
    by (vm_compute; reflexivity).
  assert (H6 : writeQueue (self (machine race_push)) = [])
    by (vm_compute; reflexivity).
  assert (H7 : waiters race_push 1%nat = W_lock get_volume None)
    by (vm_compute; reflexivity).
  assert (Hbad : forall c : @Config environment,
            @handshake_reply environment (machine c) = "2" ->
            @handshake_reply environment (machine c) = "" \/
            exists ver,
              stoi (@handshake_reply environment (machine c)) = inr ver /\
              ver <> Protocol.version (@P environment)).
  { intros c H. right. exists 2. rewrite H.
    split; [vm_compute; reflexivity | vm_compute; discriminate]. }
  split; [exact H1|]. split; [exact H2|]. split; [exact H3|].
  split; [exact H4|]. split; [exact H5|]. split; [exact H6|].
  split; [exact H7|]. split.
  - destruct (@handshake_gate_race environment 0 race_lock H1 (Hbad _ H2))
      as (c1 & Hs & He & Hloop & _).
    destruct (Hloop get_queue [get_subQueue; get_volume] H3)
      as (c2 & t & Hx & Ht & Hw).
    exists c1, c2, t. repeat split; assumption.
  - destruct (@handshake_gate_race environment 0 race_push H4 (Hbad _ H5))
      as (c1 & Hs & He & _ & Hpush).
    destruct (Hpush 1%nat get_volume None H6 H7)
      as (c2 & t & Hx & Ht & Hn & Hw).
    exists c1, c2, t. repeat split; assumption.
Defined.

(** C4 as stated fails in scenario "garbage": the volume lambda gets [abc];
    it is not so that the loop lives on with the error flag set and the
    queue discarded. *)
Lemma unparsable_response_counterexample :
  ~ exists c',
      @step environment (A_loop 0) garbage_call = Some c' /\
      alive c' = true /\
      error_ (self (machine c')) = true /\
      writeQueue (self (machine c')) = [].
Proof.
  intros (c' & Hs & Ha & _). vm_compute in Hs. injection Hs as <-.
  vm_compute in Ha. discriminate Ha.
Qed.

(** The amended C4 holds of scenario "garbage". *)
Lemma unparsable_response_witness :
  pc garbage_call = L_call get_volume "abc" /\
  @parse_fault K_sendGetVolume "abc" = Some invalid_argument /\
  exists c',
    @step environment (A_loop 0) garbage_call = Some c' /\
    pc c' = L_terminate invalid_argument /\
    self (machine c') = self (machine garbage_call) /\
    trace (machine c')
    = trace (machine garbage_call) ++ [EvInvoke get_volume "abc"] /\
    forall a, @step environment a c' = None.
Proof.
  assert (H1 : pc garbage_call = L_call get_volume "abc")
    by (vm_compute; reflexivity).
  assert (H2 : @parse_fault K_sendGetVolume "abc" = Some invalid_argument)
    by (vm_compute; reflexivity).
  repeat (split; [assumption|]).
  exact (@unparsable_response_terminates environment 0 garbage_call "6"
           K_sendGetVolume "abc" invalid_argument H1 H2).
Defined.

(** C5 as stated fails in scenario "stalled poll": the response reports
    3 where the cache has 0; the lambda stores 3 and no re-fetch has been
    pushed. *)
Lemma poll_refetches_counterexample :
  exists c',
    pc stalled_poll = L_call get_queueSize "3" /\
    stoul "3" = inr 3 /\
    queueSize_ (self (machine stalled_poll)) = 0 /\
    @step environment (A_loop 0) stalled_poll = Some c' /\
    queueSize_ (self (machine c')) = 3 /\
    enqueued (trace (machine c')) = enqueued (trace (machine stalled_poll)) /\
    writeQueue (self (machine c')) = writeQueue (self (machine stalled_poll)).
Proof.
  eexists.
  split; [vm_compute; reflexivity|]. split; [vm_compute; reflexivity|].
  split; [vm_compute; reflexivity|]. split; [vm_compute; reflexivity|].
  split; [vm_compute; reflexivity|]. split; vm_compute; reflexivity.
Qed.

(** The amended C5 holds of the response [3] in scenario "healthy", where
    the error flag is clear, and in scenario "stalled poll", where it is
    set. *)
Lemma poll_refetches_witness :
  let m := machine healthy in
  let m2 := machine stalled_poll in
  stoul "3" = inr 3 /\
  3 <> queueSize_ (self m) /\
  error_ (self m) = false /\
  3 <> queueSize_ (self m2) /\
  error_ (self m2) = true /\
  (exists m', @run environment K_sendGetQueueSize "3" m = Ret tt m' /\
     queueSize_ (self m') = 3 /\
     trace m' = trace m ++ [EvEnqueue (@refetch_queue environment);
                            EvStore F_queueSize] /\
     writeQueue (self m') = writeQueue (self m) ++ [@refetch_queue environment]) /\
  (exists m', @run environment K_sendGetQueueSize "3" m2 = Ret tt m' /\
     queueSize_ (self m') = 3 /\
     trace m' = trace m2 ++ [EvStore F_queueSize] /\
     writeQueue (self m') = writeQueue (self m2)).
Proof.
  intros m m2.
  assert (H1 : stoul "3" = inr 3) by (vm_compute; reflexivity).
  assert (H2 : 3 <> queueSize_ (self m)) by (vm_compute; discriminate).
  assert (H3 : error_ (self m) = false) by (vm_compute; reflexivity).
  assert (H4 : 3 <> queueSize_ (self m2)) by (vm_compute; discriminate).
  assert (H5 : error_ (self m2) = true) by (vm_compute; reflexivity).
  split; [exact H1|]. split; [exact H2|]. split; [exact H3|].
  split; [exact H4|]. split; [exact H5|]. split.
  - destruct (proj1 (@poll_refetches_before_store environment m "3" 3 H1) H2)
      as (m' & Hr & Hv & Hclear & _).
    destruct (Hclear H3) as [Ht Hq]. exists m'. repeat split; assumption.
  - destruct (proj1 (@poll_refetches_before_store environment m2 "3" 3 H1) H4)
      as (m' & Hr & Hv & _ & Hset).
    destruct (Hset H5) as [Ht Hq]. exists m'. repeat split; assumption.
Defined.

(** C7 as stated fails in scenario "empty": the server answers the
    get-queue request with nothing; it is not so that the cached queue
    becomes empty without an error. *)
Lemma empty_response_counterexample :
  ~ exists c',
      @step environment (A_loop 0) empty_drain = Some c' /\
      queue_ (self (machine c')) = [] /\
      error_ (self (machine c')) = false.
Proof.
  intros (c' & Hs & Hq & _). vm_compute in Hs. injection Hs as <-.
  vm_compute in Hq. discriminate Hq.
Qed.

(** The amended C7 holds for the identifiers 5, 9, 12. *)
Lemma queue_response_witness :
  is_number_char (Protocol.Delimiter (@P environment)) = false /\
  code (Protocol.Delimiter (@P environment)) <> 0 /\
  Forall (fun z => INT_MIN <= z <= INT_MAX) [5; 9; 12] /\
  forall m, exists m1 m2,
    @run environment K_sendGetQueue (@id_list environment [5; 9; 12]) m
    = Ret tt m1 /\
    queue_ (self m1) = [5; 9; 12] /\
    @run environment K_sendGetSubQueue (@id_list environment [5; 9; 12]) m
    = Ret tt m2 /\
    subQueue_ (self m2) = [5; 9; 12].
Proof.
  assert (H1 : is_number_char (Protocol.Delimiter (@P environment)) = false)
    by (vm_compute; reflexivity).
  assert (H2 : code (Protocol.Delimiter (@P environment)) <> 0)
    by (vm_compute; discriminate).
  assert (H3 : Forall (fun z => INT_MIN <= z <= INT_MAX) [5; 9; 12]).
  { repeat constructor; vm_compute; discriminate. }
  repeat (split; [assumption|]).
  exact (proj1 (@queue_response_decoding environment [5; 9; 12] H1 H2 H3)).
Defined.

(** The statement about [waitReset] holds of scenario "wrong version". *)
Lemma waitReset_waits_forever_witness :
  let sched := [A_wait_step 0; A_loop 0; A_request R_sendNext;
                A_wait_step 0; A_wait_step 0] in
  let c' := after (A_waitReset 0 :: sched) mismatch_start in
  error_ (self (machine mismatch_start)) = true /\
  pc mismatch_start = L_top /\
  waiters mismatch_start 0%nat = W_none /\
  ~ In A_reconnect sched /\
  @exec environment (A_waitReset 0 :: sched) mismatch_start = Some c' /\
  polling 0 c'.
Proof.
  intros sched c'.
  assert (H1 : error_ (self (machine mismatch_start)) = true)
    by (vm_compute; reflexivity).
  assert (H2 : pc mismatch_start = L_top) by (vm_compute; reflexivity).
  assert (H3 : waiters mismatch_start 0%nat = W_none) by (vm_compute; reflexivity).
  assert (H4 : ~ In A_reconnect sched).
  { intros H. repeat (destruct H as [H|H]; [discriminate H|]). exact H. }
  assert (H5 : @exec environment (A_waitReset 0 :: sched) mismatch_start = Some c')
    by (vm_compute; reflexivity).
  repeat (split; [assumption|]).
  exact (@waitReset_waits_forever environment 0%nat sched mismatch_start c'
           H1 H2 H3 H4 H5).
Defined.

(** C9 as stated fails in scenario "healthy": [sendSetPosition], called by
    a consumer while the loop is at the top, changes the cached state. *)
Lemma caller_writes_position_counterexample :
  exists c',
    @step environment (A_request (R_sendSetPosition 5%float)) healthy = Some c' /\
    pc healthy = L_top /\
    cached (self (machine c')) <> cached (self (machine healthy)).
Proof.
  eexists. split; [vm_compute; reflexivity|]. split; [vm_compute; reflexivity|].
  intros H. apply (f_equal c_position) in H.
  apply (f_equal Prim2SF) in H. vm_compute in H. discriminate H.
Qed.

(** The amended C9 holds of that step. *)
Lemma cached_state_writers_witness :
  let a := A_request (R_sendSetPosition 5%float) in
  let c' := after [a] healthy in
  @step environment a healthy = Some c' /\
  cached (self (machine c')) <> cached (self (machine healthy)) /\
  ((exists now e str, a = A_loop now /\ pc healthy = L_call e str) \/
   (exists pos, a = A_request (R_sendSetPosition pos)) \/
   (exists d pos, a = A_enter d (R_sendSetPosition pos))) /\
  c_position (cached (self (machine c'))) = 5%float.
Proof.
  intros a c'.
  assert (H1 : @step environment a healthy = Some c') by (vm_compute; reflexivity).
  assert (H2 : cached (self (machine c')) <> cached (self (machine healthy))).
  { intros H. apply (f_equal c_position) in H.
    apply (f_equal Prim2SF) in H. vm_compute in H. discriminate H. }
  repeat (split; [assumption|]).
  destruct (@cached_state_writers environment a healthy c' H1 H2)
    as (Hw & Hp & _).
  split; [exact Hw|]. now rewrite (Hp 5%float eq_refl).
Defined.

(** C10 (where the code departs from it): constructed on storage that held
    7, with a server that reports the right version, the object says its
    sub-queue has 7 entries; the size of the main queue is 0 as it should
    be.  The constructor assigns [queueSize_] and forgets [subQueueSize_]. *)
Theorem ctor_leaves_subQueueSize :
  subQueueSize_ (self (machine healthy)) = 7 /\
  queueSize_ (self (machine healthy)) = 0 /\
  error_ (self (machine healthy)) = false.
Proof. vm_compute. repeat split. Qed.

(* ================================================================== *)
(** ** The further properties, on the scenarios *)

(** X1 on scenario "tail": the loop holds the lock with three requests
    in the queue. *)
Lemma drain_terminates_witness :
  pc tail_start = L_drain /\
  exists n c',
    (n <= 3 * weight (writeQueue (self (machine tail_start))) + 1)%nat /\
    @run_loop environment n 0 tail_start = Some c' /\
    ((pc c' = L_refresh /\ writeQueue (self (machine c')) = []) \/
     exists f, pc c' = L_terminate f).
Proof.
  assert (H1 : pc tail_start = L_drain) by (vm_compute; reflexivity).
  split; [exact H1|].
  exact (@drain_terminates environment 0 tail_start H1).
Defined.

(** X2 on scenario "exit". *)
Lemma exit_stops_loop_witness :
  exit_ (self (machine exiting)) = true /\
  (forall sched c',
     @exec environment sched exiting = Some c' ->
     exit_ (self (machine c')) = true) /\
  exists n c',
    @run_loop environment n 0 exiting = Some c' /\
    (pc c' = L_returned \/ exists f, pc c' = L_terminate f).
Proof.
  assert (H1 : exit_ (self (machine exiting)) = true) by (vm_compute; reflexivity).
  split; [exact H1|].
  exact (@exit_stops_loop environment 0 exiting H1).
Defined.

(** X3 on scenario "rough": four requests were pushed, two were thrown
    away when the second failed, two callbacks were called. *)
Lemma delivery_in_order_witness :
  @exec environment rough_schedule (@launched environment (raw 0) 0 rough_world)
  = Some rough_end /\
  enqueued (trace (machine rough_end))
  = [get_queue; get_subQueue; get_volume; get_volume] /\
  invoked (trace (machine rough_end)) = [get_queue; get_volume] /\
  subseq (invoked (trace (machine rough_end)))
         (enqueued (trace (machine rough_end))).
Proof.
  assert (H1 : @exec environment rough_schedule
                 (@launched environment (raw 0) 0 rough_world)
               = Some rough_end) by (vm_compute; reflexivity).
  split; [exact H1|].
  split; [vm_compute; reflexivity|].
  split; [vm_compute; reflexivity|].
  exact (@delivery_in_order environment (raw 0) 0 rough_world rough_schedule
           rough_end H1).
Defined.

(** X4 on scenario "rough": the frame of the volume poll went out, and
    it had been pushed. *)
Lemma written_frames_witness :
  @exec environment rough_schedule (@launched environment (raw 0) 0 rough_world)
  = Some rough_end /\
  In "6" (written (trace (machine rough_end))) /\
  ("6" = @opcode environment Protocol.Version \/
   In "6" (map fst (enqueued (trace (machine rough_end))))).
Proof.
  assert (H1 : @exec environment rough_schedule
                 (@launched environment (raw 0) 0 rough_world)
               = Some rough_end) by (vm_compute; reflexivity).
  assert (H2 : In "6" (written (trace (machine rough_end)))).
  { vm_compute. do 4 right. left. reflexivity. }
  split; [exact H1|]. split; [exact H2|].
  exact (@written_frames_were_enqueued environment (raw 0) 0 rough_world
           rough_schedule rough_end H1 "6" H2).
Defined.

(** X5 on scenario "lenient": the reply is [ 1 (beta)]. *)
Lemma handshake_reads_prefix_witness :
  let m := machine lenient_start in
  INT_MIN <= Protocol.version (@P environment) <= INT_MAX /\
  string_forall isspace " " = true /\
  starts_with_digit " (beta)" = false /\
  @handshake_reply environment m
  = (" " ++ to_string (Protocol.version (@P environment)) ++ " (beta)")%string /\
  error_ (self m) = true /\
  exists m', @reconnect environment m = Ret tt m' /\ error_ (self m') = false.
Proof.
  intros m.
  assert (H1 : INT_MIN <= Protocol.version (@P environment) <= INT_MAX)
    by (vm_compute; split; discriminate).
  assert (H2 : string_forall isspace " " = true) by reflexivity.
  assert (H3 : starts_with_digit " (beta)" = false) by reflexivity.
  assert (H4 : @handshake_reply environment m
               = (" " ++ to_string (Protocol.version (@P environment))
                      ++ " (beta)")%string)
    by (vm_compute; reflexivity).
  split; [exact H1|]. split; [exact H2|]. split; [exact H3|].
  split; [exact H4|]. split; [vm_compute; reflexivity|].
  exact (@handshake_reads_prefix environment m " " " (beta)" H1 H2 H3 H4).
Defined.

(** X6 on scenario "garbled": the reply is [v1]. *)
Lemma garbled_version_witness :
  alive garbled_start = true /\
  mutex_free garbled_start = true /\
  @handshake_reply environment (machine garbled_start) <> "" /\
  stoi (@handshake_reply environment (machine garbled_start))
  = inl invalid_argument /\
  exists c',
    @step environment A_reconnect garbled_start = Some c' /\
    pc c' = L_terminate invalid_argument /\
    error_ (self (machine c')) = error_ (self (machine garbled_start)) /\
    forall a, @step environment a c' = None.
Proof.
  assert (H1 : alive garbled_start = true) by (vm_compute; reflexivity).
  assert (H2 : mutex_free garbled_start = true) by (vm_compute; reflexivity).
  assert (H3 : @handshake_reply environment (machine garbled_start) <> "").
  { intros H. vm_compute in H. discriminate H. }
  assert (H4 : stoi (@handshake_reply environment (machine garbled_start))
               = inl invalid_argument) by (vm_compute; reflexivity).
  repeat (split; [assumption|]).
  exact (@garbled_version_terminates environment garbled_start invalid_argument
           H1 H2 H3 H4).
Defined.

(** X8 on scenario "stale": the first launch request goes out after the
    third handshake. *)
Lemma queued_requests_survive_witness :
  pc stale_start = L_top /\
  exit_ (self (machine stale_start)) = false /\
  error_ (self (machine stale_start)) = true /\
  writeQueue (self (machine stale_start)) = get_queue :: [get_subQueue] /\
  stoi (@handshake_reply environment (machine stale_start))
  = inr (Protocol.version (@P environment)) /\
  exists c' t,
    @exec environment [A_reconnect; A_loop 0; A_loop 0; A_loop 0] stale_start
    = Some c' /\
    trace (machine c') = trace (machine stale_start) ++ t /\
    written t = [@opcode environment Protocol.Version; fst get_queue] /\
    enqueued t = [].
Proof.
  assert (H1 : pc stale_start = L_top) by (vm_compute; reflexivity).
  assert (H2 : exit_ (self (machine stale_start)) = false)
    by (vm_compute; reflexivity).
  assert (H3 : writeQueue (self (machine stale_start)) = get_queue :: [get_subQueue])
    by (vm_compute; reflexivity).
  assert (H4 : stoi (@handshake_reply environment (machine stale_start))
               = inr (Protocol.version (@P environment)))
    by (vm_compute; reflexivity).
  split; [exact H1|]. split; [exact H2|].
  split; [vm_compute; reflexivity|]. split; [exact H3|]. split; [exact H4|].
  exact (@queued_requests_survive_reconnect environment 0 stale_start
           (fst get_queue) (snd get_queue) [get_subQueue] H1 H2 H3 H4).
Defined.

(** X10: the server acknowledges 2 songs where 3 were set. *)
Lemma acknowledgements_witness :
  let m := machine healthy in
  is_ack (K_sendSetQueue 3) = true /\
  @run environment (K_sendSetQueue 3) "2" m = Ret tt m.
Proof.
  intros m.
  assert (H1 : is_ack (K_sendSetQueue 3) = true) by reflexivity.
  split; [exact H1|].
  exact (@acknowledgements_are_ignored environment (K_sendSetQueue 3) "2" m H1).
Defined.

(** X11: the server reports code 7 for everything. *)
Lemma unknown_codes_witness :
  let m := machine healthy in
  stoi "7" = inr 7 /\
  @run environment K_sendGetRepeat "7" m
  = assign F_repeatMode (set_repeatMode_ RepeatMode.Off) m /\
  @run environment K_sendGetStatus "7" m
  = assign F_status (set_status_ PlaybackStatus.Error) m /\
  @run environment K_sendGetShuffle "7" m
  = assign F_shuffleMode (set_shuffleMode_ ShuffleMode.On) m.
Proof.
  intros m.
  assert (H1 : stoi "7" = inr 7) by (vm_compute; reflexivity).
  destruct (@unknown_codes_fall_back environment "7" 7 m H1) as (A & B & C).
  split; [exact H1|].
  split; [apply A; intros H; vm_compute in H; discriminate H|].
  split; [apply B; intros H; vm_compute in H; discriminate H|].
  apply C; intros H; vm_compute in H; discriminate H.
Defined.

(** X12: repeat-one was asked for; the server reports repeat-all, then
    a code it does not have (the slot of [rm] holds 0, which is not
    repeat-one): nothing is stored.  Repeat-off was asked for and the
    server reports that unknown code: the slot of [rm] holds 0, which is
    repeat-off, and repeat-off is stored. *)
Lemma set_repeat_witness :
  let m := machine healthy in
  stoi "2" = inr 2 /\
  @run environment (K_sendSetRepeat RepeatMode.One) "2" m = Ret tt m /\
  stoi "9" = inr 9 /\
  @run environment (K_sendSetRepeat RepeatMode.One) "9" m = Ret tt m /\
  @run environment (K_sendSetRepeat RepeatMode.Off) "9" m
  = @assign environment F_repeatMode (set_repeatMode_ RepeatMode.Off) m.
Proof.
  intros m.
  assert (H1 : stoi "2" = inr 2) by (vm_compute; reflexivity).
  assert (H2 : stoi "9" = inr 9) by (vm_compute; reflexivity).
  assert (Hn : 9 <> Protocol.Repeat_Off (@P environment) /\
               9 <> Protocol.Repeat_One (@P environment) /\
               9 <> Protocol.Repeat_All (@P environment)).
  { repeat split; intros H; vm_compute in H; discriminate H. }
  destruct Hn as (N1 & N2 & N3).
  destruct (@set_repeat_needs_echo environment RepeatMode.One "2" 2 m H1)
    as (A & _).
  destruct (@set_repeat_needs_echo environment RepeatMode.One "9" 9 m H2)
    as (_ & B & _).
  destruct (@set_repeat_needs_echo environment RepeatMode.Off "9" 9 m H2)
    as (_ & C & _).
  split; [exact H1|].
  split; [apply (A RepeatMode.All eq_refl); discriminate|].
  split; [exact H2|].
  split; [exact (B N1 N2 N3) | exact (C N1 N2 N3)].
Defined.

(** X13: shuffle was switched off; the server reports it on.  In
    scenario "healthy" the re-fetch is pushed; in scenario "wrong
    version", where the error flag is set, it is not. *)
Lemma set_shuffle_witness :
  let m := machine healthy in
  let m2 := machine mismatch_start in
  stoi "1" = inr 1 /\
  error_ (self m) = false /\
  error_ (self m2) = true /\
  (exists m',
     @run environment (K_sendSetShuffle ShuffleMode.Off) "1" m = Ret tt m' /\
     shuffleMode_ (self m') = ShuffleMode.On /\
     writeQueue (self m') = writeQueue (self m) ++ [get_queue] /\
     trace m' = trace m ++ [EvEnqueue get_queue; EvStore F_shuffleMode]) /\
  (exists m',
     @run environment (K_sendSetShuffle ShuffleMode.Off) "1" m2 = Ret tt m' /\
     shuffleMode_ (self m') = ShuffleMode.On /\
     writeQueue (self m') = writeQueue (self m2) /\
     trace m' = trace m2 ++ [EvStore F_shuffleMode]).
Proof.
  intros m m2.
  assert (H1 : stoi "1" = inr 1) by (vm_compute; reflexivity).
  assert (H2 : error_ (self m) = false) by (vm_compute; reflexivity).
  assert (H3 : error_ (self m2) = true) by (vm_compute; reflexivity).
  split; [exact H1|]. split; [exact H2|]. split; [exact H3|]. split.
  - destruct (@set_shuffle_trusts_reply environment ShuffleMode.Off "1" 1 m H1)
      as (m' & Hr & Hv & Hclear & _).
    destruct (Hclear H2) as [Hq Ht]. exists m'. repeat split; assumption.
  - destruct (@set_shuffle_trusts_reply environment ShuffleMode.Off "1" 1 m2 H1)
      as (m' & Hr & Hv & _ & Hset).
    destruct (Hset H3) as [Hq Ht]. exists m'. repeat split; assumption.
Defined.

(** X15: the response [5;;9;] has four fields and yields two
    identifiers. *)
Lemma empty_fields_witness :
  let m := machine healthy in
  let toks := ["5"; ""; "9"; ""] in
  code (Protocol.Delimiter (@P environment)) <> 0 /\
  Forall (fun x => string_forall
                     (fun c => negb (Ascii.eqb c (Protocol.Delimiter (@P environment)))
                               && negb (code c =? 0)) x = true) toks /\
  String.concat (@DELIM environment) toks = "5;;9;" /\
  exists m1 m2,
    @run environment K_sendGetQueue "5;;9;" m = Ret tt m1 /\
    queue_ (self m1) = [5; 9] /\
    @run environment K_sendGetSubQueue "5;;9;" m = Ret tt m2 /\
    subQueue_ (self m2) = [5; 9].
Proof.
  intros m toks.
  assert (H1 : code (Protocol.Delimiter (@P environment)) <> 0).
  { intros H. vm_compute in H. discriminate H. }
  assert (H2 : Forall (fun x => string_forall
                         (fun c => negb (Ascii.eqb c (Protocol.Delimiter (@P environment)))
                                   && negb (code c =? 0)) x = true) toks)
    by (repeat constructor).
  split; [exact H1|]. split; [exact H2|]. split; [reflexivity|].
  exact (@empty_fields_are_skipped environment toks m H1 H2).
Defined.

(** X16: the fields [abc], 2^32 + 5 and a number of twenty digits. *)
Lemma stray_fields_witness :
  let m := machine healthy in
  code (Protocol.Delimiter (@P environment)) <> 0 /\
  (exists m', @run environment K_sendGetQueue "abc" m = Ret tt m' /\
              queue_ (self m') = [0]) /\
  (exists m', @run environment K_sendGetQueue "4294967301" m = Ret tt m' /\
              queue_ (self m') = [5]) /\
  (exists m', @run environment K_sendGetQueue "99999999999999999999" m = Ret tt m' /\
              queue_ (self m') = [-1]).
Proof.
  intros m.
  assert (H1 : code (Protocol.Delimiter (@P environment)) <> 0).
  { intros H. vm_compute in H. discriminate H. }
  destruct (@stray_fields_become_ids environment m H1) as (A & B & C).
  split; [exact H1|].
  split; [apply (A "abc"); [discriminate | reflexivity | reflexivity]|].
  split.
  - apply (B 4294967301); [reflexivity | vm_compute; split; discriminate].
  - apply (C 99999999999999999999); [reflexivity | reflexivity].
Defined.

(** X17: [sendSetQueue] on the queue 5, 9, 12. *)
Lemma sendSetQueue_witness :
  let m := machine healthy in
  let q := [5; 9; 12] in
  error_ (self m) = false /\
  is_number_char (Protocol.Delimiter (@P environment)) = false /\
  code (Protocol.Delimiter (@P environment)) <> 0 /\
  INT_MIN <= Protocol.command (@P environment) Protocol.SetQueue <= INT_MAX /\
  Forall (fun z => INT_MIN <= z <= INT_MAX) q /\
  exists frame m',
    @sendSetQueue environment q m = Ret tt m' /\
    writeQueue (self m')
    = writeQueue (self m) ++ [(frame, K_sendSetQueue (Z.of_nat (List.length q)))] /\
    @decode_ids environment frame
    = Protocol.command (@P environment) Protocol.SetQueue :: q.
Proof.
  intros m q.
  assert (H1 : error_ (self m) = false) by (vm_compute; reflexivity).
  assert (H2 : is_number_char (Protocol.Delimiter (@P environment)) = false)
    by reflexivity.
  assert (H3 : code (Protocol.Delimiter (@P environment)) <> 0).
  { intros H. vm_compute in H. discriminate H. }
  assert (H4 : INT_MIN <= Protocol.command (@P environment) Protocol.SetQueue
               <= INT_MAX) by (vm_compute; split; discriminate).
  assert (H5 : Forall (fun z => INT_MIN <= z <= INT_MAX) q)
    by (repeat constructor; vm_compute; discriminate).
  repeat (split; [assumption|]).
  exact (@sendSetQueue_round_trip environment q m H1 H2 H3 H4 H5).
Defined.

(** X18: the loop is at the refresh test, 0.2 s after the last refresh. *)
Lemma refresh_regimes_witness :
  let c := settled 9 [] in
  let now := 200000000 in
  pc c = L_refresh /\
  exists c',
    @step environment (A_loop now) c = Some c' /\
    pc c' = L_top /\
    (now - lastUpdateTime (self (machine c)) <= UPDATE_DELAY ->
     machine c' = machine c) /\
    (UPDATE_DELAY < now - lastUpdateTime (self (machine c)) ->
     lastUpdateTime (self (machine c')) = now /\
     (error_ (self (machine c)) = false ->
      writeQueue (self (machine c'))
      = writeQueue (self (machine c)) ++ @polls environment) /\
     (error_ (self (machine c)) = true ->
      writeQueue (self (machine c')) = writeQueue (self (machine c)))).
Proof.
  intros c now.
  assert (H1 : pc c = L_refresh) by (vm_compute; reflexivity).
  split; [exact H1|].
  exact (@refresh_regimes environment now c H1).
Defined.

(** X19: [waitReset] on an idle client; the server answers [done]. *)
Lemma waitReset_completes_witness :
  let c := settled 10 [Answers "done"] in
  pc c = L_top /\
  exit_ (self (machine c)) = false /\
  error_ (self (machine c)) = false /\
  writeQueue (self (machine c)) = [] /\
  waiters c 0%nat = W_none /\
  @exchange_fails environment (@opcode environment Protocol.Reset) (machine c)
  = false /\
  exists c',
    @exec environment
      [A_waitReset 0; A_loop 0; A_loop 0; A_loop 0; A_loop 0; A_wait_step 0] c
    = Some c' /\
    waiters c' 0%nat = W_returned None.
Proof.
  intros c.
  assert (H1 : pc c = L_top) by (vm_compute; reflexivity).
  assert (H2 : exit_ (self (machine c)) = false) by (vm_compute; reflexivity).
  assert (H3 : error_ (self (machine c)) = false) by (vm_compute; reflexivity).
  assert (H4 : writeQueue (self (machine c)) = []) by (vm_compute; reflexivity).
  assert (H5 : waiters c 0%nat = W_none) by (vm_compute; reflexivity).
  assert (H6 : @exchange_fails environment (@opcode environment Protocol.Reset)
                 (machine c) = false) by (vm_compute; reflexivity).
  repeat (split; [assumption|]).
  exact (@waitReset_completes environment 0 0%nat c H1 H2 H3 H4 H5 H6).
Defined.

(** X20: [waitSongIdx] on an idle client; the server answers [4]. *)
Lemma waitSongIdx_returns_index_witness :
  let c := settled 10 [Answers "4"] in
  pc c = L_top /\
  exit_ (self (machine c)) = false /\
  error_ (self (machine c)) = false /\
  writeQueue (self (machine c)) = [] /\
  waiters c 0%nat = W_none /\
  @exchange_fails environment (@opcode environment Protocol.QueueIdx) (machine c)
  = false /\
  stoi (@exchange_reply environment (@opcode environment Protocol.QueueIdx)
          (machine c)) = inr 4 /\
  exists c',
    @exec environment
      [A_waitSongIdx 0; A_loop 0; A_loop 0; A_loop 0; A_loop 0; A_wait_step 0] c
    = Some c' /\
    waiters c' 0%nat = W_returned (Some (to_size_t 4)) /\
    songIdx_ (self (machine c')) = to_size_t 4.
Proof.
  intros c.
  assert (H1 : pc c = L_top) by (vm_compute; reflexivity).
  assert (H2 : exit_ (self (machine c)) = false) by (vm_compute; reflexivity).
  assert (H3 : error_ (self (machine c)) = false) by (vm_compute; reflexivity).
  assert (H4 : writeQueue (self (machine c)) = []) by (vm_compute; reflexivity).
  assert (H5 : waiters c 0%nat = W_none) by (vm_compute; reflexivity).
  assert (H6 : @exchange_fails environment (@opcode environment Protocol.QueueIdx)
                 (machine c) = false) by (vm_compute; reflexivity).
  assert (H7 : stoi (@exchange_reply environment
                       (@opcode environment Protocol.QueueIdx) (machine c))
               = inr 4) by (vm_compute; reflexivity).
  repeat (split; [assumption|]).
  exact (@waitSongIdx_returns_index environment 0 0%nat c 4
           H1 H2 H3 H4 H5 H6 H7).
Defined.

(** X21 on scenario "asleep". *)
Lemma waitSongIdx_request_outlives_witness :
  pc asleep = L_top /\
  exit_ (self (machine asleep)) = false /\
  error_ (self (machine asleep)) = true /\
  waiters asleep 0%nat = W_sleep WSongIdx /\
  writeQueue (self (machine asleep)) = [("8", K_waitSongIdx 0)] /\
  stoi (@handshake_reply environment (machine asleep))
  = inr (Protocol.version (@P environment)) /\
  (forall m1, @reconnect environment (machine asleep) = Ret tt m1 ->
              @exchange_fails environment "8" m1 = false) /\
  exists c' t,
    @exec environment
      [A_wait_step 0; A_reconnect; A_loop 0; A_loop 0; A_loop 0; A_loop 0] asleep
    = Some c' /\
    waiters c' 0%nat = W_returned (Some SIZE_MAX) /\
    trace (machine c') = trace (machine asleep) ++ t /\
    invoked t = [("8", K_waitSongIdx 0)].
Proof.
  assert (H1 : pc asleep = L_top) by (vm_compute; reflexivity).
  assert (H2 : exit_ (self (machine asleep)) = false) by (vm_compute; reflexivity).
  assert (H3 : error_ (self (machine asleep)) = true) by (vm_compute; reflexivity).
  assert (H4 : waiters asleep 0%nat = W_sleep WSongIdx) by (vm_compute; reflexivity).
  assert (H5 : writeQueue (self (machine asleep)) = [("8", K_waitSongIdx 0)])
    by (vm_compute; reflexivity).
  assert (H6 : stoi (@handshake_reply environment (machine asleep))
               = inr (Protocol.version (@P environment)))
    by (vm_compute; reflexivity).
  assert (H7 : forall m1, @reconnect environment (machine asleep) = Ret tt m1 ->
                          @exchange_fails environment "8" m1 = false).
  { intros m1 H. vm_compute in H. injection H as <-. vm_compute. reflexivity. }
  repeat (split; [assumption|]).
  exact (@waitSongIdx_request_outlives_call environment 0 0%nat asleep "8" []
           H1 H2 H3 H4 H5 H6 H7).
Defined.

(** X22 on scenario "recorded": two sockets were created, the first was
    closed before the second was made. *)
Lemma one_descriptor_witness :
  @exec (Logged.environment environment) rough_schedule
    (@launched (Logged.environment environment) (raw 0) 0 (rough_world, []))
  = Some recorded_end /\
  Logged.track (snd (net (machine recorded_end))) None
  = Some (Some (socket (self (machine recorded_end)))) /\
  exists m' cur,
    @Sysmodule_dtor (Logged.environment environment) (machine recorded_end)
    = Ret tt m' /\
    Logged.track (snd (net m')) None = Some cur /\
    Logged.holding cur = false.
Proof.
  assert (H1 : @exec (Logged.environment environment) rough_schedule
                 (@launched (Logged.environment environment) (raw 0) 0
                    (rough_world, []))
               = Some recorded_end) by (vm_compute; reflexivity).
  split; [exact H1|].
  exact (@one_descriptor environment (raw 0) 0 rough_world rough_schedule
           recorded_end H1).
Defined.

(** X23 on scenario "wrong version". *)
Lemma waitSongIdx_gives_up_witness :
  alive mismatch_start = true /\
  error_ (self (machine mismatch_start)) = true /\
  waiters mismatch_start 0%nat = W_none /\
  exists c',
    @exec environment [A_waitSongIdx 0; A_wait_step 0; A_wait_step 0]
      mismatch_start = Some c' /\
    waiters c' 0%nat = W_returned (Some SIZE_MAX) /\
    self (machine c') = self (machine mismatch_start) /\
    net (machine c') = net (machine mismatch_start) /\
    trace (machine c') = trace (machine mismatch_start).
Proof.
  assert (H1 : alive mismatch_start = true) by (vm_compute; reflexivity).
  assert (H2 : error_ (self (machine mismatch_start)) = true)
    by (vm_compute; reflexivity).
  assert (H3 : waiters mismatch_start 0%nat = W_none) by (vm_compute; reflexivity).
  repeat (split; [assumption|]).
  exact (proj1 (@waitSongIdx_gives_up_on_error environment 0%nat mismatch_start
                  H1 H2) H3).
Defined.

(** X25: an idle client, looked at 0 s after its last refresh. *)
Lemma idle_iteration_witness :
  let c := settled 10 [] in
  pc c = L_top /\
  exit_ (self (machine c)) = false /\
  error_ (self (machine c)) = false /\
  writeQueue (self (machine c)) = [] /\
  0 - lastUpdateTime (self (machine c)) <= UPDATE_DELAY /\
  @run_loop environment 4 0 c = Some c.
Proof.
  intros c.
  assert (H1 : pc c = L_top) by (vm_compute; reflexivity).
  assert (H2 : exit_ (self (machine c)) = false) by (vm_compute; reflexivity).
  assert (H3 : error_ (self (machine c)) = false) by (vm_compute; reflexivity).
  assert (H4 : writeQueue (self (machine c)) = []) by (vm_compute; reflexivity).
  assert (H5 : 0 - lastUpdateTime (self (machine c)) <= UPDATE_DELAY)
    by (vm_compute; discriminate).
  split; [exact H1|]. split; [exact H2|]. split; [exact H3|].
  split; [exact H4|]. split; [exact H5|].
  exact (proj1 (@idle_iteration_changes_nothing environment 0 c H1 H2) H3 H4 H5).
Defined.

(** X26 on scenario "parked": the handshake is refused; the call that
    had passed its test pushes its request all the same, a later call is
    dropped, and the loop, which tests the flag before it does anything
    else, sends nothing. *)
Lemma handshake_gate_witness :
  alive parked_push = true /\
  mutex_free parked_push = true /\
  @handshake_reply environment (machine parked_push) = "2" /\
  waiters parked_push 1%nat = W_lock get_volume None /\
  exists c1 c2,
    @step environment A_reconnect parked_push = Some c1 /\
    error_ (self (machine c1)) = true /\
    @exec environment
      [A_wait_step 1; A_loop 0; A_loop 0; A_request R_sendNext] c1 = Some c2 /\
    writeQueue (self (machine c2)) = [get_volume] /\
    error_ (self (machine c2)) = true /\
    socket_io (trace (machine c2)) = socket_io (trace (machine c1)) /\
    net (machine c2) = net (machine c1).
Proof.
  assert (H1 : alive parked_push = true) by (vm_compute; reflexivity).
  assert (H2 : mutex_free parked_push = true) by (vm_compute; reflexivity).
  assert (H3 : @handshake_reply environment (machine parked_push) = "2")
    by (vm_compute; reflexivity).
  assert (H4 : @handshake_reply environment (machine parked_push) = "" \/
               exists ver,
                 stoi (@handshake_reply environment (machine parked_push))
                 = inr ver /\
                 ver <> Protocol.version (@P environment)).
  { right. exists 2. rewrite H3.
    split; [vm_compute; reflexivity | vm_compute; discriminate]. }
  split; [exact H1|]. split; [exact H2|]. split; [exact H3|].
  split; [vm_compute; reflexivity|].
  destruct (@handshake_gate environment parked_push H1 H2 H4)
    as (c1 & Hs & He & Hall).
  assert (Hc1 : c1 = after [A_reconnect] parked_push).
  { assert (H : @step environment A_reconnect parked_push
                = Some (after [A_reconnect] parked_push))
      by (vm_compute; reflexivity).
    congruence. }
  subst c1.
  set (sched := [A_wait_step 1; A_loop 0; A_loop 0; A_request R_sendNext]).
  assert (Hx : @exec environment sched (after [A_reconnect] parked_push)
               = Some (after sched (after [A_reconnect] parked_push)))
    by (vm_compute; reflexivity).
  assert (Hn : ~ In A_reconnect sched).
  { cbn. intros [H|[H|[H|[H|[]]]]]; discriminate H. }
  destruct (Hall sched _ Hn Hx) as (He2 & _ & Hio).
  destruct Hio as [Hio Hnet].
  { intros H. vm_compute in H. discriminate H. }
  exists (after [A_reconnect] parked_push),
         (after sched (after [A_reconnect] parked_push)).
  split; [exact Hs|]. split; [exact He|]. split; [exact Hx|].
  split; [vm_compute; reflexivity|]. split; [exact He2|].
  split; [exact Hio | exact Hnet].
Defined.


(** X28 on scenario "late after failure". *)
Lemma push_after_discard_witness :
  pc late_after_failure = L_drain /\
  writeQueue (self (machine late_after_failure)) = [get_queue; get_subQueue] /\
  @exchange_fails environment (fst get_queue) (machine late_after_failure)
  = true /\
  waiters late_after_failure 1%nat = W_lock next_song None /\
  @step environment (A_wait_step 1) late_after_failure = None /\
  exists c1 c2,
    @step environment (A_loop 0) late_after_failure = Some c1 /\
    error_ (self (machine c1)) = true /\
    writeQueue (self (machine c1)) = [] /\
    @exec environment [A_loop 0; A_wait_step 1] c1 = Some c2 /\
    error_ (self (machine c2)) = true /\
    writeQueue (self (machine c2)) = [next_song] /\
    pc c2 = L_refresh.
Proof.
  assert (H1 : pc late_after_failure = L_drain) by (vm_compute; reflexivity).
  assert (H2 : writeQueue (self (machine late_after_failure))
               = [get_queue; get_subQueue]) by (vm_compute; reflexivity).
  assert (H3 : @exchange_fails environment (fst get_queue)
                 (machine late_after_failure) = true)
    by (vm_compute; reflexivity).
  assert (H4 : waiters late_after_failure 1%nat = W_lock next_song None)
    by (vm_compute; reflexivity).
  split; [exact H1|]. split; [exact H2|]. split; [exact H3|].
  split; [exact H4|].
  exact (@push_after_discard environment 0 late_after_failure 1%nat next_song
           None (fst get_queue) (snd get_queue) [get_subQueue] H1 H2 H3 H4).
Defined.
